(** * SCRAM MEF initializer: a shallow embedding of [src/initializer.cc]

    The development follows the layout of the source file: pre-flight checks
    on the input file list, registration of elements, deferred definition,
    formula and expression construction, and the final validation pass.
    Stateful member functions of [Initializer] are state-passing functions
    over a record of the same name; a C++ exception is a [Throw] result that
    keeps the state reached when it was raised. *)

From Stdlib Require Import PrimFloat.
From stdpp Require Import base tactics option list strings gmap sorting pretty.

Local Open Scope string_scope.
Local Open Scope list_scope.

(** ** Exceptions of [error.h], [std::out_of_range], which the containers
    raise from [at], and the abort of a failed [assert].  [OutOfFuel] is no
    exception of the program: a recursive function of the model that is given
    a bound on the depth of its recursion returns it when the bound is
    reached. *)
Inductive Exception :=
| IOError (msg : string)
| DuplicateArgumentError (msg : string)
| ValidationError (msg : string)
| CycleError (msg : string)
| InvalidArgument (msg : string)
| out_of_range
| AssertionFailure
| OutOfFuel.

Inductive Result (A : Type) :=
| Ok (a : A)
| Throw (e : Exception).
Arguments Ok {A} a.
Arguments Throw {A} e.

(** [contains t s]: the text [t] occurs inside the message [s]. *)
Definition contains (t s : string) : Prop :=
  ∃ pre post, s = pre +:+ t +:+ post.

Lemma string_app_cons (x : Ascii.ascii) (a b : string) :
  String x a +:+ b = String x (a +:+ b).
Proof. reflexivity. Qed.

Lemma string_app_nil_l (a : string) : "" +:+ a = a.
Proof. reflexivity. Qed.

Lemma string_app_assoc (a b c : string) : (a +:+ b) +:+ c = a +:+ b +:+ c.
Proof.
  induction a as [|x a IH]; [done|].
  by rewrite !string_app_cons, IH.
Qed.

Lemma string_app_nil_r (a : string) : a +:+ "" = a.
Proof.
  induction a as [|x a IH]; [done|].
  by rewrite string_app_cons, IH.
Qed.

Lemma contains_refl s : contains s s.
Proof. exists "", "". by rewrite string_app_nil_l, string_app_nil_r. Qed.

Lemma contains_app_l t a b : contains t a → contains t (a +:+ b).
Proof.
  intros (pre & post & ->). exists pre, (post +:+ b).
  by rewrite !string_app_assoc.
Qed.

Lemma contains_app_r t a b : contains t b → contains t (a +:+ b).
Proof.
  intros (pre & post & ->). exists (a +:+ pre), post.
  by rewrite !string_app_assoc.
Qed.

Create HintDb contains_db.
#[export] Hint Resolve contains_refl contains_app_l contains_app_r : contains_db.

(** * Pre-flight checks on the input files *)

(** The part of [boost::filesystem] the checks use.  [fs::path] is ordered by
    its [operator<], a strict total order. *)
Class FileSystem := {
  fs_path : Type;
  fs_path_eq_dec :: EqDecision fs_path;
  fs_exists : string → bool;
  fs_canonical : string → fs_path;
  path_lt : fs_path → fs_path → bool;
  path_c_str : fs_path → string;
  path_lt_irrefl : ∀ p, path_lt p p = false;
  path_lt_trans : ∀ p q r, path_lt p q = true → path_lt q r = true → path_lt p r = true;
  path_lt_total : ∀ p q, path_lt p q = false → path_lt q p = false → p = q;
}.

Module InputFiles.
Section InputFiles.
Context `{FS : FileSystem}.

(** [using File = std::pair<fs::path, std::string>] *)
Definition File : Type := fs_path * string.

Fixpoint CheckFileExistence (xml_files : list string) : Result unit :=
  match xml_files with
  | [] => Ok tt
  | xml_file :: rest =>
      if fs_exists xml_file then CheckFileExistence rest
      else Throw (IOError ("File doesn't exist: " +:+ xml_file))
  end.

Definition comparator (lhs rhs : File) : bool := path_lt lhs.1 rhs.1.

(** [boost::sort(files, comparator)]: the order in which equivalent elements
    come out of [std::sort] is unspecified; the model inserts each element
    in front of the first strictly greater one. *)
Fixpoint sort_insert (comp : File → File → bool) (x : File) (l : list File) : list File :=
  match l with
  | [] => [x]
  | y :: l' => if comp x y then x :: l else y :: sort_insert comp x l'
  end.

Definition sort (comp : File → File → bool) (l : list File) : list File :=
  foldr (sort_insert comp) [] l.

(** [boost::adjacent_find]: an iterator is the range that is left from it to
    [end()], so [end()] itself is the empty list. *)
Fixpoint adjacent_find (pred : File → File → bool) (l : list File) : list File :=
  match l with
  | x :: tl =>
      match tl with
      | y :: _ => if pred x y then l else adjacent_find pred tl
      | [] => []
      end
  | [] => []
  end.

(** [std::upper_bound(it, end, value, comp)]: the first position whose
    element [comp value] holds of. *)
Fixpoint upper_bound (comp : File → File → bool) (value : File) (l : list File) : list File :=
  match l with
  | [] => []
  | x :: l' => if comp value x then l else upper_bound comp value l'
  end.

(** The elements visited by [for (; it != it_end; ++it)]. *)
Definition iter_range (it it_end : list File) : list File :=
  take (length it - length it_end) it.

Definition duplicate_message (listed : list File) (file_path : File) : string :=
  "Duplicate input files:
" +:+ foldr (λ f acc, "    " +:+ f.2 +:+ "
" +:+ acc) "" listed
    +:+ "  POSIX Path: " +:+ path_c_str file_path.1.

Definition CheckDuplicateFiles (xml_files : list string) : Result unit :=
  let files := map (λ xml_file, (fs_canonical xml_file, xml_file)) xml_files in
  let files := sort comparator files in
  let it := adjacent_find (λ lhs rhs, bool_decide (lhs.1 = rhs.1)) files in
  match it with
  | file_path :: _ =>
      let it_end := upper_bound comparator file_path it in
      Throw (DuplicateArgumentError (duplicate_message (iter_range it it_end) file_path))
  | [] => Ok tt
  end.

(** The two pre-flight statements that open [ProcessInputFiles]. *)
Definition PreFlight (xml_files : list string) : Result unit :=
  match CheckFileExistence xml_files with
  | Ok _ => CheckDuplicateFiles xml_files
  | Throw e => Throw e
  end.

(** *** Facts on the path order *)

Definition path_le (a b : File) : Prop := path_lt b.1 a.1 = false.

Lemma path_lt_asym p q : path_lt p q = true → path_lt q p = false.
Proof.
  intros Hpq. destruct (path_lt q p) eqn:Hqp; [|done].
  by rewrite <-(path_lt_irrefl p), (path_lt_trans p q p).
Qed.

Lemma path_le_refl a : path_le a a.
Proof. apply path_lt_irrefl. Qed.

Lemma path_le_trans a b c : path_le a b → path_le b c → path_le a c.
Proof.
  unfold path_le. intros Hab Hbc.
  destruct (path_lt c.1 a.1) eqn:Hca; [|done].
  destruct (path_lt a.1 b.1) eqn:Hab'.
  - by rewrite (path_lt_trans _ _ _ Hca Hab') in Hbc.
  - rewrite (path_lt_total _ _ Hab' Hab) in Hca. by rewrite Hca in Hbc.
Qed.

Lemma path_le_antisym a b : path_le a b → path_le b a → a.1 = b.1.
Proof. unfold path_le. intros ??. by apply path_lt_total. Qed.

Lemma path_le_eq a b : a.1 = b.1 → path_le a b.
Proof. unfold path_le. intros ->. apply path_lt_irrefl. Qed.

(** *** The sort returns a sorted permutation *)

Lemma sort_insert_Permutation x l : sort_insert comparator x l ≡ₚ x :: l.
Proof.
  induction l as [|y l IH]; simpl; [done|].
  destruct (comparator x y); [done|]. by rewrite IH, Permutation_swap.
Qed.

Lemma sort_Permutation l : sort comparator l ≡ₚ l.
Proof.
  induction l as [|x l IH]; simpl; [done|].
  by rewrite sort_insert_Permutation, IH.
Qed.

Lemma sort_insert_sorted x l :
  StronglySorted path_le l → StronglySorted path_le (sort_insert comparator x l).
Proof.
  induction 1 as [|y l Hs IH Hy]; simpl.
  - repeat constructor.
  - unfold comparator at 1. destruct (path_lt x.1 y.1) eqn:Hxy.
    + constructor; [by constructor|]. constructor.
      * by apply path_lt_asym.
      * eapply Forall_impl; [exact Hy|]. intros z Hyz.
        apply path_le_trans with y; [|done]. by apply path_lt_asym.
    + constructor; [done|].
      rewrite sort_insert_Permutation. by constructor.
Qed.

Lemma sort_sorted l : StronglySorted path_le (sort comparator l).
Proof.
  induction l as [|x l IH]; simpl; [constructor|]. by apply sort_insert_sorted.
Qed.

(** *** What [adjacent_find] and [upper_bound] return on a sorted range *)

Abbreviation same_path := (λ lhs rhs : File, bool_decide (lhs.1 = rhs.1)).

Lemma adjacent_find_end l :
  StronglySorted path_le l → adjacent_find same_path l = [] → NoDup l.*1.
Proof.
  induction 1 as [|a l Hs IH Ha]; simpl; [constructor|].
  destruct l as [|b tl]; [intros _; repeat constructor; set_solver|].
  case_bool_decide as Hab; [done|]. intros Hfind.
  constructor; [|by apply IH].
  intros Hin. apply Hab.
  apply list_elem_of_fmap in Hin as (z & Hz & Hin).
  apply path_le_antisym.
  - by apply Forall_cons in Ha as [? _].
  - apply path_le_trans with z; [|by apply path_le_eq].
    apply StronglySorted_inv in Hs as [_ Hb].
    apply elem_of_cons in Hin as [->|Hin]; [apply path_le_refl|].
    by eapply Forall_forall in Hb.
Qed.

Lemma adjacent_find_found l x it :
  StronglySorted path_le l → adjacent_find same_path l = x :: it →
  ∃ pre y r, l = pre ++ x :: y :: r ∧ it = y :: r ∧ x.1 = y.1 ∧
             Forall (λ p, p.1 ≠ x.1) pre.
Proof.
  induction 1 as [|a l Hs IH Ha]; simpl; [done|].
  destruct l as [|b tl]; [done|].
  case_bool_decide as Hab.
  - intros [= -> <-]. by exists [], b, tl.
  - intros Hfind. destruct (IH Hfind) as (pre & y & r & Hl & -> & Hxy & Hpre).
    exists (a :: pre), y, r. rewrite Hl. split_and!; [done..|].
    constructor; [|done]. intros Hax. apply Hab.
    assert (path_le b x) as Hbx.
    { apply StronglySorted_inv in Hs as [_ Hb].
      destruct pre as [|b' pre]; simpl in Hl.
      - assert (b = x) as -> by congruence. apply path_le_refl.
      - assert (tl = pre ++ x :: y :: r) as -> by congruence.
        eapply Forall_forall in Hb; [exact Hb|].
        apply elem_of_app. right. by left. }
    apply path_le_antisym.
    + by apply Forall_cons in Ha as [? _].
    + apply path_le_trans with x; [done|]. by apply path_le_eq.
Qed.

Lemma upper_bound_split value l :
  StronglySorted path_le l → Forall (path_le value) l →
  ∃ grp, l = grp ++ upper_bound comparator value l ∧
         iter_range l (upper_bound comparator value l) = grp ∧
         Forall (λ p, p.1 = value.1) grp ∧
         Forall (λ p, p.1 ≠ value.1) (upper_bound comparator value l).
Proof.
  intros Hs Hle.
  assert (∃ grp, l = grp ++ upper_bound comparator value l ∧
                 Forall (λ p, p.1 = value.1) grp ∧
                 Forall (λ p, p.1 ≠ value.1) (upper_bound comparator value l))
    as (grp & Hl & Hgrp & Hend).
  { induction Hs as [|a l Hs IH Ha]; simpl.
    { by exists []. }
    apply Forall_cons in Hle as [Hva Hle].
    destruct (comparator value a) eqn:Hlt; unfold comparator in Hlt.
    - exists []. split_and!; [done..|].
      assert (∀ z, path_le a z → z.1 ≠ value.1) as Hne.
      { intros z Haz Hz. unfold path_le in Haz.
        by rewrite Hz, Hlt in Haz. }
      constructor; [apply Hne, path_le_refl|].
      eapply Forall_impl; [exact Ha|]. done.
    - destruct (IH Hle) as (grp & Hl & Hgrp & Hend).
      exists (a :: grp). split_and!; [by rewrite Hl at 1| |done].
      constructor; [|done]. symmetry. by apply path_lt_total. }
  exists grp. split_and!; [done| |done..].
  unfold iter_range. rewrite Hl at 1 3.
  rewrite length_app, Nat.add_sub. by rewrite take_app_length.
Qed.

Lemma filter_all {A} (P : A → Prop) `{∀ x, Decision (P x)} (l : list A) :
  Forall P l → filter P l = l.
Proof.
  induction 1 as [|x l Hx _ IH]; [done|].
  by rewrite filter_cons_True, IH.
Qed.

Lemma filter_none {A} (P : A → Prop) `{∀ x, Decision (P x)} (l : list A) :
  Forall (λ x, ¬ P x) l → filter P l = [].
Proof.
  induction 1 as [|x l Hx _ IH]; [done|].
  by rewrite filter_cons_False.
Qed.

Lemma duplicate_message_contains listed file_path f :
  f ∈ listed.*2 → contains f (duplicate_message listed file_path).
Proof.
  unfold duplicate_message. intros Hin.
  apply contains_app_r, contains_app_l.
  induction listed as [|g listed IH]; simpl in *; [by apply elem_of_nil in Hin|].
  apply elem_of_cons in Hin as [->|Hin]; eauto 6 with contains_db.
Qed.

Lemma duplicate_message_contains_path listed file_path :
  contains (path_c_str file_path.1) (duplicate_message listed file_path).
Proof. unfold duplicate_message. eauto 6 with contains_db. Qed.

Lemma CheckFileExistence_Ok xml_files :
  Forall (λ f, fs_exists f = true) xml_files → CheckFileExistence xml_files = Ok tt.
Proof. induction 1 as [|f l Hf _ IH]; simpl; [done|]. by rewrite Hf. Qed.

Lemma CheckFileExistence_Throw xml_files :
  Exists (λ f, fs_exists f = false) xml_files →
  ∃ pre p post, xml_files = pre ++ p :: post ∧
    Forall (λ f, fs_exists f = true) pre ∧ fs_exists p = false ∧
    CheckFileExistence xml_files = Throw (IOError ("File doesn't exist: " +:+ p)).
Proof.
  induction xml_files as [|f l IH]; intros Hex; [by apply Exists_nil in Hex|].
  simpl. destruct (fs_exists f) eqn:Hf.
  - apply Exists_cons in Hex as [Hex|Hex]; [congruence|].
    destruct (IH Hex) as (pre & p & post & -> & Hpre & Hp & Hthrow).
    exists (f :: pre), p, post. split_and!; [done| |done..]. by constructor.
  - by exists [], f, l.
Qed.

Lemma CheckDuplicateFiles_Throw xml_files (i j : nat) f g :
  i ≠ j → xml_files !! i = Some f → xml_files !! j = Some g →
  fs_canonical f = fs_canonical g →
  ∃ listed file_path,
    CheckDuplicateFiles xml_files
      = Throw (DuplicateArgumentError (duplicate_message listed file_path)) ∧
    listed.*2 ≡ₚ filter (λ h, fs_canonical h = file_path.1) xml_files ∧
    (2 ≤ length listed)%nat.
Proof.
  intros Hij Hi Hj Hfg. unfold CheckDuplicateFiles.
  set (files := map (λ xml_file, (fs_canonical xml_file, xml_file)) xml_files).
  pose proof (sort_sorted files) as Hs.
  pose proof (sort_Permutation files) as Hp.
  destruct (adjacent_find same_path (sort comparator files)) as [|x it] eqn:Hfind.
  { apply adjacent_find_end in Hfind; [|done]. exfalso.
    rewrite Hp in Hfind. unfold files in Hfind.
    rewrite <-list_fmap_compose in Hfind.
    apply Hij. eapply NoDup_lookup; [exact Hfind|..].
    - by rewrite list_lookup_fmap, Hi.
    - rewrite list_lookup_fmap, Hj. simpl. by rewrite Hfg. }
  destruct (adjacent_find_found _ _ _ Hs Hfind) as (pre & y & r & Hl & -> & Hxy & Hpre).
  assert (StronglySorted path_le (x :: y :: r)) as Hs'.
  { rewrite Hl in Hs. by apply StronglySorted_app_1_r in Hs. }
  destruct (upper_bound_split x (x :: y :: r) Hs') as (grp & Hsplit & Hrange & Hgrp & Hend).
  { apply StronglySorted_inv in Hs' as [_ Hx]. constructor; [apply path_le_refl|done]. }
  exists grp, x. rewrite Hrange. split_and!; [done| |].
  - transitivity (filter (λ p : File, p.1 = x.1) (sort comparator files)).*2.
    + rewrite Hl, Hsplit, !filter_app.
      rewrite (filter_none _ pre), (filter_all _ grp), (filter_none _ (upper_bound _ _ _));
        [by rewrite app_nil_r|done..].
    + rewrite Hp. unfold files. clear.
      induction xml_files as [|h l IH]; [done|]. simpl.
      rewrite !filter_cons. simpl. case_decide; simpl; by rewrite IH.
  - clear Hrange. revert Hsplit Hend.
    generalize (upper_bound comparator x (x :: y :: r)). intros ub Hsplit Hend.
    destruct grp as [|g1 [|g2 grp]]; simpl in *; [..|lia].
    + subst ub. by apply Forall_cons in Hend as [? _].
    + injection Hsplit as _ <-. by apply Forall_cons in Hend as [? _].
Qed.

(** C3: if some supplied path does not exist, the pre-flight raises
    [IOError] with the text "File doesn't exist: " followed by the first such
    path, whether or not the list also holds duplicates (the existence check
    runs first).  Otherwise, if two supplied paths resolve to the same
    canonical path, it raises [DuplicateArgumentError]; the message lists
    exactly the supplied paths that resolve to the reported canonical path (at
    least two of them) and that canonical path. *)
Theorem PreFlight_spec (xml_files : list string) :
  (Exists (λ f, fs_exists f = false) xml_files →
   ∃ pre p post, xml_files = pre ++ p :: post ∧
     Forall (λ f, fs_exists f = true) pre ∧ fs_exists p = false ∧
     PreFlight xml_files = Throw (IOError ("File doesn't exist: " +:+ p))) ∧
  (Forall (λ f, fs_exists f = true) xml_files →
   (∃ (i j : nat) f g, i ≠ j ∧ xml_files !! i = Some f ∧ xml_files !! j = Some g ∧
                       fs_canonical f = fs_canonical g) →
   ∃ listed file_path msg,
     PreFlight xml_files = Throw (DuplicateArgumentError msg) ∧
     msg = duplicate_message listed file_path ∧
     listed.*2 ≡ₚ filter (λ h, fs_canonical h = file_path.1) xml_files ∧
     (2 ≤ length listed)%nat ∧
     (∀ h, h ∈ xml_files → fs_canonical h = file_path.1 → contains h msg) ∧
     contains (path_c_str file_path.1) msg).
Proof.
  split.
  - intros Hex. destruct (CheckFileExistence_Throw _ Hex)
      as (pre & p & post & Hl & Hpre & Hp & Hthrow).
    exists pre, p, post. unfold PreFlight. by rewrite Hthrow.
  - intros Hall (i & j & f & g & Hij & Hi & Hj & Hfg).
    destruct (CheckDuplicateFiles_Throw _ _ _ _ _ Hij Hi Hj Hfg)
      as (listed & file_path & Hthrow & Hperm & Hlen).
    exists listed, file_path, (duplicate_message listed file_path).
    unfold PreFlight. rewrite (CheckFileExistence_Ok _ Hall).
    split_and!; [done..| |apply duplicate_message_contains_path].
    intros h Hh Hc. apply duplicate_message_contains.
    rewrite Hperm. by apply list_elem_of_filter.
Qed.

Lemma CheckFileExistence_Ok_inv xml_files :
  CheckFileExistence xml_files = Ok tt → Forall (λ f, fs_exists f = true) xml_files.
Proof.
  induction xml_files as [|f l IH]; simpl; [by constructor|].
  destruct (fs_exists f) eqn:Hf; [|done]. intros Hrun. constructor; auto.
Qed.

Lemma canonical_files xml_files :
  (map (λ xml_file, (fs_canonical xml_file, xml_file)) xml_files).*1
  = fs_canonical <$> xml_files.
Proof. induction xml_files as [|f l IH]; [done|]. simpl. f_equal. exact IH. Qed.

(** X1: the pre-flight lets a list of files through exactly when every file
    exists and no two of them resolve to the same canonical path; the empty
    list passes, and the order of the files makes no difference to whether
    the list passes. *)
Theorem PreFlight_Ok_iff (xml_files : list string) :
  (PreFlight xml_files = Ok tt ↔
   Forall (λ f, fs_exists f = true) xml_files ∧ NoDup (fs_canonical <$> xml_files)) ∧
  PreFlight [] = Ok tt ∧
  ∀ shuffled, shuffled ≡ₚ xml_files →
    (PreFlight shuffled = Ok tt ↔ PreFlight xml_files = Ok tt).
Proof.
  assert (∀ l, PreFlight l = Ok tt ↔
               Forall (λ f, fs_exists f = true) l ∧ NoDup (fs_canonical <$> l)) as Hiff.
  { intros l. unfold PreFlight, CheckDuplicateFiles.
    set (files := map (λ xml_file, (fs_canonical xml_file, xml_file)) l).
    pose proof (sort_sorted files) as Hs.
    pose proof (sort_Permutation files) as Hp.
    split.
    - destruct (CheckFileExistence l) as [[]|e] eqn:Hexists; [|done].
      apply CheckFileExistence_Ok_inv in Hexists. cbv zeta.
      destruct (adjacent_find same_path (sort comparator files)) as [|x it] eqn:Hfind;
        [|done].
      intros _. split; [done|].
      apply adjacent_find_end in Hfind; [|done].
      rewrite Hp in Hfind. unfold files in Hfind. by rewrite canonical_files in Hfind.
    - intros [Hexists Hnodup]. rewrite (CheckFileExistence_Ok _ Hexists). cbv zeta.
      destruct (adjacent_find same_path (sort comparator files)) as [|x it] eqn:Hfind;
        [done|].
      destruct (adjacent_find_found _ _ _ Hs Hfind)
        as (pre & y & r & Hl & -> & Hxy & Hpre).
      rewrite <-canonical_files in Hnodup. fold files in Hnodup.
      rewrite <-Hp, Hl, fmap_app in Hnodup.
      apply NoDup_app in Hnodup as (_ & _ & Hnodup). simpl in Hnodup.
      apply NoDup_cons in Hnodup as [Hx _]. exfalso. apply Hx. rewrite Hxy. by left. }
  split; [apply Hiff|]. split; [done|].
  intros shuffled Hperm. rewrite !Hiff. by rewrite Hperm.
Qed.

End InputFiles.
End InputFiles.

(** A file system with three files in one directory, two of them being two
    spellings of the same file. *)
Module TestFS.

Definition lt (a b : string) : bool := negb (String.leb b a).

Lemma lt_irrefl p : lt p p = false.
Proof.
  unfold lt. apply negb_false_iff, Is_true_true. by change (String.le p p).
Qed.

Lemma lt_inv p q : lt p q = true → String.le p q ∧ ¬ String.le q p.
Proof.
  unfold lt. intros H%negb_true_iff%Is_true_false.
  split; [|done]. by destruct (total String.le p q).
Qed.

Lemma lt_trans p q r : lt p q = true → lt q r = true → lt p r = true.
Proof.
  intros [Hpq Hqp]%lt_inv [Hqr Hrq]%lt_inv.
  unfold lt. apply negb_true_iff, Is_true_false. intros Hrp.
  apply Hrq. change (String.le r q). by etrans.
Qed.

Lemma lt_total p q : lt p q = false → lt q p = false → p = q.
Proof.
  unfold lt. intros H1%negb_false_iff%Is_true_true H2%negb_false_iff%Is_true_true.
  by apply (anti_symm String.le).
Qed.

Definition fs : FileSystem := {|
  fs_path := string;
  fs_exists f := bool_decide (f ∈ ["a.xml"; "./a.xml"; "b.xml"]);
  fs_canonical f := if decide (f = "./a.xml") then "/work/a.xml" else "/work/" +:+ f;
  path_lt := lt;
  path_c_str p := p;
  path_lt_irrefl := lt_irrefl;
  path_lt_trans := lt_trans;
  path_lt_total := lt_total;
|}.

End TestFS.

#[local] Existing Instance TestFS.fs.

(** Scenario 7 of the specification: [./a.xml] and [a.xml] in one directory. *)
Example duplicate_canonical_paths :
  InputFiles.PreFlight ["a.xml"; "b.xml"; "./a.xml"]
  = Throw (DuplicateArgumentError "Duplicate input files:
    ./a.xml
    a.xml
  POSIX Path: /work/a.xml").
Proof. vm_compute. reflexivity. Qed.

Example missing_file_comes_first :
  InputFiles.PreFlight ["a.xml"; "c.xml"; "a.xml"]
  = Throw (IOError "File doesn't exist: c.xml").
Proof. vm_compute. reflexivity. Qed.

Lemma PreFlight_spec_witness :
  (∃ pre p post, ["a.xml"; "c.xml"; "a.xml"] = pre ++ p :: post ∧
     Forall (λ f, fs_exists f = true) pre ∧
     fs_exists p = false ∧
     InputFiles.PreFlight ["a.xml"; "c.xml"; "a.xml"]
     = Throw (IOError ("File doesn't exist: " +:+ p))) ∧
  (∃ listed file_path msg,
     InputFiles.PreFlight ["a.xml"; "b.xml"; "./a.xml"]
     = Throw (DuplicateArgumentError msg) ∧
     msg = InputFiles.duplicate_message listed file_path ∧
     listed.*2 ≡ₚ filter (λ h, fs_canonical h = file_path.1) ["a.xml"; "b.xml"; "./a.xml"] ∧
     (2 ≤ length listed)%nat ∧
     (∀ h, h ∈ ["a.xml"; "b.xml"; "./a.xml"] → fs_canonical h = file_path.1 →
           contains h msg) ∧
     contains (path_c_str file_path.1) msg).
Proof.
  split.
  - apply (proj1 (InputFiles.PreFlight_spec ["a.xml"; "c.xml"; "a.xml"])).
    apply Exists_cons_tl, Exists_cons_hd. reflexivity.
  - apply (proj2 (InputFiles.PreFlight_spec ["a.xml"; "b.xml"; "./a.xml"])).
    + repeat constructor.
    + exists 0%nat, 2%nat, "a.xml", "./a.xml". repeat split. discriminate.
Defined.

(** * XML documents

    The DOM that [libxml++] hands to the initializer: an element has a tag, its
    attributes, the line it starts on, its text and its child elements. *)
Module xmlpp.

Inductive Element :=
| mkElement (name : string) (attributes : list (string * string))
            (line : nat) (text : option string) (children : list Element).

Definition get_name (e : Element) : string :=
  match e with mkElement n _ _ _ _ => n end.

Definition get_attributes (e : Element) : list (string * string) :=
  match e with mkElement _ a _ _ _ => a end.

Definition get_line (e : Element) : nat :=
  match e with mkElement _ _ l _ _ => l end.

Definition get_child_text (e : Element) : option string :=
  match e with mkElement _ _ _ t _ => t end.

(** [find("./*")] *)
Definition children (e : Element) : list Element :=
  match e with mkElement _ _ _ _ c => c end.

(** [find("./tag")] *)
Definition find (e : Element) (tag : string) : list Element :=
  filter (λ c, get_name c = tag) (children e).

(** [get_attribute(name)]: [None] is the null pointer of an absent attribute. *)
Fixpoint assoc (name : string) (l : list (string * string)) : option string :=
  match l with
  | [] => None
  | (k, v) :: l' => if decide (k = name) then Some v else assoc name l'
  end.

Definition get_attribute (e : Element) (name : string) : option string :=
  assoc name (get_attributes e).

Fixpoint size (e : Element) : nat :=
  match e with
  | mkElement _ _ _ _ c => S (foldr (λ x acc, size x + acc) 0 c)
  end.

End xmlpp.

Lemma size_children c e : c ∈ xmlpp.children e → (xmlpp.size c < xmlpp.size e)%nat.
Proof.
  destruct e as [n a l t cs]. simpl.
  induction cs as [|c' cs IH]; intros Hin; [by apply elem_of_nil in Hin|].
  apply elem_of_cons in Hin as [->|Hin]; simpl; [lia|].
  specialize (IH Hin). lia.
Qed.

(** Modelled from the spec: the helpers of [xml.h], which is not part of the
    sources at hand.  The specification names them as the "attribute lookup"
    and "source-line retrieval" of the XML toolkit and gives the line prefix
    of a diagnostic as [At line <N>, ].  An absent attribute reads as the
    empty string; values and text are taken as they stand in the document. *)
Definition GetAttributeValue (element : xmlpp.Element) (name : string) : string :=
  default "" (xmlpp.get_attribute element name).

Definition GetContent (text : string) : string := text.

Definition GetLine (node : xmlpp.Element) : string :=
  "At line " +:+ pretty (xmlpp.get_line node) +:+ ", ".

(** [GetNonAttributeElements]: the XPath
    [./*[name() != 'attributes' and name() != 'label']]. *)
Definition GetNonAttributeElements (xml_element : xmlpp.Element) : list xmlpp.Element :=
  filter (λ c, xmlpp.get_name c ≠ "attributes" ∧ xmlpp.get_name c ≠ "label")
         (xmlpp.children xml_element).

(** * The data model *)

(** Objects live at addresses; a pointer is an address. *)
Definition ptr := nat.

Inductive RoleSpecifier := kPublic | kPrivate.

Record Attribute := {
  attr_name : string;
  attr_value : string;
  attr_type : string;
}.

(** [enum Units] and [enum Operator] are positions in the tables
    [kUnitsToString] and [kOperatorToString]. *)
Definition Units := nat.
Definition Operator := nat.

Inductive NodeMark := kClear | kTemporary | kPermanent.

#[export] Instance NodeMark_eq_dec : EqDecision NodeMark.
Proof. solve_decision. Defined.

(** Expressions are immutable once built, so they are kept as trees;
    a parameter or the mission time inside an expression is a pointer to the
    shared object.  [kOne], [kZero] and [kPi] are the shared constants of
    [ConstantExpression]. *)
Inductive Expression :=
| ConstantInt (val : Z)
| ConstantDouble (val : float)
| kOne
| kZero
| kPi
| ParameterRef (param : ptr)
| MissionTimeRef (mission_time : ptr)
| Formula_ (type : string) (args : list Expression)
| Histogram (boundaries weights : list Expression)
| LognormalDeviate (args : list Expression)
| PeriodicTest (args : list Expression)
| Switch (cases : list (Expression * Expression)) (default_value : Expression).

(** Boolean formulas of gates.  An argument is an event of one of the three
    kinds or a nested formula. *)
Inductive Formula :=
| mkFormula (type : Operator) (args : list Arg) (vote_number : option Z)
with Arg :=
| GateArg (gate : ptr)
| BasicEventArg (basic_event : ptr)
| HouseEventArg (house_event : ptr)
| FormulaArg (formula : Formula).

Definition formula_type (f : Formula) : Operator :=
  match f with mkFormula t _ _ => t end.
Definition formula_args (f : Formula) : list Arg :=
  match f with mkFormula _ a _ => a end.
Definition formula_vote_number (f : Formula) : option Z :=
  match f with mkFormula _ _ v => v end.

(** The two shared house events [HouseEvent::kTrue] and [HouseEvent::kFalse]
    have static storage; the heap hands out addresses above them. *)
Definition HouseEvent_kTrue : ptr := 0%nat.
Definition HouseEvent_kFalse : ptr := 1%nat.

Inductive Instruction :=
| CollectExpression (expression : Expression).

(** The target of an event-tree branch.  A fork and its paths belong to the
    one branch whose target the fork is, so they are kept with it; sequences
    and named branches are shared and pointed to. *)
Inductive Target :=
| ForkTarget (functional_event : ptr) (paths : list Path)
| SequenceTarget (sequence : ptr)
| NamedBranchTarget (branch : ptr)
with Path :=
| mkPath (state : string) (instructions : list Instruction) (target : Target).

(** ** The heap: data members as maps from the address of the object *)
Inductive Field :=
| f_name | f_label | f_attributes | f_base_path | f_role
| f_state | f_unit | f_unused | f_expression | f_formula
| f_ccf_model | f_members | f_functional_events | f_sequences | f_branches
| f_target | f_instructions.

#[export] Instance Field_eq_dec : EqDecision Field.
Proof. solve_decision. Defined.

#[export] Instance Field_countable : Countable Field.
Proof.
  refine (inj_countable'
    (λ f, match f with
          | f_name => 0 | f_label => 1 | f_attributes => 2 | f_base_path => 3
          | f_role => 4 | f_state => 5 | f_unit => 6 | f_unused => 7
          | f_expression => 8 | f_formula => 9 | f_ccf_model => 10
          | f_members => 11 | f_functional_events => 12 | f_sequences => 13
          | f_branches => 14 | f_target => 15 | f_instructions => 16 end%nat)
    (λ n, match n with
          | 0 => f_name | 1 => f_label | 2 => f_attributes | 3 => f_base_path
          | 4 => f_role | 5 => f_state | 6 => f_unit | 7 => f_unused
          | 8 => f_expression | 9 => f_formula | 10 => f_ccf_model
          | 11 => f_members | 12 => f_functional_events | 13 => f_sequences
          | 14 => f_branches | 15 => f_target | _ => f_instructions end%nat) _).
  by intros [].
Defined.

Inductive Value :=
| VString (s : string)
| VBool (b : bool)
| VNat (n : nat)
| VRole (r : RoleSpecifier)
| VAttributes (l : list Attribute)
| VExpression (e : Expression)
| VFormula (f : Formula)
| VPtrs (l : list ptr)
| VTarget (t : Target)
| VInstructions (l : list Instruction).

(** The classes that take part in the detection of cycles: each has its own
    data member for the mark. *)
Inductive NodeKind := GateNode | NamedBranchNode | ParameterNode.

#[export] Instance NodeKind_eq_dec : EqDecision NodeKind.
Proof. solve_decision. Defined.

Record Heap := {
  fields : gmap (ptr * Field) Value;
  marks : NodeKind → gmap ptr NodeMark;
  next : ptr;
}.

Definition store (p : ptr) (f : Field) (v : Value) (h : Heap) : Heap :=
  {| fields := <[(p, f) := v]> (fields h); marks := marks h; next := next h |}.

Definition set_marks (k : NodeKind) (m : gmap ptr NodeMark) (h : Heap) : Heap :=
  {| fields := fields h;
     marks := λ k', if decide (k' = k) then m else marks h k';
     next := next h |}.

(** [new]: the next free address. *)
Definition alloc (h : Heap) : ptr * Heap :=
  (next h, {| fields := fields h; marks := marks h; next := S (next h) |}).

Definition name_of (h : Heap) (p : ptr) : string :=
  match fields h !! (p, f_name) with Some (VString s) => s | _ => "" end.
Definition base_path_of (h : Heap) (p : ptr) : string :=
  match fields h !! (p, f_base_path) with Some (VString s) => s | _ => "" end.
Definition role_of (h : Heap) (p : ptr) : RoleSpecifier :=
  match fields h !! (p, f_role) with Some (VRole r) => r | _ => kPublic end.
Definition attributes_of (h : Heap) (p : ptr) : list Attribute :=
  match fields h !! (p, f_attributes) with Some (VAttributes l) => l | _ => [] end.
Definition unit_of (h : Heap) (p : ptr) : Units :=
  match fields h !! (p, f_unit) with Some (VNat u) => u | _ => 0%nat end.
Definition unused_of (h : Heap) (p : ptr) : bool :=
  match fields h !! (p, f_unused) with Some (VBool b) => b | _ => true end.
Definition expression_of (h : Heap) (p : ptr) : option Expression :=
  match fields h !! (p, f_expression) with Some (VExpression e) => Some e | _ => None end.
Definition formula_of (h : Heap) (p : ptr) : option Formula :=
  match fields h !! (p, f_formula) with Some (VFormula f) => Some f | _ => None end.
Definition ptrs_of (h : Heap) (p : ptr) (f : Field) : list ptr :=
  match fields h !! (p, f) with Some (VPtrs l) => l | _ => [] end.
Definition target_of (h : Heap) (p : ptr) : option Target :=
  match fields h !! (p, f_target) with Some (VTarget t) => Some t | _ => None end.
Definition mark_of (h : Heap) (k : NodeKind) (p : ptr) : NodeMark :=
  default kClear (marks h k !! p).

(** ** The model: a registry per kind of element, in the order of addition,
    and the expressions the model owns. *)
Inductive Kind :=
| KGate | KBasicEvent | KHouseEvent | KParameter | KCcfGroup
| KSequence | KEventTree | KFaultTree.

#[export] Instance Kind_eq_dec : EqDecision Kind.
Proof. solve_decision. Defined.

Record Model := {
  table : Kind → list ptr;
  model_expressions : list Expression;
  mission_time : ptr;
}.

Definition gates (m : Model) := table m KGate.
Definition basic_events (m : Model) := table m KBasicEvent.
Definition house_events (m : Model) := table m KHouseEvent.
Definition parameters (m : Model) := table m KParameter.
Definition ccf_groups (m : Model) := table m KCcfGroup.
Definition sequences (m : Model) := table m KSequence.
Definition event_trees (m : Model) := table m KEventTree.
Definition fault_trees (m : Model) := table m KFaultTree.

(** ** The initializer *)
Record Settings := {
  probability_analysis : bool;
}.

(** An entry of [tbd_]: the variant over the element pointers, with the XML
    element that defines the element. *)
Definition TbdElement : Type := (Kind * ptr) * xmlpp.Element.

Record Initializer := {
  settings_ : Settings;
  model_ : Model;
  tbd_ : list TbdElement;
  expressions_ : list (Expression * xmlpp.Element);
  heap : Heap;
}.

Definition set_model (m : Model) (st : Initializer) : Initializer :=
  {| settings_ := settings_ st; model_ := m; tbd_ := tbd_ st;
     expressions_ := expressions_ st; heap := heap st |}.

Definition set_tbd (l : list TbdElement) (st : Initializer) : Initializer :=
  {| settings_ := settings_ st; model_ := model_ st; tbd_ := l;
     expressions_ := expressions_ st; heap := heap st |}.

Definition set_expressions (l : list (Expression * xmlpp.Element)) (st : Initializer)
  : Initializer :=
  {| settings_ := settings_ st; model_ := model_ st; tbd_ := tbd_ st;
     expressions_ := l; heap := heap st |}.

Definition set_heap (h : Heap) (st : Initializer) : Initializer :=
  {| settings_ := settings_ st; model_ := model_ st; tbd_ := tbd_ st;
     expressions_ := expressions_ st; heap := h |}.

(** * Detection of cycles

    [cycle.h] is not part of the sources at hand; the specification describes
    its algorithm as "a standard white/grey/black DFS returning the offending
    path".  White, grey and black are the marks [kClear], [kTemporary] and
    [kPermanent] of a node. *)
Module cycle.
Section DetectCycle.

(** The nodes that a node refers to. *)
Context (GetNodes : ptr → list ptr).

Definition mark (marks : gmap ptr NodeMark) (node : ptr) : NodeMark :=
  default kClear (marks !! node).

(** What a search returns: the marks it leaves and, when it found a cycle,
    the path.  [Exhausted]: the bound on the depth of the search is reached. *)
Inductive Detected :=
| NoCycle (marks : gmap ptr NodeMark)
| Cycle (marks : gmap ptr NodeMark) (cycle : list ptr)
| Exhausted.

(** On the way back from the node where the cycle closed, every node of the
    path adds itself, until the path is back at its first node. *)
Definition push_back (cycle : list ptr) (node : ptr) : list ptr :=
  if bool_decide (length cycle = 1%nat) || negb (bool_decide (last cycle = head cycle))
  then cycle ++ [node] else cycle.

(** The search goes through the nodes that a node refers to, in order, and
    stops at the first one from which a cycle is found. *)
Definition ContinueConnector
    (DetectCycle_ : ptr → gmap ptr NodeMark → Detected)
  : list ptr → gmap ptr NodeMark → Detected :=
  fix continue nodes marks :=
    match nodes with
    | [] => NoCycle marks
    | node :: rest =>
        match DetectCycle_ node marks with
        | NoCycle marks => continue rest marks
        | found => found
        end
    end.

(** Modelled from the spec: [cycle::DetectCycle], the depth-first search with
    three marks.  A clear node is marked temporarily while the nodes it refers
    to are searched, and permanently when no cycle was found from it; coming
    to a temporarily marked node closes a cycle; a permanently marked node
    was searched before. *)
Fixpoint DetectCycle (fuel : nat) (node : ptr) (marks : gmap ptr NodeMark) : Detected :=
  match fuel with
  | 0 => Exhausted
  | S fuel =>
      match mark marks node with
      | kClear =>
          let marks := <[node := kTemporary]> marks in
          match ContinueConnector (DetectCycle fuel) (GetNodes node) marks with
          | Cycle marks cycle => Cycle marks (push_back cycle node)
          | NoCycle marks => NoCycle (<[node := kPermanent]> marks)
          | Exhausted => Exhausted
          end
      | kTemporary => Cycle marks [node]
      | kPermanent => NoCycle marks
      end
  end.

(** The loops of the validation: the search from each node of a registry,
    up to the first node from which a cycle is found. *)
Inductive DetectedFrom :=
| NoCycleFrom (marks : gmap ptr NodeMark)
| CycleFrom (node : ptr) (marks : gmap ptr NodeMark) (cycle : list ptr)
| ExhaustedFrom.

Fixpoint detect_all (fuel : nat) (nodes : list ptr) (marks : gmap ptr NodeMark)
  : DetectedFrom :=
  match nodes with
  | [] => NoCycleFrom marks
  | node :: rest =>
      match DetectCycle fuel node marks with
      | NoCycle marks => detect_all fuel rest marks
      | Cycle marks cycle => CycleFrom node marks cycle
      | Exhausted => ExhaustedFrom
      end
  end.

End DetectCycle.

(** Modelled from the spec: [cycle::PrintCycle].  "The error message includes
    the cycle path": the names of the nodes, from the last one pushed to the
    first, with arrows in between. *)
Fixpoint join_names (names : list string) : string :=
  match names with
  | [] => ""
  | [name] => name
  | name :: rest => name +:+ "->" +:+ join_names rest
  end.

Definition PrintCycle (name : ptr → string) (cycle : list ptr) : string :=
  join_names (name <$> reverse cycle).

(** ** Facts: the search is sound and complete *)
Section DetectCycle_facts.
Context (GetNodes : ptr → list ptr).

(** The graph: a node refers to the nodes of [GetNodes]. *)
Definition edge : relation ptr := λ a b, b ∈ GetNodes a.

(** A node is on a cycle when it reaches itself in one step or more. *)
Definition on_cycle (node : ptr) : Prop := tc edge node node.

(** The nodes [universe] are all there is: they refer to one another only. *)
Context (universe : gset ptr).
Context (universe_closed : ∀ a b, a ∈ universe → edge a b → b ∈ universe).

Implicit Types marks : gmap ptr NodeMark.

Definition clear_nodes marks : gset ptr :=
  filter (λ node, mark marks node = kClear) universe.

(** The permanently marked nodes refer to permanently marked nodes only, and
    none is on a cycle. *)
Definition closed_marks marks : Prop :=
  ∀ a b, mark marks a = kPermanent → edge a b → mark marks b = kPermanent.

Definition acyclic_marks marks : Prop :=
  ∀ node, mark marks node = kPermanent → ¬ on_cycle node.

Definition same_temporary marks marks' : Prop :=
  ∀ node, mark marks node = kTemporary ↔ mark marks' node = kTemporary.

Definition keeps_permanent marks marks' : Prop :=
  ∀ node, mark marks node = kPermanent → mark marks' node = kPermanent.

(** The path that a search reports is read against the edges: each node
    refers to the one before it. *)
Definition backwards (cycle : list ptr) : Prop :=
  ∀ i a b, cycle !! i = Some a → cycle !! S i = Some b → edge b a.

Definition closed_cycle (cycle : list ptr) : Prop :=
  ∃ t mid, cycle = t :: mid ++ [t] ∧ backwards cycle.

(** The path of a cycle that has not come back to its first node yet: the
    first node is under search further up. *)
Definition open_cycle (stack : list ptr) (node : ptr) (cycle : list ptr) : Prop :=
  ∃ t mid, cycle = t :: mid ∧ last cycle = Some node ∧ t ∈ stack ∧
           backwards cycle ∧ (mid = [] ∨ node ≠ t).

Lemma mark_insert marks a m b :
  mark (<[a := m]> marks) b = if decide (a = b) then m else mark marks b.
Proof. unfold mark. rewrite lookup_insert. by case_decide. Qed.

Lemma closed_marks_rtc marks a b :
  closed_marks marks → mark marks a = kPermanent → rtc edge a b →
  mark marks b = kPermanent.
Proof. intros Hclosed Ha Hab. induction Hab; eauto. Qed.

Lemma clear_nodes_subseteq marks marks' :
  same_temporary marks marks' → keeps_permanent marks marks' →
  clear_nodes marks' ⊆ clear_nodes marks.
Proof.
  intros Htemp Hperm node [Hclear ?]%elem_of_filter.
  apply elem_of_filter. split; [|done].
  destruct (mark marks node) eqn:Hmark; [done|..].
  - apply Htemp in Hmark. congruence.
  - apply Hperm in Hmark. congruence.
Qed.

Lemma backwards_snoc cycle a b :
  backwards cycle → last cycle = Some a → edge b a → backwards (cycle ++ [b]).
Proof.
  intros Hback Hlast Hedge i x y Hx Hy.
  destruct (decide (S i < length cycle)%nat) as [Hlt|Hge].
  - rewrite lookup_app_l in Hx, Hy by lia. eauto.
  - assert (i < length cycle)%nat by (apply lookup_lt_Some in Hx;
      rewrite length_app in Hx; simpl in Hx;
      apply lookup_lt_Some in Hy; rewrite length_app in Hy; simpl in Hy; lia).
    assert (S i = length cycle) as Hi by lia.
    rewrite lookup_app_l in Hx by lia.
    rewrite lookup_app_r, Hi, Nat.sub_diag in Hy by lia.
    injection Hy as <-.
    rewrite last_lookup in Hlast.
    replace (pred (length cycle)) with i in Hlast by lia. congruence.
Qed.

Lemma push_back_closed cycle node :
  closed_cycle cycle → push_back cycle node = cycle.
Proof.
  intros (t & mid & -> & _). unfold push_back.
  rewrite bool_decide_eq_false_2, bool_decide_eq_true_2; [done| |].
  - by rewrite app_comm_cons, last_snoc.
  - simpl. rewrite length_app. simpl. lia.
Qed.

Lemma push_back_open stack s cycle node :
  open_cycle (node :: stack) s cycle → edge node s → node ∉ stack →
  closed_cycle (push_back cycle node) ∨ open_cycle stack node (push_back cycle node).
Proof.
  intros (t & mid & -> & Hlast & Ht & Hback & Hmid) Hedge Hnode.
  assert (push_back (t :: mid) node = (t :: mid) ++ [node]) as ->.
  { unfold push_back. destruct Hmid as [->|Hne]; [done|].
    rewrite (bool_decide_eq_false_2 (last _ = _)), orb_true_r; [done|].
    rewrite Hlast. simpl. congruence. }
  pose proof (backwards_snoc _ _ _ Hback Hlast Hedge) as Hback'.
  apply elem_of_cons in Ht as [->|Ht].
  - left. by exists node, mid.
  - right. exists t, (mid ++ [node]). split_and!; [done| |done..|].
    + by rewrite last_snoc.
    + right. by intros ->.
Qed.

(** What the search through a list of nodes ensures, given what the search
    from one node does. *)
Definition search_post (stack : list ptr) (target : ptr → Prop) marks
    (found : Detected) : Prop :=
  match found with
  | NoCycle marks' =>
      (∀ node, target node → mark marks' node = kPermanent) ∧
      closed_marks marks' ∧ acyclic_marks marks' ∧
      same_temporary marks marks' ∧ keeps_permanent marks marks'
  | Cycle marks' cycle =>
      closed_cycle cycle ∨ ∃ node, target node ∧ open_cycle stack node cycle
  | Exhausted => False
  end.

Definition search_pre (fuel : nat) (stack : list ptr) marks : Prop :=
  (size (clear_nodes marks) < fuel)%nat ∧
  closed_marks marks ∧ acyclic_marks marks ∧
  ∀ node, mark marks node = kTemporary ↔ node ∈ stack.

Lemma ContinueConnector_spec fuel stack nodes :
  (∀ node marks, node ∈ universe → search_pre fuel stack marks →
     search_post stack (eq node) marks (DetectCycle GetNodes fuel node marks)) →
  ∀ marks, (∀ node, node ∈ nodes → node ∈ universe) →
    search_pre fuel stack marks →
    search_post stack (.∈ nodes) marks
      (ContinueConnector (DetectCycle GetNodes fuel) nodes marks).
Proof.
  intros IH. induction nodes as [|node nodes IHnodes]; intros marks Hin Hpre.
  { simpl. destruct Hpre as (_ & ? & ? & _). split_and!; try done.
    - intros ? Hn. by apply elem_of_nil in Hn.
    - by intros ?. }
  simpl. specialize (IH node marks (Hin _ (list_elem_of_here _ _)) Hpre).
  destruct (DetectCycle GetNodes fuel node marks) as [marks1|marks1 c|]; [| |done].
  - destruct IH as (Hnode & Hclosed & Hacyclic & Htemp & Hperm).
    destruct Hpre as (Hfuel & _ & _ & Hstack).
    specialize (IHnodes marks1).
    destruct (ContinueConnector _ nodes marks1) as [marks2|marks2 c|].
    + destruct IHnodes as (Hnodes & Hclosed2 & Hacyclic2 & Htemp2 & Hperm2).
      * intros. apply Hin. by right.
      * split_and!; [|done..|].
        -- pose proof (clear_nodes_subseteq _ _ Htemp Hperm) as Hsub.
           apply subseteq_size in Hsub. lia.
        -- intros n. by rewrite <-Hstack, (Htemp n).
      * split_and!; [|done..| |].
        -- intros n [->|Hn]%elem_of_cons; [by apply Hperm2, Hnode|by apply Hnodes].
        -- intros n. by rewrite (Htemp n), (Htemp2 n).
        -- intros n Hn. by apply Hperm2, Hperm.
    + destruct IHnodes as [Hc|(n & Hn & Hc)].
      * intros. apply Hin. by right.
      * split_and!; [|done..|].
        -- pose proof (clear_nodes_subseteq _ _ Htemp Hperm) as Hsub.
           apply subseteq_size in Hsub. lia.
        -- intros n. by rewrite <-Hstack, (Htemp n).
      * by left.
      * right. exists n. split; [by right|done].
    + apply IHnodes.
      * intros. apply Hin. by right.
      * split_and!; [|done..|].
        -- pose proof (clear_nodes_subseteq _ _ Htemp Hperm) as Hsub.
           apply subseteq_size in Hsub. lia.
        -- intros n. by rewrite <-Hstack, (Htemp n).
  - destruct IH as [Hc|(n & <- & Hc)]; [by left|].
    right. exists node. split; [by left|done].
Qed.

Lemma on_cycle_inv node : on_cycle node → ∃ b, edge node b ∧ rtc edge b node.
Proof.
  unfold on_cycle. inversion 1 as [|? b ? Hb Htc]; subst.
  - by exists node.
  - exists b. split; [done|]. by apply tc_rtc.
Qed.

Lemma search_pre_temporary fuel stack node marks :
  node ∈ universe → mark marks node = kClear →
  search_pre (S fuel) stack marks →
  search_pre fuel (node :: stack) (<[node := kTemporary]> marks).
Proof.
  intros Hnode Hclear (Hfuel & Hclosed & Hacyclic & Hstack). split_and!.
  - assert (clear_nodes (<[node := kTemporary]> marks) ⊂ clear_nodes marks) as Hsub.
    { split.
      - intros n [Hn ?]%elem_of_filter. apply elem_of_filter. split; [|done].
        rewrite mark_insert in Hn. by case_decide.
      - intros Hsub. specialize (Hsub node). unfold clear_nodes in Hsub.
        rewrite !elem_of_filter, mark_insert, decide_True in Hsub by done.
        by destruct Hsub. }
    apply subset_size in Hsub. lia.
  - intros a b Ha Hab. rewrite mark_insert in Ha. case_decide; [done|].
    rewrite mark_insert. case_decide as Hb; [|by eapply Hclosed].
    subst b. pose proof (Hclosed _ _ Ha Hab). congruence.
  - intros n Hn. rewrite mark_insert in Hn. case_decide; [done|]. by apply Hacyclic.
  - intros n. rewrite mark_insert, elem_of_cons.
    case_decide; [naive_solver|]. rewrite (Hstack n). naive_solver.
Qed.

Lemma DetectCycle_spec fuel stack node marks :
  node ∈ universe → search_pre fuel stack marks →
  search_post stack (eq node) marks (DetectCycle GetNodes fuel node marks).
Proof.
  revert stack node marks.
  induction fuel as [|fuel IH]; intros stack node marks Hnode Hpre.
  { destruct Hpre as [? _]. lia. }
  simpl. destruct (mark marks node) eqn:Hmark.
  - (* clear *)
    pose proof (search_pre_temporary _ _ _ _ Hnode Hmark Hpre) as Hpre1.
    pose proof (ContinueConnector_spec fuel (node :: stack) (GetNodes node)
                  (IH (node :: stack)) _
                  (λ b Hb, universe_closed node b Hnode Hb) Hpre1) as Hpost.
    destruct Hpre as (Hfuel & Hclosed & Hacyclic & Hstack).
    destruct (ContinueConnector _ _ _) as [marks2|marks2 c|]; [| |done].
    + destruct Hpost as (Hnodes & Hclosed2 & Hacyclic2 & Htemp2 & Hperm2).
      assert (mark marks2 node = kTemporary) as Hnode2.
      { apply Htemp2. rewrite mark_insert. by rewrite decide_True. }
      split_and!.
      * intros ? <-. rewrite mark_insert. by rewrite decide_True.
      * intros a b Ha Hab. rewrite mark_insert in Ha. rewrite mark_insert.
        destruct (decide (node = b)) as [|Hb]; [done|].
        destruct (decide (node = a)) as [<-|Ha']; [by apply Hnodes|].
        by eapply Hclosed2.
      * intros n Hn. rewrite mark_insert in Hn. case_decide; [|by apply Hacyclic2].
        subst n. intros Hcycle.
        apply on_cycle_inv in Hcycle as (b & Hb & Hrtc).
        assert (mark marks2 node = kPermanent); [|congruence].
        eapply closed_marks_rtc; [done| |done]. by apply Hnodes.
      * intros n. rewrite mark_insert. case_decide as Hn.
        -- subst n. rewrite Hmark. naive_solver.
        -- rewrite <-(Htemp2 n), mark_insert. by rewrite decide_False.
      * intros n Hn. rewrite mark_insert. case_decide; [done|].
        apply Hperm2. rewrite mark_insert. by rewrite decide_False by congruence.
    + assert (node ∉ stack) as Hfresh.
      { intros Hin%Hstack. congruence. }
      destruct Hpost as [Hc|(s & Hs & Hc)].
      * left. by rewrite push_back_closed.
      * destruct (push_back_open _ _ _ _ Hc Hs Hfresh) as [?|?]; [by left|].
        right. by exists node.
  - (* temporary *)
    right. exists node. split; [done|]. exists node, []. split_and!; try done.
    + destruct Hpre as (_ & _ & _ & Hstack). by apply Hstack.
    + by left.
  - (* permanent *)
    destruct Hpre as (_ & ? & ? & _). split_and!; try done.
    + by intros ? <-.
    + by intros ?.
Qed.

(** Read from a later position to an earlier one, a reported path follows the
    edges of the graph. *)
Lemma backwards_rtc cycle i j a b :
  backwards cycle → (i ≤ j)%nat → cycle !! i = Some a → cycle !! j = Some b →
  rtc edge b a.
Proof.
  intros Hback Hij Hi. revert b. induction Hij as [|j Hij IH]; intros b Hj.
  - by simplify_eq.
  - destruct (lookup_lt_is_Some_2 cycle j) as [c Hc].
    { apply lookup_lt_Some in Hj. lia. }
    eapply rtc_l; [by eapply Hback|by apply IH].
Qed.

(** Every node on a closed path is on a cycle of the graph. *)
Lemma closed_cycle_on_cycle cycle node :
  closed_cycle cycle → node ∈ cycle → on_cycle node.
Proof.
  intros (t & mid & -> & Hback) Hin.
  assert (node ∈ mid ++ [t]) as (i & Hi)%list_elem_of_lookup.
  { apply elem_of_cons in Hin as [->|?]; [|done]. apply elem_of_app. right. by left. }
  destruct (lookup_lt_is_Some_2 (t :: mid ++ [t]) i) as [y Hy].
  { apply lookup_lt_Some in Hi. simpl. lia. }
  assert ((t :: mid ++ [t]) !! length (t :: mid) = Some t) as Hlast.
  { rewrite app_comm_cons. by rewrite lookup_app_r, Nat.sub_diag by lia. }
  eapply tc_rtc_r; [apply tc_once; by eapply (Hback i y node)|].
  eapply rtc_trans.
  - eapply (backwards_rtc _ 0 i t y Hback); [lia|done..].
  - eapply (backwards_rtc _ (S i) (length (t :: mid))); [done| |done..].
    apply lookup_lt_Some in Hi. rewrite length_app in Hi. simpl in *. lia.
Qed.

(** The path that a search reports stays among the nodes. *)
Lemma push_back_elem_of cycle node n :
  n ∈ push_back cycle node → n ∈ cycle ∨ n = node.
Proof.
  unfold push_back. destruct (_ || _); [|by left].
  intros [?|?%list_elem_of_singleton]%elem_of_app; [by left|by right].
Qed.

Lemma ContinueConnector_universe fuel nodes :
  (∀ node marks marks' cycle, node ∈ universe →
     DetectCycle GetNodes fuel node marks = Cycle marks' cycle →
     ∀ n, n ∈ cycle → n ∈ universe) →
  ∀ marks marks' cycle, (∀ node, node ∈ nodes → node ∈ universe) →
    ContinueConnector (DetectCycle GetNodes fuel) nodes marks = Cycle marks' cycle →
    ∀ n, n ∈ cycle → n ∈ universe.
Proof.
  intros IH. induction nodes as [|node nodes IHnodes]; intros marks marks' cycle Hin;
    simpl; [done|].
  destruct (DetectCycle GetNodes fuel node marks) as [marks1|marks1 c|] eqn:Hrun;
    [|intros [= <- <-]|done].
  - apply IHnodes. intros. apply Hin. by right.
  - eapply IH; [|done]. apply Hin. by left.
Qed.

Lemma DetectCycle_universe fuel node marks marks' cycle :
  node ∈ universe → DetectCycle GetNodes fuel node marks = Cycle marks' cycle →
  ∀ n, n ∈ cycle → n ∈ universe.
Proof.
  revert node marks marks' cycle.
  induction fuel as [|fuel IH]; intros node marks marks' cycle Hnode; simpl; [done|].
  destruct (mark marks node).
  - destruct (ContinueConnector _ _ _) as [marks2|marks2 c|] eqn:Hrun; [done| |done].
    intros [= <- <-] n [Hn| ->]%push_back_elem_of; [|done].
    eapply (ContinueConnector_universe fuel (GetNodes node)); [done| |done..].
    intros b Hb. by eapply universe_closed.
  - by intros [= <- <-] n ->%list_elem_of_singleton.
  - done.
Qed.

(** Between two searches no node is marked temporarily. *)
Definition settled marks : Prop :=
  closed_marks marks ∧ acyclic_marks marks ∧
  ∀ node, mark marks node ≠ kTemporary.

Lemma settled_empty : settled ∅.
Proof. by split_and!; intros ?; unfold mark; rewrite ?lookup_empty. Qed.

Lemma settled_search_pre fuel marks :
  (size universe < fuel)%nat → settled marks → search_pre fuel [] marks.
Proof.
  intros Hfuel (Hclosed & Hacyclic & Htemp). split_and!; [|done..|].
  - eapply Nat.le_lt_trans; [|done]. apply subseteq_size.
    intros n [_ ?]%elem_of_filter. done.
  - intros n. split; [by intros ?%Htemp|by intros ?%elem_of_nil].
Qed.

(** The loop over a registry: either every node is searched and none is on a
    cycle, or the search from some node reports a path that is a cycle of the
    graph; the fuel of one more than the number of nodes is never used up. *)
Lemma detect_all_spec fuel nodes marks :
  (size universe < fuel)%nat → (∀ node, node ∈ nodes → node ∈ universe) →
  settled marks →
  match detect_all GetNodes fuel nodes marks with
  | NoCycleFrom marks' =>
      settled marks' ∧ keeps_permanent marks marks' ∧
      ∀ node, node ∈ nodes → mark marks' node = kPermanent ∧ ¬ on_cycle node
  | CycleFrom node marks' cycle =>
      node ∈ nodes ∧ closed_cycle cycle ∧
      ∀ n, n ∈ cycle → n ∈ universe ∧ on_cycle n
  | ExhaustedFrom => False
  end.
Proof.
  intros Hfuel. revert marks.
  induction nodes as [|node nodes IH]; intros marks Hin Hsettled; simpl.
  { split_and!; [done|by intros ?|]. intros ? Hn. by apply elem_of_nil in Hn. }
  pose proof (DetectCycle_spec fuel [] node marks (Hin _ (list_elem_of_here _ _))
                (settled_search_pre _ _ Hfuel Hsettled)) as Hpost.
  pose proof (DetectCycle_universe fuel node marks) as Huniverse.
  destruct (DetectCycle GetNodes fuel node marks) as [marks1|marks1 c|]; [| |done].
  - destruct Hpost as (Hnode & Hclosed & Hacyclic & Htemp & Hperm).
    assert (settled marks1) as Hsettled1.
    { split_and!; [done..|]. intros n Hn%Htemp. by apply Hsettled in Hn. }
    specialize (IH marks1 (λ n Hn, Hin n (list_elem_of_further _ _ _ Hn)) Hsettled1).
    destruct (detect_all GetNodes fuel nodes marks1) as [marks2|n marks2 c|].
    + destruct IH as (Hsettled2 & Hperm2 & Hnodes). split_and!; [done| |].
      * intros n Hn. by apply Hperm2, Hperm.
      * intros n [->|Hn]%elem_of_cons; [|by apply Hnodes].
        assert (mark marks2 node = kPermanent) by (by apply Hperm2, Hnode).
        split; [done|]. by apply Hsettled2.
    + destruct IH as (? & ? & ?). split_and!; [by right|done..].
    + done.
  - destruct Hpost as [Hc|(n & _ & (t & mid & _ & _ & Ht & _))].
    + split_and!; [by left|done|]. intros n Hn. split.
      * eapply Huniverse; [|done..]. apply Hin. by left.
      * by eapply closed_cycle_on_cycle.
    + by apply elem_of_nil in Ht.
Qed.


End DetectCycle_facts.

End cycle.

(** ** Member functions as state-passing computations

    A computation returns its result with the state it leaves behind, also
    when it throws: what was written before the [throw] stays written. *)
Definition M (A : Type) : Type := Initializer → Result A * Initializer.

#[export] Instance M_ret : MRet M := λ A a st, (Ok a, st).

#[export] Instance M_bind : MBind M := λ A B f m st,
  match m st with
  | (Ok a, st') => f a st'
  | (Throw e, st') => (Throw e, st')
  end.

Definition throw {A} (e : Exception) : M A := λ st, (Throw e, st).

Definition get_state : M Initializer := λ st, (Ok st, st).

Definition modify (f : Initializer → Initializer) : M unit := λ st, (Ok tt, f st).

Definition assert_ (cond : bool) : M unit :=
  if cond then mret tt else throw AssertionFailure.

(** [try { m } catch (ValidationError& err) { err.msg(prefix + err.msg()); throw; }] *)
Definition prefix_ValidationError {A} (prefix : string) (m : M A) : M A := λ st,
  match m st with
  | (Throw (ValidationError msg), st') => (Throw (ValidationError (prefix +:+ msg)), st')
  | r => r
  end.

(** The same for [catch (DuplicateArgumentError& err)]. *)
Definition prefix_DuplicateArgumentError {A} (prefix : string) (m : M A) : M A := λ st,
  match m st with
  | (Throw (DuplicateArgumentError msg), st') =>
      (Throw (DuplicateArgumentError (prefix +:+ msg)), st')
  | r => r
  end.

(** [for (x : l) body(x);] *)
Fixpoint for_each {A} (l : list A) (body : A → M unit) : M unit :=
  match l with
  | [] => mret tt
  | x :: l' => body x ;; for_each l' body
  end.

(** [runs ms st xs st']: the computations [ms], run one after the other from
    the state [st], return the results [xs] and leave the state [st']. *)
Inductive runs {A} : list (M A) → Initializer → list A → Initializer → Prop :=
| runs_nil st : runs [] st [] st
| runs_cons m ms st x st1 xs st2 :
    m st = (Ok x, st1) → runs ms st1 xs st2 → runs (m :: ms) st (x :: xs) st2.

(** ** Reasoning about computations *)

Lemma bind_inv {A B} (m : M A) (f : A → M B) st r st' :
  (m ≫= f) st = (r, st') →
  (∃ a st1, m st = (Ok a, st1) ∧ f a st1 = (r, st')) ∨
  (∃ e, m st = (Throw e, st') ∧ r = Throw e).
Proof.
  unfold mbind, M_bind. destruct (m st) as [[a|e] st1]; intros Heq.
  - left. by exists a, st1.
  - right. exists e. by inversion Heq.
Qed.

Lemma bind_Ok {A B} (m : M A) (f : A → M B) st a st1 :
  m st = (Ok a, st1) → (m ≫= f) st = f a st1.
Proof. unfold mbind, M_bind. by intros ->. Qed.

Lemma ret_bind {A B} (a : A) (f : A → M B) st : (mret a ≫= f) st = f a st.
Proof. reflexivity. Qed.

Lemma get_state_bind {B} (f : Initializer → M B) st : (get_state ≫= f) st = f st st.
Proof. reflexivity. Qed.

Lemma bind_Throw {A B} (m : M A) (f : A → M B) st e st1 :
  m st = (Throw e, st1) → (m ≫= f) st = (Throw e, st1).
Proof. unfold mbind, M_bind. by intros ->. Qed.

(** [keeps R m]: whatever [m] returns or throws, the state it leaves is
    related by [R] to the state it started in. *)
Definition keeps {A} (R : relation Initializer) (m : M A) : Prop :=
  ∀ st r st', m st = (r, st') → R st st'.

Section keeps.
Context (R : relation Initializer) `{!PreOrder R}.

Lemma keeps_ret {A} (a : A) : keeps R (mret a).
Proof. intros st r st' [= _ <-]. reflexivity. Qed.

Lemma keeps_throw {A} e : keeps R (throw (A := A) e).
Proof. intros st r st' [= _ <-]. reflexivity. Qed.

Lemma keeps_get_state : keeps R get_state.
Proof. intros st r st' [= _ <-]. reflexivity. Qed.

Lemma keeps_assert cond : keeps R (assert_ cond).
Proof. destruct cond; [apply keeps_ret|apply keeps_throw]. Qed.

Lemma keeps_bind {A B} (m : M A) (f : A → M B) :
  keeps R m → (∀ a, keeps R (f a)) → keeps R (m ≫= f).
Proof.
  intros Hm Hf st r st' [(a & st1 & H1 & H2)|(e & H1 & _)]%bind_inv.
  - etrans; [by eapply Hm|by eapply Hf].
  - by eapply Hm.
Qed.

Lemma keeps_modify f : (∀ st, R st (f st)) → keeps R (modify f).
Proof. intros Hf st r st' [= _ <-]. apply Hf. Qed.

Lemma keeps_prefix_ValidationError {A} prefix (m : M A) :
  keeps R m → keeps R (prefix_ValidationError prefix m).
Proof.
  intros Hm st r st'. unfold prefix_ValidationError.
  destruct (m st) as [[a|[]] st1] eqn:Hrun; intros [= _ <-]; by eapply Hm.
Qed.

Lemma keeps_prefix_DuplicateArgumentError {A} prefix (m : M A) :
  keeps R m → keeps R (prefix_DuplicateArgumentError prefix m).
Proof.
  intros Hm st r st'. unfold prefix_DuplicateArgumentError.
  destruct (m st) as [[a|[]] st1] eqn:Hrun; intros [= _ <-]; by eapply Hm.
Qed.

Lemma keeps_for_each {A} (l : list A) body :
  (∀ x, keeps R (body x)) → keeps R (for_each l body).
Proof.
  intros Hbody. induction l as [|x l IH]; simpl; [apply keeps_ret|].
  apply keeps_bind; [apply Hbody|done].
Qed.

Lemma keeps_match_option {A B} (o : option A) (f : A → M B) (d : M B) :
  (∀ a, keeps R (f a)) → keeps R d → keeps R (from_option f d o).
Proof. destruct o; simpl; auto. Qed.

End keeps.

Lemma prefix_ValidationError_inv {A} prefix (m : M A) st r st' :
  prefix_ValidationError prefix m st = (r, st') →
  (∃ a, m st = (Ok a, st') ∧ r = Ok a) ∨
  (∃ e, (∃ r0, m st = (Throw r0, st')) ∧ r = Throw e).
Proof.
  unfold prefix_ValidationError.
  destruct (m st) as [[a|e] st1] eqn:Hrun.
  - intros [= <- <-]. left. by exists a.
  - right. destruct e; inversion H; subst; eauto.
Qed.

(** [throws P m]: whatever [m] throws satisfies [P]. *)
Definition throws {A} (P : Exception → Prop) (m : M A) : Prop :=
  ∀ st e st', m st = (Throw e, st') → P e.

Lemma throws_ret {A} P (a : A) : throws P (mret a).
Proof. by intros st e st'. Qed.

Lemma throws_throw {A} (P : Exception → Prop) e : P e → throws P (throw (A := A) e).
Proof. by intros He st e' st' [= <- _]. Qed.

Lemma throws_get_state P : throws P get_state.
Proof. by intros st e st'. Qed.

Lemma throws_modify P f : throws P (modify f).
Proof. by intros st e st'. Qed.

Lemma throws_assert (P : Exception → Prop) cond :
  P AssertionFailure → throws P (assert_ cond).
Proof. destruct cond; [intros _; apply throws_ret|apply throws_throw]. Qed.

Lemma throws_bind {A B} P (m : M A) (f : A → M B) :
  throws P m → (∀ a, throws P (f a)) → throws P (m ≫= f).
Proof.
  intros Hm Hf st e st' [(a & st1 & H1 & H2)|(e' & H1 & [= <-])]%bind_inv.
  - by eapply Hf.
  - by eapply Hm.
Qed.

Lemma throws_for_each {A} P (l : list A) body :
  (∀ x, throws P (body x)) → throws P (for_each l body).
Proof.
  intros Hbody. induction l as [|x l IH]; simpl; [apply throws_ret|].
  by apply throws_bind.
Qed.

Lemma throws_prefix_ValidationError {A} (P : Exception → Prop) prefix (m : M A) :
  (∀ msg, P (ValidationError msg) → P (ValidationError (prefix +:+ msg))) →
  throws P m → throws P (prefix_ValidationError prefix m).
Proof.
  intros HP Hm st e st'. unfold prefix_ValidationError.
  destruct (m st) as [[a|e0] st1] eqn:Hrun; [done|].
  specialize (Hm _ _ _ Hrun). destruct e0; intros [= <- _]; auto.
Qed.

Lemma throws_prefix_DuplicateArgumentError {A} (P : Exception → Prop) prefix (m : M A) :
  (∀ msg, P (DuplicateArgumentError msg) →
          P (DuplicateArgumentError (prefix +:+ msg))) →
  throws P m → throws P (prefix_DuplicateArgumentError prefix m).
Proof.
  intros HP Hm st e st'. unfold prefix_DuplicateArgumentError.
  destruct (m st) as [[a|e0] st1] eqn:Hrun; [done|].
  specialize (Hm _ _ _ Hrun). destruct e0; intros [= <- _]; auto.
Qed.

Lemma throws_weaken {A} (P Q : Exception → Prop) (m : M A) :
  (∀ e, P e → Q e) → throws P m → throws Q m.
Proof. intros HPQ Hm st e st' Hrun. by eapply HPQ, Hm. Qed.

(** [in_fuel m]: the computation does not stop for lack of fuel. *)
Definition in_fuel {A} (m : M A) : Prop :=
  ∀ st r st', m st = (r, st') → r ≠ Throw OutOfFuel.

Lemma in_fuel_ret {A} (a : A) : in_fuel (mret a).
Proof. by intros st r st' [= <- _]. Qed.

Lemma in_fuel_throw {A} e : e ≠ OutOfFuel → in_fuel (throw (A := A) e).
Proof. intros He st r st' [= <- _]. congruence. Qed.

Lemma in_fuel_get_state : in_fuel get_state.
Proof. by intros st r st' [= <- _]. Qed.

Lemma in_fuel_assert cond : in_fuel (assert_ cond).
Proof. destruct cond; [apply in_fuel_ret|by apply in_fuel_throw]. Qed.

Lemma in_fuel_bind {A B} (m : M A) (f : A → M B) :
  in_fuel m → (∀ a, in_fuel (f a)) → in_fuel (m ≫= f).
Proof.
  intros Hm Hf st r st' [(a & st1 & H1 & H2)|(e & H1 & ->)]%bind_inv.
  - exact (Hf _ _ _ _ H2).
  - intros [= ->]. by eapply (Hm _ _ _ H1).
Qed.

Lemma in_fuel_Throw {A B} (m : M A) st e st' :
  in_fuel m → m st = (Throw e, st') → @Throw B e ≠ Throw OutOfFuel.
Proof. intros Hm Hrun [= ->]. by eapply (Hm _ _ _ Hrun). Qed.

Lemma in_fuel_prefix_ValidationError {A} prefix (m : M A) :
  in_fuel m → in_fuel (prefix_ValidationError prefix m).
Proof.
  intros Hm st r st'. unfold prefix_ValidationError.
  destruct (m st) as [[a|[]] st1] eqn:Hrun; intros [= <- _]; try done.
  exact (Hm _ _ _ Hrun).
Qed.

(** * What the initializer takes from the other translation units

    The classes of the model, the expression classes and the XML helpers are
    declared in headers that are not part of the sources at hand.  Wherever
    the initializer only depends on whether such a call throws, and with which
    message, the decision is a parameter here: [None] means the call returns
    normally, [Some msg] that it throws with the message [msg]. *)
Inductive NumArgs :=
| Variadic
| Fixed (n : positive).

Class Env := {
  (** [CastAttributeValue<int>] and [CastAttributeValue<double>] of [xml.h];
      [inl msg] is the [ValidationError] of a value that does not parse. *)
  CastAttributeValue_int : xmlpp.Element → string → string + Z;
  CastAttributeValue_double : xmlpp.Element → string → string + float;
  (** [doc_to_file_.at(element->find("/opsa-mef")[0])] *)
  doc_to_file : xmlpp.Element → string;
  (** The tables of [parameter.h] and [event.h]. *)
  kUnitsToString : list string;
  kOperatorToString : list string;
  kNull : Operator;
  kVote : Operator;
  (** [Element::AddAttribute] *)
  AddAttribute_invalid : list Attribute → Attribute → option string;
  (** [Model::Add], by kind of element, and the look-ups of the model; a
      look-up that finds nothing throws [std::out_of_range]. *)
  Model_Add_invalid : Kind → Model → Heap → ptr → option string;
  Model_GetParameter : Model → Heap → string → string → option ptr;
  Model_GetGate : Model → Heap → string → string → option ptr;
  Model_GetBasicEvent : Model → Heap → string → string → option ptr;
  Model_GetHouseEvent : Model → Heap → string → string → option ptr;
  Model_GetEvent : Model → Heap → string → string → option Arg;
  (** [EventTree::Add] and [CcfGroup::AddMember] *)
  EventTree_Add_invalid : Heap → ptr → Field → ptr → option string;
  AddMember_invalid : Heap → ptr → ptr → option string;
  (** [Formula::AddArgument], [Formula::vote_number] and [Formula::Validate] *)
  AddArgument_invalid : list Arg → Arg → option string;
  vote_number_invalid : Z → option string;
  Formula_Validate_invalid : Formula → option string;
  (** The number of [Expression*] arguments that the constructor of the
      expression class of a tag takes, as [num_args<T>()] computes it; whether
      a constructor throws [InvalidArgument]; and the [Validate] members. *)
  num_args : string → NumArgs;
  constructor_invalid : Expression → option string;
  Expression_Validate_invalid : Heap → Expression → option string;
  CcfGroup_Validate_invalid : Heap → ptr → option string;
  BasicEvent_Validate_invalid : Heap → ptr → option string;
}.

Module mef.

(** Writing a data member of the object at [p], and [new]. *)
Definition write (p : ptr) (f : Field) (v : Value) : M unit :=
  modify (λ st, set_heap (store p f v (heap st)) st).

Definition new : M ptr := λ st,
  let (p, h) := alloc (heap st) in (Ok p, set_heap h st).

Lemma keeps_weaken {A} (R R' : relation Initializer) (m : M A) :
  (∀ st st', R st st' → R' st st') → keeps R m → keeps R' m.
Proof. intros HR Hm st r st' Hrun. by eapply HR, Hm. Qed.

Lemma keeps_write R `{!PreOrder R} p f v :
  (∀ st h, R st (set_heap h st)) → keeps R (write p f v).
Proof. intros HR. apply keeps_modify. intros st. apply HR. Qed.

Lemma keeps_new R `{!PreOrder R} :
  (∀ st h, R st (set_heap h st)) → keeps R new.
Proof.
  intros HR st r st'. unfold new. destruct (alloc (heap st)).
  intros [= _ <-]. apply HR.
Qed.

Create HintDb keeps.

(** One step of a proof of [keeps R m], by the shape of [m]; what a write to
    the heap does to [R] is looked up in the hint database [keeps]. *)
Ltac keeps_step :=
  lazymatch goal with
  | |- keeps _ (mret _) => apply keeps_ret; apply _
  | |- keeps _ (throw _) => apply keeps_throw; apply _
  | |- keeps _ get_state => apply keeps_get_state; apply _
  | |- keeps _ (assert_ _) => apply keeps_assert; apply _
  | |- keeps _ (write _ _ _) =>
      apply keeps_write; [apply _|solve [auto with keeps]]
  | |- keeps _ new => apply keeps_new; [apply _|solve [auto with keeps]]
  | |- keeps _ (_ ≫= _) => apply keeps_bind; [apply _| |intros ?; cbv beta zeta]
  | |- keeps _ (prefix_ValidationError _ _) =>
      apply keeps_prefix_ValidationError
  | |- keeps _ (prefix_DuplicateArgumentError _ _) =>
      apply keeps_prefix_DuplicateArgumentError
  | |- keeps _ (for_each _ _) => apply keeps_for_each; [apply _|intros ?]
  | |- keeps _ (from_option _ _ _) =>
      apply keeps_match_option; [intros ?|]
  | |- keeps _ (match ?x with _ => _ end) => destruct x
  | |- keeps _ (if ?x then _ else _) => destruct x
  end.

Tactic Notation "bind_inv" hyp(H) "as" ident(a) ident(st1) ident(H1) :=
  let e := fresh "e" in
  let Heq := fresh "Heq" in
  apply bind_inv in H as [(a & st1 & H1 & H)|(e & H & Heq)];
  [|first [injection Heq as <-|discriminate Heq|subst]].

Lemma assert_inv cond st r st' :
  assert_ cond st = (r, st') →
  st' = st ∧ (cond = true ∧ r = Ok tt ∨ cond = false ∧ r = Throw AssertionFailure).
Proof. destruct cond; intros [= <- <-]; auto. Qed.

Lemma write_bind {B} p f v (k : unit → M B) st :
  (write p f v ≫= k) st = k tt (set_heap (store p f v (heap st)) st).
Proof. reflexivity. Qed.

Lemma new_bind {B} (k : ptr → M B) st :
  (new ≫= k) st = k (next (heap st)) (set_heap (alloc (heap st)).2 st).
Proof. reflexivity. Qed.

Lemma modify_bind {B} g (k : unit → M B) st : (modify g ≫= k) st = k tt (g st).
Proof. reflexivity. Qed.

Lemma throw_bind {A B} e (k : A → M B) st : (throw e ≫= k) st = (Throw e, st).
Proof. reflexivity. Qed.

Lemma throws_new P : throws P new.
Proof. intros st e st'. unfold new. by destruct (alloc (heap st)). Qed.

(** One step of a proof of [throws P m], by the shape of [m]. *)
Ltac throws_step :=
  lazymatch goal with
  | |- throws _ (mret _) => apply throws_ret
  | |- throws _ (throw _) => apply throws_throw
  | |- throws _ get_state => apply throws_get_state
  | |- throws _ (assert_ _) => apply throws_assert
  | |- throws _ (write _ _ _) => apply throws_modify
  | |- throws _ (modify _) => apply throws_modify
  | |- throws _ new => apply throws_new
  | |- throws _ (_ ≫= _) => apply throws_bind; [|intros ?; cbv beta zeta]
  | |- throws _ (prefix_ValidationError _ _) =>
      apply throws_prefix_ValidationError
  | |- throws _ (prefix_DuplicateArgumentError _ _) =>
      apply throws_prefix_DuplicateArgumentError
  | |- throws _ (for_each _ _) => apply throws_for_each; intros ?
  | |- throws _ (from_option _ _ ?x) => destruct x; simpl
  | |- throws _ (match ?x with _ => _ end) => destruct x
  | |- throws _ (if ?x then _ else _) => destruct x
  end.

(** An assertion fails, or something is refused with a [ValidationError]. *)
Definition assertion_or_validation (e : Exception) : Prop :=
  e = AssertionFailure ∨ ∃ msg, e = ValidationError msg.

(** Frames: what a computation leaves alone in the heap. *)

(** The data member [f] of the object at [p] is as it was. *)
Definition same_field (p : ptr) (f : Field) : relation Initializer := λ st st',
  fields (heap st') !! (p, f) = fields (heap st) !! (p, f).

#[local] Instance same_field_po p f : PreOrder (same_field p f).
Proof. split; [done|]. intros a b c H1 H2. unfold same_field in *. congruence. Qed.

(** No object is allocated. *)
Definition same_next : relation Initializer := λ st st',
  next (heap st') = next (heap st).

#[local] Instance same_next_po : PreOrder same_next.
Proof. split; [done|]. intros a b c H1 H2. unfold same_next in *. congruence. Qed.

Lemma keeps_write_other p f q g v :
  (q, g) ≠ (p, f) → keeps (same_field p f) (write q g v).
Proof.
  intros Hne st r st' [= _ <-]. unfold same_field. simpl.
  by rewrite lookup_insert_ne.
Qed.

Lemma keeps_new_field p f : keeps (same_field p f) new.
Proof. by intros st r st' [= _ <-]. Qed.

Lemma keeps_write_next p f v : keeps same_next (write p f v).
Proof. by intros st r st' [= _ <-]. Qed.

(** One step of a proof that a computation leaves a data member, or the
    allocation, alone. *)
Ltac field_step :=
  first [ keeps_step
        | apply keeps_write_other; congruence
        | apply keeps_new_field
        | apply keeps_write_next ].

Section Registration.
Context `{E : Env}.

(** ** Construction of elements *)

(** [GetRole(s)] *)
Definition GetRole (s : string) : M RoleSpecifier :=
  assert_ (negb (bool_decide (s = ""))) ;;
  assert_ (bool_decide (s = "public") || bool_decide (s = "private")) ;;
  mret (if bool_decide (s = "public") then kPublic else kPrivate).

(** [GetRole(s, parent_role)] *)
Definition GetRole_inherit (s : string) (parent_role : RoleSpecifier) : M RoleSpecifier :=
  if bool_decide (s = "") then mret parent_role else GetRole s.

(** [Element::AddAttribute] *)
Definition AddAttribute (element : ptr) (attr : Attribute) : M unit :=
  st ← get_state;
  let attrs := attributes_of (heap st) element in
  match AddAttribute_invalid attrs attr with
  | Some msg => throw (ValidationError msg)
  | None => write element f_attributes (VAttributes (attrs ++ [attr]))
  end.

(** The loop of [AttachLabelAndAttributes]; [attribute] is the element that
    the handler reports the position of. *)
Fixpoint attach_attributes (nodes : list xmlpp.Element) (element : ptr) : M unit :=
  match nodes with
  | [] => mret tt
  | attribute :: rest =>
      prefix_ValidationError (GetLine attribute)
        (AddAttribute element
           {| attr_name := GetAttributeValue attribute "name";
              attr_value := GetAttributeValue attribute "value";
              attr_type := GetAttributeValue attribute "type" |}) ;;
      attach_attributes rest element
  end.

Definition AttachLabelAndAttributes (xml_element : xmlpp.Element) (element : ptr) : M unit :=
  let labels := xmlpp.find xml_element "label" in
  match labels with
  | [] => mret tt
  | label :: _ =>
      assert_ (bool_decide (length labels = 1%nat)) ;;
      match xmlpp.get_child_text label with
      | None => throw AssertionFailure
      | Some text => write element f_label (VString (GetContent text))
      end
  end ;;
  let attributes := xmlpp.find xml_element "attributes" in
  match attributes with
  | [] => mret tt
  | attributes_element :: _ =>
      assert_ (bool_decide (length attributes = 1%nat)) ;;
      attach_attributes (xmlpp.find attributes_element "attribute") element
  end.

(** The data members that the constructor of a class sets besides the ones it
    takes as arguments: a parameter starts unused and without a unit, a house
    event starts in the false state. *)
Definition construct_defaults (k : Kind) (element : ptr) : M unit :=
  match k with
  | KParameter =>
      write element f_unit (VNat 0) ;; write element f_unused (VBool true)
  | KHouseEvent => write element f_state (VBool false)
  | _ => mret tt
  end.

(** [ConstructElement<T>(xml_element)] for a class derived from [Element]. *)
Definition ConstructElement (k : option Kind) (xml_element : xmlpp.Element) : M ptr :=
  let name := GetAttributeValue xml_element "name" in
  element ← new;
  write element f_name (VString name) ;;
  from_option (λ k, construct_defaults k element) (mret tt) k ;;
  AttachLabelAndAttributes xml_element element ;;
  mret element.

(** [ConstructElement<T>(xml_element, base_path, base_role)] for a class
    derived from [Role]. *)
Definition ConstructElement_Role (k : option Kind) (xml_element : xmlpp.Element)
    (base_path : string) (base_role : RoleSpecifier) : M ptr :=
  let name := GetAttributeValue xml_element "name" in
  let role := GetAttributeValue xml_element "role" in
  r ← GetRole_inherit role base_role;
  element ← new;
  write element f_name (VString name) ;;
  write element f_base_path (VString base_path) ;;
  write element f_role (VRole r) ;;
  from_option (λ k, construct_defaults k element) (mret tt) k ;;
  AttachLabelAndAttributes xml_element element ;;
  mret element.

(** ** Registration *)

Definition add_to_table (k : Kind) (p : ptr) (m : Model) : Model :=
  {| table := λ k', if decide (k' = k) then table m k' ++ [p] else table m k';
     model_expressions := model_expressions m;
     mission_time := mission_time m |}.

(** Modelled from the spec: [Model::Add] for an element, of [model.h].
    "Registration fails [...] when adding a name already present under the
    same scope", which [Model_Add_invalid] decides; an element that is
    accepted is added at the end of the registry of its kind. *)
Definition Model_Add (k : Kind) (element : ptr) : M unit :=
  st ← get_state;
  match Model_Add_invalid k (model_ st) (heap st) element with
  | Some msg => throw (ValidationError msg)
  | None => modify (λ st, set_model (add_to_table k element (model_ st)) st)
  end.

(** [Initializer::Register(T&& element, const xmlpp::Element* xml_element)] *)
Definition Register (k : Kind) (element : ptr) (xml_element : xmlpp.Element) : M unit :=
  prefix_ValidationError (GetLine xml_element) (Model_Add k element).

(** [tbd_.emplace_back(element, xml_element)] *)
Definition tbd_emplace_back (k : Kind) (element : ptr) (xml_element : xmlpp.Element) : M unit :=
  modify (λ st, set_tbd (tbd_ st ++ [((k, element), xml_element)]) st).

Definition Register_Gate (gate_node : xmlpp.Element) (base_path : string)
    (container_role : RoleSpecifier) : M ptr :=
  gate ← ConstructElement_Role (Some KGate) gate_node base_path container_role;
  Register KGate gate gate_node ;;
  tbd_emplace_back KGate gate gate_node ;;
  mret gate.

Definition Register_BasicEvent (event_node : xmlpp.Element) (base_path : string)
    (container_role : RoleSpecifier) : M ptr :=
  basic_event ← ConstructElement_Role (Some KBasicEvent) event_node base_path container_role;
  Register KBasicEvent basic_event event_node ;;
  tbd_emplace_back KBasicEvent basic_event event_node ;;
  mret basic_event.

Definition Register_HouseEvent (event_node : xmlpp.Element) (base_path : string)
    (container_role : RoleSpecifier) : M ptr :=
  house_event ← ConstructElement_Role (Some KHouseEvent) event_node base_path container_role;
  Register KHouseEvent house_event event_node ;;
  let expression := xmlpp.find event_node "constant" in
  match expression with
  | [] => mret tt
  | constant :: _ =>
      assert_ (bool_decide (length expression = 1%nat)) ;;
      let val := GetAttributeValue constant "value" in
      assert_ (bool_decide (val = "true") || bool_decide (val = "false")) ;;
      write house_event f_state (VBool (bool_decide (val = "true")))
  end ;;
  mret house_event.

(** [boost::find(table, s) - std::begin(table)]: the position of the first
    occurrence, the length of the table when there is none. *)
Fixpoint find_pos (table : list string) (s : string) : nat :=
  match table with
  | [] => 0
  | x :: rest => if decide (x = s) then 0 else S (find_pos rest s)
  end.

Definition Register_Parameter (param_node : xmlpp.Element) (base_path : string)
    (container_role : RoleSpecifier) : M ptr :=
  parameter ← ConstructElement_Role (Some KParameter) param_node base_path container_role;
  Register KParameter parameter param_node ;;
  tbd_emplace_back KParameter parameter param_node ;;
  let unit := GetAttributeValue param_node "unit" in
  (if bool_decide (unit = "") then mret tt
   else
     let pos := find_pos kUnitsToString unit in
     assert_ (bool_decide (pos < length kUnitsToString)%nat) ;;
     write parameter f_unit (VNat pos)) ;;
  mret parameter.

(** [CcfGroup::AddMember] *)
Definition AddMember (ccf_group basic_event : ptr) : M unit :=
  st ← get_state;
  match AddMember_invalid (heap st) ccf_group basic_event with
  | Some msg => throw (DuplicateArgumentError msg)
  | None =>
      write ccf_group f_members
            (VPtrs (ptrs_of (heap st) ccf_group f_members ++ [basic_event]))
  end.

Definition ProcessCcfMembers (members_node : xmlpp.Element) (ccf_group : ptr) : M unit :=
  for_each (xmlpp.children members_node) (λ event_node,
    assert_ (bool_decide ("basic-event" = xmlpp.get_name event_node)) ;;
    let name := GetAttributeValue event_node "name" in
    st ← get_state;
    basic_event ← new;
    write basic_event f_name (VString name) ;;
    write basic_event f_base_path (VString (base_path_of (heap st) ccf_group)) ;;
    write basic_event f_role (VRole (role_of (heap st) ccf_group)) ;;
    prefix_DuplicateArgumentError (GetLine event_node) (AddMember ccf_group basic_event) ;;
    Register KBasicEvent basic_event event_node).

Definition Register_CcfGroup (ccf_node : xmlpp.Element) (base_path : string)
    (container_role : RoleSpecifier) : M ptr :=
  let model := GetAttributeValue ccf_node "model" in
  (if bool_decide (model = "beta-factor") || bool_decide (model = "MGL")
      || bool_decide (model = "alpha-factor") then mret tt
   else assert_ (bool_decide (model = "phi-factor"))) ;;
  ccf_group ← ConstructElement_Role (Some KCcfGroup) ccf_node base_path container_role;
  write ccf_group f_ccf_model (VString model) ;;
  Register KCcfGroup ccf_group ccf_node ;;
  let members := xmlpp.find ccf_node "members" in
  assert_ (bool_decide (length members = 1%nat)) ;;
  from_option (λ members_node, ProcessCcfMembers members_node ccf_group)
              (mret tt) (head members) ;;
  tbd_emplace_back KCcfGroup ccf_group ccf_node ;;
  mret ccf_group.

Definition Register_Sequence (xml_node : xmlpp.Element) (base_path : string)
    (container_role : RoleSpecifier) : M ptr :=
  sequence ← ConstructElement (Some KSequence) xml_node;
  Register KSequence sequence xml_node ;;
  tbd_emplace_back KSequence sequence xml_node ;;
  mret sequence.

(** [EventTree::Add] for a functional event, a sequence or a named branch:
    the list it goes to is the data member [f]. *)
Definition EventTree_Add (event_tree : ptr) (f : Field) (element : ptr) : M unit :=
  st ← get_state;
  match EventTree_Add_invalid (heap st) event_tree f element with
  | Some msg => throw (ValidationError msg)
  | None =>
      write event_tree f (VPtrs (ptrs_of (heap st) event_tree f ++ [element]))
  end.

Definition DefineEventTree (et_node : xmlpp.Element) : M unit :=
  event_tree ← ConstructElement (Some KEventTree) et_node;
  for_each (xmlpp.find et_node "define-functional-event") (λ node,
    prefix_ValidationError (GetLine node)
      (functional_event ← ConstructElement None node;
       EventTree_Add event_tree f_functional_events functional_event)) ;;
  for_each (xmlpp.find et_node "define-sequence") (λ node,
    st ← get_state;
    sequence ← Register_Sequence node (name_of (heap st) event_tree) kPublic;
    EventTree_Add event_tree f_sequences sequence) ;;
  for_each (xmlpp.find et_node "define-branch") (λ node,
    prefix_ValidationError (GetLine node)
      (branch ← ConstructElement None node;
       EventTree_Add event_tree f_branches branch)) ;;
  let tbd_element := event_tree in
  Register KEventTree event_tree et_node ;;
  tbd_emplace_back KEventTree tbd_element et_node.

(** ** Facts: the work list and the registries *)

(** Nothing is registered and nothing is put on the work list. *)
Definition same_registry : relation Initializer := λ st st',
  tbd_ st' = tbd_ st ∧ model_ st' = model_ st.

(** The work list is as it was; the registries may have grown. *)
Definition registry_grows : relation Initializer := λ st st',
  tbd_ st' = tbd_ st ∧ ∀ k, table (model_ st) k `prefix_of` table (model_ st') k.

(** The work list has grown by entries whose elements are in the registry of
    their kind; the registries may have grown. *)
Definition tbd_registered : relation Initializer := λ st st',
  (∃ added, tbd_ st' = tbd_ st ++ added ∧
            ∀ k p x, ((k, p), x) ∈ added → p ∈ table (model_ st') k) ∧
  ∀ k, table (model_ st) k `prefix_of` table (model_ st') k.

#[local] Instance same_registry_po : PreOrder same_registry.
Proof.
  split; [done|]. intros a b c [H1 H2] [H3 H4]. split; congruence.
Qed.

#[local] Instance registry_grows_po : PreOrder registry_grows.
Proof.
  split; [done|]. intros a b c [H1 H2] [H3 H4].
  split; [congruence|]. intros k. etrans; [apply H2|apply H4].
Qed.

#[local] Instance tbd_registered_po : PreOrder tbd_registered.
Proof.
  split.
  - intros a. split; [|done]. exists []. split; [by rewrite app_nil_r|].
    intros ??? Hin. by apply elem_of_nil in Hin.
  - intros a b c [(l1 & H1 & H1') H2] [(l2 & H3 & H3') H4].
    split; [|intros k; etrans; [apply H2|apply H4]].
    exists (l1 ++ l2). split; [by rewrite H3, H1, app_assoc|].
    intros k p x [Hin|Hin]%elem_of_app; [|by eauto].
    eapply elem_of_prefix; [by eapply H1'|done].
Qed.

Lemma same_registry_grows st st' : same_registry st st' → registry_grows st st'.
Proof. intros [H1 H2]. split; [done|]. by rewrite H2. Qed.

Lemma registry_grows_registered st st' : registry_grows st st' → tbd_registered st st'.
Proof.
  intros [H1 H2]. split; [|done]. exists []. split; [by rewrite app_nil_r|].
  intros ??? Hin. by apply elem_of_nil in Hin.
Qed.

Lemma same_registry_set_heap st h : same_registry st (set_heap h st).
Proof. done. Qed.

#[local] Hint Resolve same_registry_set_heap : keeps.

Lemma keeps_GetRole_inherit s r : keeps same_registry (GetRole_inherit s r).
Proof. unfold GetRole_inherit, GetRole. repeat keeps_step. Qed.

Lemma keeps_AddAttribute p a : keeps same_registry (AddAttribute p a).
Proof. unfold AddAttribute. repeat keeps_step. Qed.

Lemma keeps_attach_attributes nodes p : keeps same_registry (attach_attributes nodes p).
Proof.
  induction nodes as [|n nodes IH]; simpl; repeat keeps_step;
    [apply keeps_AddAttribute|done].
Qed.

Lemma keeps_AttachLabelAndAttributes x p :
  keeps same_registry (AttachLabelAndAttributes x p).
Proof.
  unfold AttachLabelAndAttributes. repeat keeps_step; apply keeps_attach_attributes.
Qed.

Lemma keeps_construct_defaults k p : keeps same_registry (construct_defaults k p).
Proof. unfold construct_defaults. repeat keeps_step. Qed.

Lemma keeps_ConstructElement k x : keeps same_registry (ConstructElement k x).
Proof.
  unfold ConstructElement. repeat keeps_step;
    auto using keeps_construct_defaults, keeps_AttachLabelAndAttributes.
Qed.

Lemma keeps_ConstructElement_Role k x bp r :
  keeps same_registry (ConstructElement_Role k x bp r).
Proof.
  unfold ConstructElement_Role. repeat keeps_step;
    auto using keeps_GetRole_inherit, keeps_construct_defaults,
      keeps_AttachLabelAndAttributes.
Qed.

Lemma keeps_AddMember g p : keeps same_registry (AddMember g p).
Proof. unfold AddMember. repeat keeps_step. Qed.

Lemma keeps_EventTree_Add t f p : keeps same_registry (EventTree_Add t f p).
Proof. unfold EventTree_Add. repeat keeps_step. Qed.

Lemma keeps_tbd_eq {A} R (m : M A) st r st' :
  (∀ st st', R st st' → tbd_ st' = tbd_ st) → keeps R m →
  m st = (r, st') → tbd_ st' = tbd_ st.
Proof. intros HR Hm Hrun. by eapply HR, Hm. Qed.

(** What [Register] does to the registry of the kind. *)
Lemma Register_inv k p x st r st' :
  Register k p x st = (r, st') →
  tbd_ st' = tbd_ st ∧
  ((r = Ok tt ∧ Model_Add_invalid k (model_ st) (heap st) p = None ∧
    model_ st' = add_to_table k p (model_ st)) ∨
   (∃ msg, Model_Add_invalid k (model_ st) (heap st) p = Some msg ∧
           r = Throw (ValidationError (GetLine x +:+ msg)) ∧ st' = st)).
Proof.
  unfold Register, prefix_ValidationError, Model_Add, mbind, M_bind, get_state.
  destruct (Model_Add_invalid k (model_ st) (heap st) p) as [msg|]; simpl.
  - intros [= <- <-]. split; [done|]. right. by exists msg.
  - intros [= <- <-]. split; [done|]. by left.
Qed.

Lemma elem_of_add_to_table k p m : p ∈ table (add_to_table k p m) k.
Proof. simpl. rewrite decide_True by done. apply elem_of_app. right. by left. Qed.

Lemma prefix_add_to_table k p m k' :
  table m k' `prefix_of` table (add_to_table k p m) k'.
Proof. simpl. case_decide; [by apply prefix_app_r|done]. Qed.

Lemma keeps_Register k p x : keeps registry_grows (Register k p x).
Proof.
  intros st r st' [Htbd [(_ & _ & Hm)|(msg & _ & _ & ->)]]%Register_inv; [|done].
  split; [done|]. intros k'. rewrite Hm. apply prefix_add_to_table.
Qed.

Lemma keeps_ProcessCcfMembers x g : keeps registry_grows (ProcessCcfMembers x g).
Proof.
  unfold ProcessCcfMembers.
  repeat first
    [ apply keeps_Register
    | apply (keeps_weaken same_registry); [apply same_registry_grows|];
      first [apply keeps_AddMember|apply keeps_get_state; apply _
            |apply keeps_assert; apply _
            |apply keeps_write; [apply _|apply same_registry_set_heap]
            |apply keeps_new; [apply _|apply same_registry_set_heap] ]
    | keeps_step ].
Qed.

(** The registrations that leave work for the deferred definition. *)
Definition Register_of (k : Kind)
  : option (xmlpp.Element → string → RoleSpecifier → M ptr) :=
  match k with
  | KGate => Some Register_Gate
  | KBasicEvent => Some Register_BasicEvent
  | KParameter => Some Register_Parameter
  | KCcfGroup => Some Register_CcfGroup
  | KSequence => Some Register_Sequence
  | _ => None
  end.

(** The sequences of an event tree are on the work list, and registered. *)
Definition sequences_registered : relation Initializer := λ st st',
  (∃ added, tbd_ st' = tbd_ st ++ added ∧
            Forall (λ e : TbdElement,
                      e.1.1 = KSequence ∧ e.1.2 ∈ sequences (model_ st')) added) ∧
  ∀ k, table (model_ st) k `prefix_of` table (model_ st') k.

#[local] Instance sequences_registered_po : PreOrder sequences_registered.
Proof.
  split.
  - intros a. split; [|done]. exists []. by rewrite app_nil_r.
  - intros a b c [(l1 & H1 & H1') H2] [(l2 & H3 & H3') H4].
    split; [|intros k; etrans; [apply H2|apply H4]].
    exists (l1 ++ l2). split; [by rewrite H3, H1, app_assoc|].
    apply Forall_app. split; [|done].
    eapply Forall_impl; [exact H1'|]. intros e [? Hin]. split; [done|].
    eapply elem_of_prefix; [exact Hin|apply H4].
Qed.

Lemma registry_grows_sequences st st' :
  registry_grows st st' → sequences_registered st st'.
Proof. intros [H1 H2]. split; [|done]. exists []. by rewrite app_nil_r. Qed.

Lemma tbd_emplace_back_inv k p x st r st' :
  tbd_emplace_back k p x st = (r, st') →
  r = Ok tt ∧ tbd_ st' = tbd_ st ++ [((k, p), x)] ∧ model_ st' = model_ st.
Proof. by intros [= <- <-]. Qed.

(** [returns m a]: [m] returns [a], unless an assertion fails. *)
Definition returns {A} (m : M A) (a : A) : Prop :=
  ∀ st r st', m st = (r, st') → r = Ok a ∨ r = Throw AssertionFailure.

Lemma Register_then_emplace k p x st r st' (rest : M ptr) :
  keeps same_registry rest → returns rest p →
  (Register k p x ;; tbd_emplace_back k p x ;; rest) st = (r, st') →
  match r with
  | Ok q => q = p ∧ tbd_ st' = tbd_ st ++ [((k, p), x)] ∧ p ∈ table (model_ st') k
  | Throw e => e ≠ AssertionFailure → tbd_ st' = tbd_ st
  end.
Proof.
  intros Hkeeps Hrest Hrun. bind_inv Hrun as u st1 Hreg.
  - apply Register_inv in Hreg as [Htbd [(_ & _ & Hm)|(msg & _ & [=] & _)]].
    bind_inv Hrun as u' st2 Hemp.
    + apply tbd_emplace_back_inv in Hemp as (_ & Htbd' & Hm').
      pose proof (Hkeeps _ _ _ Hrun) as [Htbd'' Hm''].
      destruct (Hrest _ _ _ Hrun) as [-> | ->]; [|done].
      rewrite Htbd'', Htbd', Htbd, Hm'', Hm', Hm.
      split_and!; [done..|apply elem_of_add_to_table].
    + by apply tbd_emplace_back_inv in Hrun as ([=] & _).
  - apply Register_inv in Hrun as [Htbd _]. done.
Qed.

Lemma returns_ret {A} (a : A) : returns (mret a) a.
Proof. intros st r st' [= <- _]. by left. Qed.

Lemma returns_assert_then {A} cond (m : M A) a :
  returns m a → returns (assert_ cond ;; m) a.
Proof.
  intros Hm st r st' Hrun. destruct cond; simpl in Hrun.
  - by eapply Hm.
  - injection Hrun as <- _. by right.
Qed.

Lemma Register_of_tbd k reg node base_path role st r st' :
  Register_of k = Some reg →
  reg node base_path role st = (r, st') →
  match r with
  | Ok p => tbd_ st' = tbd_ st ++ [((k, p), node)] ∧ p ∈ table (model_ st') k
  | Throw e => e ≠ AssertionFailure → tbd_ st' = tbd_ st
  end.
Proof.
  intros Hreg Hrun.
  destruct k; simpl in Hreg; simplify_eq;
    unfold Register_Gate, Register_BasicEvent, Register_Parameter,
      Register_CcfGroup, Register_Sequence in Hrun.
  - (* gate *)
    bind_inv Hrun as p st1 Hnew.
    + apply keeps_ConstructElement_Role in Hnew as [Htbd Hm].
      apply Register_then_emplace in Hrun;
        [|apply keeps_ret; apply _|apply returns_ret].
      destruct r; [destruct Hrun as (-> & ? & ?)|]; by rewrite <-Htbd.
    + intros _. by apply keeps_ConstructElement_Role in Hrun as [-> _].
  - (* basic event *)
    bind_inv Hrun as p st1 Hnew.
    + apply keeps_ConstructElement_Role in Hnew as [Htbd Hm].
      apply Register_then_emplace in Hrun;
        [|apply keeps_ret; apply _|apply returns_ret].
      destruct r; [destruct Hrun as (-> & ? & ?)|]; by rewrite <-Htbd.
    + intros _. by apply keeps_ConstructElement_Role in Hrun as [-> _].
  - (* parameter *)
    bind_inv Hrun as p st1 Hnew.
    + apply keeps_ConstructElement_Role in Hnew as [Htbd Hm].
      apply Register_then_emplace in Hrun.
      * destruct r; [destruct Hrun as (-> & ? & ?)|]; by rewrite <-Htbd.
      * repeat keeps_step.
      * intros s r' s' Hrest. bind_inv Hrest as u s1 Hunit.
        { injection Hrest as <- _. by left. }
        right. f_equal. case_bool_decide; [done|].
        bind_inv Hrest as u s1 Hassert; [by injection Hrest|].
        unfold assert_ in Hrest. case_bool_decide; by injection Hrest.
    + intros _. by apply keeps_ConstructElement_Role in Hrun as [-> _].
  - (* CCF group *)
    bind_inv Hrun as u st1 Hmodel.
    2: { intros _. revert Hrun. apply (keeps_tbd_eq same_registry); [by intros ?? [? _]|].
         repeat keeps_step. }
    apply (keeps_tbd_eq same_registry) in Hmodel as Htbd1;
      [|by intros ?? [? _]|repeat keeps_step].
    bind_inv Hrun as p st2 Hnew.
    2: { intros _. apply keeps_ConstructElement_Role in Hrun as [-> _]. done. }
    apply keeps_ConstructElement_Role in Hnew as [Htbd2 _].
    bind_inv Hrun as u2 st3 Hwrite; [|by injection Hrun].
    injection Hwrite as _ <-.
    bind_inv Hrun as u3 st4 Hreg.
    2: { intros _. apply Register_inv in Hrun as [-> _]. simpl. congruence. }
    apply Register_inv in Hreg as [Htbd4 [(_ & _ & Hm4)|(? & _ & [=] & _)]].
    simpl in Htbd4, Hm4.
    bind_inv Hrun as u4 st5 Hassert.
    2: { intros _. apply (keeps_tbd_eq same_registry) in Hrun;
           [congruence|by intros ?? [? _]|repeat keeps_step]. }
    apply (keeps_tbd_eq same_registry) in Hassert as Htbd5;
      [|by intros ?? [? _]|repeat keeps_step].
    assert (model_ st5 = model_ st4) as Hm5.
    { unfold assert_ in Hassert. case_bool_decide; by injection Hassert as _ <-. }
    assert (keeps registry_grows
              (from_option (λ members_node, ProcessCcfMembers members_node p)
                           (mret ()) (head (xmlpp.find node "members")))) as Hmem.
    { keeps_step; [apply keeps_ProcessCcfMembers|apply keeps_ret; apply _]. }
    bind_inv Hrun as u5 st6 Hmembers.
    2: { intros _. apply Hmem in Hrun as [-> _]. congruence. }
    apply Hmem in Hmembers as [Htbd6 Hm6].
    bind_inv Hrun as u6 st7 Hemp; [|by injection Hrun].
    apply tbd_emplace_back_inv in Hemp as (_ & Htbd7 & Hm7).
    injection Hrun as <- <-.
    split; [congruence|].
    rewrite Hm7. eapply elem_of_prefix; [|apply Hm6].
    rewrite Hm5, Hm4. apply elem_of_add_to_table.
  - (* sequence *)
    bind_inv Hrun as p st1 Hnew.
    + apply keeps_ConstructElement in Hnew as [Htbd Hm].
      apply Register_then_emplace in Hrun;
        [|apply keeps_ret; apply _|apply returns_ret].
      destruct r; [destruct Hrun as (-> & ? & ?)|]; by rewrite <-Htbd.
    + intros _. by apply keeps_ConstructElement in Hrun as [-> _].
Qed.

Lemma keeps_Register_Sequence x bp role :
  keeps sequences_registered (Register_Sequence x bp role).
Proof.
  intros st r st' Hrun. unfold Register_Sequence in Hrun.
  bind_inv Hrun as p st1 Hnew.
  2: { apply keeps_ConstructElement in Hrun.
       by apply registry_grows_sequences, same_registry_grows. }
  apply keeps_ConstructElement in Hnew as [Htbd1 Hm1].
  bind_inv Hrun as u st2 Hreg.
  2: { apply keeps_Register in Hrun as [Htbd Hm].
       apply registry_grows_sequences. split; [congruence|]. by rewrite <-Hm1. }
  apply Register_inv in Hreg as [Htbd2 [(_ & _ & Hm2)|(? & _ & [=] & _)]].
  bind_inv Hrun as u' st3 Hemp; [|by injection Hrun].
  apply tbd_emplace_back_inv in Hemp as (_ & Htbd3 & Hm3).
  injection Hrun as _ <-. split.
  - exists [((KSequence, p), x)]. split; [congruence|].
    repeat constructor. unfold sequences. simpl.
    rewrite Hm3, Hm2. apply elem_of_add_to_table.
  - intros k. rewrite Hm3, Hm2, Hm1. apply prefix_add_to_table.
Qed.

Lemma keeps_sequences_of_same {A} (m : M A) :
  keeps same_registry m → keeps sequences_registered m.
Proof.
  apply keeps_weaken. intros ???.
  by apply registry_grows_sequences, same_registry_grows.
Qed.

Lemma DefineEventTree_tbd et_node st r st' :
  DefineEventTree et_node st = (r, st') →
  ∃ seqs, Forall (λ e : TbdElement,
                    e.1.1 = KSequence ∧ e.1.2 ∈ sequences (model_ st')) seqs ∧
    match r with
    | Ok _ => ∃ event_tree,
        tbd_ st' = tbd_ st ++ seqs ++ [((KEventTree, event_tree), et_node)] ∧
        event_tree ∈ event_trees (model_ st')
    | Throw _ => tbd_ st' = tbd_ st ++ seqs
    end.
Proof.
  intros Hrun. unfold DefineEventTree in Hrun.
  assert (∀ s s', sequences_registered s s' →
            ∃ seqs, Forall (λ e : TbdElement,
                      e.1.1 = KSequence ∧ e.1.2 ∈ sequences (model_ s')) seqs ∧
                    tbd_ s' = tbd_ s ++ seqs) as Hthrow.
  { intros s s' [(seqs & ? & ?) _]. by exists seqs. }
  assert (∀ k x, keeps sequences_registered (ConstructElement k x)) as Hk1.
  { intros. apply keeps_sequences_of_same, keeps_ConstructElement. }
  assert (∀ t, keeps sequences_registered
            (for_each (xmlpp.find et_node "define-functional-event") (λ node,
               prefix_ValidationError (GetLine node)
                 (functional_event ← ConstructElement None node;
                  EventTree_Add t f_functional_events functional_event)))) as Hk2.
  { intros. apply keeps_sequences_of_same. repeat keeps_step;
      auto using keeps_ConstructElement, keeps_EventTree_Add. }
  assert (∀ t, keeps sequences_registered
            (for_each (xmlpp.find et_node "define-sequence") (λ node,
               st ← get_state;
               sequence ← Register_Sequence node (name_of (heap st) t) kPublic;
               EventTree_Add t f_sequences sequence))) as Hk3.
  { intros. repeat keeps_step;
      [apply keeps_Register_Sequence
      |apply keeps_sequences_of_same, keeps_EventTree_Add]. }
  assert (∀ t, keeps sequences_registered
            (for_each (xmlpp.find et_node "define-branch") (λ node,
               prefix_ValidationError (GetLine node)
                 (branch ← ConstructElement None node;
                  EventTree_Add t f_branches branch)))) as Hk4.
  { intros. apply keeps_sequences_of_same. repeat keeps_step;
      auto using keeps_ConstructElement, keeps_EventTree_Add. }
  bind_inv Hrun as t st1 Hnew.
  2: { apply Hk1 in Hrun. by apply Hthrow. }
  apply Hk1 in Hnew as H1.
  bind_inv Hrun as u2 st2 Hfe.
  2: { apply Hk2 in Hrun. apply Hthrow. by etrans. }
  apply Hk2 in Hfe as H2.
  bind_inv Hrun as u3 st3 Hseq.
  2: { apply Hk3 in Hrun. apply Hthrow. etrans; [|done]. by etrans. }
  apply Hk3 in Hseq as H3.
  bind_inv Hrun as u4 st4 Hbr.
  2: { apply Hk4 in Hrun. apply Hthrow. etrans; [|done]. etrans; [|done]. by etrans. }
  apply Hk4 in Hbr as H4.
  assert (sequences_registered st st4) as [(seqs & Htbd & Hseqs) Hgrow].
  { etrans; [|done]. etrans; [|done]. by etrans. }
  bind_inv Hrun as u5 st5 Hreg.
  - apply Register_inv in Hreg as [Htbd5 [(_ & _ & Hm5)|(? & _ & [=] & _)]].
    apply tbd_emplace_back_inv in Hrun as (-> & Htbd' & Hm').
    exists seqs. split.
    + eapply Forall_impl; [exact Hseqs|]. intros e [? Hin]. split; [done|].
      unfold sequences. rewrite Hm', Hm5.
      eapply elem_of_prefix; [exact Hin|apply prefix_add_to_table].
    + exists t. split; [by rewrite Htbd', Htbd5, Htbd, app_assoc|].
      unfold event_trees. rewrite Hm', Hm5. apply elem_of_add_to_table.
  - apply Register_inv in Hrun as [Htbd5 [([=] & _)|(? & _ & _ & ->)]].
    by exists seqs.
Qed.

(** C9: a gate, basic event, parameter, CCF group or sequence goes on the
    work list only when [Register] has put it in the registry of the model:
    when the registration returns, the work list has grown by exactly the
    entry of the element, and the element is in the registry of its kind; when
    it throws, the work list is what it was.  For an event tree, the entry is
    added after the registration of the tree as well: if [DefineEventTree]
    throws, the work list has gained at most the entries of the sequences of
    the tree, which are registered, and no entry for the tree. *)
Theorem Register_tbd_spec :
  (∀ k reg node base_path role st r st',
     Register_of k = Some reg →
     reg node base_path role st = (r, st') →
     match r with
     | Ok p => tbd_ st' = tbd_ st ++ [((k, p), node)] ∧ p ∈ table (model_ st') k
     | Throw e => e ≠ AssertionFailure → tbd_ st' = tbd_ st
     end) ∧
  (∀ et_node st r st',
     DefineEventTree et_node st = (r, st') →
     ∃ seqs, Forall (λ e : TbdElement,
                       e.1.1 = KSequence ∧ e.1.2 ∈ sequences (model_ st')) seqs ∧
       match r with
       | Ok _ => ∃ event_tree,
           tbd_ st' = tbd_ st ++ seqs ++ [((KEventTree, event_tree), et_node)] ∧
           event_tree ∈ event_trees (model_ st')
       | Throw _ => tbd_ st' = tbd_ st ++ seqs
       end).
Proof. split; [apply Register_of_tbd|apply DefineEventTree_tbd]. Qed.

(** ** Facts: what the construction of an element writes *)

Lemma keeps_field_AddAttribute p f element a :
  (p, f) ≠ (element, f_attributes) → keeps (same_field p f) (AddAttribute element a).
Proof. intros Hne. unfold AddAttribute. repeat field_step. Qed.

Lemma keeps_field_attach_attributes p f nodes element :
  (p, f) ≠ (element, f_attributes) →
  keeps (same_field p f) (attach_attributes nodes element).
Proof.
  intros Hne. induction nodes as [|n nodes IH]; simpl; repeat field_step;
    [by apply keeps_field_AddAttribute|done].
Qed.

Lemma keeps_field_AttachLabelAndAttributes p f x element :
  (p, f) ≠ (element, f_label) → (p, f) ≠ (element, f_attributes) →
  keeps (same_field p f) (AttachLabelAndAttributes x element).
Proof.
  intros Hlabel Hattributes. unfold AttachLabelAndAttributes.
  repeat field_step; by apply keeps_field_attach_attributes.
Qed.

Lemma keeps_next_AddAttribute element a : keeps same_next (AddAttribute element a).
Proof. unfold AddAttribute. repeat field_step. Qed.

Lemma keeps_next_attach_attributes nodes element :
  keeps same_next (attach_attributes nodes element).
Proof.
  induction nodes as [|n nodes IH]; simpl; repeat field_step;
    [by apply keeps_next_AddAttribute|done].
Qed.

Lemma keeps_next_AttachLabelAndAttributes x element :
  keeps same_next (AttachLabelAndAttributes x element).
Proof.
  unfold AttachLabelAndAttributes.
  repeat field_step; by apply keeps_next_attach_attributes.
Qed.

(** The attribute that an [attribute] element stands for. *)
Definition xml_attribute (attribute : xmlpp.Element) : Attribute :=
  {| attr_name := GetAttributeValue attribute "name";
     attr_value := GetAttributeValue attribute "value";
     attr_type := GetAttributeValue attribute "type" |}.

Definition label_of (h : Heap) (p : ptr) : string :=
  match fields h !! (p, f_label) with Some (VString s) => s | _ => "" end.

Lemma attributes_of_store h p l :
  attributes_of (store p f_attributes (VAttributes l) h) p = l.
Proof. unfold attributes_of, store. simpl. by rewrite lookup_insert_eq. Qed.

Lemma attributes_of_same_field st st' p :
  same_field p f_attributes st st' →
  attributes_of (heap st') p = attributes_of (heap st) p.
Proof. unfold same_field, attributes_of. by intros ->. Qed.

Lemma label_of_same_field st st' p :
  same_field p f_label st st' → label_of (heap st') p = label_of (heap st) p.
Proof. unfold same_field, label_of. by intros ->. Qed.

(** The loop over the [attribute] elements: the attributes are added in the
    order of the document, each to the ones before it; the first one that is
    refused stops the loop, with its line in front of the message, and the
    ones before it stay. *)
Lemma attach_attributes_spec nodes element st r st' :
  attach_attributes nodes element st = (r, st') →
  let old := attributes_of (heap st) element in
  match r with
  | Ok _ =>
      attributes_of (heap st') element = old ++ (xml_attribute <$> nodes) ∧
      ∀ (i : nat) attribute, nodes !! i = Some attribute →
        AddAttribute_invalid (old ++ (xml_attribute <$> take i nodes))
                             (xml_attribute attribute) = None
  | Throw e =>
      ∃ (i : nat) attribute reason,
        nodes !! i = Some attribute ∧
        AddAttribute_invalid (old ++ (xml_attribute <$> take i nodes))
                             (xml_attribute attribute) = Some reason ∧
        e = ValidationError (GetLine attribute +:+ reason) ∧
        attributes_of (heap st') element = old ++ (xml_attribute <$> take i nodes)
  end.
Proof.
  revert st. induction nodes as [|a nodes IH]; intros st Hrun.
  { injection Hrun as <- <-. simpl. rewrite app_nil_r. split; [done|]. by intros i ? ?. }
  cbn [attach_attributes] in Hrun. fold (xml_attribute a) in Hrun.
  assert (prefix_ValidationError (GetLine a) (AddAttribute element (xml_attribute a)) st
          = match AddAttribute_invalid (attributes_of (heap st) element)
                                       (xml_attribute a) with
            | Some reason => (Throw (ValidationError (GetLine a +:+ reason)), st)
            | None =>
                (Ok tt, set_heap (store element f_attributes
                                    (VAttributes (attributes_of (heap st) element
                                                  ++ [xml_attribute a]))
                                    (heap st)) st)
            end) as Hadd.
  { unfold prefix_ValidationError, AddAttribute. rewrite get_state_bind.
    by destruct (AddAttribute_invalid _ _). }
  destruct (AddAttribute_invalid (attributes_of (heap st) element) (xml_attribute a))
    as [reason|] eqn:Hinvalid.
  { rewrite (bind_Throw _ _ _ _ _ Hadd) in Hrun. injection Hrun as <- <-.
    exists 0%nat, a, reason. simpl. by rewrite app_nil_r. }
  rewrite (bind_Ok _ _ _ _ _ Hadd) in Hrun.
  apply IH in Hrun. cbn [heap set_heap] in Hrun. rewrite attributes_of_store in Hrun.
  destruct r as [[]|e].
  - destruct Hrun as [Hattrs Hall]. split; [by rewrite Hattrs, <-app_assoc|].
    intros [|i] attribute Hi.
    + injection Hi as <-. simpl. by rewrite app_nil_r.
    + specialize (Hall i attribute Hi). by rewrite <-app_assoc in Hall.
  - destruct Hrun as (i & attribute & reason & Hi & Hbad & -> & Hattrs).
    exists (S i), attribute, reason.
    rewrite <-app_assoc in Hbad, Hattrs. done.
Qed.

(** X2: [AttachLabelAndAttributes] adds the attributes of the one [attributes]
    element in the order of the document, after the attributes that the
    object has already, and sets the label to the text of the [label] element
    when there is one.  An attribute that [AddAttribute] refuses ends it with
    a [ValidationError] that has the line of that [attribute] element in
    front; the attributes before it stay attached.  The only other way to
    fail is an assertion: a second [label] or [attributes] element, or a
    label without text. *)
Theorem AttachLabelAndAttributes_spec xml_element element st r st' :
  AttachLabelAndAttributes xml_element element st = (r, st') →
  let labels := xmlpp.find xml_element "label" in
  let nodes :=
    match xmlpp.find xml_element "attributes" with
    | attributes_element :: _ => xmlpp.find attributes_element "attribute"
    | [] => []
    end in
  let old := attributes_of (heap st) element in
  match r with
  | Ok _ =>
      attributes_of (heap st') element = old ++ (xml_attribute <$> nodes) ∧
      label_of (heap st') element
      = match labels with
        | label :: _ => from_option GetContent "" (xmlpp.get_child_text label)
        | [] => label_of (heap st) element
        end
  | Throw (ValidationError msg) =>
      ∃ (i : nat) attribute reason,
        nodes !! i = Some attribute ∧
        AddAttribute_invalid (old ++ (xml_attribute <$> take i nodes))
                             (xml_attribute attribute) = Some reason ∧
        msg = GetLine attribute +:+ reason ∧
        attributes_of (heap st') element = old ++ (xml_attribute <$> take i nodes)
  | Throw e =>
      e = AssertionFailure ∧
      ((1 < length labels)%nat ∨
       (∃ label, head labels = Some label ∧ xmlpp.get_child_text label = None) ∨
       (1 < length (xmlpp.find xml_element "attributes"))%nat)
  end.
Proof.
  intros Hrun labels nodes old. unfold AttachLabelAndAttributes in Hrun.
  fold labels in Hrun.
  bind_inv Hrun as u st1 Hlabel.
  2: { (* the label fails *)
    destruct labels as [|label more] eqn:Hlabels; [done|].
    bind_inv Hrun as u st1 Hassert.
    - destruct (xmlpp.get_child_text label) eqn:Htext; [done|].
      injection Hrun as <- _. split; [done|]. right. left. by exists label.
    - apply assert_inv in Hrun as [_ [[_ [=]]|[Hlen [= ->]]]].
      split; [done|]. left. apply bool_decide_eq_false in Hlen. simpl in *. lia. }
  assert (attributes_of (heap st1) element = old ∧
          label_of (heap st1) element
          = match labels with
            | label :: _ => from_option GetContent "" (xmlpp.get_child_text label)
            | [] => label_of (heap st) element
            end) as [Hold Hlabel1].
  { destruct labels as [|label more]; [by injection Hlabel as _ <-|].
    bind_inv Hlabel as u' st2 Hassert.
    apply assert_inv in Hassert as [-> _].
    destruct (xmlpp.get_child_text label) as [text|]; [|done].
    injection Hlabel as _ <-. split.
    - unfold old, attributes_of. simpl. by rewrite lookup_insert_ne.
    - unfold label_of. simpl. by rewrite lookup_insert_eq. }
  clear Hlabel.
  destruct (xmlpp.find xml_element "attributes") as [|attributes_element more]
    eqn:Hattributes.
  { injection Hrun as <- <-. subst nodes. simpl. by rewrite app_nil_r. }
  bind_inv Hrun as u' st2 Hassert.
  2: { apply assert_inv in Hrun as [_ [[_ [=]]|[Hlen [= ->]]]].
       split; [done|]. right. right.
       apply bool_decide_eq_false in Hlen. simpl in *. lia. }
  apply assert_inv in Hassert as [-> _].
  pose proof (keeps_field_attach_attributes element f_label nodes element
                ltac:(congruence) _ _ _ Hrun) as Hframe.
  apply attach_attributes_spec in Hrun. simpl in Hrun. rewrite Hold in Hrun.
  destruct r as [[]|e].
  - destruct Hrun as [Hattrs _]. split; [done|].
    by rewrite (label_of_same_field _ _ _ Hframe).
  - destruct Hrun as (i & attribute & reason & Hi & Hinvalid & -> & Hattrs).
    by exists i, attribute, reason.
Qed.

(** ** Facts: the element that [ConstructElement] returns *)

Lemma throws_AttachLabelAndAttributes x element :
  throws assertion_or_validation (AttachLabelAndAttributes x element).
Proof.
  assert (∀ nodes, throws assertion_or_validation (attach_attributes nodes element))
    as Hloop.
  { induction nodes as [|n nodes IH]; simpl; [apply throws_ret|].
    unfold AddAttribute. repeat throws_step; try done;
      first [by left|right; by eexists]. }
  unfold AttachLabelAndAttributes.
  repeat throws_step; try apply Hloop; first [by left|right; by eexists].
Qed.

Lemma throws_construct_defaults P k element : throws P (construct_defaults k element).
Proof. unfold construct_defaults. repeat throws_step. Qed.

Lemma keeps_field_construct_defaults p f k element :
  p ≠ element ∨ f ∈ [f_name; f_base_path; f_role; f_label; f_attributes] →
  keeps (same_field p f) (construct_defaults k element).
Proof.
  intros Hne. unfold construct_defaults.
  repeat first
    [ apply keeps_write_other; intros [= -> <-]; destruct Hne as [?|Hf];
      [done|set_unfold; naive_solver]
    | field_step ].
Qed.

Lemma GetRole_inherit_inv s parent_role st r st' :
  GetRole_inherit s parent_role st = (r, st') →
  st' = st ∧
  ((s = "" ∨ s = "public" ∨ s = "private") ∧
   r = Ok (if bool_decide (s = "") then parent_role
           else if bool_decide (s = "public") then kPublic else kPrivate) ∨
   s ≠ "" ∧ s ≠ "public" ∧ s ≠ "private" ∧ r = Throw AssertionFailure).
Proof.
  unfold GetRole_inherit, GetRole.
  case_bool_decide as Hempty; [intros [= <- <-]; naive_solver|].
  simpl. rewrite ret_bind.
  destruct (bool_decide (s = "public")) eqn:Hpublic; simpl.
  - intros [= <- <-]. apply bool_decide_eq_true in Hpublic. naive_solver.
  - apply bool_decide_eq_false in Hpublic.
    case_bool_decide as Hprivate; simpl; intros [= <- <-]; naive_solver.
Qed.

(** X3: [ConstructElement] for a class with a role returns a new object and
    touches no other: the registries, the work list and the data members of
    every object that was there stay as they are, whatever the outcome.  The
    new element has the name of the [name] attribute, the base path it is
    given, and the role of the [role] attribute, the role of its container
    when the attribute is empty.  A role other than "public" and "private" is
    an assertion failure; nothing but an assertion failure or a
    [ValidationError] is thrown. *)
Theorem ConstructElement_Role_spec k node base_path base_role st r st' :
  ConstructElement_Role k node base_path base_role st = (r, st') →
  let role := GetAttributeValue node "role" in
  tbd_ st' = tbd_ st ∧ model_ st' = model_ st ∧
  (∀ q f, q ≠ next (heap st) →
          fields (heap st') !! (q, f) = fields (heap st) !! (q, f)) ∧
  match r with
  | Ok element =>
      element = next (heap st) ∧ next (heap st') = S element ∧
      name_of (heap st') element = GetAttributeValue node "name" ∧
      base_path_of (heap st') element = base_path ∧
      role_of (heap st') element
      = (if bool_decide (role = "") then base_role
         else if bool_decide (role = "public") then kPublic else kPrivate) ∧
      (role = "" ∨ role = "public" ∨ role = "private")
  | Throw e =>
      assertion_or_validation e ∧
      (role ≠ "" → role ≠ "public" → role ≠ "private" →
       e = AssertionFailure ∧ st' = st)
  end.
Proof.
  intros Hrun role.
  pose proof (keeps_ConstructElement_Role _ _ _ _ _ _ _ Hrun) as [Htbd Hmodel].
  split; [done|]. split; [done|].
  unfold ConstructElement_Role in Hrun. fold role in Hrun.
  bind_inv Hrun as role' st1 Hrole.
  2: { apply GetRole_inherit_inv in Hrun as [-> [[_ [=]]|(? & ? & ? & [= ->])]].
       split; [done|]. split; [by left|done]. }
  apply GetRole_inherit_inv in Hrole as [-> [[Hrole [= ->]]|(_ & _ & _ & [=])]].
  bind_inv Hrun as element st2 Hnew.
  2: { by apply (throws_new (λ _, False)) in Hrun. }
  assert (element = next (heap st) ∧ next (heap st2) = S element ∧
          fields (heap st2) = fields (heap st)) as (-> & Hnext & Hfields).
  { unfold new in Hnew. simpl in Hnew. by injection Hnew as <- <-. }
  clear Hnew.
  match type of Hrun with
  | ?rest st2 = _ =>
      assert (∀ q f, q ≠ next (heap st) → keeps (same_field q f) rest) as Hothers;
      [|assert (∀ f, f ∈ [f_name; f_base_path; f_role] →
                     keeps (same_field (next (heap st)) f)
                           (from_option (λ k, construct_defaults k (next (heap st)))
                                        (mret tt) k ;;
                            AttachLabelAndAttributes node (next (heap st)) ;;
                            mret (next (heap st)))) as Hown;
        [|assert (keeps same_next rest) as Hsame_next;
          [|assert (throws assertion_or_validation rest) as Hthrows] ] ]
  end.
  { intros q f Hq.
    repeat first
      [ apply keeps_field_AttachLabelAndAttributes; congruence
      | apply keeps_field_construct_defaults; by left
      | field_step ]. }
  { intros f Hf.
    repeat first
      [ apply keeps_field_AttachLabelAndAttributes; intros [= ->]; set_solver
      | apply keeps_field_construct_defaults; right; set_solver
      | field_step ]. }
  { repeat first
      [ apply keeps_next_AttachLabelAndAttributes
      | unfold construct_defaults; field_step ]. }
  { repeat first [apply throws_AttachLabelAndAttributes
                 |apply throws_construct_defaults|throws_step]. }
  split.
  { intros q f Hq. rewrite <-Hfields. by eapply Hothers. }
  destruct r as [element|e].
  2: { split; [by eapply Hthrows|]. intros. destruct Hrole as [?|[?|?]]; done. }
  pose proof (Hsame_next _ _ _ Hrun) as Hnext'.
  bind_inv Hrun as u1 st3 Hname. injection Hname as _ <-.
  bind_inv Hrun as u2 st4 Hbase. injection Hbase as _ <-.
  bind_inv Hrun as u3 st5 Hrole'. injection Hrole' as _ <-.
  assert (element = next (heap st)) as ->.
  { bind_inv Hrun as u4 st6 Hd. bind_inv Hrun as u5 st7 Ha. by injection Hrun. }
  split; [done|]. split; [by rewrite Hnext', Hnext|].
  pose proof (λ f Hf, Hown f Hf _ _ _ Hrun) as Hkept. unfold same_field in Hkept.
  split_and!; [| | |done].
  - unfold name_of. rewrite Hkept by set_solver. simpl.
    rewrite lookup_insert_ne, lookup_insert_ne, lookup_insert_eq by congruence. done.
  - unfold base_path_of. rewrite Hkept by set_solver. simpl.
    rewrite lookup_insert_ne, lookup_insert_eq by congruence. done.
  - unfold role_of. rewrite Hkept by set_solver. simpl.
    rewrite lookup_insert_eq. done.
Qed.

(** The heap when the constructor of a class with a role has run. *)
Definition constructed (name base_path : string) (role : RoleSpecifier) (h : Heap)
  : Heap :=
  store (next h) f_role (VRole role)
    (store (next h) f_base_path (VString base_path)
       (store (next h) f_name (VString name) (alloc h).2)).

(** A successful [ConstructElement], step by step. *)
Lemma ConstructElement_Role_Ok k node base_path base_role st element st' :
  ConstructElement_Role k node base_path base_role st = (Ok element, st') →
  element = next (heap st) ∧
  ∃ role st1,
    from_option (λ k, construct_defaults k element) (mret tt) k
      (set_heap (constructed (GetAttributeValue node "name") base_path role (heap st)) st)
    = (Ok tt, st1) ∧
    AttachLabelAndAttributes node element st1 = (Ok tt, st').
Proof.
  intros Hrun. unfold ConstructElement_Role in Hrun.
  bind_inv Hrun as role st1 Hrole.
  apply GetRole_inherit_inv in Hrole as [-> _].
  bind_inv Hrun as p st2 Hnew. unfold new in Hnew. simpl in Hnew.
  injection Hnew as <- <-.
  bind_inv Hrun as u1 st3 Hname. injection Hname as _ <-.
  bind_inv Hrun as u2 st4 Hbase. injection Hbase as _ <-.
  bind_inv Hrun as u3 st5 Hrole'. injection Hrole' as _ <-.
  bind_inv Hrun as u4 st6 Hdefaults. destruct u4.
  bind_inv Hrun as u5 st7 Hattach. destruct u5.
  injection Hrun as <- <-. split; [done|]. by exists role, st6.
Qed.

Definition state_of (h : Heap) (p : ptr) : bool :=
  match fields h !! (p, f_state) with Some (VBool b) => b | _ => false end.

Lemma name_of_same_field st st' p :
  same_field p f_name st st' → name_of (heap st') p = name_of (heap st) p.
Proof. unfold same_field, name_of. by intros ->. Qed.

Lemma state_of_same_field st st' p :
  same_field p f_state st st' → state_of (heap st') p = state_of (heap st) p.
Proof. unfold same_field, state_of. by intros ->. Qed.

Lemma keeps_field_Register p f k element x : keeps (same_field p f) (Register k element x).
Proof.
  intros st r st'. unfold Register, prefix_ValidationError, Model_Add.
  rewrite get_state_bind.
  by destruct (Model_Add_invalid _ _ _ _); intros [= _ <-].
Qed.

Lemma assertion_or_validation_prefix prefix msg :
  assertion_or_validation (ValidationError msg) →
  assertion_or_validation (ValidationError (prefix +:+ msg)).
Proof. intros _. right. by eexists. Qed.

Lemma throws_GetRole_inherit s r : throws assertion_or_validation (GetRole_inherit s r).
Proof. unfold GetRole_inherit, GetRole. repeat throws_step; by left. Qed.

Lemma throws_ConstructElement_Role k x bp r :
  throws assertion_or_validation (ConstructElement_Role k x bp r).
Proof.
  unfold ConstructElement_Role.
  repeat first [apply throws_GetRole_inherit|apply throws_AttachLabelAndAttributes
               |apply throws_construct_defaults|throws_step].
Qed.

Lemma throws_ConstructElement k x :
  throws assertion_or_validation (ConstructElement k x).
Proof.
  unfold ConstructElement.
  repeat first [apply throws_AttachLabelAndAttributes
               |apply throws_construct_defaults|throws_step].
Qed.

Lemma throws_Register k p x : throws assertion_or_validation (Register k p x).
Proof.
  intros st e st' [_ [([=] & _)|(msg & _ & [= ->] & _)]]%Register_inv.
  right. by eexists.
Qed.

Lemma keeps_Register_HouseEvent x bp role :
  keeps registry_grows (Register_HouseEvent x bp role).
Proof.
  unfold Register_HouseEvent.
  repeat first
    [ apply keeps_Register
    | apply (keeps_weaken same_registry); [apply same_registry_grows|];
      first [apply keeps_ConstructElement_Role
            |apply keeps_assert; apply _
            |apply keeps_write; [apply _|apply same_registry_set_heap] ]
    | keeps_step ].
Qed.

(** X4: [Register<HouseEvent>] never puts anything on the work list: a house
    event has no deferred definition.  When it returns, the house event is
    the last one of the registry of house events and has the name of the
    [name] attribute; if the element has a [constant] child, it is the only
    one, its value is "true" or "false", and it is the state of the house
    event.  A [ValidationError] leaves the registries as they were. *)
Theorem Register_HouseEvent_spec event_node base_path role st r st' :
  Register_HouseEvent event_node base_path role st = (r, st') →
  tbd_ st' = tbd_ st ∧
  match r with
  | Ok house_event =>
      house_events (model_ st') = house_events (model_ st) ++ [house_event] ∧
      (∀ k, k ≠ KHouseEvent → table (model_ st') k = table (model_ st) k) ∧
      name_of (heap st') house_event = GetAttributeValue event_node "name" ∧
      ∀ constant more, xmlpp.find event_node "constant" = constant :: more →
        let val := GetAttributeValue constant "value" in
        more = [] ∧ (val = "true" ∨ val = "false") ∧
        state_of (heap st') house_event = bool_decide (val = "true")
  | Throw e =>
      assertion_or_validation e ∧
      ∀ msg, e = ValidationError msg → model_ st' = model_ st
  end.
Proof.
  intros Hrun.
  pose proof (keeps_Register_HouseEvent _ _ _ _ _ _ Hrun) as [Htbd _].
  split; [done|]. unfold Register_HouseEvent in Hrun.
  bind_inv Hrun as p st1 Hnew.
  2: { split; [by eapply throws_ConstructElement_Role|].
       intros _ _. by apply keeps_ConstructElement_Role in Hrun as [_ ?]. }
  pose proof (keeps_ConstructElement_Role _ _ _ _ _ _ _ Hnew) as [_ Hmodel1].
  apply ConstructElement_Role_Ok in Hnew as (-> & role' & st0 & Hdefaults & Hattach).
  simpl in Hdefaults. injection Hdefaults as <-.
  pose proof (keeps_field_AttachLabelAndAttributes (next (heap st)) f_state _ _
                ltac:(congruence) ltac:(congruence) _ _ _ Hattach) as Hstate1.
  pose proof (keeps_field_AttachLabelAndAttributes (next (heap st)) f_name _ _
                ltac:(congruence) ltac:(congruence) _ _ _ Hattach) as Hname1.
  bind_inv Hrun as u st2 Hregister.
  2: { split; [by eapply throws_Register|]. intros _ _.
       apply Register_inv in Hrun as [_ [([=] & _)|(? & _ & _ & ->)]]. done. }
  pose proof (keeps_field_Register (next (heap st)) f_state _ _ _ _ _ _ Hregister)
    as Hstate2.
  pose proof (keeps_field_Register (next (heap st)) f_name _ _ _ _ _ _ Hregister)
    as Hname2.
  apply Register_inv in Hregister as [_ [(_ & _ & Hmodel2)|(? & _ & [=] & _)]].
  assert (name_of (heap st2) (next (heap st)) = GetAttributeValue event_node "name")
    as Hname.
  { rewrite (name_of_same_field _ _ _ Hname2), (name_of_same_field _ _ _ Hname1).
    unfold name_of, constructed. simpl.
    by rewrite !lookup_insert_ne, lookup_insert_eq by congruence. }
  assert (house_events (model_ st2) = house_events (model_ st) ++ [next (heap st)] ∧
          ∀ k, k ≠ KHouseEvent → table (model_ st2) k = table (model_ st) k)
    as [Hevents Hothers].
  { rewrite Hmodel2, Hmodel1. unfold house_events. simpl. split; [done|].
    intros k Hk. by rewrite decide_False. }
  destruct (xmlpp.find event_node "constant") as [|constant more].
  { rewrite ret_bind in Hrun. injection Hrun as <- <-. done. }
  bind_inv Hrun as u' st3 Hconstant.
  2: { assert (e = AssertionFailure) as ->.
       { bind_inv Hrun as u1 s1 H1.
         - apply assert_inv in H1 as [-> _].
           bind_inv Hrun as u2 s2 H2; [done|].
           by apply assert_inv in Hrun as [_ [[_ [=]]|[_ [= ->]]]].
         - by apply assert_inv in Hrun as [_ [[_ [=]]|[_ [= ->]]]]. }
       split; [by left|done]. }
  injection Hrun as <- <-.
  bind_inv Hconstant as u1 s1 H1.
  apply assert_inv in H1 as [-> [[Hone _]|[_ [=]]]].
  bind_inv Hconstant as u2 s2 H2.
  apply assert_inv in H2 as [-> [[Hval _]|[_ [=]]]].
  injection Hconstant as _ <-. simpl.
  split_and!; [done..| |].
  - unfold name_of in *. simpl. by rewrite lookup_insert_ne by congruence.
  - intros ? ? [= <- <-]. split_and!.
    + apply bool_decide_eq_true in Hone. by destruct more.
    + apply orb_true_iff in Hval as [?%bool_decide_eq_true|?%bool_decide_eq_true]; auto.
    + unfold state_of. simpl. by rewrite lookup_insert_eq.
Qed.

(** ** Facts: the members of a CCF group *)

(** The heap after the construction of a member with the name [name], and
    after the group has taken it as a member. *)
Definition member_constructed (h : Heap) (ccf_group : ptr) (name : string) : Heap :=
  store (next h) f_role (VRole (role_of h ccf_group))
    (store (next h) f_base_path (VString (base_path_of h ccf_group))
       (store (next h) f_name (VString name) (alloc h).2)).

Definition member_added (h : Heap) (ccf_group : ptr) (name : string) : Heap :=
  let h' := member_constructed h ccf_group name in
  store ccf_group f_members (VPtrs (ptrs_of h' ccf_group f_members ++ [next h])) h'.

(** One turn of the loop of [ProcessCcfMembers]. *)
Lemma ProcessCcfMembers_cons n a l t node nodes ccf_group st :
  ProcessCcfMembers (xmlpp.mkElement n a l t (node :: nodes)) ccf_group st =
  if bool_decide ("basic-event" = xmlpp.get_name node) then
    let name := GetAttributeValue node "name" in
    let basic_event := next (heap st) in
    let h := member_constructed (heap st) ccf_group name in
    match AddMember_invalid h ccf_group basic_event with
    | Some msg =>
        (Throw (DuplicateArgumentError (GetLine node +:+ msg)), set_heap h st)
    | None =>
        let h := member_added (heap st) ccf_group name in
        match Model_Add_invalid KBasicEvent (model_ st) h basic_event with
        | Some msg => (Throw (ValidationError (GetLine node +:+ msg)), set_heap h st)
        | None =>
            ProcessCcfMembers (xmlpp.mkElement n a l t nodes) ccf_group
              (set_model (add_to_table KBasicEvent basic_event (model_ st))
                         (set_heap h st))
        end
    end
  else (Throw AssertionFailure, st).
Proof.
  unfold ProcessCcfMembers. cbn [xmlpp.children].
  set (body := λ event_node : xmlpp.Element, _).
  assert (body node st =
          if bool_decide ("basic-event" = xmlpp.get_name node) then
            let name := GetAttributeValue node "name" in
            let h := member_constructed (heap st) ccf_group name in
            match AddMember_invalid h ccf_group (next (heap st)) with
            | Some msg =>
                (Throw (DuplicateArgumentError (GetLine node +:+ msg)), set_heap h st)
            | None =>
                let h := member_added (heap st) ccf_group name in
                match Model_Add_invalid KBasicEvent (model_ st) h (next (heap st)) with
                | Some msg =>
                    (Throw (ValidationError (GetLine node +:+ msg)), set_heap h st)
                | None =>
                    (Ok tt,
                     set_model (add_to_table KBasicEvent (next (heap st)) (model_ st))
                               (set_heap h st))
                end
            end
          else (Throw AssertionFailure, st)) as Hbody.
  { unfold body. case_bool_decide; [|done]. cbv zeta.
    change (assert_ true) with (mret (M := M) tt).
    rewrite ret_bind, get_state_bind, new_bind, !write_bind.
    unfold prefix_DuplicateArgumentError, AddMember, Register,
      prefix_ValidationError, Model_Add.
    unfold mbind at 1, M_bind at 1. rewrite get_state_bind. simpl.
    fold (member_constructed (heap st) ccf_group (GetAttributeValue node "name")).
    destruct (AddMember_invalid _ _ _); [done|].
    unfold write, modify. rewrite get_state_bind. simpl.
    by destruct (Model_Add_invalid _ _ _ _). }
  cbn [for_each]. unfold mbind at 1, M_bind at 1. rewrite Hbody.
  case_bool_decide; [|done]. cbv zeta.
  destruct (AddMember_invalid _ _ _); [done|].
  by destruct (Model_Add_invalid _ _ _ _).
Qed.

Lemma member_added_fields h ccf_group name q f :
  (q < next h)%nat → (q, f) ≠ (ccf_group, f_members) →
  fields (member_added h ccf_group name) !! (q, f) = fields h !! (q, f).
Proof.
  intros Hq Hne. unfold member_added, member_constructed. simpl.
  rewrite !lookup_insert_ne; [done|intros [= ? _]; lia..|congruence].
Qed.

Lemma member_constructed_fields h ccf_group name q f :
  (q < next h)%nat →
  fields (member_constructed h ccf_group name) !! (q, f) = fields h !! (q, f).
Proof.
  intros Hq. unfold member_constructed. simpl.
  rewrite !lookup_insert_ne; [done|intros [= ? _]; lia..].
Qed.

Lemma member_added_members h ccf_group name :
  (ccf_group < next h)%nat →
  ptrs_of (member_added h ccf_group name) ccf_group f_members
  = ptrs_of h ccf_group f_members ++ [next h].
Proof.
  intros Hg. unfold member_added, ptrs_of at 1. simpl. rewrite lookup_insert_eq.
  unfold ptrs_of. by rewrite member_constructed_fields.
Qed.

Lemma member_added_member h ccf_group name :
  (ccf_group < next h)%nat →
  let h' := member_added h ccf_group name in
  name_of h' (next h) = name ∧
  base_path_of h' (next h) = base_path_of h ccf_group ∧
  role_of h' (next h) = role_of h ccf_group.
Proof.
  intros Hg. unfold member_added, member_constructed.
  set (base_path := base_path_of h ccf_group). set (role := role_of h ccf_group).
  set (members := VPtrs _).
  unfold name_of, base_path_of, role_of. simpl.
  rewrite !(lookup_insert_ne _ (ccf_group, f_members)) by (intros [= ? _]; lia).
  split_and!; rewrite ?lookup_insert_ne by congruence; by rewrite lookup_insert_eq.
Qed.

(** The members that [ProcessCcfMembers] has dealt with: the new objects
    [members], one per element of [nodes], with the name of the element and
    the base path and the role of the group. *)
Definition members_of (st st' : Initializer) (ccf_group : ptr)
    (members : list ptr) (nodes : list xmlpp.Element) : Prop :=
  members = seq (next (heap st)) (length nodes) ∧
  Forall2 (λ member node,
             xmlpp.get_name node = "basic-event" ∧
             name_of (heap st') member = GetAttributeValue node "name" ∧
             base_path_of (heap st') member = base_path_of (heap st) ccf_group ∧
             role_of (heap st') member = role_of (heap st) ccf_group)
          members nodes.

Lemma ProcessCcfMembers_run members_node ccf_group st r st' :
  (ccf_group < next (heap st))%nat →
  ProcessCcfMembers members_node ccf_group st = (r, st') →
  tbd_ st' = tbd_ st ∧
  (∀ k, k ≠ KBasicEvent → table (model_ st') k = table (model_ st) k) ∧
  (next (heap st) ≤ next (heap st'))%nat ∧
  (∀ q f, (q < next (heap st))%nat → (q, f) ≠ (ccf_group, f_members) →
          fields (heap st') !! (q, f) = fields (heap st) !! (q, f)) ∧
  ∃ members nodes rest,
    xmlpp.children members_node = nodes ++ rest ∧
    members_of st st' ccf_group members nodes ∧
    basic_events (model_ st') = basic_events (model_ st) ++ members ∧
    match r with
    | Ok _ =>
        rest = [] ∧
        ptrs_of (heap st') ccf_group f_members
        = ptrs_of (heap st) ccf_group f_members ++ members
    | Throw e =>
        ∃ node, head rest = Some node ∧
          ((e = AssertionFailure ∧ xmlpp.get_name node ≠ "basic-event" ∧
            ptrs_of (heap st') ccf_group f_members
            = ptrs_of (heap st) ccf_group f_members ++ members) ∨
           (∃ msg, e = DuplicateArgumentError (GetLine node +:+ msg) ∧
             ptrs_of (heap st') ccf_group f_members
             = ptrs_of (heap st) ccf_group f_members ++ members) ∨
           (∃ msg, e = ValidationError (GetLine node +:+ msg) ∧
             ptrs_of (heap st') ccf_group f_members
             = ptrs_of (heap st) ccf_group f_members
               ++ members ++ [next (heap st) + length nodes]%nat))
    end.
Proof.
  destruct members_node as [n a l t children]. simpl.
  revert st. induction children as [|node children IH]; intros st Hg Hrun.
  { injection Hrun as <- <-. split_and!; [done..|].
    exists [], [], []. split_and!; [done|by split; [|constructor]|..];
      by rewrite ?app_nil_r. }
  rewrite ProcessCcfMembers_cons in Hrun.
  case_bool_decide as Htag.
  2: { injection Hrun as <- <-. split_and!; [done..|].
       exists [], [], (node :: children).
       split_and!; [done|by split; [|constructor]|by rewrite app_nil_r|].
       exists node. split; [done|]. left. by rewrite app_nil_r. }
  cbv zeta in Hrun.
  destruct (AddMember_invalid _ _ _) as [msg|].
  { injection Hrun as <- <-. simpl. split_and!; [done|done|lia|..].
    { intros q f Hq _. by apply member_constructed_fields. }
    exists [], [], (node :: children).
    split_and!; [done|by split; [|constructor]|by rewrite app_nil_r|].
    exists node. split; [done|]. right. left. exists msg. split; [done|].
    unfold ptrs_of. by rewrite app_nil_r, member_constructed_fields. }
  destruct (Model_Add_invalid _ _ _ _) as [msg|].
  { injection Hrun as <- <-. simpl. split_and!; [done|done|lia|..].
    { intros q f Hq Hne. by apply member_added_fields. }
    exists [], [], (node :: children).
    split_and!; [done|by split; [|constructor]|by rewrite app_nil_r|].
    exists node. split; [done|]. right. right. exists msg. split; [done|].
    simpl. by rewrite member_added_members, Nat.add_0_r. }
  set (name := GetAttributeValue node "name") in *.
  set (p := next (heap st)) in *.
  apply IH in Hrun; [|simpl; lia]. simpl in Hrun.
  destruct Hrun as (Htbd & Htable & Hnext & Hframe & members & nodes & rest &
                    Hchildren & [Hmembers Hnodes] & Hevents & Hr).
  destruct (member_added_member (heap st) ccf_group name Hg) as (Hname & Hpath & Hrole).
  assert (base_path_of (member_added (heap st) ccf_group name) ccf_group
          = base_path_of (heap st) ccf_group ∧
          role_of (member_added (heap st) ccf_group name) ccf_group
          = role_of (heap st) ccf_group) as [Hpath' Hrole'].
  { unfold base_path_of, role_of. by rewrite !member_added_fields by (done || congruence). }
  split_and!; [done| |lia|..].
  { intros k Hk. rewrite Htable by done. simpl. by rewrite decide_False. }
  { intros q f Hq Hne. rewrite Hframe by (done || lia).
    by apply member_added_fields. }
  exists (p :: members), (node :: nodes), rest.
  split_and!; [by rewrite Hchildren| |..].
  - split; [simpl; by rewrite Hmembers|]. constructor.
    + split; [done|]. subst p name.
      unfold name_of, base_path_of, role_of in *.
      rewrite !Hframe by (simpl; (lia || congruence)). done.
    + eapply Forall2_impl; [exact Hnodes|]. simpl.
      intros member node' (? & ? & Hp & Hr'). by rewrite Hp, Hr', Hpath', Hrole'.
  - rewrite Hevents. unfold basic_events. simpl. by rewrite <-app_assoc.
  - rewrite member_added_members in Hr by done. fold p in Hr.
    destruct r as [u|e].
    + destruct Hr as [-> Hr]. split; [done|]. by rewrite Hr, <-app_assoc.
    + destruct Hr as (node' & Hhead & Hr). exists node'. split; [done|].
      destruct Hr as [(-> & ? & Hr)|[(msg & -> & Hr)|(msg & -> & Hr)]].
      * left. by rewrite Hr, <-app_assoc.
      * right. left. exists msg. by rewrite Hr, <-app_assoc.
      * right. right. exists msg. split; [done|].
        rewrite Hr, <-app_assoc. simpl.
        by replace (S (p + length nodes))%nat with (p + S (length nodes))%nat by lia.
Qed.

(** X11: [ProcessCcfMembers] makes one basic event per child of the [members]
    element, in the order of the document, with the name of the child and the
    base path and the role of the group; each one becomes a member of the
    group and is then registered with the model, and none goes on the work
    list.  When a child stops the loop, the members before it stay members
    and stay registered.  A child that is not a [basic-event] fails the
    assertion; a member that the group refuses leaves the
    [DuplicateArgumentError] of the group with the line of the child in
    front; a basic event that the model refuses leaves a [ValidationError]
    with the line in front, and has become a member of the group all the
    same. *)
Theorem ProcessCcfMembers_spec members_node ccf_group st r st' :
  (ccf_group < next (heap st))%nat →
  ProcessCcfMembers members_node ccf_group st = (r, st') →
  tbd_ st' = tbd_ st ∧
  (∀ k, k ≠ KBasicEvent → table (model_ st') k = table (model_ st) k) ∧
  ∃ members nodes rest,
    xmlpp.children members_node = nodes ++ rest ∧
    members_of st st' ccf_group members nodes ∧
    basic_events (model_ st') = basic_events (model_ st) ++ members ∧
    match r with
    | Ok _ =>
        rest = [] ∧
        ptrs_of (heap st') ccf_group f_members
        = ptrs_of (heap st) ccf_group f_members ++ members
    | Throw e =>
        ∃ node, head rest = Some node ∧
          ((e = AssertionFailure ∧ xmlpp.get_name node ≠ "basic-event" ∧
            ptrs_of (heap st') ccf_group f_members
            = ptrs_of (heap st) ccf_group f_members ++ members) ∨
           (∃ msg, e = DuplicateArgumentError (GetLine node +:+ msg) ∧
             ptrs_of (heap st') ccf_group f_members
             = ptrs_of (heap st) ccf_group f_members ++ members) ∨
           (∃ msg, e = ValidationError (GetLine node +:+ msg) ∧
             ptrs_of (heap st') ccf_group f_members
             = ptrs_of (heap st) ccf_group f_members
               ++ members ++ [next (heap st) + length nodes]%nat))
    end.
Proof.
  intros Hg Hrun.
  destruct (ProcessCcfMembers_run _ _ _ _ _ Hg Hrun) as (? & ? & _ & _ & ?). done.
Qed.

(** ** Facts: registration, element by element *)

(** [registers k tbd st st' elements nodes]: from [st] to [st'] the
    [elements], one for each of the first [nodes], have been added to the
    registry of the kind [k] in this order and, if [tbd], put on the work
    list with their nodes; nothing else has changed in the model or on the
    work list. *)
Definition registers (k : Kind) (tbd : bool) (st st' : Initializer)
    (elements : list ptr) (nodes : list xmlpp.Element) : Prop :=
  model_ st' = foldl (λ m p, add_to_table k p m) (model_ st) elements ∧
  tbd_ st' = tbd_ st ++ (if tbd
                         then zip_with (λ p node, ((k, p), node)) elements nodes
                         else []) ∧
  (length elements ≤ length nodes)%nat.


Lemma mission_time_foldl_add k elements m :
  mission_time (foldl (λ m p, add_to_table k p m) m elements) = mission_time m ∧
  model_expressions (foldl (λ m p, add_to_table k p m) m elements)
  = model_expressions m.
Proof.
  revert m. induction elements as [|p elements IH]; intros m; [done|].
  simpl. by destruct (IH (add_to_table k p m)) as [-> ->].
Qed.



(** The same for a registration that returns the element. *)
Definition registers_element (k : Kind) (tbd : bool) (reg : xmlpp.Element → M ptr)
  : Prop :=
  ∀ node st r st', reg node st = (r, st') →
    (∃ p, registers k tbd st st' [p] [node] ∧ ∀ q, r = Ok q → q = p) ∨
    (same_registry st st' ∧ ∀ q, r ≠ Ok q).


(** The shape that the registrations share: construction, registration, the
    entry on the work list, and whatever is left to do with the element. *)
Lemma registers_element_shape k tbd (construct : xmlpp.Element → M ptr)
    (rest : xmlpp.Element → ptr → M unit) :
  (∀ node, keeps same_registry (construct node)) →
  (∀ node p, keeps same_registry (rest node p)) →
  registers_element k tbd (λ node,
    p ← construct node;
    Register k p node ;;
    (if tbd then tbd_emplace_back k p node else mret tt) ;;
    rest node p ;;
    mret p).
Proof.
  intros Hconstruct Hrest node st r st' Hrun.
  bind_inv Hrun as p st1 Hnew.
  2: { right. split; [by eapply Hconstruct|done]. }
  apply Hconstruct in Hnew as [Htbd1 Hm1].
  bind_inv Hrun as u st2 Hreg.
  2: { right. split; [|done].
       apply Register_inv in Hrun as [_ [([=] & _)|(? & _ & _ & ->)]]. by split. }
  apply Register_inv in Hreg as [Htbd2 [(_ & _ & Hm2)|(? & _ & [=] & _)]].
  left. exists p.
  assert (∃ st3, (rest node p ;; mret p) st3 = (r, st') ∧
            model_ st3 = model_ st2 ∧
            tbd_ st3 = tbd_ st2 ++ (if tbd then [((k, p), node)] else []))
    as (st3 & Hrun' & Hm3 & Htbd3).
  { destruct tbd.
    - bind_inv Hrun as u' st3 Hemp; [|by injection Hrun].
      apply tbd_emplace_back_inv in Hemp as (_ & ? & ?).
      by exists st3.
    - rewrite ret_bind in Hrun. exists st2. by rewrite app_nil_r. }
  assert (same_registry st3 st' ∧ ∀ q, r = Ok q → q = p) as [[Htbd4 Hm4] Hp].
  { bind_inv Hrun' as u4 st4 Hrun4.
    - injection Hrun' as <- <-. split; [by eapply Hrest|]. by intros ? [= <-].
    - split; [by eapply Hrest|done]. }
  split; [|done]. split_and!; simpl; [congruence| |lia].
  rewrite Htbd4, Htbd3, Htbd2, Htbd1. by destruct tbd.
Qed.

Lemma registers_Gate base_path role :
  registers_element KGate true (λ node, Register_Gate node base_path role).
Proof.
  assert (∀ node, keeps same_registry
            (ConstructElement_Role (Some KGate) node base_path role)) as Hconstruct
    by (intros; apply keeps_ConstructElement_Role).
  pose proof (registers_element_shape KGate true
           (λ node, ConstructElement_Role (Some KGate) node base_path role)
           (λ _ _, mret tt)) as Hshape.
  apply Hshape; [done|]. intros. apply keeps_ret. apply _.
Qed.

Lemma registers_BasicEvent base_path role :
  registers_element KBasicEvent true (λ node, Register_BasicEvent node base_path role).
Proof.
  assert (∀ node, keeps same_registry
            (ConstructElement_Role (Some KBasicEvent) node base_path role)) as Hconstruct
    by (intros; apply keeps_ConstructElement_Role).
  pose proof (registers_element_shape KBasicEvent true
           (λ node, ConstructElement_Role (Some KBasicEvent) node base_path role)
           (λ _ _, mret tt)) as Hshape.
  apply Hshape; [done|]. intros. apply keeps_ret. apply _.
Qed.

Lemma registers_Parameter base_path role :
  registers_element KParameter true (λ node, Register_Parameter node base_path role).
Proof.
  assert (∀ node, keeps same_registry
            (ConstructElement_Role (Some KParameter) node base_path role)) as Hconstruct
    by (intros; apply keeps_ConstructElement_Role).
  pose proof (registers_element_shape KParameter true
           (λ node, ConstructElement_Role (Some KParameter) node base_path role)
           (λ node p,
              let unit := GetAttributeValue node "unit" in
              if bool_decide (unit = "") then mret tt
              else
                let pos := find_pos kUnitsToString unit in
                assert_ (bool_decide (pos < length kUnitsToString)%nat) ;;
                write p f_unit (VNat pos))) as Hshape.
  apply Hshape; [done|]. intros. cbv zeta. repeat keeps_step.
Qed.

Lemma registers_HouseEvent base_path role :
  registers_element KHouseEvent false
    (λ node, Register_HouseEvent node base_path role).
Proof.
  assert (∀ node, keeps same_registry
            (ConstructElement_Role (Some KHouseEvent) node base_path role)) as Hconstruct
    by (intros; apply keeps_ConstructElement_Role).
  pose proof (registers_element_shape KHouseEvent false
           (λ node, ConstructElement_Role (Some KHouseEvent) node base_path role)
           (λ node p,
              let expression := xmlpp.find node "constant" in
              match expression with
              | [] => mret tt
              | constant :: _ =>
                  assert_ (bool_decide (length expression = 1%nat)) ;;
                  let val := GetAttributeValue constant "value" in
                  assert_ (bool_decide (val = "true") || bool_decide (val = "false")) ;;
                  write p f_state (VBool (bool_decide (val = "true")))
              end)) as Hshape.
  apply Hshape; [done|]. intros. cbv zeta. repeat keeps_step.
Qed.

(** ** Model data *)



End Registration.

Section Formulas.
Context `{E : Env}.

(** ** Formulas *)

(** [Formula::AddArgument]; an argument that the formula has already is
    refused with [DuplicateArgumentError]. *)
Definition AddArgument (formula : Formula) (arg : Arg) : M Formula :=
  match AddArgument_invalid (formula_args formula) arg with
  | Some msg => throw (DuplicateArgumentError msg)
  | None =>
      mret (mkFormula (formula_type formula) (formula_args formula ++ [arg])
                      (formula_vote_number formula))
  end.

(** [Formula::vote_number(int)]; a number that is out of range is refused
    with [InvalidArgument]. *)
Definition vote_number (formula : Formula) (number : Z) : M Formula :=
  match vote_number_invalid number with
  | Some msg => throw (InvalidArgument msg)
  | None => mret (mkFormula (formula_type formula) (formula_args formula) (Some number))
  end.

(** [Formula::Validate] *)
Definition Formula_Validate (formula : Formula) : M unit :=
  match Formula_Validate_invalid formula with
  | Some msg => throw (ValidationError msg)
  | None => mret tt
  end.

(** The first lambda of [GetFormula]. *)
Definition get_formula_type (formula_node : xmlpp.Element) : M Operator :=
  if bool_decide (is_Some (xmlpp.get_attribute formula_node "name"))
     || bool_decide (xmlpp.get_name formula_node = "constant")
  then mret kNull
  else
    let pos := find_pos kOperatorToString (xmlpp.get_name formula_node) in
    assert_ (bool_decide (pos < length kOperatorToString)%nat) ;;
    mret pos.

(** [try { m } catch (std::out_of_range&) { throw e; }] *)
Definition catch_out_of_range {A} (m : M A) (e : Exception) : M A := λ st,
  match m st with
  | (Throw out_of_range, st') => (Throw e, st')
  | r => r
  end.

(** [throw ValidationError(GetLine(node) + "Undefined " + ...)] *)
Definition undefined_event (node : xmlpp.Element) (element_type name base_path : string)
  : Exception :=
  ValidationError (GetLine node +:+ "Undefined " +:+ element_type +:+ " " +:+
                   name +:+ " with base path " +:+ base_path).

(** The lambda [add_arg] of [GetFormula]; [GetFormula_] is [GetFormula] for
    the nested formula. *)
Definition add_arg (GetFormula_ : xmlpp.Element → string → M Formula)
    (base_path : string) (formula : Formula) (node : xmlpp.Element) : M Formula :=
  let element := node in
  if bool_decide (xmlpp.get_name element = "constant") then
    AddArgument formula
      (HouseEventArg (if bool_decide (GetAttributeValue element "value" = "true")
                      then HouseEvent_kTrue else HouseEvent_kFalse))
  else
    let name := GetAttributeValue element "name" in
    if bool_decide (name = "") then
      nested ← GetFormula_ element base_path;
      AddArgument formula (FormulaArg nested)
    else
      let element_type :=
        let type := GetAttributeValue element "type" in
        if bool_decide (type = "") then xmlpp.get_name element else type in
      st ← get_state;
      let found (look_up : option Arg) : M Arg :=
        from_option mret (throw out_of_range) look_up in
      catch_out_of_range
        (if bool_decide (element_type = "event") then
           event ← found (Model_GetEvent (model_ st) (heap st) name base_path);
           AddArgument formula event
         else if bool_decide (element_type = "gate") then
           gate ← found (GateArg <$> Model_GetGate (model_ st) (heap st) name base_path);
           AddArgument formula gate
         else if bool_decide (element_type = "basic-event") then
           basic_event ← found (BasicEventArg <$>
                                  Model_GetBasicEvent (model_ st) (heap st) name base_path);
           AddArgument formula basic_event
         else
           assert_ (bool_decide (element_type = "house-event")) ;;
           house_event ← found (HouseEventArg <$>
                                  Model_GetHouseEvent (model_ st) (heap st) name base_path);
           AddArgument formula house_event)
        (undefined_event node element_type name base_path).

(** [for (node : nodes) add_arg(node);] *)
Fixpoint add_args (add : Formula → xmlpp.Element → M Formula)
    (formula : Formula) (nodes : list xmlpp.Element) : M Formula :=
  match nodes with
  | [] => mret formula
  | node :: rest => formula ← add formula node; add_args add formula rest
  end.

(** [GetFormula].  A pass-through formula makes the node itself its argument,
    and the argument is a nested formula of the same node when the node has
    no name to look up: the recursion is not on the structure of the
    document, and [fuel] bounds its depth. *)
Fixpoint GetFormula (fuel : nat) (formula_node : xmlpp.Element) (base_path : string)
  : M Formula :=
  match fuel with
  | 0 => throw OutOfFuel
  | S fuel =>
      formula_type ← get_formula_type formula_node;
      let formula := mkFormula formula_type [] None in
      formula ←
        (if bool_decide (formula_type = kVote) then
           match CastAttributeValue_int formula_node "min" with
           | inr min => vote_number formula min
           | inl msg => throw (ValidationError msg)
           end
         else mret formula);
      formula ←
        (if bool_decide (formula_type = kNull)
         then add_arg (GetFormula fuel) base_path formula formula_node
         else add_args (add_arg (GetFormula fuel) base_path) formula
                       (xmlpp.children formula_node));
      prefix_ValidationError (GetLine formula_node) (Formula_Validate formula) ;;
      mret formula
  end.

(** ** Facts: formulas *)

Lemma keeps_catch_out_of_range {A} R (m : M A) e :
  keeps R m → keeps R (catch_out_of_range m e).
Proof.
  intros Hm st r st'. unfold catch_out_of_range.
  destruct (m st) as [[a|[]] st1] eqn:Hrun; intros [= _ <-]; by eapply Hm.
Qed.

Lemma keeps_AddArgument f a : keeps eq (AddArgument f a).
Proof. unfold AddArgument. repeat keeps_step. Qed.

Lemma keeps_add_arg GF bp f node :
  (∀ e, keeps eq (GF e bp)) → keeps eq (add_arg GF bp f node).
Proof.
  intros HGF. unfold add_arg.
  repeat first [keeps_step|apply keeps_catch_out_of_range
               |apply keeps_AddArgument|apply HGF].
Qed.

Lemma keeps_add_args GF bp f nodes :
  (∀ e, keeps eq (GF e bp)) → keeps eq (add_args (add_arg GF bp) f nodes).
Proof.
  intros HGF. revert f. induction nodes as [|node nodes IH]; intros f; simpl;
    repeat keeps_step; auto using keeps_add_arg.
Qed.

(** [GetFormula] reads the model and writes nothing. *)
Lemma keeps_GetFormula fuel node bp : keeps eq (GetFormula fuel node bp).
Proof.
  revert node. induction fuel as [|fuel IH]; intros node; simpl;
    [apply keeps_throw; apply _|].
  unfold get_formula_type, vote_number, Formula_Validate.
  repeat first [keeps_step
               |apply keeps_add_arg; intros; apply IH
               |apply keeps_add_args; intros; apply IH].
Qed.

(** [is_arg_of st base_path element arg]: [arg] is the argument that the
    element stands for: the shared house event of a [constant], true for the
    value "true" and false for any other; the formula of an element without
    a name; the event that the model finds for the name otherwise, of the kind
    that the attribute [type], or else the tag, asks for. *)
Definition is_arg_of (st : Initializer) (base_path : string)
    (element : xmlpp.Element) (arg : Arg) : Prop :=
  if bool_decide (xmlpp.get_name element = "constant") then
    arg = HouseEventArg (if bool_decide (GetAttributeValue element "value" = "true")
                         then HouseEvent_kTrue else HouseEvent_kFalse)
  else
    let name := GetAttributeValue element "name" in
    if bool_decide (name = "") then
      ∃ fuel nested,
        GetFormula fuel element base_path st = (Ok nested, st) ∧ arg = FormulaArg nested
    else
      let element_type :=
        let type := GetAttributeValue element "type" in
        if bool_decide (type = "") then xmlpp.get_name element else type in
      if bool_decide (element_type = "event") then
        Model_GetEvent (model_ st) (heap st) name base_path = Some arg
      else if bool_decide (element_type = "gate") then
        GateArg <$> Model_GetGate (model_ st) (heap st) name base_path = Some arg
      else if bool_decide (element_type = "basic-event") then
        BasicEventArg <$> Model_GetBasicEvent (model_ st) (heap st) name base_path
        = Some arg
      else
        element_type = "house-event" ∧
        HouseEventArg <$> Model_GetHouseEvent (model_ st) (heap st) name base_path
        = Some arg.

Definition with_arg (formula : Formula) (args : list Arg) : Formula :=
  mkFormula (formula_type formula) (formula_args formula ++ args)
            (formula_vote_number formula).

Lemma AddArgument_Ok f a st f' st' :
  AddArgument f a st = (Ok f', st') → st' = st ∧ f' = with_arg f [a].
Proof.
  unfold AddArgument. destruct (AddArgument_invalid _ _); [done|].
  by intros [= <- <-].
Qed.

Lemma found_AddArgument_Ok f (look_up : option Arg) e st f' st' :
  catch_out_of_range
    (arg ← from_option mret (throw out_of_range) look_up; AddArgument f arg) e st
  = (Ok f', st') →
  st' = st ∧ ∃ arg, look_up = Some arg ∧ f' = with_arg f [arg].
Proof.
  unfold catch_out_of_range. destruct look_up as [arg|]; simpl; [|done].
  rewrite ret_bind.
  destruct (AddArgument f arg st) as [[f''|[]] st1] eqn:Hadd; try done.
  intros [= <- <-]. apply AddArgument_Ok in Hadd as [-> ->]. eauto.
Qed.

Lemma add_arg_Ok fuel bp f node st f' st' :
  add_arg (GetFormula fuel) bp f node st = (Ok f', st') →
  st' = st ∧ ∃ arg, f' = with_arg f [arg] ∧ is_arg_of st bp node arg.
Proof.
  unfold add_arg, is_arg_of. cbv zeta.
  case_bool_decide as Hconstant.
  { intros [-> ->]%AddArgument_Ok. eauto. }
  case_bool_decide as Hname.
  { intros Hrun. bind_inv Hrun as nested st1 Hnested.
    apply keeps_GetFormula in Hnested as Hst. subst st1.
    apply AddArgument_Ok in Hrun as [-> ->].
    split; [done|]. exists (FormulaArg nested). split; [done|].
    by exists fuel, nested. }
  rewrite get_state_bind.
  repeat case_bool_decide; unfold assert_; rewrite ?ret_bind;
    try (intros (-> & arg & ? & ->)%found_AddArgument_Ok; by eauto);
    unfold catch_out_of_range;
    by rewrite (bind_Throw _ _ _ AssertionFailure st).
Qed.

Lemma add_args_Ok fuel bp f nodes st f' st' :
  add_args (add_arg (GetFormula fuel) bp) f nodes st = (Ok f', st') →
  st' = st ∧ ∃ args, f' = with_arg f args ∧ Forall2 (is_arg_of st bp) nodes args.
Proof.
  revert f. induction nodes as [|node nodes IH]; intros f; simpl.
  - intros [= <- <-]. split; [done|]. exists []. split; [|constructor].
    destruct f. unfold with_arg. simpl. by rewrite app_nil_r.
  - intros Hrun. bind_inv Hrun as f1 st1 Hadd.
    apply add_arg_Ok in Hadd as (-> & arg & -> & Harg).
    apply IH in Hrun as (-> & args & -> & Hargs).
    split; [done|]. exists (arg :: args). split; [|by constructor].
    unfold with_arg. simpl. by rewrite <-app_assoc.
Qed.

Lemma find_pos_lookup table s :
  (find_pos table s < length table)%nat → table !! find_pos table s = Some s.
Proof.
  induction table as [|x table IH]; simpl; [lia|].
  case_decide; [by subst|]. intros ?. apply IH. lia.
Qed.

(** A node without the attribute [name] whose tag is no [constant] and names
    the null operator is its own argument, again and again: whatever the bound
    on the depth, [GetFormula] does not return. *)
Lemma GetFormula_self fuel node bp st f st' :
  xmlpp.get_attribute node "name" = None →
  xmlpp.get_name node ≠ "constant" →
  find_pos kOperatorToString (xmlpp.get_name node) = kNull →
  GetFormula fuel node bp st ≠ (Ok f, st').
Proof.
  intros Hname Hconstant Hnull. revert st f st'.
  induction fuel as [|fuel IH]; intros st f st' Hrun; [done|].
  simpl in Hrun. unfold get_formula_type in Hrun.
  rewrite Hname, bool_decide_eq_false_2 in Hrun by (by intros [? ?]).
  rewrite (bool_decide_eq_false_2 (_ = "constant")) in Hrun by done.
  simpl in Hrun. rewrite Hnull in Hrun.
  bind_inv Hrun as op st1 Hop.
  assert (op = kNull) as ->.
  { bind_inv Hop as u st2 Hassert. by injection Hop as <- _. }
  bind_inv Hrun as f1 st2 Hvote.
  rewrite bool_decide_eq_true_2 in Hrun by done.
  bind_inv Hrun as f2 st3 Hadd.
  unfold add_arg in Hadd.
  rewrite bool_decide_eq_false_2 in Hadd by done.
  unfold GetAttributeValue in Hadd. rewrite Hname in Hadd. simpl in Hadd.
  bind_inv Hadd as nested st4 Hnested. by eapply IH.
Qed.

(** *** The bound on the depth of the recursion *)

(** More fuel does not change what [GetFormula] returns or throws. *)
Definition fuel_refines (GF GF' : xmlpp.Element → string → M Formula) : Prop :=
  ∀ e bp st r st', GF e bp st = (r, st') → r ≠ Throw OutOfFuel → GF' e bp st = (r, st').

Lemma bind_refines {A B} (m m' : M A) (f f' : A → M B) st r st' :
  (∀ r1 st1, m st = (r1, st1) → r1 ≠ Throw OutOfFuel → m' st = (r1, st1)) →
  (∀ a st1 r1 st2, f a st1 = (r1, st2) → r1 ≠ Throw OutOfFuel → f' a st1 = (r1, st2)) →
  (m ≫= f) st = (r, st') → r ≠ Throw OutOfFuel → (m' ≫= f') st = (r, st').
Proof.
  intros Hm Hf [(a & st1 & H1 & H2)|(e & H1 & ->)]%bind_inv Hr.
  - erewrite bind_Ok by (by apply Hm). by apply Hf.
  - erewrite bind_Throw; [done|]. apply Hm; [done|].
    intros [= ->]. by apply Hr.
Qed.

Lemma add_arg_refines GF GF' bp f node st r st' :
  fuel_refines GF GF' →
  add_arg GF bp f node st = (r, st') → r ≠ Throw OutOfFuel →
  add_arg GF' bp f node st = (r, st').
Proof.
  intros HGF. unfold add_arg. cbv zeta.
  destruct (bool_decide (xmlpp.get_name node = "constant")); [done|].
  destruct (bool_decide (GetAttributeValue node "name" = "")); [|done].
  apply bind_refines; [|done]. intros. by apply HGF.
Qed.

Lemma add_args_refines GF GF' bp f nodes st r st' :
  fuel_refines GF GF' →
  add_args (add_arg GF bp) f nodes st = (r, st') → r ≠ Throw OutOfFuel →
  add_args (add_arg GF' bp) f nodes st = (r, st').
Proof.
  intros HGF. revert f st r st'.
  induction nodes as [|node nodes IH]; intros f st r st'; [done|].
  simpl. apply bind_refines; [|by intros; apply IH].
  intros. by eapply add_arg_refines.
Qed.

Lemma GetFormula_more_fuel fuel fuel' :
  (fuel ≤ fuel')%nat → fuel_refines (GetFormula fuel) (GetFormula fuel').
Proof.
  revert fuel'. induction fuel as [|fuel IH]; intros fuel' Hle node bp st r st'.
  { by intros [= <- _]. }
  destruct fuel' as [|fuel']; [lia|]. simpl.
  apply bind_refines; [done|]. intros op st1 r1 st2.
  apply bind_refines; [done|]. intros f1 st3 r2 st4.
  apply bind_refines; [|done]. intros r3 st5.
  destruct (bool_decide (op = kNull)).
  - apply add_arg_refines, IH. lia.
  - apply add_args_refines, IH. lia.
Qed.

(** The node would be its own argument: a pass-through formula, for a node
    without a name that is no [constant]. *)
Definition own_argument (node : xmlpp.Element) : Prop :=
  (is_Some (xmlpp.get_attribute node "name") ∨
   find_pos kOperatorToString (xmlpp.get_name node) = kNull) ∧
  xmlpp.get_name node ≠ "constant" ∧
  GetAttributeValue node "name" = "".

(** No node of the document under [node] is its own argument, down to the
    depth [depth]. *)
Fixpoint no_own_argument (depth : nat) (node : xmlpp.Element) : Prop :=
  match depth with
  | 0 => True
  | S depth =>
      ¬ own_argument node ∧ Forall (no_own_argument depth) (xmlpp.children node)
  end.

Definition own_argument_dec node : Decision (own_argument node).
Proof. unfold own_argument. apply _. Defined.

Definition no_own_argument_dec depth node : Decision (no_own_argument depth node).
Proof.
  revert node. induction depth as [|depth IH]; intros node; simpl; [apply _|].
  pose proof (own_argument_dec node). apply _.
Defined.

Lemma in_fuel_AddArgument f a : in_fuel (AddArgument f a).
Proof.
  unfold AddArgument. destruct (AddArgument_invalid _ _);
    [by apply in_fuel_throw|apply in_fuel_ret].
Qed.

Lemma in_fuel_found_AddArgument f (look_up : option Arg) e :
  e ≠ OutOfFuel →
  in_fuel (catch_out_of_range
             (arg ← from_option mret (throw out_of_range) look_up;
              AddArgument f arg) e).
Proof.
  intros He st r st'. unfold catch_out_of_range.
  destruct look_up as [arg|]; simpl.
  - rewrite ret_bind. destruct (AddArgument f arg st) as [[f'|e'] st1] eqn:Hadd.
    + by intros [= <- _].
    + apply in_fuel_AddArgument in Hadd. destruct e'; intros [= <- _]; congruence.
  - intros [= <- _]. congruence.
Qed.

Lemma in_fuel_add_arg GF bp f node :
  (GetAttributeValue node "name" = "" → xmlpp.get_name node ≠ "constant" →
   in_fuel (GF node bp)) →
  in_fuel (add_arg GF bp f node).
Proof.
  intros HGF. unfold add_arg. cbv zeta.
  case_bool_decide as Hconstant; [apply in_fuel_AddArgument|].
  case_bool_decide as Hname.
  { apply in_fuel_bind; [by apply HGF|intros; apply in_fuel_AddArgument]. }
  apply in_fuel_bind; [apply in_fuel_get_state|]. intros st.
  repeat case_bool_decide; unfold assert_;
    try (by apply in_fuel_found_AddArgument).
  all: intros s r s'; unfold catch_out_of_range;
    rewrite (bind_Throw _ _ _ AssertionFailure s) by done;
    by intros [= <- _].
Qed.

Lemma in_fuel_add_args GF bp f nodes :
  Forall (λ node, GetAttributeValue node "name" = "" →
                  xmlpp.get_name node ≠ "constant" → in_fuel (GF node bp)) nodes →
  in_fuel (add_args (add_arg GF bp) f nodes).
Proof.
  intros Hnodes. revert f.
  induction Hnodes as [|node nodes Hnode _ IH]; intros f; simpl;
    [apply in_fuel_ret|].
  apply in_fuel_bind; [by apply in_fuel_add_arg|done].
Qed.

(** With fuel for the size of the document, [GetFormula] stops for lack of
    fuel only when a node is its own argument. *)
Lemma GetFormula_in_fuel fuel node bp :
  (xmlpp.size node ≤ fuel)%nat → no_own_argument fuel node →
  in_fuel (GetFormula fuel node bp).
Proof.
  revert node. induction fuel as [|fuel IH]; intros node Hsize Hno.
  { destruct node; simpl in Hsize; lia. }
  destruct Hno as [Hown Hchildren]. simpl.
  intros st r st' Hrun.
  bind_inv Hrun as op st1 Hop.
  2: { eapply in_fuel_Throw; [|exact Hrun].
       unfold get_formula_type. destruct (_ || _); [apply in_fuel_ret|].
       apply in_fuel_bind; [apply in_fuel_assert|intros; apply in_fuel_ret]. }
  bind_inv Hrun as f1 st2 Hvote.
  2: { eapply in_fuel_Throw; [|exact Hrun].
       destruct (bool_decide (op = kVote)); [|apply in_fuel_ret].
       destruct (CastAttributeValue_int _ _); [by apply in_fuel_throw|].
       unfold vote_number. destruct (vote_number_invalid _);
         [by apply in_fuel_throw|apply in_fuel_ret]. }
  bind_inv Hrun as f2 st3 Hargs.
  { revert Hrun. generalize st3 r st'. change (in_fuel ?m) with (in_fuel m).
    apply in_fuel_bind; [|intros; apply in_fuel_ret].
    apply in_fuel_prefix_ValidationError. unfold Formula_Validate.
    destruct (Formula_Validate_invalid _);
      [by apply in_fuel_throw|apply in_fuel_ret]. }
  eapply in_fuel_Throw; [|exact Hrun]. case_bool_decide as Hnull.
  - apply in_fuel_add_arg. intros Hname Hconstant. exfalso. apply Hown.
    split; [|done]. subst op. unfold get_formula_type in Hop.
    destruct (bool_decide (is_Some _)) eqn:Hsome.
    + left. by apply bool_decide_eq_true in Hsome.
    + right. rewrite bool_decide_eq_false_2 in Hop by done. simpl in Hop.
      bind_inv Hop as u s Hassert. by injection Hop.
  - apply in_fuel_add_args.
    eapply Forall_impl; [apply Forall_and; split; [exact Hchildren|]|].
    + apply Forall_forall. intros c Hc. exact (size_children _ _ Hc).
    + simpl. intros c [Hc Hlt] _ _. apply IH; [lia|done].
Qed.

(** The two together: from the size of the document on, the fuel makes no
    difference to what [GetFormula] does. *)
Lemma GetFormula_enough_fuel fuel node bp st :
  (xmlpp.size node ≤ fuel)%nat → no_own_argument (xmlpp.size node) node →
  GetFormula fuel node bp st = GetFormula (xmlpp.size node) node bp st ∧
  (GetFormula fuel node bp st).1 ≠ Throw OutOfFuel.
Proof.
  intros Hfuel Hno.
  destruct (GetFormula (xmlpp.size node) node bp st) as [r st'] eqn:Hrun.
  pose proof (GetFormula_in_fuel _ _ _ (le_n _) Hno _ _ _ Hrun) as Hr.
  by rewrite (GetFormula_more_fuel _ _ Hfuel _ _ _ _ _ Hrun Hr).
Qed.

(** C5: with fuel for the size of the document, [GetFormula] does what it
    does with any more fuel and never stops for lack of it, unless a node is
    its own argument (a node with an empty name, for which the source recurses
    without end).  When [GetFormula] returns a formula, the state is untouched
    and:
    if the node has the attribute [name] or is a [constant], the operator is
    null and the only argument is the one the node itself stands for;
    otherwise the operator is the one whose name is the tag of the node and
    the arguments are the ones the children stand for, child by child.  A
    [constant] stands for the shared house event true when its value is
    "true" and for the shared house event false for any other value. *)
Theorem GetFormula_spec fuel formula_node base_path st :
  ((xmlpp.size formula_node ≤ fuel)%nat →
   no_own_argument (xmlpp.size formula_node) formula_node →
   GetFormula fuel formula_node base_path st
   = GetFormula (xmlpp.size formula_node) formula_node base_path st ∧
   (GetFormula fuel formula_node base_path st).1 ≠ Throw OutOfFuel) ∧
  ∀ formula st',
    GetFormula fuel formula_node base_path st = (Ok formula, st') →
    st' = st ∧
    if bool_decide (is_Some (xmlpp.get_attribute formula_node "name"))
       || bool_decide (xmlpp.get_name formula_node = "constant")
    then
      formula_type formula = kNull ∧
      ∃ arg, formula_args formula = [arg] ∧ is_arg_of st base_path formula_node arg
    else
      kOperatorToString !! formula_type formula = Some (xmlpp.get_name formula_node) ∧
      Forall2 (is_arg_of st base_path) (xmlpp.children formula_node)
              (formula_args formula).
Proof.
  split; [intros; by apply GetFormula_enough_fuel|].
  intros formula st' Hrun. pose proof (keeps_GetFormula _ _ _ _ _ _ Hrun) as <-.
  split; [done|].
  destruct fuel as [|fuel]; [done|]. simpl in Hrun.
  bind_inv Hrun as op st1 Hop.
  bind_inv Hrun as f1 st2 Hvote.
  assert (st1 = st ∧ st2 = st ∧ formula_type f1 = op ∧ formula_args f1 = [])
    as (-> & -> & Hf1 & Hf1').
  { unfold get_formula_type in Hop.
    assert (st1 = st) as ->.
    { destruct (_ || _); [by injection Hop|].
      bind_inv Hop as u s Hassert. injection Hop as _ <-.
      unfold assert_ in Hassert.
      destruct (bool_decide (_ < _)%nat); [by injection Hassert as _ <-|done]. }
    destruct (bool_decide (op = kVote)); [|by injection Hvote as <- <-].
    destruct (CastAttributeValue_int _ _); [done|].
    unfold vote_number in Hvote.
    destruct (vote_number_invalid _); [done|]. by injection Hvote as <- <-. }
  bind_inv Hrun as f2 st3 Hargs.
  assert (formula = f2) as ->.
  { bind_inv Hrun as u st4 Hvalidate. by injection Hrun. }
  clear Hrun. unfold get_formula_type in Hop.
  destruct (_ || _) eqn:Hpass.
  - injection Hop as <-. rewrite bool_decide_eq_true_2 in Hargs by done.
    apply add_arg_Ok in Hargs as (_ & arg & -> & Harg).
    split; [done|]. exists arg. simpl. by rewrite Hf1'.
  - apply orb_false_elim in Hpass as [Hname Hconstant].
    apply bool_decide_eq_false in Hname, Hconstant.
    bind_inv Hop as u s Hassert. injection Hop as <-.
    set (pos := find_pos kOperatorToString (xmlpp.get_name formula_node)) in *.
    unfold assert_ in Hassert.
    destruct (decide (pos < length kOperatorToString)%nat) as [Hpos|Hpos];
      [|by rewrite bool_decide_eq_false_2 in Hassert].
    destruct (decide (pos = kNull)) as [Hnull|Hnull];
      [rewrite bool_decide_eq_true_2 in Hargs by done
      |rewrite bool_decide_eq_false_2 in Hargs by done].
    + exfalso. apply add_arg_Ok in Hargs as (_ & arg & _ & Harg).
      unfold is_arg_of in Harg. rewrite bool_decide_eq_false_2 in Harg by done.
      cbv zeta in Harg. unfold GetAttributeValue in Harg.
      destruct (xmlpp.get_attribute formula_node "name") eqn:Hattr;
        [by destruct Hname|].
      simpl in Harg. destruct Harg as (fuel' & nested & Hnested & _).
      by eapply GetFormula_self.
    + apply add_args_Ok in Hargs as (_ & args & -> & Hall).
      simpl. rewrite Hf1', Hf1. split; [by apply find_pos_lookup|done].
Qed.


(** ** Facts: what [GetFormula] throws *)

Lemma throws_catch_out_of_range {A} (m : M A) e :
  e ≠ out_of_range → throws (λ e, e ≠ out_of_range) (catch_out_of_range m e).
Proof.
  intros He st e' st'. unfold catch_out_of_range.
  destruct (m st) as [[a|[]] st1]; intros [= <- _]; done.
Qed.

Lemma throws_GetFormula fuel node bp :
  throws (λ e, e ≠ out_of_range) (GetFormula fuel node bp).
Proof.
  revert node. induction fuel as [|fuel IH]; intros node; simpl;
    [by apply throws_throw|].
  assert (∀ f n, throws (λ e, e ≠ out_of_range) (add_arg (GetFormula fuel) bp f n))
    as Hadd.
  { intros f n. unfold add_arg, AddArgument.
    repeat first [by apply throws_catch_out_of_range|apply IH|throws_step]; done. }
  assert (∀ nodes f, throws (λ e, e ≠ out_of_range)
                       (add_args (add_arg (GetFormula fuel) bp) f nodes)) as Hargs.
  { induction nodes as [|n nodes IHn]; intros f; simpl; [apply throws_ret|].
    apply throws_bind; [apply Hadd|done]. }
  unfold get_formula_type, vote_number, Formula_Validate.
  repeat first [apply Hadd|apply Hargs|throws_step]; done.
Qed.

(** X10: [GetFormula] leaves the state as it was also when it throws, and
    [std::out_of_range] never leaves it: a look-up of the model that finds
    nothing is reported as a [ValidationError].  For a node that refers by a
    name to an event, a gate, a basic event or a house event, if the model
    has no such element, [GetFormula] throws the [ValidationError] that names
    the kind asked for, the name and the base path after the line of the
    node. *)
Theorem GetFormula_throws fuel formula_node base_path st :
  (∀ e st', GetFormula fuel formula_node base_path st = (Throw e, st') →
            st' = st ∧ e ≠ out_of_range) ∧
  (∀ name,
     xmlpp.get_attribute formula_node "name" = Some name → name ≠ "" →
     xmlpp.get_name formula_node ≠ "constant" → kNull ≠ kVote →
     let element_type :=
       let type := GetAttributeValue formula_node "type" in
       if bool_decide (type = "") then xmlpp.get_name formula_node else type in
     element_type ∈ ["event"; "gate"; "basic-event"; "house-event"] →
     (∀ arg, ¬ is_arg_of st base_path formula_node arg) →
     GetFormula (S fuel) formula_node base_path st
     = (Throw (undefined_event formula_node element_type name base_path), st)).
Proof.
  split.
  { intros e st' Hrun. split; [|by eapply throws_GetFormula].
    symmetry. by eapply keeps_GetFormula. }
  intros name Hname Hne Hconstant Hvote element_type Htype Hnone. simpl.
  unfold get_formula_type. rewrite Hname.
  rewrite (bool_decide_eq_true_2 (is_Some (Some name))) by done. simpl.
  rewrite ret_bind, (bool_decide_eq_false_2 (kNull = kVote)) by done.
  rewrite ret_bind, (bool_decide_eq_true_2 (kNull = kNull)) by done.
  assert (add_arg (GetFormula fuel) base_path (mkFormula kNull [] None) formula_node st
          = (Throw (undefined_event formula_node element_type name base_path), st))
    as Hadd; [|by erewrite bind_Throw].
  assert (GetAttributeValue formula_node "name" = name) as Hvalue
    by (unfold GetAttributeValue; by rewrite Hname).
  unfold add_arg. cbv zeta. fold element_type.
  rewrite (bool_decide_eq_false_2 (_ = "constant")) by done.
  rewrite Hvalue, (bool_decide_eq_false_2 (name = "")) by done.
  rewrite get_state_bind.
  assert (∀ arg, ¬ is_arg_of st base_path formula_node arg) as Hnone' by done.
  unfold is_arg_of in Hnone'. cbv zeta in Hnone'. fold element_type in Hnone'.
  rewrite (bool_decide_eq_false_2 (_ = "constant")) in Hnone' by done.
  rewrite Hvalue, (bool_decide_eq_false_2 (name = "")) in Hnone' by done.
  unfold catch_out_of_range.
  repeat case_bool_decide.
  - destruct (Model_GetEvent _ _ _ _) as [arg|]; [by destruct (Hnone' arg)|done].
  - destruct (Model_GetGate _ _ _ _) as [arg|]; [by destruct (Hnone' (GateArg arg))|done].
  - destruct (Model_GetBasicEvent _ _ _ _) as [arg|];
      [by destruct (Hnone' (BasicEventArg arg))|done].
  - destruct (Model_GetHouseEvent _ _ _ _) as [arg|];
      [by destruct (Hnone' (HouseEventArg arg))|done].
  - set_solver.
Qed.

End Formulas.

Section Expressions.
Context `{E : Env}.

(** ** Expressions *)

(** An XML argument of an extractor, as the extractor uses it: the call
    [init->GetExpression(XmlElement(node), base_path)] on the node itself, and
    the same call on each of the children [node->find("./*")]. *)
Record ArgNode := {
  arg_GetExpression : M Expression;
  arg_children : list (M Expression);
}.

(** [std::make_unique<T>(args...)]; the constructor may throw. *)
Definition make_unique (expression : Expression) : M Expression :=
  match constructor_invalid expression with
  | Some msg => throw (InvalidArgument msg)
  | None => mret expression
  end.

(** [Extractor<T, N>]: the argument [N - 1] is extracted first and put in
    front of the arguments accumulated so far; [Extractor<T, 0>] constructs
    the expression.  [args.at] throws when the argument is missing. *)
Fixpoint Extractor (T : list Expression → Expression) (N : nat)
    (args : list ArgNode) (expressions : list Expression) : M Expression :=
  match N with
  | 0 => make_unique (T expressions)
  | S N' =>
      match args !! N' with
      | None => throw out_of_range
      | Some node =>
          expression ← arg_GetExpression node;
          Extractor T N' args (expression :: expressions)
      end
  end.

(** The loop of [Extractor<T, -1>]. *)
Fixpoint extract_all (args : list ArgNode) (expr_args : list Expression)
  : M (list Expression) :=
  match args with
  | [] => mret expr_args
  | node :: rest =>
      expression ← arg_GetExpression node;
      extract_all rest (expr_args ++ [expression])
  end.

Definition Extractor_variadic (T : list Expression → Expression)
    (args : list ArgNode) : M Expression :=
  expr_args ← extract_all args [];
  make_unique (T expr_args).

(** [Extract<T>] for the class [T] of the tag [tag]. *)
Definition Extract (tag : string) (args : list ArgNode) : M Expression :=
  match num_args tag with
  | Variadic => Extractor_variadic (Formula_ tag) args
  | Fixed N => Extractor (Formula_ tag) (Pos.to_nat N) args []
  end.

(** The loop of [Extract<Histogram>] over the bins. *)
Fixpoint extract_bins (bins : list ArgNode) (boundaries weights : list Expression)
  : M (list Expression * list Expression) :=
  match bins with
  | [] => mret (boundaries, weights)
  | el :: rest =>
      let bin := arg_children el in
      assert_ (bool_decide (length bin = 2%nat)) ;;
      match bin with
      | [bin_0; bin_1] =>
          boundary ← bin_0;
          weight ← bin_1;
          extract_bins rest (boundaries ++ [boundary]) (weights ++ [weight])
      | _ => throw AssertionFailure
      end
  end.

Definition Extract_Histogram (args : list ArgNode) : M Expression :=
  assert_ (bool_decide (1 < length args)%nat) ;;
  match args with
  | front :: bins =>
      lower ← arg_GetExpression front;
      '(boundaries, weights) ← extract_bins bins [lower] [];
      make_unique (Histogram boundaries weights)
  | [] => throw AssertionFailure
  end.

Definition Extract_LognormalDeviate (args : list ArgNode) : M Expression :=
  if bool_decide (length args = 3%nat)
  then Extractor LognormalDeviate 3 args []
  else Extractor LognormalDeviate 2 args [].

Definition Extract_PeriodicTest (args : list ArgNode) : M Expression :=
  match length args with
  | 4 => Extractor PeriodicTest 4 args []
  | 5 => Extractor PeriodicTest 5 args []
  | 11 => Extractor PeriodicTest 11 args []
  | _ => throw (InvalidArgument "Invalid number of arguments for Periodic Test.")
  end%nat.

(** The loop of [Extract<Switch>] over the cases. *)
Fixpoint extract_cases (cases_ : list ArgNode) (cases : list (Expression * Expression))
  : M (list (Expression * Expression)) :=
  match cases_ with
  | [] => mret cases
  | it :: rest =>
      let nodes := arg_children it in
      assert_ (bool_decide (length nodes = 2%nat)) ;;
      match nodes with
      | [front; back] =>
          condition ← front;
          value ← back;
          extract_cases rest (cases ++ [(condition, value)])
      | _ => throw AssertionFailure
      end
  end.

Definition Extract_Switch (args : list ArgNode) : M Expression :=
  assert_ (negb (bool_decide (args = []))) ;;
  match last args with
  | Some back =>
      default_value ← arg_GetExpression back;
      cases ← extract_cases (removelast args) [];
      make_unique (Switch cases default_value)
  | None => throw AssertionFailure
  end.

Definition kExpressionExtractors_ : list (string * (list ArgNode → M Expression)) :=
  [ ("exponential", Extract "exponential");
    ("GLM", Extract "GLM");
    ("Weibull", Extract "Weibull");
    ("periodic-test", Extract_PeriodicTest);
    ("uniform-deviate", Extract "uniform-deviate");
    ("normal-deviate", Extract "normal-deviate");
    ("lognormal-deviate", Extract_LognormalDeviate);
    ("gamma-deviate", Extract "gamma-deviate");
    ("beta-deviate", Extract "beta-deviate");
    ("histogram", Extract_Histogram);
    ("neg", Extract "neg");
    ("add", Extract "add");
    ("sub", Extract "sub");
    ("mul", Extract "mul");
    ("div", Extract "div");
    ("abs", Extract "abs");
    ("acos", Extract "acos");
    ("asin", Extract "asin");
    ("atan", Extract "atan");
    ("cos", Extract "cos");
    ("sin", Extract "sin");
    ("tan", Extract "tan");
    ("cosh", Extract "cosh");
    ("sinh", Extract "sinh");
    ("tanh", Extract "tanh");
    ("exp", Extract "exp");
    ("log", Extract "log");
    ("log10", Extract "log10");
    ("mod", Extract "mod");
    ("pow", Extract "pow");
    ("sqrt", Extract "sqrt");
    ("ceil", Extract "ceil");
    ("floor", Extract "floor");
    ("min", Extract "min");
    ("max", Extract "max");
    ("mean", Extract "mean");
    ("not", Extract "not");
    ("and", Extract "and");
    ("or", Extract "or");
    ("eq", Extract "eq");
    ("df", Extract "df");
    ("lt", Extract "lt");
    ("gt", Extract "gt");
    ("leq", Extract "leq");
    ("geq", Extract "geq");
    ("ite", Extract "ite");
    ("switch", Extract_Switch) ].

(** [kExpressionExtractors_.at(expr_type)] *)
Fixpoint at_ {A} (table : list (string * A)) (key : string) : option A :=
  match table with
  | [] => None
  | (k, v) :: rest => if decide (k = key) then Some v else at_ rest key
  end.

#[global] Arguments at_ {A} table key : simpl never.

(** The lambda [check_units] of [GetParameter], for a parameter or the
    mission time with the unit [parameter_unit]. *)
Definition unit_mismatch (expr_element : xmlpp.Element) (param_unit unit : string)
  : string :=
  GetLine expr_element +:+ "Parameter unit mismatch.
Expected: " +:+ param_unit +:+ "
Given: " +:+ unit.

Definition check_units (expr_element : xmlpp.Element) (parameter_unit : Units) : M unit :=
  let unit := GetAttributeValue expr_element "unit" in
  let param_unit := default "" (kUnitsToString !! parameter_unit) in
  if negb (bool_decide (unit = "")) && negb (bool_decide (unit = param_unit))
  then throw (ValidationError (unit_mismatch expr_element param_unit unit))
  else mret tt.

(** [GetParameter]; [None] is the null pointer that is returned when the
    expression is not a parameter.  In the [try] block of the source only the
    look-up of the model throws [std::out_of_range], so the handler is the
    branch of the look-up that finds nothing. *)
Definition GetParameter (expr_type : string) (expr_element : xmlpp.Element)
    (base_path : string) : M (option Expression) :=
  if bool_decide (expr_type = "parameter") then
    let name := GetAttributeValue expr_element "name" in
    st ← get_state;
    match Model_GetParameter (model_ st) (heap st) name base_path with
    | Some param =>
        write param f_unused (VBool false) ;;
        st ← get_state;
        check_units expr_element (unit_of (heap st) param) ;;
        mret (Some (ParameterRef param))
    | None =>
        throw (ValidationError (GetLine expr_element +:+ "Undefined parameter " +:+
                                name +:+ " with base path " +:+ base_path))
    end
  else if bool_decide (expr_type = "system-mission-time") then
    st ← get_state;
    let mission_time := mission_time (model_ st) in
    check_units expr_element (unit_of (heap st) mission_time) ;;
    mret (Some (MissionTimeRef mission_time))
  else mret None.

(** [Model::Add(std::unique_ptr<Expression>)]: the model takes the ownership
    of the expression. *)
Definition Model_Add_Expression (expression : Expression) (m : Model) : Model :=
  {| table := table m;
     model_expressions := model_expressions m ++ [expression];
     mission_time := mission_time m |}.

(** The lambda [register_expression] of [GetExpression]. *)
Definition register_expression (expression : Expression) : M Expression :=
  modify (λ st, set_model (Model_Add_Expression expression (model_ st)) st) ;;
  mret expression.

(** [try { m } catch (InvalidArgument& err) { handler(err.msg()) }] *)
Definition catch_InvalidArgument {A} (m : M A) (handler : string → M A) : M A := λ st,
  match m st with
  | (Throw (InvalidArgument msg), st') => handler msg st'
  | r => r
  end.

Fixpoint GetExpression (expr_element : xmlpp.Element) (base_path : string)
  : M Expression :=
  let expr_type := xmlpp.get_name expr_element in
  if bool_decide (expr_type = "int") then
    match CastAttributeValue_int expr_element "value" with
    | inr val => register_expression (ConstantInt val)
    | inl msg => throw (ValidationError msg)
    end
  else if bool_decide (expr_type = "float") then
    match CastAttributeValue_double expr_element "value" with
    | inr val => register_expression (ConstantDouble val)
    | inl msg => throw (ValidationError msg)
    end
  else if bool_decide (expr_type = "bool") then
    let val := GetAttributeValue expr_element "value" in
    mret (if bool_decide (val = "true") then kOne else kZero)
  else if bool_decide (expr_type = "pi") then mret kPi
  else
    parameter ← GetParameter expr_type expr_element base_path;
    match parameter with
    | Some expression => mret expression
    | None =>
        let args :=
          map (λ node,
                 {| arg_GetExpression := GetExpression node base_path;
                    arg_children :=
                      map (λ child, GetExpression child base_path)
                          (xmlpp.children node) |})
              (xmlpp.children expr_element) in
        catch_InvalidArgument
          (match at_ kExpressionExtractors_ expr_type with
           | Some extractor =>
               expression ← extractor args;
               expression ← register_expression expression;
               modify (λ st, set_expressions
                               (expressions_ st ++ [(expression, expr_element)]) st) ;;
               mret expression
           | None => throw out_of_range
           end)
          (λ msg, throw (ValidationError (GetLine expr_element +:+ msg)))
    end.

(** ** Deferred definition of a basic event *)

(** The setter [BasicEvent::expression]. *)
Definition BasicEvent_expression (basic_event : ptr) (expression : Expression) : M unit :=
  write basic_event f_expression (VExpression expression).

(** [Define(const xmlpp::Element* event_node, BasicEvent* basic_event)] *)
Definition Define_BasicEvent (event_node : xmlpp.Element) (basic_event : ptr) : M unit :=
  let expressions := GetNonAttributeElements event_node in
  match last expressions with
  | Some expr_node =>
      st ← get_state;
      expression ← GetExpression expr_node (base_path_of (heap st) basic_event);
      BasicEvent_expression basic_event expression
  | None => mret tt
  end.

(** ** Facts: what the construction of expressions appends *)

(** The model has been handed the expressions [ms], and the validation list
    has grown by [es]; every expression put on the validation list was handed
    to the model in the same step. *)
Definition appends : relation Initializer := λ st st',
  ∃ ms es,
    model_expressions (model_ st') = model_expressions (model_ st) ++ ms ∧
    expressions_ st' = expressions_ st ++ es ∧
    ∀ x e, (x, e) ∈ es → x ∈ ms.

#[local] Instance appends_po : PreOrder appends.
Proof.
  split.
  - intros st. exists [], []. rewrite !app_nil_r. split_and!; [done..|].
    intros ?? Hin. by apply elem_of_nil in Hin.
  - intros a b c (m1 & e1 & Hm1 & He1 & H1) (m2 & e2 & Hm2 & He2 & H2).
    exists (m1 ++ m2), (e1 ++ e2).
    rewrite Hm2, Hm1, He2, He1, !app_assoc. split_and!; [done..|].
    intros x e [?|?]%elem_of_app; apply elem_of_app; eauto.
Qed.

Lemma appends_set_heap st h : appends st (set_heap h st).
Proof. change (appends st st). reflexivity. Qed.

#[local] Hint Resolve appends_set_heap : keeps.

Definition keeps_args (R : relation Initializer) (args : list ArgNode) : Prop :=
  Forall (λ node, keeps R (arg_GetExpression node) ∧
                  Forall (keeps R) (arg_children node)) args.

Section extractors.
Context (R : relation Initializer) `{!PreOrder R}.

Lemma keeps_make_unique x : keeps R (make_unique x).
Proof. unfold make_unique. repeat keeps_step. Qed.

Lemma keeps_catch_InvalidArgument {A} (m : M A) handler :
  keeps R m → (∀ msg, keeps R (handler msg)) → keeps R (catch_InvalidArgument m handler).
Proof.
  intros Hm Hh st r st'. unfold catch_InvalidArgument.
  destruct (m st) as [[a|[]] st1] eqn:Hrun;
    try (intros [= _ <-]; by eapply Hm).
  intros Hrun'. etrans; [by eapply Hm|by eapply Hh].
Qed.

Lemma keeps_Extractor T N args acc :
  keeps_args R args → keeps R (Extractor T N args acc).
Proof.
  intros Hargs. revert acc. induction N as [|N IH]; intros acc; simpl.
  - apply keeps_make_unique.
  - destruct (args !! N) as [node|] eqn:Hnode; repeat keeps_step; [|done].
    eapply Forall_lookup_1 in Hargs as [? _]; done.
Qed.

Lemma keeps_extract_all args acc :
  keeps_args R args → keeps R (extract_all args acc).
Proof.
  intros Hargs. revert acc.
  induction Hargs as [|node args [Hnode _] _ IH]; intros acc; simpl;
    repeat keeps_step; done.
Qed.

Lemma keeps_Extract tag args : keeps_args R args → keeps R (Extract tag args).
Proof.
  intros Hargs. unfold Extract, Extractor_variadic.
  destruct (num_args tag); repeat keeps_step;
    auto using keeps_extract_all, keeps_make_unique, keeps_Extractor.
Qed.

Lemma keeps_extract_bins bins bs ws :
  keeps_args R bins → keeps R (extract_bins bins bs ws).
Proof.
  intros Hargs. revert bs ws.
  induction Hargs as [|node args [_ Hnode] _ IH]; intros bs ws; simpl;
    [apply keeps_ret; apply _|].
  apply keeps_bind; [apply _|apply keeps_assert; apply _|intros _].
  destruct (arg_children node) as [|b0 [|b1 [|??]]];
    try (apply keeps_throw; apply _).
  apply Forall_cons in Hnode as [H0 [H1 _]%Forall_cons].
  repeat keeps_step; done.
Qed.

Lemma keeps_Extract_Histogram args :
  keeps_args R args → keeps R (Extract_Histogram args).
Proof.
  intros Hargs. unfold Extract_Histogram.
  apply keeps_bind; [apply _|apply keeps_assert; apply _|intros _].
  destruct Hargs as [|node args [Hnode _] Hargs]; [apply keeps_throw; apply _|].
  apply keeps_bind; [apply _|done|intros lower].
  apply keeps_bind; [apply _|by apply keeps_extract_bins|intros [bs ws]].
  apply keeps_make_unique.
Qed.

Lemma keeps_Extract_LognormalDeviate args :
  keeps_args R args → keeps R (Extract_LognormalDeviate args).
Proof.
  intros Hargs. unfold Extract_LognormalDeviate.
  case_bool_decide; by apply keeps_Extractor.
Qed.

Lemma keeps_Extract_PeriodicTest args :
  keeps_args R args → keeps R (Extract_PeriodicTest args).
Proof.
  intros Hargs. unfold Extract_PeriodicTest.
  repeat keeps_step; by apply keeps_Extractor.
Qed.

Lemma keeps_extract_cases cases_ acc :
  keeps_args R cases_ → keeps R (extract_cases cases_ acc).
Proof.
  intros Hargs. revert acc.
  induction Hargs as [|node args [_ Hnode] _ IH]; intros acc; simpl;
    [apply keeps_ret; apply _|].
  apply keeps_bind; [apply _|apply keeps_assert; apply _|intros _].
  destruct (arg_children node) as [|b0 [|b1 [|??]]];
    try (apply keeps_throw; apply _).
  apply Forall_cons in Hnode as [H0 [H1 _]%Forall_cons].
  repeat keeps_step; done.
Qed.

Lemma keeps_args_removelast args : keeps_args R args → keeps_args R (removelast args).
Proof.
  induction 1 as [|node [|node' args] Hnode Hargs IH]; simpl;
    [constructor..|]. by constructor.
Qed.

Lemma keeps_Extract_Switch args :
  keeps_args R args → keeps R (Extract_Switch args).
Proof.
  intros Hargs. unfold Extract_Switch.
  apply keeps_bind; [apply _|apply keeps_assert; apply _|intros _].
  destruct (last args) as [back|] eqn:Hlast; [|apply keeps_throw; apply _].
  apply last_Some in Hlast as [l' ->].
  apply keeps_bind; [apply _| |intros d].
  { apply Forall_app in Hargs as [_ [[? _] _]%Forall_cons]. done. }
  apply keeps_bind; [apply _| |intros c; apply keeps_make_unique].
  by apply keeps_extract_cases, keeps_args_removelast.
Qed.

Lemma keeps_kExpressionExtractors_ args :
  keeps_args R args →
  Forall (λ entry, keeps R (entry.2 args)) kExpressionExtractors_.
Proof.
  intros Hargs. unfold kExpressionExtractors_.
  repeat (apply Forall_cons; split;
          [first [by apply keeps_Extract | by apply keeps_Extract_PeriodicTest
                 | by apply keeps_Extract_LognormalDeviate
                 | by apply keeps_Extract_Histogram | by apply keeps_Extract_Switch]|]).
  constructor.
Qed.

Lemma at_elem_of {A} (table : list (string * A)) key v :
  at_ table key = Some v → (key, v) ∈ table.
Proof.
  induction table as [|[k v'] table IH]; [done|].
  unfold at_; fold (@at_ A).
  case_decide; [intros [= ->]; subst; by left|]. intros ?. right. auto.
Qed.

Lemma keeps_extractor args tag extractor :
  keeps_args R args → at_ kExpressionExtractors_ tag = Some extractor →
  keeps R (extractor args).
Proof.
  intros Hargs Hat%at_elem_of.
  eapply Forall_forall in Hat; [|by apply keeps_kExpressionExtractors_]. done.
Qed.

End extractors.

Lemma keeps_check_units R `{!PreOrder R} x u : keeps R (check_units x u).
Proof. unfold check_units. repeat keeps_step. Qed.

Lemma keeps_GetParameter R `{!PreOrder R} t x bp :
  (∀ st h, R st (set_heap h st)) → keeps R (GetParameter t x bp).
Proof.
  intros HR. unfold GetParameter.
  repeat first [apply keeps_check_units; apply _
               |apply keeps_write; [apply _|done]|keeps_step].
Qed.

(** The tail of [GetExpression]: the expression goes to the model and on the
    validation list in one step. *)
Lemma keeps_register_for_validation x e :
  keeps appends
    (expression ← register_expression x;
     modify (λ st, set_expressions (expressions_ st ++ [(expression, e)]) st) ;;
     mret expression).
Proof.
  intros st r st' [= _ <-]. exists [x], [(x, e)]. split_and!; [done..|].
  intros x' e' [= -> ->]%list_elem_of_singleton. by apply list_elem_of_singleton.
Qed.

Lemma keeps_register_expression x : keeps appends (register_expression x).
Proof.
  intros st r st' [= _ <-]. exists [x], []. simpl. rewrite app_nil_r.
  split_and!; [done..|]. intros ?? Hin. by apply elem_of_nil in Hin.
Qed.

Lemma keeps_GetExpression_size n expr_element base_path :
  (xmlpp.size expr_element < n)%nat →
  keeps appends (GetExpression expr_element base_path).
Proof.
  revert expr_element. induction n as [|n IH]; intros e Hsize; [lia|].
  assert (keeps_args appends
            (map (λ node,
                    {| arg_GetExpression := GetExpression node base_path;
                       arg_children :=
                         map (λ child, GetExpression child base_path)
                             (xmlpp.children node) |})
                 (xmlpp.children e))) as Hargs.
  { apply Forall_fmap, Forall_forall. intros c Hc. simpl.
    pose proof (size_children _ _ Hc) as Hlt. split; [apply IH; lia|].
    apply Forall_fmap, Forall_forall. intros g Hg. simpl.
    pose proof (size_children _ _ Hg). apply IH. lia. }
  destruct e as [name attrs line text cs]. simpl in Hargs. simpl.
  repeat case_bool_decide; try (apply keeps_ret; apply _).
  - destruct (CastAttributeValue_int _ _);
      [apply keeps_throw; apply _|apply keeps_register_expression].
  - destruct (CastAttributeValue_double _ _);
      [apply keeps_throw; apply _|apply keeps_register_expression].
  - apply keeps_bind; [apply _|apply keeps_GetParameter; auto with keeps; apply _|].
    intros [x|]; [apply keeps_ret; apply _|].
    apply keeps_catch_InvalidArgument; [apply _| |intros; apply keeps_throw; apply _].
    destruct (at_ kExpressionExtractors_ name) as [extractor|] eqn:Hat;
      [|apply keeps_throw; apply _].
    apply keeps_bind; [apply _| |intros x; apply keeps_register_for_validation].
    eapply keeps_extractor; [apply _|exact Hargs|exact Hat].
Qed.

Lemma keeps_GetExpression expr_element base_path :
  keeps appends (GetExpression expr_element base_path).
Proof. apply (keeps_GetExpression_size (S (xmlpp.size expr_element))). lia. Qed.

(** Neither the model nor the validation list is given an expression. *)
Definition same_expressions : relation Initializer := λ st st',
  model_expressions (model_ st') = model_expressions (model_ st) ∧
  expressions_ st' = expressions_ st.

#[local] Instance same_expressions_po : PreOrder same_expressions.
Proof. split; [done|]. intros a b c [??] [??]. split; congruence. Qed.

Lemma same_expressions_set_heap st h : same_expressions st (set_heap h st).
Proof. done. Qed.

Lemma GetParameter_None expr_type expr_element base_path st st' :
  GetParameter expr_type expr_element base_path st = (Ok None, st') →
  expr_type ≠ "parameter" ∧ expr_type ≠ "system-mission-time" ∧ st' = st.
Proof.
  unfold GetParameter. repeat case_bool_decide.
  - intros Hrun. exfalso. bind_inv Hrun as s st1 Hget.
    destruct (Model_GetParameter _ _ _ _); [|done].
    bind_inv Hrun as u st2 Hw. bind_inv Hrun as s' st3 Hget'.
    bind_inv Hrun as u' st4 Hcheck. done.
  - intros Hrun. exfalso. bind_inv Hrun as s st1 Hget.
    bind_inv Hrun as u' st4 Hcheck. done.
  - by intros [= <-].
Qed.

Lemma GetParameter_Some expr_type expr_element base_path st x st' :
  GetParameter expr_type expr_element base_path st = (Ok (Some x), st') →
  expr_type = "parameter" ∨ expr_type = "system-mission-time".
Proof. unfold GetParameter. repeat case_bool_decide; auto. done. Qed.

Lemma catch_InvalidArgument_Ok {A} (m : M A) (f : string → Exception) st x st' :
  catch_InvalidArgument m (λ msg, throw (f msg)) st = (Ok x, st') →
  m st = (Ok x, st').
Proof.
  unfold catch_InvalidArgument. by destruct (m st) as [[a|[]] st1].
Qed.

Lemma GetExpression_unfold expr_element base_path :
  GetExpression expr_element base_path =
  let expr_type := xmlpp.get_name expr_element in
  if bool_decide (expr_type = "int") then
    match CastAttributeValue_int expr_element "value" with
    | inr val => register_expression (ConstantInt val)
    | inl msg => throw (ValidationError msg)
    end
  else if bool_decide (expr_type = "float") then
    match CastAttributeValue_double expr_element "value" with
    | inr val => register_expression (ConstantDouble val)
    | inl msg => throw (ValidationError msg)
    end
  else if bool_decide (expr_type = "bool") then
    let val := GetAttributeValue expr_element "value" in
    mret (if bool_decide (val = "true") then kOne else kZero)
  else if bool_decide (expr_type = "pi") then mret kPi
  else
    parameter ← GetParameter expr_type expr_element base_path;
    match parameter with
    | Some expression => mret expression
    | None =>
        let args :=
          map (λ node,
                 {| arg_GetExpression := GetExpression node base_path;
                    arg_children :=
                      map (λ child, GetExpression child base_path)
                          (xmlpp.children node) |})
              (xmlpp.children expr_element) in
        catch_InvalidArgument
          (match at_ kExpressionExtractors_ expr_type with
           | Some extractor =>
               expression ← extractor args;
               expression ← register_expression expression;
               modify (λ st, set_expressions
                               (expressions_ st ++ [(expression, expr_element)]) st) ;;
               mret expression
           | None => throw out_of_range
           end)
          (λ msg, throw (ValidationError (GetLine expr_element +:+ msg)))
    end.
Proof. by destruct expr_element. Qed.

(** The tags of the expressions for which [GetExpression] returns a shared
    object: the constants one, zero and pi, a parameter, the mission time. *)
Definition shared_tags : list string :=
  ["bool"; "pi"; "parameter"; "system-mission-time"].

(** C2, amended: every expression that an extractor of
    [kExpressionExtractors_] builds is handed to the model and recorded on the
    validation list in the same step, after the expressions of its arguments;
    an [int] or [float] constant is handed to the model and is not recorded
    on the validation list; for the shared objects neither happens.  Whatever
    is on the validation list was handed to the model. *)
Theorem GetExpression_registers expr_element base_path st x st' :
  GetExpression expr_element base_path st = (Ok x, st') →
  let expr_type := xmlpp.get_name expr_element in
  if bool_decide (expr_type = "int" ∨ expr_type = "float") then
    model_expressions (model_ st') = model_expressions (model_ st) ++ [x] ∧
    expressions_ st' = expressions_ st
  else if bool_decide (expr_type ∈ shared_tags) then
    model_expressions (model_ st') = model_expressions (model_ st) ∧
    expressions_ st' = expressions_ st
  else
    ∃ ms es,
      model_expressions (model_ st') = model_expressions (model_ st) ++ ms ++ [x] ∧
      expressions_ st' = expressions_ st ++ es ++ [(x, expr_element)] ∧
      ∀ y e, (y, e) ∈ es → y ∈ ms.
Proof.
  rewrite GetExpression_unfold. cbv zeta.
  set (expr_type := xmlpp.get_name expr_element).
  unfold shared_tags.
  destruct (decide (expr_type = "int")) as [Hint|Hint].
  { rewrite !bool_decide_eq_true_2 by auto.
    destruct (CastAttributeValue_int _ _); [done|]. by intros [= <- <-]. }
  rewrite (bool_decide_eq_false_2 (expr_type = "int")) by done.
  destruct (decide (expr_type = "float")) as [Hfloat|Hfloat].
  { rewrite !bool_decide_eq_true_2 by auto.
    destruct (CastAttributeValue_double _ _); [done|]. by intros [= <- <-]. }
  rewrite (bool_decide_eq_false_2 (expr_type = "float")) by done.
  rewrite (bool_decide_eq_false_2 (_ ∨ _)) by (by intros [?|?]).
  destruct (decide (expr_type = "bool")) as [Hbool|Hbool].
  { rewrite (bool_decide_eq_true_2 (expr_type = "bool")) by done.
    rewrite (bool_decide_eq_true_2 (_ ∈ _)) by (rewrite Hbool; set_solver).
    by intros [= _ <-]. }
  rewrite (bool_decide_eq_false_2 (expr_type = "bool")) by done.
  destruct (decide (expr_type = "pi")) as [Hpi|Hpi].
  { rewrite (bool_decide_eq_true_2 (expr_type = "pi")) by done.
    rewrite (bool_decide_eq_true_2 (_ ∈ _)) by (rewrite Hpi; set_solver).
    by intros [= _ <-]. }
  rewrite (bool_decide_eq_false_2 (expr_type = "pi")) by done.
  intros Hrun. bind_inv Hrun as parameter st1 Hparameter.
  pose proof Hparameter as Hsame.
  apply (keeps_GetParameter same_expressions) in Hsame as [Hm1 He1];
    [|apply same_expressions_set_heap].
  destruct parameter as [expression|].
  - apply GetParameter_Some in Hparameter.
    rewrite bool_decide_eq_true_2 by set_solver.
    by injection Hrun as <- <-.
  - apply GetParameter_None in Hparameter as (Hp & Hsmt & ->).
    rewrite bool_decide_eq_false_2 by set_solver.
    apply catch_InvalidArgument_Ok in Hrun.
    destruct (at_ kExpressionExtractors_ expr_type) as [extractor|] eqn:Hat; [|done].
    bind_inv Hrun as x0 st2 Hextract.
    injection Hrun as <- <-.
    match type of Hextract with
    | extractor ?args _ = _ => assert (keeps_args appends args) as Hargs
    end.
    { apply Forall_fmap, Forall_forall. intros node _. simpl.
      split; [apply keeps_GetExpression|].
      apply Forall_fmap, Forall_forall. intros child _. apply keeps_GetExpression. }
    pose proof (keeps_extractor appends _ _ _ Hargs Hat _ _ _ Hextract)
      as (ms & es & Hms & Hes & Hin).
    exists ms, es. simpl. by rewrite Hms, Hes, <-!app_assoc.
Qed.

(** ** Facts: references to parameters *)

Lemma unit_of_store_unused h p b q :
  unit_of (store p f_unused (VBool b) h) q = unit_of h q.
Proof. unfold unit_of, store. simpl. by rewrite lookup_insert_ne by congruence. Qed.

Lemma unused_of_store_unused h p b : unused_of (store p f_unused (VBool b) h) p = b.
Proof. unfold unused_of, store. simpl. by rewrite lookup_insert_eq. Qed.

(** The run of [GetParameter] on a reference to a parameter that the model
    finds. *)
Lemma GetParameter_parameter expr_element base_path st param :
  Model_GetParameter (model_ st) (heap st)
                     (GetAttributeValue expr_element "name") base_path = Some param →
  let unit := GetAttributeValue expr_element "unit" in
  let param_unit := default "" (kUnitsToString !! unit_of (heap st) param) in
  GetParameter "parameter" expr_element base_path st =
  (if negb (bool_decide (unit = "")) && negb (bool_decide (unit = param_unit))
   then Throw (ValidationError (unit_mismatch expr_element param_unit unit))
   else Ok (Some (ParameterRef param)),
   set_heap (store param f_unused (VBool false) (heap st)) st).
Proof.
  intros Hget. unfold GetParameter. rewrite bool_decide_eq_true_2 by done.
  unfold mbind, M_bind, get_state at 1. rewrite Hget.
  unfold write, modify, get_state, check_units. simpl.
  rewrite unit_of_store_unused.
  by destruct (negb _ && negb _).
Qed.

Lemma unit_mismatch_contains expr_element param_unit unit :
  contains param_unit (unit_mismatch expr_element param_unit unit) ∧
  contains unit (unit_mismatch expr_element param_unit unit).
Proof. unfold unit_mismatch. split; eauto 8 with contains_db. Qed.

(** C4: for a reference to a parameter that the model finds, if the unit
    attribute of the reference is not empty and differs from the unit of the
    definition, [GetParameter] throws a [ValidationError] whose message holds
    both the unit of the definition and the given unit; if the attribute is
    empty or names the unit of the definition, it returns the parameter. *)
Theorem GetParameter_unit_check expr_element base_path st param :
  Model_GetParameter (model_ st) (heap st)
                     (GetAttributeValue expr_element "name") base_path = Some param →
  let unit := GetAttributeValue expr_element "unit" in
  let param_unit := default "" (kUnitsToString !! unit_of (heap st) param) in
  (unit ≠ "" → unit ≠ param_unit →
   ∃ msg st', GetParameter "parameter" expr_element base_path st
                = (Throw (ValidationError msg), st') ∧
              msg = GetLine expr_element +:+ "Parameter unit mismatch.
Expected: " +:+ param_unit +:+ "
Given: " +:+ unit ∧
              contains param_unit msg ∧ contains unit msg) ∧
  (unit = "" ∨ unit = param_unit →
   ∃ st', GetParameter "parameter" expr_element base_path st
            = (Ok (Some (ParameterRef param)), st')).
Proof.
  intros Hget unit param_unit.
  pose proof (GetParameter_parameter _ _ _ _ Hget) as Hrun. cbv zeta in Hrun.
  fold unit param_unit in Hrun. split.
  - intros Hne Hdiff. do 2 eexists. split; [|split; [reflexivity|]].
    + rewrite Hrun, !bool_decide_eq_false_2 by done. reflexivity.
    + apply unit_mismatch_contains.
  - intros Heq. eexists. rewrite Hrun.
    destruct Heq as [Heq|Heq]; rewrite (bool_decide_eq_true_2 _ Heq);
      [|rewrite andb_false_r]; reflexivity.
Qed.

(** C10: a reference to a parameter that the model finds clears the unused
    flag of the parameter before the units are compared: the parameter is
    marked as used in the state that [GetParameter] leaves, whatever it was
    before and also when the units differ and [ValidationError] is thrown. *)
Theorem GetParameter_clears_unused expr_element base_path st param r st' :
  Model_GetParameter (model_ st) (heap st)
                     (GetAttributeValue expr_element "name") base_path = Some param →
  GetParameter "parameter" expr_element base_path st = (r, st') →
  let unit := GetAttributeValue expr_element "unit" in
  let param_unit := default "" (kUnitsToString !! unit_of (heap st) param) in
  unused_of (heap st') param = false ∧
  (unit ≠ "" → unit ≠ param_unit →
   r = Throw (ValidationError (unit_mismatch expr_element param_unit unit))).
Proof.
  intros Hget Hrun unit param_unit.
  rewrite (GetParameter_parameter _ _ _ _ Hget) in Hrun.
  injection Hrun as <- <-. split.
  - simpl. apply unused_of_store_unused.
  - intros Hne Hdiff. fold unit param_unit.
    by rewrite !bool_decide_eq_false_2 by done.
Qed.

(** ** Facts: the definition of a basic event *)

Lemma expression_of_store h p x :
  expression_of (store p f_expression (VExpression x) h) p = Some x.
Proof. unfold expression_of, store. simpl. by rewrite lookup_insert_eq. Qed.

(** C8: when the XML element of a basic event has children other than the
    label and the attributes, the last of them, and only it, is given to
    [GetExpression], and the expression that comes back is attached to the
    basic event, however many such children there are; an exception of
    [GetExpression] on that child is the only way to fail.  When there is no
    such child the state is left as it is, so the basic event has the
    expression it had before, none after its construction. *)
Theorem Define_BasicEvent_spec event_node basic_event st :
  let expressions := GetNonAttributeElements event_node in
  let base_path := base_path_of (heap st) basic_event in
  (expressions = [] → Define_BasicEvent event_node basic_event st = (Ok tt, st)) ∧
  (∀ others expr_node,
     expressions = others ++ [expr_node] →
     (∀ x st1, GetExpression expr_node base_path st = (Ok x, st1) →
        ∃ st', Define_BasicEvent event_node basic_event st = (Ok tt, st') ∧
               st' = set_heap (store basic_event f_expression (VExpression x)
                                     (heap st1)) st1 ∧
               expression_of (heap st') basic_event = Some x) ∧
     (∀ e st1, GetExpression expr_node base_path st = (Throw e, st1) →
        Define_BasicEvent event_node basic_event st = (Throw e, st1))).
Proof.
  intros expressions base_path. unfold Define_BasicEvent. fold expressions.
  split.
  - by intros ->.
  - intros others expr_node ->. rewrite last_snoc.
    unfold mbind, M_bind, get_state. fold base_path. split.
    + intros x st1 ->. eexists. split_and!; [reflexivity..|].
      apply expression_of_store.
    + by intros e st1 ->.
Qed.

(** ** Facts: the extractors *)

Lemma runs_length {A} (ms : list (M A)) st xs st' :
  runs ms st xs st' → length xs = length ms.
Proof. induction 1; simpl; congruence. Qed.

Lemma make_unique_run expression st :
  make_unique expression st =
  match constructor_invalid expression with
  | Some msg => (Throw (InvalidArgument msg), st)
  | None => (Ok expression, st)
  end.
Proof. unfold make_unique. by destruct (constructor_invalid _). Qed.

(** [Extractor<T, N>] runs the first [N] arguments from the last to the first
    and hands their expressions, in the order of the arguments, to the
    constructor. *)
Lemma Extractor_runs T N args acc st ys st1 :
  (N ≤ length args)%nat →
  runs (reverse (take N (arg_GetExpression <$> args))) st ys st1 →
  Extractor T N args acc st = make_unique (T (reverse ys ++ acc)) st1.
Proof.
  revert acc st ys. induction N as [|N IH]; intros acc st ys Hlen Hruns.
  - simpl in *. by inversion Hruns.
  - destruct (lookup_lt_is_Some_2 args N) as [node Hnode]; [lia|].
    rewrite (take_S_r _ _ (arg_GetExpression node)), reverse_snoc in Hruns
      by (by rewrite list_lookup_fmap, Hnode).
    inversion Hruns as [|m ms st0 x st' xs st2 Hx Hrest]; subst.
    simpl. rewrite Hnode. erewrite bind_Ok by done.
    rewrite (IH (x :: acc) st' xs) by (done || lia).
    by rewrite reverse_cons, <-app_assoc.
Qed.

(** The arguments that [GetExpression] hands to an extractor. *)
Definition extractor_args (base_path : string) (nodes : list xmlpp.Element)
  : list ArgNode :=
  map (λ node,
         {| arg_GetExpression := GetExpression node base_path;
            arg_children :=
              map (λ child, GetExpression child base_path)
                  (xmlpp.children node) |})
      nodes.

Lemma extractor_args_GetExpression base_path nodes :
  arg_GetExpression <$> extractor_args base_path nodes
  = (λ node, GetExpression node base_path) <$> nodes.
Proof. unfold extractor_args. by rewrite <-list_fmap_compose. Qed.

(** The run of [GetExpression] on an element that is none of the leaves:
    the extractor of the tag, then the registration. *)
Definition register_for_validation (expr_element : xmlpp.Element)
    (expression : Expression) (st : Initializer) : Initializer :=
  set_expressions (expressions_ st ++ [(expression, expr_element)])
    (set_model (Model_Add_Expression expression (model_ st)) st).

Lemma GetExpression_extractor expr_element base_path extractor st :
  xmlpp.get_name expr_element ∉
    ["int"; "float"; "bool"; "pi"; "parameter"; "system-mission-time"] →
  at_ kExpressionExtractors_ (xmlpp.get_name expr_element) = Some extractor →
  GetExpression expr_element base_path st =
  match extractor (extractor_args base_path (xmlpp.children expr_element)) st with
  | (Ok expression, st1) =>
      (Ok expression, register_for_validation expr_element expression st1)
  | (Throw (InvalidArgument msg), st1) =>
      (Throw (ValidationError (GetLine expr_element +:+ msg)), st1)
  | (Throw e, st1) => (Throw e, st1)
  end.
Proof.
  intros Hleaf Hat. rewrite GetExpression_unfold. cbv zeta.
  rewrite !bool_decide_eq_false_2 by set_solver.
  unfold GetParameter. rewrite !bool_decide_eq_false_2 by set_solver.
  rewrite Hat. unfold catch_InvalidArgument, mbind, M_bind, mret, M_ret.
  fold (extractor_args base_path (xmlpp.children expr_element)).
  by destruct (extractor _ st) as [[x|[]] st1].
Qed.

(** The loop of [Extract<Histogram>] over bins of two children each. *)
Lemma extract_bins_runs base_path bins uws st st1 bs ws :
  Forall (λ bin, length (xmlpp.children bin) = 2%nat) bins →
  length uws = length bins →
  runs ((λ node, GetExpression node base_path) <$> concat (xmlpp.children <$> bins))
       st (concat ((λ uw : Expression * Expression, [uw.1; uw.2]) <$> uws)) st1 →
  extract_bins (extractor_args base_path bins) bs ws st
  = (Ok (bs ++ uws.*1, ws ++ uws.*2), st1).
Proof.
  intros Hbins. revert uws st bs ws.
  induction Hbins as [|bin bins Hbin _ IH]; intros uws st bs ws Hlen Hruns.
  - destruct uws; [|done]. inversion Hruns; subst. simpl. by rewrite !app_nil_r.
  - destruct uws as [|[u w] uws]; [done|].
    destruct (xmlpp.children bin) as [|c0 [|c1 [|??]]] eqn:Hc; try done.
    simpl in Hruns. rewrite Hc in Hruns. simpl in Hruns.
    inversion Hruns as [|? ? ? ? st2 ? ? Hu Hruns']; subst.
    inversion Hruns' as [|? ? ? ? st3 ? ? Hw Hruns'']; subst.
    simpl. rewrite Hc. simpl. rewrite ret_bind.
    erewrite (bind_Ok (GetExpression c0 base_path)) by done.
    erewrite (bind_Ok (GetExpression c1 base_path)) by done.
    rewrite (IH uws st3) by (done || (simpl in Hlen; lia)).
    by rewrite <-!app_assoc.
Qed.

(** C6: the element is a [histogram] whose first child is the lower boundary
    and whose other children, at least one, are bins of two children each.
    If the expressions of the lower boundary and then of the upper boundary
    and the weight of each bin, in the order of the document, are [lower] and
    [uws], then [GetExpression] constructs the histogram whose boundaries are
    [lower] followed by the upper boundaries in order and whose weights are
    the weights in order: one boundary more than there are weights, one weight
    per bin. *)
Theorem GetExpression_Histogram expr_element base_path lower_node bins
    st lower uws st1 :
  xmlpp.get_name expr_element = "histogram" →
  xmlpp.children expr_element = lower_node :: bins →
  bins ≠ [] →
  Forall (λ bin, length (xmlpp.children bin) = 2%nat) bins →
  length uws = length bins →
  runs ((λ node, GetExpression node base_path)
          <$> lower_node :: concat (xmlpp.children <$> bins))
       st (lower :: concat ((λ uw : Expression * Expression, [uw.1; uw.2]) <$> uws))
       st1 →
  let boundaries := lower :: uws.*1 in
  let weights := uws.*2 in
  constructor_invalid (Histogram boundaries weights) = None →
  GetExpression expr_element base_path st
  = (Ok (Histogram boundaries weights),
     register_for_validation expr_element (Histogram boundaries weights) st1) ∧
  length boundaries = S (length weights) ∧ length weights = length bins.
Proof.
  intros Htag Hchildren Hne Hbins Hlen Hruns boundaries weights Hctor.
  split; [|unfold boundaries, weights; simpl; by rewrite !length_fmap].
  rewrite (GetExpression_extractor _ _ Extract_Histogram);
    [|rewrite Htag; set_solver|by rewrite Htag].
  rewrite Hchildren. unfold Extract_Histogram.
  inversion Hruns as [|? ? ? ? st2 ? ? Hlower Hruns']; subst.
  rewrite bool_decide_eq_true_2 by (destruct bins; [done|simpl; lia]).
  simpl. rewrite ret_bind.
  erewrite (bind_Ok (GetExpression lower_node base_path)) by done.
  erewrite bind_Ok by (by apply (extract_bins_runs _ _ uws)).
  simpl. rewrite make_unique_run. fold boundaries weights. by rewrite Hctor.
Qed.

(** C7: for an element [periodic-test], if the number of its children is not
    4, 5 or 11, [GetExpression] throws the [ValidationError] that is the
    [InvalidArgument] of the extractor with the line of the element in front,
    and leaves the state as it is.  If it is 4, 5 or 11 and the children,
    taken from the last to the first, have the expressions [xs], the
    constructor of that many arguments is given [xs] in the order of the
    children; an [InvalidArgument] of the constructor becomes a
    [ValidationError] with the line of the element in front as well. *)
Theorem GetExpression_PeriodicTest expr_element base_path st :
  xmlpp.get_name expr_element = "periodic-test" →
  let n := length (xmlpp.children expr_element) in
  (n ≠ 4%nat → n ≠ 5%nat → n ≠ 11%nat →
   GetExpression expr_element base_path st
   = (Throw (ValidationError
               (GetLine expr_element +:+
                "Invalid number of arguments for Periodic Test.")), st)) ∧
  (n = 4%nat ∨ n = 5%nat ∨ n = 11%nat →
   ∀ xs st1,
     runs ((λ node, GetExpression node base_path)
             <$> reverse (xmlpp.children expr_element)) st (reverse xs) st1 →
     length xs = n ∧
     GetExpression expr_element base_path st =
     match constructor_invalid (PeriodicTest xs) with
     | None =>
         (Ok (PeriodicTest xs),
          register_for_validation expr_element (PeriodicTest xs) st1)
     | Some msg => (Throw (ValidationError (GetLine expr_element +:+ msg)), st1)
     end).
Proof.
  intros Htag n.
  assert (∀ st, GetExpression expr_element base_path st = _)
    as Hrun by (intros; apply (GetExpression_extractor _ _ Extract_PeriodicTest);
                [rewrite Htag; set_solver|by rewrite Htag]).
  rewrite Hrun. unfold Extract_PeriodicTest, extractor_args.
  rewrite length_map. fold n. split.
  - intros H4 H5 H11.
    do 12 (destruct n as [|n]; try done).
  - intros Hn xs st1 Hruns.
    assert (length xs = n) as Hxs.
    { apply runs_length in Hruns.
      by rewrite length_reverse, length_fmap, length_reverse in Hruns. }
    split; [done|].
    fold (extractor_args base_path (xmlpp.children expr_element)).
    assert (Extractor PeriodicTest n
              (extractor_args base_path (xmlpp.children expr_element)) [] st
            = make_unique (PeriodicTest xs) st1) as Hext.
    { rewrite (Extractor_runs _ _ _ _ _ (reverse xs) st1).
      - by rewrite reverse_involutive, app_nil_r.
      - unfold extractor_args. by rewrite length_map.
      - rewrite extractor_args_GetExpression, firstn_all2, <-fmap_reverse;
          [done|by rewrite length_fmap]. }
    rewrite make_unique_run in Hext.
    destruct Hn as [Hn|[Hn|Hn]]; rewrite Hn in *; rewrite Hext;
      by destruct (constructor_invalid _).
Qed.

(** ** Facts: what [GetExpression] leaves alone, and what it throws *)

(** [GetExpression] keeps whatever the registration of an expression and a
    reference to a parameter keep. *)
Lemma keeps_GetExpression_gen R `{!PreOrder R} :
  (∀ x, keeps R (register_expression x)) →
  (∀ x e, keeps R (modify (λ st, set_expressions (expressions_ st ++ [(x, e)]) st))) →
  (∀ t x bp, keeps R (GetParameter t x bp)) →
  ∀ expr_element base_path, keeps R (GetExpression expr_element base_path).
Proof.
  intros Hregister Hrecord Hparameter expr_element base_path.
  assert (∀ n e, (xmlpp.size e < n)%nat → keeps R (GetExpression e base_path)) as Hsize.
  { induction n as [|n IH]; intros e Hlt; [lia|].
    assert (keeps_args R (extractor_args base_path (xmlpp.children e))) as Hargs.
    { apply Forall_fmap, Forall_forall. intros c Hc. simpl.
      pose proof (size_children _ _ Hc) as Hc'. split; [apply IH; lia|].
      apply Forall_fmap, Forall_forall. intros g Hg. simpl.
      pose proof (size_children _ _ Hg). apply IH. lia. }
    rewrite GetExpression_unfold. cbv zeta.
    fold (extractor_args base_path (xmlpp.children e)).
    repeat case_bool_decide; try (apply keeps_ret; apply _).
    - destruct (CastAttributeValue_int _ _); [apply keeps_throw; apply _|done].
    - destruct (CastAttributeValue_double _ _); [apply keeps_throw; apply _|done].
    - apply keeps_bind; [apply _|done|].
      intros [x|]; [apply keeps_ret; apply _|].
      apply keeps_catch_InvalidArgument; [apply _| |intros; apply keeps_throw; apply _].
      destruct (at_ kExpressionExtractors_ (xmlpp.get_name e)) as [extractor|] eqn:Hat;
        [|apply keeps_throw; apply _].
      apply keeps_bind; [apply _| |intros x].
      { eapply keeps_extractor; [apply _|exact Hargs|exact Hat]. }
      apply keeps_bind; [apply _|done|intros x'].
      apply keeps_bind; [apply _|done|intros; apply keeps_ret; apply _]. }
  apply (Hsize (S (xmlpp.size expr_element))). lia.
Qed.

(** The registries, the work list, the settings and the marks are as they
    were, no object is allocated, and no data member is written but the
    unused flag of a parameter. *)
Definition expression_frame : relation Initializer := λ st st',
  tbd_ st' = tbd_ st ∧ settings_ st' = settings_ st ∧
  table (model_ st') = table (model_ st) ∧
  mission_time (model_ st') = mission_time (model_ st) ∧
  next (heap st') = next (heap st) ∧ marks (heap st') = marks (heap st) ∧
  ∀ p f, f ≠ f_unused → fields (heap st') !! (p, f) = fields (heap st) !! (p, f).

#[local] Instance expression_frame_po : PreOrder expression_frame.
Proof.
  split; [done|].
  intros a b c (?&?&?&?&?&?&Hab) (?&?&?&?&?&?&Hbc).
  split_and!; try congruence. intros p f Hf. by rewrite Hbc, Hab.
Qed.

Lemma keeps_frame_GetExpression expr_element base_path :
  keeps expression_frame (GetExpression expr_element base_path).
Proof.
  apply keeps_GetExpression_gen; [apply _|..].
  - by intros x st r st' [= _ <-].
  - by intros x e st r st' [= _ <-].
  - intros t x bp. unfold GetParameter.
    repeat first
      [ apply keeps_check_units; apply _
      | apply keeps_modify; intros ?; split_and!; try done;
        intros ? ? ?; simpl; rewrite lookup_insert_ne; [done|congruence]
      | keeps_step ].
Qed.

(** [GetParameter] throws nothing but [ValidationError]. *)
Lemma throws_GetParameter t x bp :
  throws (λ e, ∃ msg, e = ValidationError msg) (GetParameter t x bp).
Proof.
  unfold GetParameter, check_units. repeat throws_step; by eexists.
Qed.


(** ** Facts: the unit of a parameter, from its registration to a reference *)

Lemma unit_of_same_field st st' p :
  same_field p f_unit st st' → unit_of (heap st') p = unit_of (heap st) p.
Proof. unfold same_field, unit_of. by intros ->. Qed.

Lemma unused_of_same_field st st' p :
  same_field p f_unused st st' → unused_of (heap st') p = unused_of (heap st) p.
Proof. unfold same_field, unused_of. by intros ->. Qed.

(** The parameter that [Register<Parameter>] returns is unused, and its unit
    is the position of the [unit] attribute in the table of units, the first
    unit of the table when the attribute is empty. *)
Lemma Register_Parameter_Ok param_node base_path role st parameter st' :
  Register_Parameter param_node base_path role st = (Ok parameter, st') →
  let unit := GetAttributeValue param_node "unit" in
  unused_of (heap st') parameter = true ∧
  unit_of (heap st') parameter
  = (if bool_decide (unit = "") then 0%nat else find_pos kUnitsToString unit) ∧
  (unit ≠ "" → kUnitsToString !! find_pos kUnitsToString unit = Some unit).
Proof.
  intros Hrun unit. unfold Register_Parameter in Hrun. fold unit in Hrun.
  bind_inv Hrun as p st1 Hnew.
  apply ConstructElement_Role_Ok in Hnew as (-> & role' & st0 & Hdefaults & Hattach).
  simpl in Hdefaults. injection Hdefaults as <-.
  pose proof (keeps_field_AttachLabelAndAttributes (next (heap st)) f_unit _ _
                ltac:(congruence) ltac:(congruence) _ _ _ Hattach) as Hunit1.
  pose proof (keeps_field_AttachLabelAndAttributes (next (heap st)) f_unused _ _
                ltac:(congruence) ltac:(congruence) _ _ _ Hattach) as Hunused1.
  bind_inv Hrun as u st2 Hregister.
  pose proof (keeps_field_Register (next (heap st)) f_unit _ _ _ _ _ _ Hregister)
    as Hunit2.
  pose proof (keeps_field_Register (next (heap st)) f_unused _ _ _ _ _ _ Hregister)
    as Hunused2.
  clear Hregister Hattach.
  bind_inv Hrun as u' st3 Hemplace. injection Hemplace as _ <-.
  assert (unit_of (heap st2) (next (heap st)) = 0%nat ∧
          unused_of (heap st2) (next (heap st)) = true) as [Hunit Hunused].
  { rewrite (unit_of_same_field _ _ _ Hunit2), (unit_of_same_field _ _ _ Hunit1),
      (unused_of_same_field _ _ _ Hunused2), (unused_of_same_field _ _ _ Hunused1).
    unfold unit_of, unused_of. simpl.
    by rewrite lookup_insert_eq, lookup_insert_ne, lookup_insert_eq by congruence. }
  bind_inv Hrun as u'' st4 Hattach. injection Hrun as <- <-.
  case_bool_decide as Hempty.
  { injection Hattach as _ <-. done. }
  bind_inv Hattach as u3 st5 Hassert.
  apply assert_inv in Hassert as [-> [[Hpos _]|[_ [=]]]].
  apply bool_decide_eq_true in Hpos.
  injection Hattach as _ <-. split_and!.
  - unfold unused_of in *. simpl. by rewrite lookup_insert_ne by congruence.
  - unfold unit_of. simpl. by rewrite lookup_insert_eq.
  - intros _. by apply find_pos_lookup.
Qed.

(** X6: the unit that a parameter is registered with is the unit that the
    references to it are checked against.  When [Register<Parameter>] has
    returned the parameter of a definition whose [unit] attribute is not
    empty, that unit is in the table of units, and every reference that the
    model resolves to the parameter comes back with the parameter when the
    [unit] attribute of the reference is empty or is the unit of the
    definition, and throws the mismatch of the two units otherwise; either
    way the parameter is marked as used. *)
Theorem Register_Parameter_reference param_node base_path role st parameter st'
    reference reference_path :
  Register_Parameter param_node base_path role st = (Ok parameter, st') →
  Model_GetParameter (model_ st') (heap st')
                     (GetAttributeValue reference "name") reference_path
  = Some parameter →
  let unit := GetAttributeValue param_node "unit" in
  let given := GetAttributeValue reference "unit" in
  unit ≠ "" →
  unit ∈ kUnitsToString ∧
  ∃ st'',
    GetParameter "parameter" reference reference_path st'
    = (if bool_decide (given = "" ∨ given = unit)
       then Ok (Some (ParameterRef parameter))
       else Throw (ValidationError (unit_mismatch reference unit given)),
       st'') ∧
    unused_of (heap st'') parameter = false.
Proof.
  intros Hrun Hget unit given Hunit'.
  apply Register_Parameter_Ok in Hrun as (_ & Hunit & Htable).
  fold unit in Hunit, Htable. specialize (Htable Hunit').
  rewrite bool_decide_eq_false_2 in Hunit by done.
  split; [by eapply list_elem_of_lookup_2|].
  exists (set_heap (store parameter f_unused (VBool false) (heap st')) st').
  rewrite (GetParameter_parameter _ _ _ _ Hget). cbv zeta.
  fold given. split; [|simpl; apply unused_of_store_unused].
  f_equal.
  assert (default "" (kUnitsToString !! unit_of (heap st') parameter) = unit) as ->.
  { rewrite Hunit. exact (f_equal (default "") Htable). }
  destruct (decide (given = "")) as [Hempty|Hempty].
  { rewrite (bool_decide_eq_true_2 (given = "")) by done. simpl.
    by rewrite bool_decide_eq_true_2 by auto. }
  rewrite (bool_decide_eq_false_2 (given = "")) by done. simpl.
  destruct (decide (given = unit)) as [Heq|Hne].
  - rewrite (bool_decide_eq_true_2 (given = unit)) by done. simpl.
    by rewrite bool_decide_eq_true_2 by auto.
  - rewrite (bool_decide_eq_false_2 (given = unit)) by done. simpl.
    by rewrite bool_decide_eq_false_2 by (by intros [?|?]).
Qed.

(** ** Facts: the number of arguments of an extractor *)

(** [stops ms st e st']: run one after the other from the state [st], the
    computations [ms] return until one of them throws [e], leaving the state
    [st']. *)
Inductive stops {A} : list (M A) → Initializer → Exception → Initializer → Prop :=
| stops_here m ms st e st1 :
    m st = (Throw e, st1) → stops (m :: ms) st e st1
| stops_later m ms st x st1 e st2 :
    m st = (Ok x, st1) → stops ms st1 e st2 → stops (m :: ms) st e st2.

(** What [GetExpression] does with the expression [x] of an extractor that
    has left the state [st1]: the constructor of [x] has the last word. *)
Definition construct (expr_element : xmlpp.Element) (x : Expression)
    (st1 : Initializer) : Result Expression * Initializer :=
  match constructor_invalid x with
  | None => (Ok x, register_for_validation expr_element x st1)
  | Some msg => (Throw (ValidationError (GetLine expr_element +:+ msg)), st1)
  end.

Lemma GetExpression_no_InvalidArgument expr_element base_path st msg st' :
  GetExpression expr_element base_path st ≠ (Throw (InvalidArgument msg), st').
Proof.
  rewrite GetExpression_unfold. cbv zeta.
  repeat case_bool_decide; try done.
  - by destruct (CastAttributeValue_int _ _).
  - by destruct (CastAttributeValue_double _ _).
  - intros Hrun. bind_inv Hrun as parameter st1 Hparameter.
    2: { by apply throws_GetParameter in Hrun as [? [=]]. }
    destruct parameter; [done|].
    unfold catch_InvalidArgument in Hrun.
    by destruct (_ st1) as [[?|[]] ?].
Qed.

Lemma stops_GetExpression base_path nodes st e st1 :
  stops ((λ node, GetExpression node base_path) <$> nodes) st e st1 →
  ∀ msg, e ≠ InvalidArgument msg.
Proof.
  intros Hstops msg ->. remember (_ <$> nodes) as ms eqn:Hms.
  remember (InvalidArgument msg) as e eqn:He.
  revert nodes Hms. induction Hstops as [m ms st e st1 Hm|m ms st x st1 e st2 Hm _ IH];
    intros [|node nodes] [= -> ->]; [|by eapply IH].
  subst e. by apply GetExpression_no_InvalidArgument in Hm.
Qed.

(** [args.at(N - 1)] throws before any argument is looked at. *)
Lemma Extractor_short T N args acc st :
  (length args < N)%nat → Extractor T N args acc st = (Throw out_of_range, st).
Proof.
  intros Hlen. destruct N as [|N]; [lia|]. simpl.
  by rewrite lookup_ge_None_2 by lia.
Qed.

Lemma Extractor_stops T N args acc st e st1 :
  (N ≤ length args)%nat →
  stops (reverse (take N (arg_GetExpression <$> args))) st e st1 →
  Extractor T N args acc st = (Throw e, st1).
Proof.
  revert acc st. induction N as [|N IH]; intros acc st Hlen Hstops.
  - simpl in Hstops. inversion Hstops.
  - destruct (lookup_lt_is_Some_2 args N) as [node Hnode]; [lia|].
    rewrite (take_S_r _ _ (arg_GetExpression node)), reverse_snoc in Hstops
      by (by rewrite list_lookup_fmap, Hnode).
    simpl. rewrite Hnode.
    inversion Hstops as [? ? ? ? ? Hm|? ? ? x st' ? ? Hm Hrest]; subst.
    + by erewrite bind_Throw.
    + erewrite bind_Ok by done. apply IH; [lia|done].
Qed.

Lemma extract_all_runs args acc st xs st1 :
  runs (arg_GetExpression <$> args) st xs st1 →
  extract_all args acc st = (Ok (acc ++ xs), st1).
Proof.
  revert acc st xs. induction args as [|node args IH]; intros acc st xs Hruns.
  - inversion Hruns; subst. simpl. by rewrite app_nil_r.
  - inversion Hruns as [|? ? ? x st' xs' ? Hm Hrest]; subst.
    simpl. erewrite bind_Ok by done. rewrite (IH _ _ xs') by done.
    by rewrite <-app_assoc.
Qed.

Lemma extract_all_stops args acc st e st1 :
  stops (arg_GetExpression <$> args) st e st1 →
  extract_all args acc st = (Throw e, st1).
Proof.
  revert acc st. induction args as [|node args IH]; intros acc st Hstops.
  - inversion Hstops.
  - inversion Hstops as [? ? ? ? ? Hm|? ? ? x st' ? ? Hm Hrest]; subst; simpl.
    + by erewrite bind_Throw.
    + erewrite bind_Ok by done. by apply IH.
Qed.

(** The run of [GetExpression] on an element whose extractor is
    [Extractor<T, N>]. *)
Lemma GetExpression_Extractor expr_element base_path T N st :
  xmlpp.get_name expr_element ∉
    ["int"; "float"; "bool"; "pi"; "parameter"; "system-mission-time"] →
  (∀ st, GetExpression expr_element base_path st =
         match Extractor T N (extractor_args base_path (xmlpp.children expr_element))
                 [] st with
         | (Ok expression, st1) =>
             (Ok expression, register_for_validation expr_element expression st1)
         | (Throw (InvalidArgument msg), st1) =>
             (Throw (ValidationError (GetLine expr_element +:+ msg)), st1)
         | (Throw e, st1) => (Throw e, st1)
         end) →
  let children := xmlpp.children expr_element in
  let evaluated := (λ node, GetExpression node base_path) <$> reverse (take N children) in
  ((length children < N)%nat →
   GetExpression expr_element base_path st = (Throw out_of_range, st)) ∧
  ((N ≤ length children)%nat →
   (∀ xs st1, runs evaluated st (reverse xs) st1 →
      GetExpression expr_element base_path st = construct expr_element (T xs) st1) ∧
   (∀ e st1, stops evaluated st e st1 →
      GetExpression expr_element base_path st = (Throw e, st1))).
Proof.
  intros Hleaf Hrun children evaluated. rewrite Hrun.
  assert (length (extractor_args base_path children) = length children) as Hlength
    by (unfold extractor_args; by rewrite length_map).
  assert (reverse (take N (arg_GetExpression <$> extractor_args base_path children))
          = evaluated) as Hargs.
  { unfold evaluated. by rewrite extractor_args_GetExpression, fmap_reverse, fmap_take. }
  fold children. split; [|intros Hlen; split].
  - intros Hlen. by rewrite Extractor_short by lia.
  - intros xs st1 Hruns.
    rewrite (Extractor_runs _ _ _ _ _ (reverse xs) st1)
      by (by rewrite ?Hargs, ?Hlength).
    rewrite reverse_involutive, app_nil_r, make_unique_run. unfold construct.
    by destruct (constructor_invalid _).
  - intros e st1 Hstops.
    rewrite (Extractor_stops _ _ _ _ _ e st1) by (by rewrite ?Hargs, ?Hlength).
    pose proof (stops_GetExpression _ _ _ _ _ Hstops) as Hnot.
    destruct e; try done. by edestruct Hnot.
Qed.

(** X7: the extractor [Extract<T>] of a class whose constructor takes [N]
    expressions looks at the first [N] children of the element only, from
    the last of them to the first.  With fewer children, [args.at] throws
    [std::out_of_range] before any child is looked at, and the exception
    leaves [GetExpression] as it is; children after the first [N] are never
    looked at.  The expressions [xs] of the first [N] children go to the
    constructor in the order of the children, and what one of them throws
    ends the extraction.  For a class that takes a vector, all children are
    looked at, from the first to the last. *)
Theorem GetExpression_Extract expr_element base_path st :
  let tag := xmlpp.get_name expr_element in
  let children := xmlpp.children expr_element in
  let expressions nodes := (λ node, GetExpression node base_path) <$> nodes in
  tag ∉ ["int"; "float"; "bool"; "pi"; "parameter"; "system-mission-time"] →
  at_ kExpressionExtractors_ tag = Some (Extract tag) →
  match num_args tag with
  | Fixed N =>
      let N := Pos.to_nat N in
      ((length children < N)%nat →
       GetExpression expr_element base_path st = (Throw out_of_range, st)) ∧
      ((N ≤ length children)%nat →
       (∀ xs st1, runs (expressions (reverse (take N children))) st (reverse xs) st1 →
          GetExpression expr_element base_path st
          = construct expr_element (Formula_ tag xs) st1) ∧
       (∀ e st1, stops (expressions (reverse (take N children))) st e st1 →
          GetExpression expr_element base_path st = (Throw e, st1)))
  | Variadic =>
      (∀ xs st1, runs (expressions children) st xs st1 →
         GetExpression expr_element base_path st
         = construct expr_element (Formula_ tag xs) st1) ∧
      (∀ e st1, stops (expressions children) st e st1 →
         GetExpression expr_element base_path st = (Throw e, st1))
  end.
Proof.
  intros tag children expressions Hleaf Hat.
  pose proof (λ st, GetExpression_extractor _ base_path _ st Hleaf Hat) as Hrun.
  unfold Extract in Hrun. fold tag in Hrun. destruct (num_args tag) as [|N].
  - rewrite Hrun. fold children. unfold Extractor_variadic. split.
    + intros xs st1 Hruns.
      erewrite bind_Ok
        by (apply extract_all_runs; by rewrite extractor_args_GetExpression).
      rewrite make_unique_run. unfold construct. simpl.
      by destruct (constructor_invalid _).
    + intros e st1 Hstops.
      erewrite bind_Throw
        by (apply extract_all_stops; by rewrite extractor_args_GetExpression).
      pose proof (stops_GetExpression _ _ _ _ _ Hstops) as Hnot.
    destruct e; try done. by edestruct Hnot.
  - by apply GetExpression_Extractor.
Qed.

(** X8: a [lognormal-deviate] of three children is given to the constructor
    of three expressions; with any other number of children the constructor
    of two expressions is used: with fewer than two children
    [std::out_of_range] leaves [GetExpression] before any child is looked at,
    and with four children or more only the first two are looked at.  The
    children that are looked at are evaluated from the last to the first. *)
Theorem GetExpression_LognormalDeviate expr_element base_path st :
  xmlpp.get_name expr_element = "lognormal-deviate" →
  let children := xmlpp.children expr_element in
  let N := if bool_decide (length children = 3%nat) then 3%nat else 2%nat in
  let evaluated := (λ node, GetExpression node base_path) <$> reverse (take N children) in
  ((length children < 2)%nat →
   GetExpression expr_element base_path st = (Throw out_of_range, st)) ∧
  ((2 ≤ length children)%nat →
   (∀ xs st1, runs evaluated st (reverse xs) st1 →
      length xs = N ∧
      GetExpression expr_element base_path st
      = construct expr_element (LognormalDeviate xs) st1) ∧
   (∀ e st1, stops evaluated st e st1 →
      GetExpression expr_element base_path st = (Throw e, st1))).
Proof.
  intros Htag children N evaluated.
  assert (xmlpp.get_name expr_element ∉
            ["int"; "float"; "bool"; "pi"; "parameter"; "system-mission-time"])
    as Hleaf by (rewrite Htag; set_solver).
  assert (∀ st, GetExpression expr_element base_path st = _) as Hrun
    by (intros; apply (GetExpression_extractor _ _ Extract_LognormalDeviate);
        [done|by rewrite Htag]).
  unfold Extract_LognormalDeviate in Hrun.
  assert (length (extractor_args base_path (xmlpp.children expr_element))
          = length children) as Hlength
    by (unfold extractor_args; by rewrite length_map).
  rewrite Hlength in Hrun. fold N in Hrun.
  assert (∀ st, GetExpression expr_element base_path st =
            match Extractor LognormalDeviate N
                    (extractor_args base_path (xmlpp.children expr_element)) [] st with
            | (Ok expression, st1) =>
                (Ok expression, register_for_validation expr_element expression st1)
            | (Throw (InvalidArgument msg), st1) =>
                (Throw (ValidationError (GetLine expr_element +:+ msg)), st1)
            | (Throw e, st1) => (Throw e, st1)
            end) as Hrun'.
  { intros st0. rewrite Hrun. unfold N. by case_bool_decide. }
  destruct (GetExpression_Extractor _ _ _ N st Hleaf Hrun') as [Hshort Hlong].
  fold children in Hshort, Hlong. fold evaluated in Hlong. split.
  - intros Hlen. apply Hshort. unfold N. case_bool_decide; lia.
  - intros Hlen.
    assert (N ≤ length children)%nat as HN by (unfold N; case_bool_decide; lia).
    destruct (Hlong HN) as [Hruns Hstops]. split; [|done].
    intros xs st1 Hxs. split; [|by apply Hruns].
    apply runs_length in Hxs. unfold evaluated in Hxs.
    rewrite length_reverse, length_fmap, length_reverse, length_take in Hxs. lia.
Qed.

(** The loop of [Extract<Switch>] over cases of two children each. *)
Lemma extract_cases_runs base_path cases cvs st st1 acc :
  Forall (λ case, length (xmlpp.children case) = 2%nat) cases →
  length cvs = length cases →
  runs ((λ node, GetExpression node base_path) <$> concat (xmlpp.children <$> cases))
       st (concat ((λ cv : Expression * Expression, [cv.1; cv.2]) <$> cvs)) st1 →
  extract_cases (extractor_args base_path cases) acc st = (Ok (acc ++ cvs), st1).
Proof.
  intros Hcases. revert cvs st acc.
  induction Hcases as [|case cases Hcase _ IH]; intros cvs st acc Hlen Hruns.
  - destruct cvs; [|done]. inversion Hruns; subst. simpl. by rewrite app_nil_r.
  - destruct cvs as [|[c v] cvs]; [done|].
    destruct (xmlpp.children case) as [|c0 [|c1 [|??]]] eqn:Hc; try done.
    simpl in Hruns. rewrite Hc in Hruns. simpl in Hruns.
    inversion Hruns as [|? ? ? ? st2 ? ? Hcondition Hruns']; subst.
    inversion Hruns' as [|? ? ? ? st3 ? ? Hvalue Hruns'']; subst.
    simpl. rewrite Hc. simpl. rewrite ret_bind.
    erewrite (bind_Ok (GetExpression c0 base_path)) by done.
    erewrite (bind_Ok (GetExpression c1 base_path)) by done.
    rewrite (IH cvs st3) by (done || (simpl in Hlen; lia)).
    by rewrite <-app_assoc.
Qed.

(** X9: in a [switch] the last child is the default value and is evaluated
    first; the children before it are the cases, of two children each, and
    are evaluated after it in the order of the document, the condition of a
    case before its value.  The switch is constructed from the pairs of
    condition and value in the order of the cases and from the default
    value.  A [switch] without children fails the assertion, with the state
    untouched. *)
Theorem GetExpression_Switch expr_element base_path cases default_node st
    default_value cvs st1 :
  xmlpp.get_name expr_element = "switch" →
  (xmlpp.children expr_element = [] →
   GetExpression expr_element base_path st = (Throw AssertionFailure, st)) ∧
  (xmlpp.children expr_element = cases ++ [default_node] →
   Forall (λ case, length (xmlpp.children case) = 2%nat) cases →
   length cvs = length cases →
   runs ((λ node, GetExpression node base_path)
           <$> default_node :: concat (xmlpp.children <$> cases))
        st (default_value
              :: concat ((λ cv : Expression * Expression, [cv.1; cv.2]) <$> cvs))
        st1 →
   GetExpression expr_element base_path st
   = construct expr_element (Switch cvs default_value) st1).
Proof.
  intros Htag.
  rewrite (GetExpression_extractor _ _ Extract_Switch);
    [|rewrite Htag; set_solver|by rewrite Htag].
  unfold Extract_Switch. split.
  - by intros ->.
  - intros Hchildren Hcases Hlen Hruns. rewrite Hchildren.
    inversion Hruns as [|? ? ? ? st2 ? ? Hdefault Hruns']; subst.
    unfold extractor_args. rewrite map_app. simpl.
    rewrite bool_decide_eq_false_2 by (by destruct cases).
    simpl. rewrite ret_bind, last_snoc, removelast_last.
    erewrite bind_Ok by done.
    erewrite bind_Ok by (by apply (extract_cases_runs _ _ cvs)).
    simpl. rewrite make_unique_run. unfold construct.
    by destruct (constructor_invalid _).
Qed.

End Expressions.

(** ** Validation *)

(** Modelled from the spec: the graphs that [cycle::DetectCycle] of [cycle.h]
    walks, "gate → formula args (gate-typed); parameter → parameter refs in
    its expression; named branch → target (branch-typed)".  A gate refers to
    the gates among the arguments of its formula and of the formulas nested in
    it, a parameter to the parameters in its expression, a named branch to the
    named branches that are the targets of the branch, through its forks. *)
Fixpoint formula_gates (formula : Formula) : list ptr :=
  match formula with
  | mkFormula _ args _ =>
      concat (map (λ arg, match arg with
                          | GateArg gate => [gate]
                          | FormulaArg nested => formula_gates nested
                          | _ => []
                          end) args)
  end.

Fixpoint expression_parameters (expression : Expression) : list ptr :=
  match expression with
  | ParameterRef param => [param]
  | Formula_ _ args | LognormalDeviate args | PeriodicTest args =>
      concat (map expression_parameters args)
  | Histogram boundaries weights =>
      concat (map expression_parameters boundaries) ++
      concat (map expression_parameters weights)
  | Switch cases default_value =>
      concat (map (λ '(condition, value),
                     expression_parameters condition ++ expression_parameters value)
                  cases) ++
      expression_parameters default_value
  | _ => []
  end.

Fixpoint target_branches (target : Target) : list ptr :=
  match target with
  | NamedBranchTarget branch => [branch]
  | SequenceTarget _ => []
  | ForkTarget _ paths =>
      concat (map (λ path, match path with
                           | mkPath _ _ target => target_branches target
                           end) paths)
  end.

Definition GetNodes (k : NodeKind) (h : Heap) (node : ptr) : list ptr :=
  match k with
  | GateNode => from_option formula_gates [] (formula_of h node)
  | ParameterNode => from_option expression_parameters [] (expression_of h node)
  | NamedBranchNode => from_option target_branches [] (target_of h node)
  end.

Definition kind_name (k : NodeKind) : string :=
  match k with
  | GateNode => "gate"
  | NamedBranchNode => "branch"
  | ParameterNode => "parameter"
  end.

Definition cycle_message (k : NodeKind) (h : Heap) (node : ptr) (cycle : list ptr)
  : string :=
  "Detected a cycle in " +:+ name_of h node +:+ " " +:+ kind_name k +:+ ":
" +:+ cycle.PrintCycle (name_of h) cycle.

(** The loop [for (node : nodes) if (cycle::DetectCycle(node, &cycle)) throw
    CycleError(...)] over a registry.  The search from a node goes at most as
    deep as there are nodes, which is the fuel. *)
Definition DetectCycles (k : NodeKind) (nodes : list ptr) : M unit := λ st,
  let h := heap st in
  match cycle.detect_all (GetNodes k h) (S (length nodes)) nodes (marks h k) with
  | cycle.NoCycleFrom marks' => (Ok tt, set_heap (set_marks k marks' h) st)
  | cycle.CycleFrom node marks' cycle =>
      (Throw (CycleError (cycle_message k h node cycle)),
       set_heap (set_marks k marks' h) st)
  | cycle.ExhaustedFrom => (Throw OutOfFuel, st)
  end.

(** *** Facts: the loops of the detection *)

(** The validation writes marks only: the data members are as they were. *)
Definition same_fields : relation Initializer := λ st st',
  fields (heap st') = fields (heap st) ∧ model_ st' = model_ st ∧
  settings_ st' = settings_ st ∧ expressions_ st' = expressions_ st.

#[export] Instance same_fields_preorder : PreOrder same_fields.
Proof.
  split; [done|]. intros st1 st2 st3 (?&?&?&?) (?&?&?&?).
  split_and!; congruence.
Qed.

Lemma GetNodes_fields k h h' : fields h' = fields h → GetNodes k h' = GetNodes k h.
Proof.
  intros Heq. destruct k; unfold GetNodes, formula_of, expression_of, target_of;
    by rewrite Heq.
Qed.

Lemma name_of_fields h h' : fields h' = fields h → name_of h' = name_of h.
Proof. intros Heq. unfold name_of. by rewrite Heq. Qed.

Lemma ptrs_of_fields h h' : fields h' = fields h → ptrs_of h' = ptrs_of h.
Proof. intros Heq. unfold ptrs_of. by rewrite Heq. Qed.

Lemma cycle_message_fields k h h' :
  fields h' = fields h → cycle_message k h' = cycle_message k h.
Proof. intros Heq. unfold cycle_message. by rewrite (name_of_fields _ _ Heq). Qed.

Lemma size_list_to_set_le (l : list ptr) :
  (size (list_to_set (C := gset ptr) l) ≤ length l)%nat.
Proof.
  induction l as [|x l IH]; [done|]. rewrite list_to_set_cons.
  rewrite size_union_alt, size_singleton.
  assert (size (list_to_set (C := gset ptr) l ∖ {[x]}) ≤ size (list_to_set (C := gset ptr) l))%nat
    by (apply subseteq_size; set_solver).
  simpl. lia.
Qed.

Lemma settled_clear GetNodes_ (marks : gmap ptr NodeMark) :
  (∀ node, cycle.mark marks node = kClear) → cycle.settled GetNodes_ marks.
Proof.
  intros Hclear. split_and!.
  - intros a b Ha. by rewrite Hclear in Ha.
  - intros a Ha. by rewrite Hclear in Ha.
  - intros a. by rewrite Hclear.
Qed.

(** The nodes of a registry refer to nodes of the registry. *)
Definition closed_under (k : NodeKind) (h : Heap) (nodes : list ptr) : Prop :=
  ∀ a b, a ∈ nodes → b ∈ GetNodes k h a → b ∈ nodes.

#[global] Instance closed_under_dec k h nodes : Decision (closed_under k h nodes).
Proof.
  refine (cast_if (decide (Forall (λ a, Forall (λ b, b ∈ nodes) (GetNodes k h a)) nodes)));
    unfold closed_under; rewrite Forall_forall in *.
  - intros a b Ha Hb. specialize (f a Ha). rewrite Forall_forall in f. by apply f.
  - intros Hclosed. apply n. intros a Ha. apply Forall_forall. intros b Hb.
    by eapply Hclosed.
Defined.

(** A cycle goes through a node of the registry. *)
Definition cyclic (k : NodeKind) (h : Heap) (nodes : list ptr) : Prop :=
  ∃ node, node ∈ nodes ∧ cycle.on_cycle (GetNodes k h) node.

(** What a [CycleError] says: a path that is a cycle of the graph, through
    nodes of the registry, from the search that started at [node]. *)
Definition reports (k : NodeKind) (h : Heap) (nodes : list ptr) (e : Exception) : Prop :=
  ∃ node cycle,
    e = CycleError (cycle_message k h node cycle) ∧ node ∈ nodes ∧
    cycle.closed_cycle (GetNodes k h) cycle ∧
    ∀ n, n ∈ cycle → n ∈ nodes ∧ cycle.on_cycle (GetNodes k h) n.

Definition other_marks (k : NodeKind) : relation Initializer := λ st st',
  ∀ k', k' ≠ k → marks (heap st') k' = marks (heap st) k'.

Lemma DetectCycles_spec k nodes st :
  closed_under k (heap st) nodes →
  cycle.settled (GetNodes k (heap st)) (marks (heap st) k) →
  ∃ r st', DetectCycles k nodes st = (r, st') ∧
    same_fields st st' ∧ other_marks k st st' ∧
    match r with
    | Ok _ =>
        cycle.settled (GetNodes k (heap st)) (marks (heap st') k) ∧
        ¬ cyclic k (heap st) nodes
    | Throw e => reports k (heap st) nodes e
    end.
Proof.
  intros Hclosed Hsettled. unfold DetectCycles.
  pose proof (cycle.detect_all_spec (GetNodes k (heap st)) (list_to_set nodes)) as Hspec.
  specialize (Hspec (λ a b Ha Hb,
    proj2 (elem_of_list_to_set _ _) (Hclosed a b (proj1 (elem_of_list_to_set _ _) Ha) Hb))).
  specialize (Hspec (S (length nodes)) nodes (marks (heap st) k)).
  destruct (cycle.detect_all _ _ _ _) as [marks'|node marks' c|].
  - destruct Hspec as (Hsettled' & _ & Hnodes); [|by intros ? ?; apply elem_of_list_to_set|done|].
    { pose proof (size_list_to_set_le nodes). lia. }
    eexists _, _. split; [done|]. split_and!; try done.
    + intros k' Hk'. simpl. by rewrite decide_False.
    + simpl. by rewrite decide_True.
    + intros (node & Hnode & Hcycle). by apply (Hnodes node).
  - destruct Hspec as (Hnode & Hcycle & Hc); [|by intros ? ?; apply elem_of_list_to_set|done|].
    { pose proof (size_list_to_set_le nodes). lia. }
    eexists _, _. split; [done|]. split_and!; try done.
    + intros k' Hk'. simpl. by rewrite decide_False.
    + exists node, c. split_and!; try done.
      intros n Hn. destruct (Hc n Hn) as [?%elem_of_list_to_set ?]. done.
  - destruct Hspec; [|by intros ? ?; apply elem_of_list_to_set|done].
    pose proof (size_list_to_set_le nodes). lia.
Qed.

Lemma reports_mono k h nodes nodes' e :
  (∀ n, n ∈ nodes → n ∈ nodes') → reports k h nodes e → reports k h nodes' e.
Proof.
  intros Hsub (node & c & -> & Hnode & Hclosed & Hc).
  exists node, c. split_and!; [done|by apply Hsub|done|].
  intros n Hn. destruct (Hc n Hn). split; [by apply Hsub|done].
Qed.

Lemma reports_cyclic k h nodes e : reports k h nodes e → cyclic k h nodes.
Proof.
  intros (node & c & _ & _ & (t & mid & -> & _) & Hc).
  exists t. apply Hc. by left.
Qed.

(** The named branches of the event trees. *)
Definition all_branches (h : Heap) (trees : list ptr) : list ptr :=
  concat (map (λ tree, ptrs_of h tree f_branches) trees).

Lemma elem_of_all_branches h trees n :
  n ∈ all_branches h trees ↔ ∃ tree, tree ∈ trees ∧ n ∈ ptrs_of h tree f_branches.
Proof.
  unfold all_branches. induction trees as [|t trees IH]; simpl.
  - split; [by intros ?%elem_of_nil|]. by intros (tree & ?%elem_of_nil & _).
  - rewrite elem_of_app, IH. split.
    + intros [Hn|(tree & Htree & Hn)].
      * exists t. split; [by left|done].
      * exists tree. split; [by right|done].
    + intros (tree & [->|Htree]%elem_of_cons & Hn); [by left|].
      right. by exists tree.
Qed.

Lemma cyclic_fields k h h' : fields h' = fields h → cyclic k h' = cyclic k h.
Proof. intros Heq. unfold cyclic. by rewrite (GetNodes_fields _ _ _ Heq). Qed.

Lemma reports_fields k h h' : fields h' = fields h → reports k h' = reports k h.
Proof.
  intros Heq. unfold reports.
  by rewrite (GetNodes_fields _ _ _ Heq), (cycle_message_fields _ _ _ Heq).
Qed.

Lemma all_branches_fields h h' :
  fields h' = fields h → all_branches h' = all_branches h.
Proof. intros Heq. unfold all_branches. by rewrite (ptrs_of_fields _ _ Heq). Qed.

Lemma branches_spec trees st :
  (∀ tree, tree ∈ trees →
     closed_under NamedBranchNode (heap st) (ptrs_of (heap st) tree f_branches)) →
  cycle.settled (GetNodes NamedBranchNode (heap st)) (marks (heap st) NamedBranchNode) →
  ∃ r st',
    for_each trees (λ event_tree,
      st ← get_state;
      DetectCycles NamedBranchNode (ptrs_of (heap st) event_tree f_branches)) st
    = (r, st') ∧
    same_fields st st' ∧ other_marks NamedBranchNode st st' ∧
    match r with
    | Ok _ => ¬ cyclic NamedBranchNode (heap st) (all_branches (heap st) trees)
    | Throw e => reports NamedBranchNode (heap st) (all_branches (heap st) trees) e
    end.
Proof.
  revert st. induction trees as [|tree trees IH]; intros st Hclosed Hsettled.
  { eexists _, _. split; [done|]. split_and!; [done..|].
    intros (n & Hn & _). by apply elem_of_nil in Hn. }
  simpl.
  destruct (DetectCycles_spec NamedBranchNode (ptrs_of (heap st) tree f_branches) st)
    as (r1 & st1 & Hrun & Hsame & Hother & Hpost); [apply Hclosed; by left|done|].
  assert ((st0 ← get_state;
           DetectCycles NamedBranchNode (ptrs_of (heap st0) tree f_branches)) st
          = (r1, st1)) as Hbody by done.
  clear Hrun. rename Hbody into Hrun.
  destruct r1 as [[]|e].
  - destruct Hpost as [Hsettled1 Hacyclic].
    pose proof Hsame as (Hfields & _).
    destruct (IH st1) as (r & st' & Hrun' & Hsame' & Hother' & Hpost').
    { intros t Ht. rewrite (ptrs_of_fields _ _ Hfields).
      unfold closed_under. rewrite (GetNodes_fields _ _ _ Hfields).
      apply Hclosed. by right. }
    { by rewrite (GetNodes_fields _ _ _ Hfields). }
    exists r, st'. split; [by rewrite (bind_Ok _ _ _ _ _ Hrun)|].
    split_and!.
    + by etrans.
    + intros k Hk. by rewrite Hother', Hother.
    + rewrite (cyclic_fields _ _ _ Hfields), (reports_fields _ _ _ Hfields),
        (all_branches_fields _ _ Hfields) in Hpost'.
      destruct r as [[]|e].
      * intros (n & (t & [->|Ht]%elem_of_cons & Hn)%elem_of_all_branches & Hcycle).
        -- apply Hacyclic. by exists n.
        -- apply Hpost'. exists n. split; [|done].
           apply elem_of_all_branches. by exists t.
      * eapply reports_mono; [|done]. intros n. unfold all_branches. simpl.
        rewrite elem_of_app. by right.
  - exists (Throw e), st1. split; [by rewrite (bind_Throw _ _ _ _ _ Hrun)|].
    split_and!; [done..|].
    eapply reports_mono; [|done]. intros n. unfold all_branches. simpl.
    rewrite elem_of_app. by left.
Qed.

(** The message of a cycle has the names of all its nodes. *)
Lemma contains_join_names names name :
  name ∈ names → contains name (cycle.join_names names).
Proof.
  induction names as [|first rest IH]; [by intros ?%elem_of_nil|].
  intros [->|Hin]%elem_of_cons.
  - destruct rest; [apply contains_refl|].
    simpl. apply contains_app_l, contains_refl.
  - destruct rest as [|second rest]; [by apply elem_of_nil in Hin|].
    change (contains name (first +:+ "->" +:+ cycle.join_names (second :: rest))).
    auto with contains_db.
Qed.

Lemma contains_cycle_message k h node cycle n :
  n ∈ cycle → contains (name_of h n) (cycle_message k h node cycle).
Proof.
  intros Hn. unfold cycle_message, cycle.PrintCycle.
  do 5 apply contains_app_r. apply contains_join_names.
  apply list_elem_of_fmap. exists n. split; [done|]. by apply elem_of_reverse.
Qed.

(** A computation that leaves the state alone and throws nothing but
    [ValidationError]. *)
Definition validates (m : M unit) : Prop :=
  ∀ st, ∃ r, m st = (r, st) ∧ (r = Ok tt ∨ ∃ msg, r = Throw (ValidationError msg)).

Lemma validates_ret : validates (mret tt).
Proof. intros st. exists (Ok tt). split; [done|by left]. Qed.

Lemma validates_throw msg : validates (throw (ValidationError msg)).
Proof. intros st. exists (Throw (ValidationError msg)). split; [done|]. right. by exists msg. Qed.

Lemma validates_bind (m : M unit) (k : M unit) :
  validates m → validates k → validates (m ;; k).
Proof.
  intros Hm Hk st. destruct (Hm st) as (r & Hrun & [->|(msg & ->)]).
  - destruct (Hk st) as (r' & Hrun' & Hr'). exists r'.
    split; [|done]. by rewrite (bind_Ok _ _ _ _ _ Hrun).
  - exists (Throw (ValidationError msg)). split; [|right; by exists msg].
    by rewrite (bind_Throw _ _ _ _ _ Hrun).
Qed.

Lemma validates_get_state (k : Initializer → M unit) :
  (∀ st, validates (k st)) → validates (get_state ≫= k).
Proof. intros Hk st. rewrite get_state_bind. apply Hk. Qed.

Lemma validates_for_each {A} (l : list A) body :
  (∀ x, validates (body x)) → validates (for_each l body).
Proof.
  intros Hbody. induction l as [|x l IH]; simpl; [apply validates_ret|].
  by apply validates_bind.
Qed.

Section Validation.
Context `{E : Env}.

(** The message of the basic events without an expression: a line for each. *)
Definition missing_expressions (h : Heap) (events : list ptr) : string :=
  foldr (λ event msg,
           if bool_decide (expression_of h event = None)
           then name_of h event +:+ "
" +:+ msg
           else msg) "" events.

(** The messages of the elements that [validate] refuses, a line for each. *)
Definition collect_invalid (validate : ptr → option string) (elements : list ptr)
  : string :=
  foldr (λ element msg,
           match validate element with
           | Some err => err +:+ "
" +:+ msg
           | None => msg
           end) "" elements.

Definition ValidateExpressions : M unit :=
  (* Check for cycles in parameters. This must be done before expressions. *)
  (st ← get_state;
   DetectCycles ParameterNode (parameters (model_ st))) ;;
  (* Validate expressions. *)
  (st ← get_state;
   for_each (expressions_ st) (λ expression,
     st ← get_state;
     match Expression_Validate_invalid (heap st) expression.1 with
     | Some msg =>
         throw (ValidationError ("In file '" +:+ doc_to_file expression.2 +:+ "', " +:+
                                 GetLine expression.2 +:+ msg))
     | None => mret tt
     end)) ;;
  (* Validate CCF groups. *)
  (st ← get_state;
   let msg := collect_invalid (CcfGroup_Validate_invalid (heap st))
                              (ccf_groups (model_ st)) in
   if negb (bool_decide (msg = "")) then
     throw (ValidationError ("Invalid distributions for CCF groups detected:
" +:+ msg))
   else mret tt) ;;
  (* Check probability values for primary events. *)
  (st ← get_state;
   let msg := collect_invalid
                (λ event, if bool_decide (expression_of (heap st) event = None)
                          then None
                          else BasicEvent_Validate_invalid (heap st) event)
                (basic_events (model_ st)) in
   if negb (bool_decide (msg = "")) then
     throw (ValidationError ("Invalid basic event probabilities detected:
" +:+ msg))
   else mret tt).

Definition ValidateInitialization : M unit :=
  (* Check if all gates have no cycles. *)
  (st ← get_state;
   DetectCycles GateNode (gates (model_ st))) ;;
  (* Check for cycles in event tree branches. *)
  (st ← get_state;
   for_each (event_trees (model_ st)) (λ event_tree,
     st ← get_state;
     DetectCycles NamedBranchNode (ptrs_of (heap st) event_tree f_branches))) ;;
  (* Check if all basic events have expressions for probability analysis. *)
  (st ← get_state;
   if probability_analysis (settings_ st) then
     let msg := missing_expressions (heap st) (basic_events (model_ st)) in
     if negb (bool_decide (msg = "")) then
       throw (ValidationError ("These basic events do not have expressions:
" +:+ msg))
     else mret tt
   else mret tt) ;;
  ValidateExpressions.

(** *** Facts *)

(** After the search through the parameters the validation of the expressions
    writes nothing and throws nothing but [ValidationError]. *)
Lemma ValidateExpressions_spec st :
  closed_under ParameterNode (heap st) (parameters (model_ st)) →
  cycle.settled (GetNodes ParameterNode (heap st)) (marks (heap st) ParameterNode) →
  ∃ r st', ValidateExpressions st = (r, st') ∧
    match r with
    | Ok _ => ¬ cyclic ParameterNode (heap st) (parameters (model_ st))
    | Throw e =>
        reports ParameterNode (heap st) (parameters (model_ st)) e ∨
        ¬ cyclic ParameterNode (heap st) (parameters (model_ st)) ∧
        ∃ msg, e = ValidationError msg
    end.
Proof.
  intros Hclosed Hsettled. unfold ValidateExpressions.
  destruct (DetectCycles_spec ParameterNode (parameters (model_ st)) st)
    as (r1 & st1 & Hrun & Hsame & Hother & Hpost); [done..|].
  assert ((st0 ← get_state; DetectCycles ParameterNode (parameters (model_ st0))) st
          = (r1, st1)) as Hstep by done.
  destruct r1 as [[]|e].
  - rewrite (bind_Ok _ _ _ _ _ Hstep). destruct Hpost as [_ Hacyclic].
    match goal with
    | |- ∃ r st', ?m st1 = _ ∧ _ =>
        assert (validates m) as Hrest
    end.
    { repeat apply validates_bind; apply validates_get_state; intros st2; cbv zeta.
      - apply validates_for_each. intros x. apply validates_get_state. intros st3.
        destruct (Expression_Validate_invalid _ _);
          [apply validates_throw|apply validates_ret].
      - destruct (negb _); [apply validates_throw|apply validates_ret].
      - destruct (negb _); [apply validates_throw|apply validates_ret]. }
    destruct (Hrest st1) as (r & Hrun' & Hr). exists r, st1. split; [done|].
    destruct Hr as [->|(msg & ->)]; [done|].
    right. split; [done|]. by exists msg.
  - rewrite (bind_Throw _ _ _ _ _ Hstep). eexists _, _. split; [done|]. by left.
Qed.

(** The basic events without expressions stop a probability analysis. *)
Definition expressions_missing (st : Initializer) : bool :=
  probability_analysis (settings_ st) &&
  negb (bool_decide (missing_expressions (heap st) (basic_events (model_ st)) = "")).

(** The ways the validation ends, in the order of its checks. *)
Inductive outcome (st : Initializer) : Result unit → Prop :=
| gate_cycle e :
    reports GateNode (heap st) (gates (model_ st)) e → outcome st (Throw e)
| branch_cycle e :
    ¬ cyclic GateNode (heap st) (gates (model_ st)) →
    reports NamedBranchNode (heap st)
      (all_branches (heap st) (event_trees (model_ st))) e →
    outcome st (Throw e)
| no_expressions :
    ¬ cyclic GateNode (heap st) (gates (model_ st)) →
    ¬ cyclic NamedBranchNode (heap st)
      (all_branches (heap st) (event_trees (model_ st))) →
    expressions_missing st = true →
    outcome st (Throw (ValidationError ("These basic events do not have expressions:
" +:+ missing_expressions (heap st) (basic_events (model_ st)))))
| parameter_cycle e :
    ¬ cyclic GateNode (heap st) (gates (model_ st)) →
    ¬ cyclic NamedBranchNode (heap st)
      (all_branches (heap st) (event_trees (model_ st))) →
    expressions_missing st = false →
    reports ParameterNode (heap st) (parameters (model_ st)) e →
    outcome st (Throw e)
| no_cycle r :
    ¬ cyclic GateNode (heap st) (gates (model_ st)) →
    ¬ cyclic NamedBranchNode (heap st)
      (all_branches (heap st) (event_trees (model_ st))) →
    expressions_missing st = false →
    ¬ cyclic ParameterNode (heap st) (parameters (model_ st)) →
    (r = Ok tt ∨ ∃ msg, r = Throw (ValidationError msg)) →
    outcome st r.

Lemma missing_expressions_fields h h' :
  fields h' = fields h → missing_expressions h' = missing_expressions h.
Proof.
  intros Heq. unfold missing_expressions, expression_of.
  by rewrite (name_of_fields _ _ Heq), Heq.
Qed.

Lemma ValidateInitialization_outcome st :
  (∀ k node, mark_of (heap st) k node = kClear) →
  closed_under GateNode (heap st) (gates (model_ st)) →
  (∀ tree, tree ∈ event_trees (model_ st) →
     closed_under NamedBranchNode (heap st) (ptrs_of (heap st) tree f_branches)) →
  closed_under ParameterNode (heap st) (parameters (model_ st)) →
  outcome st (ValidateInitialization st).1.
Proof.
  intros Hclear Hgates Hbranches Hparameters.
  unfold ValidateInitialization.
  (* the gates *)
  destruct (DetectCycles_spec GateNode (gates (model_ st)) st)
    as (r1 & st1 & Hrun1 & Hsame1 & Hother1 & Hpost1);
    [done|apply settled_clear, Hclear|].
  assert ((st0 ← get_state; DetectCycles GateNode (gates (model_ st0))) st = (r1, st1))
    as Hstep1 by done.
  destruct r1 as [[]|e]; [|rewrite (bind_Throw _ _ _ _ _ Hstep1); by apply gate_cycle].
  rewrite (bind_Ok _ _ _ _ _ Hstep1). destruct Hpost1 as [_ Hacyclic1].
  pose proof Hsame1 as (Hfields1 & Hmodel1 & _).
  (* the named branches *)
  destruct (branches_spec (event_trees (model_ st1)) st1)
    as (r2 & st2 & Hrun2 & Hsame2 & Hother2 & Hpost2).
  { intros tree Htree. rewrite (ptrs_of_fields _ _ Hfields1).
    unfold closed_under. rewrite (GetNodes_fields _ _ _ Hfields1).
    apply Hbranches. by rewrite <-Hmodel1. }
  { rewrite (GetNodes_fields _ _ _ Hfields1), Hother1 by done.
    apply settled_clear, Hclear. }
  rewrite (cyclic_fields _ _ _ Hfields1), (reports_fields _ _ _ Hfields1),
    (all_branches_fields _ _ Hfields1), Hmodel1 in Hpost2.
  match goal with
  | |- outcome st ((?step ≫= _) st1).1 =>
      assert (step st1 = (r2, st2)) as Hstep2 by done
  end.
  destruct r2 as [[]|e]; [|rewrite (bind_Throw _ _ _ _ _ Hstep2); by apply branch_cycle].
  rewrite (bind_Ok _ _ _ _ _ Hstep2).
  (* the basic events without expressions *)
  assert (same_fields st st2) as (Hfields2 & Hmodel2 & Hsettings2 & _) by (by etrans).
  match goal with
  | |- outcome st ((?step ≫= _) st2).1 =>
      assert (step st2 =
              if expressions_missing st
              then (Throw (ValidationError ("These basic events do not have expressions:
" +:+ missing_expressions (heap st) (basic_events (model_ st)))), st2)
              else (Ok tt, st2)) as Hstep3
  end.
  { rewrite get_state_bind, Hsettings2, Hmodel2, (missing_expressions_fields _ _ Hfields2).
    unfold expressions_missing. destruct (probability_analysis _); [|done].
    simpl. by destruct (negb _). }
  destruct (expressions_missing st) eqn:Hmissing.
  { rewrite (bind_Throw _ _ _ _ _ Hstep3). by apply no_expressions. }
  rewrite (bind_Ok _ _ _ _ _ Hstep3).
  (* the parameters and the expressions *)
  destruct (ValidateExpressions_spec st2) as (r3 & st3 & Hrun3 & Hpost3).
  { rewrite Hmodel2. unfold closed_under. by rewrite (GetNodes_fields _ _ _ Hfields2). }
  { rewrite (GetNodes_fields _ _ _ Hfields2), Hother2, Hother1 by done.
    apply settled_clear, Hclear. }
  rewrite Hmodel2, (cyclic_fields _ _ _ Hfields2), (reports_fields _ _ _ Hfields2)
    in Hpost3.
  rewrite Hrun3. simpl.
  destruct r3 as [[]|e].
  - apply no_cycle; try done. by left.
  - destruct Hpost3 as [Hreports|[Hacyclic3 Hmsg]].
    + by apply parameter_cycle.
    + destruct Hmsg as [msg ->]. apply no_cycle; try done. right. by exists msg.
Qed.

(** C1, as far as it holds: let no node be marked, and let the gates, the
    named branches of each event tree and the parameters of the model refer to
    registered ones only.  Then
    - the validation succeeds only if no cycle goes through a gate, a named
      branch or a parameter;
    - a [CycleError] reports a cycle of one of the three graphs: its message
      is the one of the search, the reported path is a closed path of the
      graph through registered nodes, and the name of every node on it is in
      the message;
    - a cycle of gates or of named branches always ends in a [CycleError], a
      cycle of parameters does when no basic event is reported to lack an
      expression;
    - without cycles of gates and named branches, the basic events without
      expressions of a probability analysis end the validation in a
      [ValidationError], before the parameters are searched, so also when
      there is a cycle of parameters;
    - the validation may fail without any cycle, then with a
      [ValidationError];
    - the validation always comes to an end: it returns, or it throws a
      [CycleError] or a [ValidationError]. *)
Theorem ValidateInitialization_cycles st r st' :
  (∀ k node, mark_of (heap st) k node = kClear) →
  closed_under GateNode (heap st) (gates (model_ st)) →
  (∀ tree, tree ∈ event_trees (model_ st) →
     closed_under NamedBranchNode (heap st) (ptrs_of (heap st) tree f_branches)) →
  closed_under ParameterNode (heap st) (parameters (model_ st)) →
  ValidateInitialization st = (r, st') →
  let h := heap st in
  let nodes k :=
    match k with
    | GateNode => gates (model_ st)
    | NamedBranchNode => all_branches h (event_trees (model_ st))
    | ParameterNode => parameters (model_ st)
    end in
  (r = Ok tt → ∀ k, ¬ cyclic k h (nodes k)) ∧
  (∀ msg, r = Throw (CycleError msg) →
     ∃ k node cycle,
       msg = cycle_message k h node cycle ∧
       cycle.closed_cycle (GetNodes k h) cycle ∧
       ∀ n, n ∈ cycle →
         n ∈ nodes k ∧ cycle.on_cycle (GetNodes k h) n ∧ contains (name_of h n) msg) ∧
  (cyclic GateNode h (nodes GateNode) ∨ cyclic NamedBranchNode h (nodes NamedBranchNode) ∨
   cyclic ParameterNode h (nodes ParameterNode) ∧ expressions_missing st = false →
   ∃ msg, r = Throw (CycleError msg)) ∧
  (¬ cyclic GateNode h (nodes GateNode) →
   ¬ cyclic NamedBranchNode h (nodes NamedBranchNode) →
   expressions_missing st = true →
   r = Throw (ValidationError ("These basic events do not have expressions:
" +:+ missing_expressions h (basic_events (model_ st))))) ∧
  ((∀ k, ¬ cyclic k h (nodes k)) → r = Ok tt ∨ ∃ msg, r = Throw (ValidationError msg)) ∧
  (r = Ok tt ∨ ∃ msg, r = Throw (CycleError msg) ∨ r = Throw (ValidationError msg)).
Proof.
  intros Hclear Hgates Hbranches Hparameters Hrun h nodes.
  pose proof (ValidateInitialization_outcome st Hclear Hgates Hbranches Hparameters)
    as Hout.
  rewrite Hrun in Hout. simpl in Hout.
  assert (∀ k e, reports k h (nodes k) e →
            ∃ msg, e = CycleError msg ∧
              ∃ k node cycle,
                msg = cycle_message k h node cycle ∧
                cycle.closed_cycle (GetNodes k h) cycle ∧
                ∀ n, n ∈ cycle →
                  n ∈ nodes k ∧ cycle.on_cycle (GetNodes k h) n ∧
                  contains (name_of h n) msg) as Hreports.
  { intros k e (node & c & -> & Hnode & Hclosed & Hc).
    eexists. split; [done|]. exists k, node, c. split_and!; [done..|].
    intros n Hn. destruct (Hc n Hn). split_and!; [done..|].
    by apply contains_cycle_message. }
  inversion Hout as [e Hrep|e Hg Hrep|Hg Hb Hmissing|e Hg Hb Hmissing Hrep
                    |r' Hg Hb Hmissing Hp Hr]; subst.
  - pose proof (reports_cyclic _ _ _ _ Hrep).
    destruct (Hreports GateNode e Hrep) as (msg & -> & Hmsg).
    split_and!; [done| |by exists msg|done| |right; exists msg; by left].
    + by intros ? [= <-].
    + intros Hacyclic. by destruct (Hacyclic GateNode).
  - pose proof (reports_cyclic _ _ _ _ Hrep).
    destruct (Hreports NamedBranchNode e Hrep) as (msg & -> & Hmsg).
    split_and!; [done| |by exists msg|done| |right; exists msg; by left].
    + by intros ? [= <-].
    + intros Hacyclic. by destruct (Hacyclic NamedBranchNode).
  - split_and!; [done|done| |done| |right; eexists; by right].
    + intros [?|[?|[_ ?]]]; [done..|congruence].
    + intros _. right. by eexists.
  - pose proof (reports_cyclic _ _ _ _ Hrep).
    destruct (Hreports ParameterNode e Hrep) as (msg & -> & Hmsg).
    split_and!; [done| |by exists msg|congruence| |right; exists msg; by left].
    + by intros ? [= <-].
    + intros Hacyclic. by destruct (Hacyclic ParameterNode).
  - split_and!.
    + intros _ []; done.
    + intros msg ->. by destruct Hr as [|[]].
    + intros [?|[?|[? _]]]; done.
    + congruence.
    + done.
    + destruct Hr as [->|[msg ->]]; [by left|]. right. exists msg. by right.
Qed.

End Validation.

(** ** Deferred definitions

    The member functions of the classes of the model that the definitions
    call, from headers that are not part of the sources at hand.  A member
    function of a gate, a CCF group or a component has no access to the
    initializer: whatever it does, it leaves the work list and the model of
    the initializer alone, and it does not stop for lack of fuel, which is a
    notion of this development only. *)
Class Classes := {
  (** [Gate::Validate]: [Some msg] is the [ValidationError] it throws. *)
  Gate_Validate_invalid : Heap → ptr → option string;
  (** [CcfGroup::AddDistribution] and [CcfGroup::AddFactor], the latter with
      or without a level. *)
  CcfGroup_AddDistribution : ptr → Expression → M unit;
  CcfGroup_AddFactor : ptr → Expression → option Z → M unit;
  (** [Component::Add] for an element of the given kind, and for a
      component. *)
  Component_Add : ptr → Kind → ptr → M unit;
  Component_Add_Component : ptr → ptr → M unit;
  CcfGroup_AddDistribution_keeps ccf_group expression :
    keeps same_registry (CcfGroup_AddDistribution ccf_group expression);
  CcfGroup_AddFactor_keeps ccf_group expression level :
    keeps same_registry (CcfGroup_AddFactor ccf_group expression level);
  Component_Add_keeps component k element :
    keeps same_registry (Component_Add component k element);
  Component_Add_Component_keeps component sub :
    keeps same_registry (Component_Add_Component component sub);
  CcfGroup_AddDistribution_in_fuel ccf_group expression :
    in_fuel (CcfGroup_AddDistribution ccf_group expression);
  CcfGroup_AddFactor_in_fuel ccf_group expression level :
    in_fuel (CcfGroup_AddFactor ccf_group expression level);
  Component_Add_in_fuel component k element :
    in_fuel (Component_Add component k element);
  Component_Add_Component_in_fuel component sub :
    in_fuel (Component_Add_Component component sub);
}.

Section Definitions.
Context `{E : Env} `{C : Classes}.

#[local] Existing Instance same_registry_po.
#[local] Existing Instance registry_grows_po.
#[local] Existing Instance tbd_registered_po.
#[local] Existing Instance expression_frame_po.

(** Modelled from the spec: [ext::find] of [ext/find.h] on a table of
    elements, which the specification describes as the lookup of "a
    functional-event/sequence/named-branch within its event tree or the
    model": the element of the table that has the name, if there is one. *)
Definition ext_find (h : Heap) (table : list ptr) (name : string) : option ptr :=
  snd <$> list_find (λ p, name_of h p = name) table.

(** The setters [Gate::formula], [Parameter::expression],
    [Sequence::instructions] and [EventTree::initial_state]; the initial
    state of an event tree is a branch of its own and is kept in the data
    members [f_target] and [f_instructions] of the tree. *)
Definition Gate_formula (gate : ptr) (formula : Formula) : M unit :=
  write gate f_formula (VFormula formula).

Definition Parameter_expression (parameter : ptr) (expression : Expression) : M unit :=
  write parameter f_expression (VExpression expression).

Definition Sequence_instructions (sequence : ptr) (instructions : list Instruction)
  : M unit :=
  write sequence f_instructions (VInstructions instructions).

Definition EventTree_initial_state (event_tree : ptr)
    (initial_state : Target * list Instruction) : M unit :=
  write event_tree f_target (VTarget initial_state.1) ;;
  write event_tree f_instructions (VInstructions initial_state.2).

(** [Gate::Validate] *)
Definition Gate_Validate (gate : ptr) : M unit :=
  st ← get_state;
  match Gate_Validate_invalid (heap st) gate with
  | Some msg => throw (ValidationError msg)
  | None => mret tt
  end.

(** [Define(const xmlpp::Element* gate_node, Gate* gate)]; [fuel] bounds the
    depth of [GetFormula]. *)
Definition Define_Gate (fuel : nat) (gate_node : xmlpp.Element) (gate : ptr) : M unit :=
  let formulas := GetNonAttributeElements gate_node in
  assert_ (bool_decide (length formulas = 1%nat)) ;;
  match formulas with
  | formula_node :: _ =>
      st ← get_state;
      formula ← GetFormula fuel formula_node (base_path_of (heap st) gate);
      Gate_formula gate formula ;;
      prefix_ValidationError (GetLine gate_node) (Gate_Validate gate)
  | [] => throw AssertionFailure
  end.

(** [Define(const xmlpp::Element* param_node, Parameter* parameter)] *)
Definition Define_Parameter (param_node : xmlpp.Element) (parameter : ptr) : M unit :=
  let expressions := GetNonAttributeElements param_node in
  assert_ (bool_decide (length expressions = 1%nat)) ;;
  match last expressions with
  | Some expr_node =>
      st ← get_state;
      expression ← GetExpression expr_node (base_path_of (heap st) parameter);
      Parameter_expression parameter expression
  | None => throw AssertionFailure
  end.

(** [DefineCcfFactor]; the conversion of the level is inside the [try]
    block. *)
Definition DefineCcfFactor (factor_node : xmlpp.Element) (ccf_group : ptr) : M unit :=
  assert_ (bool_decide (length (xmlpp.children factor_node) = 1%nat)) ;;
  match xmlpp.children factor_node with
  | expr_node :: _ =>
      st ← get_state;
      expression ← GetExpression expr_node (base_path_of (heap st) ccf_group);
      prefix_ValidationError (GetLine factor_node)
        (if bool_decide (GetAttributeValue factor_node "level" = "")
         then CcfGroup_AddFactor ccf_group expression None
         else
           match CastAttributeValue_int factor_node "level" with
           | inr level => CcfGroup_AddFactor ccf_group expression (Some level)
           | inl msg => throw (ValidationError msg)
           end)
  | [] => throw AssertionFailure
  end.

(** [Define(const xmlpp::Element* ccf_node, CcfGroup* ccf_group)] *)
Definition Define_CcfGroup (ccf_node : xmlpp.Element) (ccf_group : ptr) : M unit :=
  for_each (xmlpp.children ccf_node) (λ element,
    let name := xmlpp.get_name element in
    if bool_decide (name = "distribution") then
      assert_ (bool_decide (length (xmlpp.children element) = 1%nat)) ;;
      match xmlpp.children element with
      | expr_node :: _ =>
          st ← get_state;
          expression ← GetExpression expr_node (base_path_of (heap st) ccf_group);
          CcfGroup_AddDistribution ccf_group expression
      | [] => throw AssertionFailure
      end
    else if bool_decide (name = "factor") then DefineCcfFactor element ccf_group
    else if bool_decide (name = "factors") then
      for_each (xmlpp.children element) (λ factor_node,
        DefineCcfFactor factor_node ccf_group)
    else mret tt).

(** [GetInstruction]; [front()] of an empty node set is undefined in the
    source, and stops the model. *)
Definition GetInstruction (xml_element : xmlpp.Element) : M Instruction :=
  assert_ (bool_decide (xmlpp.get_name xml_element = "collect-expression")) ;;
  match xmlpp.children xml_element with
  | arg_element :: _ =>
      expression ← GetExpression arg_element "";
      mret (CollectExpression expression)
  | [] => throw AssertionFailure
  end.

(** The loops that collect the instructions of a sequence or a branch. *)
Fixpoint get_instructions (xml_instructions : list xmlpp.Element)
    (instructions : list Instruction) : M (list Instruction) :=
  match xml_instructions with
  | [] => mret instructions
  | xml_instruction :: rest =>
      instruction ← GetInstruction xml_instruction;
      get_instructions rest (instructions ++ [instruction])
  end.

(** [Define(const xmlpp::Element* xml_node, Sequence* sequence)] *)
Definition Define_Sequence (xml_node : xmlpp.Element) (sequence : ptr) : M unit :=
  let xml_instructions := GetNonAttributeElements xml_node in
  instructions ← get_instructions xml_instructions [];
  Sequence_instructions sequence instructions.

(** The setters [Branch::target] and [Branch::instructions].  A named branch
    is an object of the heap; a path of a fork and the initial state are
    local to the caller, which is given what [DefineBranch] has set. *)
Definition Branch_target (branch : option ptr) (target : Target) : M unit :=
  from_option (λ p, write p f_target (VTarget target)) (mret tt) branch.

Definition Branch_instructions (branch : option ptr) (instructions : list Instruction)
  : M unit :=
  from_option (λ p, write p f_instructions (VInstructions instructions)) (mret tt) branch.

(** The loop of [DefineBranch] over the paths of a fork. *)
Fixpoint define_paths
    (DefineBranch_ : list xmlpp.Element → ptr → option ptr → M (Target * list Instruction))
    (nodes : list xmlpp.Element) (event_tree : ptr) (paths : list Path)
  : M (list Path) :=
  match nodes with
  | [] => mret paths
  | path_element :: rest =>
      let state := GetAttributeValue path_element "state" in
      path ← DefineBranch_ (xmlpp.children path_element) event_tree None;
      define_paths DefineBranch_ rest event_tree
                   (paths ++ [mkPath state path.2 path.1])
  end.

(** [DefineBranch]; it returns the target and the instructions that it has
    given to the branch.  The fork that is moved to the event tree stays
    with the branch here.  [fuel] bounds the depth of the forks. *)
Fixpoint DefineBranch (fuel : nat) (xml_nodes : list xmlpp.Element)
    (event_tree : ptr) (branch : option ptr) : M (Target * list Instruction) :=
  match fuel with
  | 0 => throw OutOfFuel
  | S fuel =>
      assert_ (negb (bool_decide (xml_nodes = []))) ;;
      match last xml_nodes with
      | None => throw AssertionFailure
      | Some target_node =>
          target ←
            (if bool_decide (xmlpp.get_name target_node = "fork") then
               let name := GetAttributeValue target_node "functional-event" in
               st ← get_state;
               match ext_find (heap st)
                       (ptrs_of (heap st) event_tree f_functional_events) name with
               | Some functional_event =>
                   paths ← define_paths (DefineBranch fuel)
                             (xmlpp.find target_node "path") event_tree [];
                   assert_ (negb (bool_decide (paths = []))) ;;
                   let fork := ForkTarget functional_event paths in
                   Branch_target branch fork ;;
                   mret fork
               | None =>
                   throw (ValidationError
                            (GetLine target_node +:+ "Functional event " +:+ name +:+
                             " is not defined in " +:+ name_of (heap st) event_tree))
               end
             else if bool_decide (xmlpp.get_name target_node = "sequence") then
               let name := GetAttributeValue target_node "name" in
               st ← get_state;
               match ext_find (heap st) (sequences (model_ st)) name with
               | Some sequence =>
                   Branch_target branch (SequenceTarget sequence) ;;
                   mret (SequenceTarget sequence)
               | None =>
                   throw (ValidationError
                            (GetLine target_node +:+ "Sequence " +:+ name +:+
                             " is not defined in the model."))
               end
             else
               assert_ (bool_decide (xmlpp.get_name target_node = "branch")) ;;
               let name := GetAttributeValue target_node "name" in
               st ← get_state;
               match ext_find (heap st) (ptrs_of (heap st) event_tree f_branches) name with
               | Some named_branch =>
                   Branch_target branch (NamedBranchTarget named_branch) ;;
                   mret (NamedBranchTarget named_branch)
               | None =>
                   throw (ValidationError
                            (GetLine target_node +:+ "Branch " +:+ name +:+
                             " is not defined in " +:+ name_of (heap st) event_tree))
               end);
          instructions ← get_instructions (removelast xml_nodes) [];
          Branch_instructions branch instructions ;;
          mret (target, instructions)
      end
  end.

(** The first loop of [Define] for an event tree: [it] runs over the branches
    of the tree. *)
Fixpoint define_branches (fuel : nat) (nodes : list xmlpp.Element) (it : list ptr)
    (event_tree : ptr) : M unit :=
  match nodes with
  | [] => mret tt
  | node :: rest =>
      assert_ (negb (bool_decide (it = []))) ;;
      match it with
      | [] => throw AssertionFailure
      | branch :: it =>
          st ← get_state;
          assert_ (bool_decide (name_of (heap st) branch
                                = GetAttributeValue node "name")) ;;
          DefineBranch fuel (GetNonAttributeElements node) event_tree (Some branch) ;;
          define_branches fuel rest it event_tree
      end
  end.

(** [Define(const xmlpp::Element* et_node, EventTree* event_tree)] *)
Definition Define_EventTree (fuel : nat) (et_node : xmlpp.Element) (event_tree : ptr)
  : M unit :=
  st ← get_state;
  define_branches fuel (xmlpp.find et_node "define-branch")
                  (ptrs_of (heap st) event_tree f_branches) event_tree ;;
  let state_node := xmlpp.find et_node "initial-state" in
  assert_ (bool_decide (length state_node = 1%nat)) ;;
  match state_node with
  | front :: _ =>
      initial_state ← DefineBranch fuel (xmlpp.children front) event_tree None;
      EventTree_initial_state event_tree initial_state
  | [] => throw AssertionFailure
  end.

(** The visitor of [ProcessTbdElements]: [Define] for the class of the
    element.  House events and fault trees are no alternatives of the variant
    of the work list. *)
Definition Define (fuel : nat) (tbd_element : TbdElement) : M unit :=
  let '((k, element), xml_node) := tbd_element in
  match k with
  | KGate => Define_Gate fuel xml_node element
  | KBasicEvent => Define_BasicEvent xml_node element
  | KParameter => Define_Parameter xml_node element
  | KCcfGroup => Define_CcfGroup xml_node element
  | KSequence => Define_Sequence xml_node element
  | KEventTree => Define_EventTree fuel xml_node element
  | KHouseEvent | KFaultTree => mret tt
  end.

(** [ProcessTbdElements] *)
Definition ProcessTbdElements (fuel : nat) : M unit :=
  st ← get_state;
  for_each (tbd_ st) (λ tbd_element,
    prefix_ValidationError
      ("In file '" +:+ doc_to_file tbd_element.2 +:+ "', ")
      (Define fuel tbd_element)).


(** ** Facts: what the construction of an expression throws *)

(** What leaves [GetExpression]: a missing argument or extractor, a failed
    assertion, or a [ValidationError]. *)
Definition expression_error (e : Exception) : Prop :=
  e = out_of_range ∨ e = AssertionFailure ∨ ∃ msg, e = ValidationError msg.

(** What leaves an extractor: the same, or the [InvalidArgument] of a
    constructor. *)
Definition extractor_error (e : Exception) : Prop :=
  expression_error e ∨ ∃ msg, e = InvalidArgument msg.

Definition throws_args (args : list ArgNode) : Prop :=
  Forall (λ node, throws extractor_error (arg_GetExpression node) ∧
                  Forall (throws extractor_error) (arg_children node)) args.

Ltac extractor_error :=
  lazymatch goal with
  | |- extractor_error _ =>
      unfold extractor_error, expression_error; by eauto 6
  | |- expression_error _ => unfold expression_error; by eauto 6
  | |- _ => idtac
  end.

Lemma throws_make_unique x : throws extractor_error (make_unique x).
Proof. unfold make_unique. repeat throws_step; extractor_error. Qed.

Lemma throws_Extractor T N args acc :
  throws_args args → throws extractor_error (Extractor T N args acc).
Proof.
  intros Hargs. revert acc. induction N as [|N IH]; intros acc; simpl.
  - apply throws_make_unique.
  - destruct (args !! N) as [node|] eqn:Hnode; repeat throws_step;
      extractor_error; [|done].
    eapply Forall_lookup_1 in Hargs as [? _]; done.
Qed.

Lemma throws_extract_all args acc :
  throws_args args → throws extractor_error (extract_all args acc).
Proof.
  intros Hargs. revert acc.
  induction Hargs as [|node args [Hnode _] _ IH]; intros acc; simpl;
    repeat throws_step; done.
Qed.

Lemma throws_Extract tag args :
  throws_args args → throws extractor_error (Extract tag args).
Proof.
  intros Hargs. unfold Extract, Extractor_variadic.
  destruct (num_args tag); repeat throws_step;
    auto using throws_extract_all, throws_make_unique, throws_Extractor.
Qed.

Lemma throws_extract_bins bins bs ws :
  throws_args bins → throws extractor_error (extract_bins bins bs ws).
Proof.
  intros Hargs. revert bs ws.
  induction Hargs as [|node args [_ Hnode] _ IH]; intros bs ws; simpl;
    [apply throws_ret|].
  apply throws_bind; [apply throws_assert; extractor_error|intros _].
  destruct (arg_children node) as [|b0 [|b1 [|??]]];
    try (apply throws_throw; extractor_error).
  apply Forall_cons in Hnode as [H0 [H1 _]%Forall_cons].
  repeat throws_step; done.
Qed.

Lemma throws_Extract_Histogram args :
  throws_args args → throws extractor_error (Extract_Histogram args).
Proof.
  intros Hargs. unfold Extract_Histogram.
  apply throws_bind; [apply throws_assert; extractor_error|intros _].
  destruct Hargs as [|node args [Hnode _] Hargs]; [apply throws_throw; extractor_error|].
  apply throws_bind; [done|intros lower].
  apply throws_bind; [by apply throws_extract_bins|intros [bs ws]].
  apply throws_make_unique.
Qed.

Lemma throws_Extract_LognormalDeviate args :
  throws_args args → throws extractor_error (Extract_LognormalDeviate args).
Proof.
  intros Hargs. unfold Extract_LognormalDeviate.
  case_bool_decide; by apply throws_Extractor.
Qed.

Lemma throws_Extract_PeriodicTest args :
  throws_args args → throws extractor_error (Extract_PeriodicTest args).
Proof.
  intros Hargs. unfold Extract_PeriodicTest.
  repeat throws_step; extractor_error; by apply throws_Extractor.
Qed.

Lemma throws_extract_cases cases_ acc :
  throws_args cases_ → throws extractor_error (extract_cases cases_ acc).
Proof.
  intros Hargs. revert acc.
  induction Hargs as [|node args [_ Hnode] _ IH]; intros acc; simpl;
    [apply throws_ret|].
  apply throws_bind; [apply throws_assert; extractor_error|intros _].
  destruct (arg_children node) as [|b0 [|b1 [|??]]];
    try (apply throws_throw; extractor_error).
  apply Forall_cons in Hnode as [H0 [H1 _]%Forall_cons].
  repeat throws_step; done.
Qed.

Lemma throws_args_removelast args : throws_args args → throws_args (removelast args).
Proof.
  induction 1 as [|node [|node' args] Hnode Hargs IH]; simpl;
    [constructor..|]. by constructor.
Qed.

Lemma throws_Extract_Switch args :
  throws_args args → throws extractor_error (Extract_Switch args).
Proof.
  intros Hargs. unfold Extract_Switch.
  apply throws_bind; [apply throws_assert; extractor_error|intros _].
  destruct (last args) as [back|] eqn:Hlast; [|apply throws_throw; extractor_error].
  apply last_Some in Hlast as [l' ->].
  apply throws_bind; [|intros d].
  { apply Forall_app in Hargs as [_ [[? _] _]%Forall_cons]. done. }
  apply throws_bind; [|intros c; apply throws_make_unique].
  by apply throws_extract_cases, throws_args_removelast.
Qed.

Lemma throws_kExpressionExtractors_ args :
  throws_args args →
  Forall (λ entry, throws extractor_error (entry.2 args)) kExpressionExtractors_.
Proof.
  intros Hargs. unfold kExpressionExtractors_.
  repeat (apply Forall_cons; split;
          [first [by apply throws_Extract | by apply throws_Extract_PeriodicTest
                 | by apply throws_Extract_LognormalDeviate
                 | by apply throws_Extract_Histogram | by apply throws_Extract_Switch]|]).
  constructor.
Qed.

Lemma throws_catch_InvalidArgument {A} (m : M A) (f : string → string) :
  throws extractor_error m →
  throws expression_error
    (catch_InvalidArgument m (λ msg, throw (ValidationError (f msg)))).
Proof.
  intros Hm st e st'. unfold catch_InvalidArgument.
  destruct (m st) as [[a|e0] st1] eqn:Hrun; [done|].
  destruct (Hm _ _ _ Hrun) as [He|[msg ->]].
  - destruct e0; intros [= <- _]; try done.
    by destruct He as [?|[?|[? ?]]].
  - intros [= <- _]. extractor_error.
Qed.

(** [GetExpression] throws nothing but a missing argument or extractor, a
    failed assertion or a [ValidationError]. *)
Lemma throws_GetExpression expr_element base_path :
  throws expression_error (GetExpression expr_element base_path).
Proof.
  assert (∀ n e, (xmlpp.size e < n)%nat →
                 throws expression_error (GetExpression e base_path)) as Hsize.
  { induction n as [|n IH]; intros e Hlt; [lia|].
    assert (throws_args (extractor_args base_path (xmlpp.children e))) as Hargs.
    { apply Forall_fmap, Forall_forall. intros c Hc. simpl.
      pose proof (size_children _ _ Hc) as Hc'.
      split; [eapply throws_weaken; [|apply IH; lia]; by left|].
      apply Forall_fmap, Forall_forall. intros g Hg. simpl.
      pose proof (size_children _ _ Hg).
      eapply throws_weaken; [|apply IH; lia]. by left. }
    rewrite GetExpression_unfold. cbv zeta.
    fold (extractor_args base_path (xmlpp.children e)).
    repeat case_bool_decide; try apply throws_ret.
    - destruct (CastAttributeValue_int _ _); [apply throws_throw; extractor_error|].
      unfold register_expression. repeat throws_step.
    - destruct (CastAttributeValue_double _ _); [apply throws_throw; extractor_error|].
      unfold register_expression. repeat throws_step.
    - apply throws_bind.
      { eapply throws_weaken; [|apply throws_GetParameter]. intros ? [? ->].
        extractor_error. }
      intros [x|]; [apply throws_ret|].
      apply (throws_catch_InvalidArgument _ (λ msg, GetLine e +:+ msg)).
      destruct (at_ kExpressionExtractors_ (xmlpp.get_name e)) as [extractor|] eqn:Hat;
        [|apply throws_throw; extractor_error].
      apply throws_bind.
      { apply at_elem_of in Hat.
        eapply Forall_forall in Hat; [|by apply throws_kExpressionExtractors_]. done. }
      intros x. unfold register_expression. repeat throws_step. }
  apply (Hsize (S (xmlpp.size expr_element))). lia.
Qed.


(** ** Facts: the definition of a gate *)

(** X13: [Define] for a gate takes exactly one child besides the label and
    the attributes; with none or several the assertion fails and the state
    is untouched.  The formula that [GetFormula] returns for the child, with
    the base path of the gate, is attached to the gate, and nothing else
    changes in the state; what [GetFormula] throws leaves [Define] as it is,
    with the state untouched.  The gate is validated with its formula
    attached: a [ValidationError] of the validation gets the line of the
    gate in front, and the formula stays attached. *)
Theorem Define_Gate_spec fuel gate_node gate st r st' :
  Define_Gate fuel gate_node gate st = (r, st') →
  tbd_ st' = tbd_ st ∧ model_ st' = model_ st ∧ expressions_ st' = expressions_ st ∧
  next (heap st') = next (heap st) ∧
  (∀ p f, (p, f) ≠ (gate, f_formula) →
          fields (heap st') !! (p, f) = fields (heap st) !! (p, f)) ∧
  match GetNonAttributeElements gate_node with
  | [formula_node] =>
      match (GetFormula fuel formula_node (base_path_of (heap st) gate) st).1 with
      | Ok formula =>
          formula_of (heap st') gate = Some formula ∧
          r = match Gate_Validate_invalid (heap st') gate with
              | Some msg => Throw (ValidationError (GetLine gate_node +:+ msg))
              | None => Ok tt
              end
      | Throw e => r = Throw e ∧ st' = st
      end
  | _ => r = Throw AssertionFailure ∧ st' = st
  end.
Proof.
  unfold Define_Gate.
  destruct (GetNonAttributeElements gate_node) as [|formula_node [|more ?]];
    [by intros [= <- <-]| |by intros [= <- <-]].
  rewrite bool_decide_eq_true_2 by done.
  change (assert_ true) with (mret (M := M) tt). rewrite ret_bind, get_state_bind.
  intros Hrun.
  destruct (GetFormula fuel formula_node (base_path_of (heap st) gate) st)
    as [[formula|e] st1] eqn:Hformula.
  2: { rewrite (bind_Throw _ _ _ _ _ Hformula) in Hrun. injection Hrun as <- <-.
       apply keeps_GetFormula in Hformula as <-. done. }
  apply keeps_GetFormula in Hformula as Heq. subst st1.
  rewrite (bind_Ok _ _ _ _ _ Hformula) in Hrun.
  unfold Gate_formula in Hrun. rewrite write_bind in Hrun.
  unfold prefix_ValidationError, Gate_Validate in Hrun.
  rewrite get_state_bind in Hrun. simpl in Hrun.
  assert (st' = set_heap (store gate f_formula (VFormula formula) (heap st)) st) as ->.
  { by destruct (Gate_Validate_invalid _ _); injection Hrun as _ <-. }
  simpl. split_and!; [done..| | |].
  - intros p f Hne. by rewrite lookup_insert_ne.
  - unfold formula_of. simpl. by rewrite lookup_insert_eq.
  - by destruct (Gate_Validate_invalid _ _); injection Hrun as <-.
Qed.

(** ** Facts: the definition of a parameter *)

(** X14: [Define] for a parameter takes exactly one child besides the label
    and the attributes, where a basic event takes the last of any number:
    with none or several the assertion fails and the state is untouched.
    The expression that [GetExpression] builds for the child, with the base
    path of the parameter, becomes the expression of the parameter; what
    [GetExpression] throws leaves [Define] as it is, and the parameter keeps
    the expression it had. *)
Theorem Define_Parameter_spec param_node parameter st r st' :
  Define_Parameter param_node parameter st = (r, st') →
  match GetNonAttributeElements param_node with
  | [expr_node] =>
      let run := GetExpression expr_node (base_path_of (heap st) parameter) st in
      match run.1 with
      | Ok expression =>
          r = Ok tt ∧
          st' = set_heap (store parameter f_expression (VExpression expression)
                                (heap run.2)) run.2 ∧
          expression_of (heap st') parameter = Some expression
      | Throw e =>
          r = Throw e ∧ st' = run.2 ∧
          expression_of (heap st') parameter = expression_of (heap st) parameter
      end
  | _ => r = Throw AssertionFailure ∧ st' = st
  end.
Proof.
  unfold Define_Parameter.
  destruct (GetNonAttributeElements param_node) as [|expr_node [|more ?]];
    [by intros [= <- <-]| |by intros [= <- <-]].
  rewrite bool_decide_eq_true_2 by done.
  change (assert_ true) with (mret (M := M) tt). rewrite ret_bind.
  change (last [expr_node]) with (Some expr_node). cbv iota beta.
  rewrite get_state_bind. intros Hrun. cbv zeta.
  destruct (GetExpression expr_node (base_path_of (heap st) parameter) st)
    as [[expression|e] st1] eqn:Hexpression; simpl.
  - rewrite (bind_Ok _ _ _ _ _ Hexpression) in Hrun. injection Hrun as <- <-.
    split_and!; [done..|]. unfold expression_of. simpl. by rewrite lookup_insert_eq.
  - rewrite (bind_Throw _ _ _ _ _ Hexpression) in Hrun. injection Hrun as <- <-.
    split_and!; [done..|].
    apply keeps_frame_GetExpression in Hexpression as (_ & _ & _ & _ & _ & _ & Hfields).
    unfold expression_of. by rewrite Hfields.
Qed.

(** ** Facts: the instructions of a sequence *)

Lemma keeps_frame_GetInstruction xml_element :
  keeps expression_frame (GetInstruction xml_element).
Proof.
  unfold GetInstruction. repeat keeps_step; apply keeps_frame_GetExpression.
Qed.

Lemma keeps_frame_get_instructions nodes acc :
  keeps expression_frame (get_instructions nodes acc).
Proof.
  revert acc. induction nodes as [|node nodes IH]; intros acc; simpl;
    repeat keeps_step; [apply keeps_frame_GetInstruction|apply IH].
Qed.

(** [collects node arg]: the element is a [collect-expression] and [arg] is
    the first of its children. *)
Definition collects (node arg : xmlpp.Element) : Prop :=
  xmlpp.get_name node = "collect-expression" ∧ head (xmlpp.children node) = Some arg.

Lemma GetInstruction_run node arg st :
  collects node arg →
  GetInstruction node st
  = match GetExpression arg "" st with
    | (Ok expression, st1) => (Ok (CollectExpression expression), st1)
    | (Throw e, st1) => (Throw e, st1)
    end.
Proof.
  intros [Htag Harg]. unfold GetInstruction.
  rewrite bool_decide_eq_true_2 by done.
  destruct (xmlpp.children node) as [|arg' ?]; [done|]. injection Harg as ->.
  change (assert_ true) with (mret (M := M) tt). rewrite ret_bind.
  unfold mbind, M_bind. by destruct (GetExpression arg "" st) as [[x|e] st1].
Qed.

Lemma get_instructions_runs nodes args acc st es st1 :
  Forall2 collects nodes args →
  runs ((λ arg, GetExpression arg "") <$> args) st es st1 →
  get_instructions nodes acc st = (Ok (acc ++ (CollectExpression <$> es)), st1).
Proof.
  intros Hnodes. revert acc st es.
  induction Hnodes as [|node arg nodes args Hnode _ IH]; intros acc st es Hruns.
  - inversion Hruns; subst. simpl. by rewrite app_nil_r.
  - inversion Hruns as [|? ? ? x st2 xs ? Hx Hrest]; subst. simpl.
    erewrite bind_Ok by (by rewrite (GetInstruction_run _ _ _ Hnode), Hx).
    rewrite (IH _ _ xs) by done. by rewrite <-app_assoc.
Qed.



(** ** Facts: the branches of an event tree *)

(** The target refers to named branches of the list only. *)
Definition target_in (branches : list ptr) (target : Target) : Prop :=
  ∀ b, b ∈ target_branches target → b ∈ branches.

Definition path_target (path : Path) : Target :=
  match path with mkPath _ _ target => target end.

Lemma target_in_fork branches functional_event paths :
  Forall (λ path, target_in branches (path_target path)) paths →
  target_in branches (ForkTarget functional_event paths).
Proof.
  intros Hpaths b Hb. simpl in Hb.
  induction Hpaths as [|[state instructions t] paths Hpath _ IH]; simpl in Hb;
    [by apply elem_of_nil in Hb|].
  apply elem_of_app in Hb as [Hb|Hb]; [by apply Hpath|by apply IH].
Qed.

(** What the definition of the branches of the event tree leaves alone: the
    work list, the registries, the allocation, and every data member but
    the unused flags of parameters and the targets and instructions of
    branches; and every target that is set refers to named branches of the
    event tree only. *)
Definition branch_frame (event_tree : ptr) : relation Initializer := λ st st',
  tbd_ st' = tbd_ st ∧ table (model_ st') = table (model_ st) ∧
  next (heap st') = next (heap st) ∧
  (∀ p f, f ∉ [f_unused; f_target; f_instructions] →
          fields (heap st') !! (p, f) = fields (heap st) !! (p, f)) ∧
  ∀ p, target_of (heap st') p = target_of (heap st) p ∨
       ∃ target, target_of (heap st') p = Some target ∧
                 target_in (ptrs_of (heap st) event_tree f_branches) target.

Lemma branch_frame_branches event_tree st st' :
  branch_frame event_tree st st' →
  ptrs_of (heap st') event_tree f_branches = ptrs_of (heap st) event_tree f_branches.
Proof.
  intros (_ & _ & _ & Hfields & _). unfold ptrs_of. rewrite Hfields; [done|].
  set_unfold. naive_solver.
Qed.

#[local] Instance branch_frame_po event_tree : PreOrder (branch_frame event_tree).
Proof.
  split.
  - intros st. split_and!; try done. by left.
  - intros a b c Hab Hbc.
    pose proof (branch_frame_branches _ _ _ Hab) as Hbranches.
    destruct Hab as (? & ? & ? & Hab & Hab'), Hbc as (? & ? & ? & Hbc & Hbc').
    split_and!; try congruence.
    + intros p f Hf. by rewrite Hbc, Hab.
    + intros p. destruct (Hbc' p) as [Heq|(t & Ht & Hin)].
      * rewrite Heq. apply Hab'.
      * right. exists t. by rewrite <-Hbranches.
Qed.

Lemma expression_branch_frame event_tree st st' :
  expression_frame st st' → branch_frame event_tree st st'.
Proof.
  intros (? & ? & ? & ? & ? & ? & Hfields). split_and!; try done.
  - intros p f Hf. apply Hfields. set_unfold. naive_solver.
  - intros p. left. unfold target_of. by rewrite Hfields.
Qed.

Lemma keeps_branch_get_instructions event_tree nodes acc :
  keeps (branch_frame event_tree) (get_instructions nodes acc).
Proof.
  eapply keeps_weaken; [apply expression_branch_frame|].
  apply keeps_frame_get_instructions.
Qed.

Lemma Branch_target_run event_tree branch target st r st' :
  target_in (ptrs_of (heap st) event_tree f_branches) target →
  Branch_target branch target st = (r, st') →
  r = Ok tt ∧ branch_frame event_tree st st' ∧
  ∀ b, branch = Some b → target_of (heap st') b = Some target.
Proof.
  intros Hin. destruct branch as [b|]; intros [= <- <-]; (split; [done|]).
  - split.
    + split_and!; try done.
      * intros p f Hf. simpl. rewrite lookup_insert_ne; [done|].
        intros [= -> <-]. set_solver.
      * intros p. unfold target_of. simpl. destruct (decide (p = b)) as [->|Hne].
        -- right. exists target. by rewrite lookup_insert_eq.
        -- left. by rewrite lookup_insert_ne by congruence.
    + intros ? [= <-]. unfold target_of. simpl. by rewrite lookup_insert_eq.
  - split; [reflexivity|done].
Qed.

Lemma Branch_instructions_run event_tree branch instructions st r st' :
  Branch_instructions branch instructions st = (r, st') →
  r = Ok tt ∧ branch_frame event_tree st st' ∧
  ∀ b, target_of (heap st') b = target_of (heap st) b.
Proof.
  destruct branch as [b|]; intros [= <- <-]; (split; [done|]).
  - assert (∀ p, target_of (store b f_instructions (VInstructions instructions)
                                  (heap st)) p = target_of (heap st) p) as Htarget.
    { intros p. unfold target_of. simpl. by rewrite lookup_insert_ne. }
    split; [|done]. split_and!; try done.
    + intros p f Hf. simpl. rewrite lookup_insert_ne; [done|].
      intros [= -> <-]. set_solver.
    + intros p. by left.
  - split; [reflexivity|done].
Qed.

(** What [DefineBranch] guarantees, for the paths of a fork. *)
Definition defines_branch
    (DefineBranch_ : list xmlpp.Element → ptr → option ptr → M (Target * list Instruction))
  : Prop :=
  ∀ nodes event_tree branch st r st',
    DefineBranch_ nodes event_tree branch st = (r, st') →
    branch_frame event_tree st st' ∧
    ∀ target instructions, r = Ok (target, instructions) →
      target_in (ptrs_of (heap st) event_tree f_branches) target ∧
      ∀ b, branch = Some b → target_of (heap st') b = Some target.

Lemma define_paths_run DefineBranch_ nodes event_tree paths st r st' :
  defines_branch DefineBranch_ →
  Forall (λ path, target_in (ptrs_of (heap st) event_tree f_branches)
                            (path_target path)) paths →
  define_paths DefineBranch_ nodes event_tree paths st = (r, st') →
  branch_frame event_tree st st' ∧
  ∀ paths', r = Ok paths' →
    Forall (λ path, target_in (ptrs_of (heap st) event_tree f_branches)
                              (path_target path)) paths'.
Proof.
  intros HDB. revert paths st.
  induction nodes as [|node nodes IH]; intros paths st Hpaths Hrun; simpl in Hrun.
  { injection Hrun as <- <-. split; [reflexivity|]. by intros ? [= <-]. }
  bind_inv Hrun as path st1 Hpath.
  2: { split; [|done]. by eapply HDB. }
  destruct path as [target instructions].
  destruct (HDB _ _ _ _ _ _ Hpath) as [Hframe Htarget].
  destruct (Htarget _ _ eq_refl) as [Hin _].
  pose proof (branch_frame_branches _ _ _ Hframe) as Hbranches.
  apply IH in Hrun as [Hframe' Hpaths'].
  - split; [by etrans|]. intros paths' ->. rewrite <-Hbranches. by apply Hpaths'.
  - rewrite Hbranches. apply Forall_app. split; [done|]. by repeat constructor.
Qed.

Lemma ext_find_elem_of h table name p :
  ext_find h table name = Some p → p ∈ table ∧ name_of h p = name.
Proof.
  unfold ext_find. destruct (list_find _ _) as [[i q]|] eqn:Hfind; [|done].
  intros [= <-]. apply list_find_Some in Hfind as (Hq & ? & _).
  split; [by eapply list_elem_of_lookup_2|done].
Qed.

Lemma DefineBranch_defines fuel : defines_branch (DefineBranch fuel).
Proof.
  induction fuel as [|fuel IH]; intros nodes event_tree branch st r st' Hrun.
  { injection Hrun as <- <-. split; [reflexivity|done]. }
  simpl in Hrun. bind_inv Hrun as u st0 Hassert.
  2: { apply assert_inv in Hrun as [-> _]. split; [reflexivity|done]. }
  apply assert_inv in Hassert as [-> _].
  destruct (last nodes) as [target_node|];
    [|injection Hrun as <- <-; split; [reflexivity|done]].
  set (branches := ptrs_of (heap st) event_tree f_branches) in *.
  assert (∀ m : M Target,
    (∀ r1 st1, m st = (r1, st1) →
       branch_frame event_tree st st1 ∧
       ∀ target, r1 = Ok target →
         target_in branches target ∧
         ∀ b, branch = Some b → target_of (heap st1) b = Some target) →
    (target ← m;
     instructions ← get_instructions (removelast nodes) [];
     Branch_instructions branch instructions ;;
     mret (target, instructions)) st = (r, st') →
    branch_frame event_tree st st' ∧
    ∀ target instructions, r = Ok (target, instructions) →
      target_in branches target ∧
      ∀ b, branch = Some b → target_of (heap st') b = Some target) as Hrest.
  { intros m Hm Hrun'. bind_inv Hrun' as target st1 Htarget.
    2: { split; [by eapply Hm|done]. }
    destruct (Hm _ _ Htarget) as [Hframe1 Hok]. destruct (Hok _ eq_refl) as [Hin Hset].
    bind_inv Hrun' as instructions st2 Hinstructions.
    2: { split; [|done]. etrans; [done|].
         by eapply keeps_branch_get_instructions. }
    pose proof (keeps_frame_get_instructions _ _ _ _ _ Hinstructions)
      as (_ & _ & _ & _ & _ & _ & Hfields).
    pose proof (keeps_branch_get_instructions event_tree _ _ _ _ _ Hinstructions)
      as Hframe2.
    bind_inv Hrun' as u' st3 Hsetter.
    2: { by apply (Branch_instructions_run event_tree) in Hrun' as ([=] & _). }
    apply (Branch_instructions_run event_tree) in Hsetter as (_ & Hframe3 & Hsame).
    injection Hrun' as <- <-.
    split; [etrans; [done|]; by etrans|].
    intros ? ? [= <- <-]. split; [done|]. intros b Hb.
    rewrite Hsame. unfold target_of. rewrite Hfields by done. by apply Hset. }
  apply Hrest in Hrun; [done|]. clear Hrun Hrest. intros r1 st1 Hrun.
  case_bool_decide as Hfork; [|case_bool_decide as Hsequence].
  - (* fork *)
    rewrite get_state_bind in Hrun.
    destruct (ext_find _ _ _) as [functional_event|];
      [|injection Hrun as <- <-; split; [reflexivity|done]].
    bind_inv Hrun as paths st2 Hpaths.
    2: { split; [|done].
         by eapply (define_paths_run _ _ _ []) in Hrun as [? _]. }
    eapply (define_paths_run _ _ _ []) in Hpaths as [Hframe Hin]; [|done..].
    specialize (Hin _ eq_refl).
    pose proof (branch_frame_branches _ _ _ Hframe) as Hbranches.
    bind_inv Hrun as u1 st3 Hassert.
    2: { apply assert_inv in Hrun as [-> _]. by split. }
    apply assert_inv in Hassert as [-> _].
    assert (target_in (ptrs_of (heap st2) event_tree f_branches)
                      (ForkTarget functional_event paths)) as Hfork'.
    { rewrite Hbranches. by apply target_in_fork. }
    bind_inv Hrun as u' st4 Hset.
    2: { by apply (Branch_target_run event_tree) in Hrun as ([=] & _). }
    apply (Branch_target_run event_tree) in Hset as (_ & Hframe' & Hset); [|done].
    injection Hrun as <- <-. split; [by etrans|].
    intros ? [= <-]. split; [|done]. unfold branches. by rewrite <-Hbranches.
  - (* sequence *)
    rewrite get_state_bind in Hrun.
    destruct (ext_find _ _ _) as [sequence|];
      [|injection Hrun as <- <-; split; [reflexivity|done]].
    assert (target_in branches (SequenceTarget sequence)) as Hin
      by (intros b Hb; by apply elem_of_nil in Hb).
    bind_inv Hrun as u' st4 Hset.
    2: { by apply (Branch_target_run event_tree) in Hrun as ([=] & _). }
    apply (Branch_target_run event_tree) in Hset as (_ & Hframe' & Hset); [|done].
    injection Hrun as <- <-. split; [done|]. by intros ? [= <-].
  - (* branch *)
    bind_inv Hrun as u1 st2 Hassert.
    2: { apply assert_inv in Hrun as [-> _]. split; [reflexivity|done]. }
    apply assert_inv in Hassert as [-> _]. rewrite get_state_bind in Hrun.
    destruct (ext_find _ _ _) as [named_branch|] eqn:Hfind;
      [|injection Hrun as <- <-; split; [reflexivity|done]].
    apply ext_find_elem_of in Hfind as [Hfind _].
    assert (target_in branches (NamedBranchTarget named_branch)) as Hin.
    { intros b Hb. simpl in Hb. by apply list_elem_of_singleton in Hb as ->. }
    bind_inv Hrun as u' st4 Hset.
    2: { by apply (Branch_target_run event_tree) in Hrun as ([=] & _). }
    apply (Branch_target_run event_tree) in Hset as (_ & Hframe' & Hset); [|done].
    injection Hrun as <- <-. split; [done|]. by intros ? [= <-].
Qed.

(** The branch has a target, which refers to named branches of the list
    only. *)
Definition defined_in (branches : list ptr) (h : Heap) (branch : ptr) : Prop :=
  ∃ target, target_of h branch = Some target ∧ target_in branches target.

Lemma defined_in_frame event_tree st st' branch :
  branch_frame event_tree st st' →
  defined_in (ptrs_of (heap st) event_tree f_branches) (heap st) branch →
  defined_in (ptrs_of (heap st) event_tree f_branches) (heap st') branch.
Proof.
  intros (_ & _ & _ & _ & Htargets) (target & Htarget & Hin).
  destruct (Htargets branch) as [Heq|(target' & ? & ?)].
  - exists target. by rewrite Heq.
  - by exists target'.
Qed.

Lemma define_branches_run fuel nodes it event_tree st r st' :
  define_branches fuel nodes it event_tree st = (r, st') →
  branch_frame event_tree st st' ∧
  (r = Ok tt →
   (length nodes ≤ length it)%nat ∧
   Forall (defined_in (ptrs_of (heap st) event_tree f_branches) (heap st'))
          (take (length nodes) it)).
Proof.
  revert it st. induction nodes as [|node nodes IH]; intros it st Hrun; simpl in Hrun.
  { injection Hrun as <- <-. split; [reflexivity|]. intros _. simpl.
    split; [lia|constructor]. }
  bind_inv Hrun as u st0 Hassert.
  2: { apply assert_inv in Hrun as [-> _]. split; [reflexivity|done]. }
  apply assert_inv in Hassert as [-> _].
  destruct it as [|branch it]; [injection Hrun as <- <-; split; [reflexivity|done]|].
  rewrite get_state_bind in Hrun.
  bind_inv Hrun as u1 st1 Hname.
  2: { apply assert_inv in Hrun as [-> _]. split; [reflexivity|done]. }
  apply assert_inv in Hname as [-> _].
  bind_inv Hrun as defined st1 Hbranch.
  2: { split; [|done]. by eapply DefineBranch_defines. }
  destruct defined as [target instructions].
  destruct (DefineBranch_defines _ _ _ _ _ _ _ Hbranch) as [Hframe Hdefined].
  destruct (Hdefined _ _ eq_refl) as [Hin Hset]. specialize (Hset _ eq_refl).
  pose proof (branch_frame_branches _ _ _ Hframe) as Hbranches.
  apply IH in Hrun as [Hframe' Hrest]. split; [by etrans|].
  intros Hr. destruct (Hrest Hr) as [Hlen Hall]. split; [simpl; lia|].
  simpl. constructor.
  - rewrite <-Hbranches. eapply defined_in_frame; [done|].
    exists target. by rewrite Hbranches.
  - by rewrite <-Hbranches.
Qed.


(** ** Facts: the target of a branch *)

(** The size of the documents under the elements. *)
Definition size_list (nodes : list xmlpp.Element) : nat :=
  foldr (λ x acc, xmlpp.size x + acc)%nat 0%nat nodes.

Lemma size_list_children node : xmlpp.size node = S (size_list (xmlpp.children node)).
Proof. by destruct node. Qed.

Lemma size_list_elem_of node nodes :
  node ∈ nodes → (xmlpp.size node ≤ size_list nodes)%nat.
Proof.
  induction nodes as [|x nodes IH]; intros Hin; [by apply elem_of_nil in Hin|].
  apply elem_of_cons in Hin as [->|Hin]; simpl; [lia|]. specialize (IH Hin). lia.
Qed.

Lemma elem_of_find node tag child : child ∈ xmlpp.find node tag → child ∈ xmlpp.children node.
Proof. unfold xmlpp.find. by intros [_ ?]%list_elem_of_filter. Qed.

Lemma in_fuel_throws {A} (P : Exception → Prop) (m : M A) :
  (∀ e, P e → e ≠ OutOfFuel) → throws P m → in_fuel m.
Proof.
  intros HP Hm st r st' Hrun ->. by eapply HP; [eapply Hm|].
Qed.

Lemma in_fuel_GetExpression expr_element base_path :
  in_fuel (GetExpression expr_element base_path).
Proof.
  eapply in_fuel_throws; [|apply throws_GetExpression].
  by intros e [->|[->|[msg ->]]].
Qed.

Lemma in_fuel_get_instructions nodes acc : in_fuel (get_instructions nodes acc).
Proof.
  revert acc. induction nodes as [|node nodes IH]; intros acc; simpl;
    [apply in_fuel_ret|].
  apply in_fuel_bind; [|done]. unfold GetInstruction.
  apply in_fuel_bind; [apply in_fuel_assert|intros _].
  destruct (xmlpp.children node); [by apply in_fuel_throw|].
  apply in_fuel_bind; [apply in_fuel_GetExpression|intros; apply in_fuel_ret].
Qed.

Lemma in_fuel_modify f : in_fuel (modify f).
Proof. by intros st r st' [= <- _]. Qed.

Lemma in_fuel_Branch_target branch target : in_fuel (Branch_target branch target).
Proof. destruct branch; [apply in_fuel_modify|apply in_fuel_ret]. Qed.

Lemma in_fuel_Branch_instructions branch instructions :
  in_fuel (Branch_instructions branch instructions).
Proof. destruct branch; [apply in_fuel_modify|apply in_fuel_ret]. Qed.

Lemma in_fuel_define_paths DefineBranch_ nodes event_tree paths :
  Forall (λ path_element,
            in_fuel (DefineBranch_ (xmlpp.children path_element) event_tree None))
         nodes →
  in_fuel (define_paths DefineBranch_ nodes event_tree paths).
Proof.
  intros Hnodes. revert paths.
  induction Hnodes as [|node nodes Hnode _ IH]; intros paths; simpl;
    [apply in_fuel_ret|].
  apply in_fuel_bind; [done|intros; apply IH].
Qed.

(** With fuel for the size of the elements, [DefineBranch] does not stop
    for lack of it. *)
Lemma DefineBranch_in_fuel fuel xml_nodes event_tree branch :
  (size_list xml_nodes < fuel)%nat →
  in_fuel (DefineBranch fuel xml_nodes event_tree branch).
Proof.
  revert xml_nodes branch.
  induction fuel as [|fuel IH]; intros xml_nodes branch Hsize; [lia|]. simpl.
  apply in_fuel_bind; [apply in_fuel_assert|intros _].
  destruct (last xml_nodes) as [target_node|] eqn:Hlast; [|by apply in_fuel_throw].
  assert (xmlpp.size target_node ≤ size_list xml_nodes)%nat as Htarget.
  { apply size_list_elem_of. apply last_Some in Hlast as [l' ->].
    apply elem_of_app. right. by left. }
  apply in_fuel_bind.
  2: { intros target. apply in_fuel_bind; [apply in_fuel_get_instructions|].
       intros instructions.
       apply in_fuel_bind; [apply in_fuel_Branch_instructions|].
       intros; apply in_fuel_ret. }
  case_bool_decide; [|case_bool_decide].
  - apply in_fuel_bind; [apply in_fuel_get_state|intros st].
    destruct (ext_find _ _ _); [|by apply in_fuel_throw].
    apply in_fuel_bind.
    { apply in_fuel_define_paths, Forall_forall. intros path_element Hpath.
      apply IH. apply elem_of_find, size_list_elem_of in Hpath.
      rewrite (size_list_children target_node) in Htarget.
      rewrite (size_list_children path_element) in Hpath. lia. }
    intros paths. apply in_fuel_bind; [apply in_fuel_assert|intros _].
    apply in_fuel_bind; [apply in_fuel_Branch_target|intros; apply in_fuel_ret].
  - apply in_fuel_bind; [apply in_fuel_get_state|intros st].
    destruct (ext_find _ _ _); [|by apply in_fuel_throw].
    apply in_fuel_bind; [apply in_fuel_Branch_target|intros; apply in_fuel_ret].
  - apply in_fuel_bind; [apply in_fuel_assert|intros _].
    apply in_fuel_bind; [apply in_fuel_get_state|intros st].
    destruct (ext_find _ _ _); [|by apply in_fuel_throw].
    apply in_fuel_bind; [apply in_fuel_Branch_target|intros; apply in_fuel_ret].
Qed.

(** [resolves st event_tree target_node target]: the element names a
    sequence of the model or a named branch of the event tree, and [target]
    is the one that has the name. *)
Definition resolves (st : Initializer) (event_tree : ptr)
    (target_node : xmlpp.Element) (target : Target) : Prop :=
  let name := GetAttributeValue target_node "name" in
  (xmlpp.get_name target_node = "sequence" ∧
   ∃ sequence, ext_find (heap st) (sequences (model_ st)) name = Some sequence ∧
               target = SequenceTarget sequence) ∨
  (xmlpp.get_name target_node = "branch" ∧
   ∃ named_branch,
     ext_find (heap st) (ptrs_of (heap st) event_tree f_branches) name
     = Some named_branch ∧
     target = NamedBranchTarget named_branch).

(** X17: with fuel for the size of the elements [DefineBranch] never stops
    for lack of it.  The last element is the target of the branch, and it
    is settled before any instruction is built: without elements the
    assertion fails; a [sequence] that the model does not have, a [branch]
    or the functional event of a [fork] that the event tree does not have
    is a [ValidationError] that names it, after the line of the target; any
    other tag fails the assertion; and in each of these cases the state is
    untouched.  When the target is a sequence or a named branch that is
    found, the branch is given the target, then the instructions of the
    elements before the target are built in the order of the document, and
    the branch is given them. *)
Theorem DefineBranch_spec fuel xml_nodes event_tree branch st :
  ((size_list xml_nodes < fuel)%nat →
   (DefineBranch fuel xml_nodes event_tree branch st).1 ≠ Throw OutOfFuel) ∧
  (xml_nodes = [] →
   DefineBranch (S fuel) xml_nodes event_tree branch st = (Throw AssertionFailure, st)) ∧
  ∀ others target_node, xml_nodes = others ++ [target_node] →
    let tag := xmlpp.get_name target_node in
    let name := GetAttributeValue target_node "name" in
    let functional_event := GetAttributeValue target_node "functional-event" in
    let tree := name_of (heap st) event_tree in
    let throws e := DefineBranch (S fuel) xml_nodes event_tree branch st = (Throw e, st) in
    (tag = "fork" →
     ext_find (heap st) (ptrs_of (heap st) event_tree f_functional_events)
              functional_event = None →
     throws (ValidationError (GetLine target_node +:+ "Functional event " +:+
                              functional_event +:+ " is not defined in " +:+ tree))) ∧
    (tag = "sequence" →
     ext_find (heap st) (sequences (model_ st)) name = None →
     throws (ValidationError (GetLine target_node +:+ "Sequence " +:+ name +:+
                              " is not defined in the model."))) ∧
    (tag = "branch" →
     ext_find (heap st) (ptrs_of (heap st) event_tree f_branches) name = None →
     throws (ValidationError (GetLine target_node +:+ "Branch " +:+ name +:+
                              " is not defined in " +:+ tree))) ∧
    (tag ∉ ["fork"; "sequence"; "branch"] → throws AssertionFailure) ∧
    (∀ target args es st1,
       resolves st event_tree target_node target →
       Forall2 collects others args →
       runs ((λ arg, GetExpression arg "") <$> args)
            (Branch_target branch target st).2 es st1 →
       DefineBranch (S fuel) xml_nodes event_tree branch st
       = (Ok (target, CollectExpression <$> es),
          (Branch_instructions branch (CollectExpression <$> es) st1).2)).
Proof.
  split_and!.
  - intros Hsize Hr.
    by eapply DefineBranch_in_fuel; [|apply surjective_pairing|].
  - by intros ->.
  - intros others target_node -> tag name functional_event tree throws.
    assert (∀ (m : M Target) e,
              m st = (Throw e, st) →
              (target ← m;
               instructions ← get_instructions (removelast (others ++ [target_node])) [];
               Branch_instructions branch instructions ;;
               mret (target, instructions)) st = (Throw e, st)) as Hthrows
      by (intros m e Hm; by erewrite bind_Throw).
    unfold throws. simpl. rewrite last_snoc, removelast_last.
    rewrite (bool_decide_eq_false_2 (others ++ [target_node] = []))
      by (by destruct others).
    change (assert_ (negb false)) with (mret (M := M) tt). rewrite !ret_bind.
    rewrite removelast_last in Hthrows. fold tag.
    split_and!.
    + intros Htag Hfind. apply Hthrows.
      rewrite bool_decide_eq_true_2, get_state_bind by done.
      fold functional_event. by rewrite Hfind.
    + intros Htag Hfind. apply Hthrows.
      rewrite bool_decide_eq_false_2, bool_decide_eq_true_2, get_state_bind
        by (by rewrite ?Htag).
      fold name. by rewrite Hfind.
    + intros Htag Hfind. apply Hthrows.
      rewrite !bool_decide_eq_false_2, bool_decide_eq_true_2 by (by rewrite ?Htag).
      change (assert_ true) with (mret (M := M) tt).
      rewrite ret_bind, get_state_bind. fold name. by rewrite Hfind.
    + intros Htag. apply Hthrows.
      by rewrite !bool_decide_eq_false_2 by set_solver.
    + intros target args es st1 Hresolves Hargs Hruns.
      assert ((if bool_decide (tag = "fork")
               then
                 let name := GetAttributeValue target_node "functional-event" in
                 st0 ← get_state;
                 match ext_find (heap st0)
                         (ptrs_of (heap st0) event_tree f_functional_events) name with
                 | Some functional_event =>
                     paths ← define_paths (DefineBranch fuel)
                               (xmlpp.find target_node "path") event_tree [];
                     assert_ (negb (bool_decide (paths = []))) ;;
                     let fork := ForkTarget functional_event paths in
                     Branch_target branch fork ;; mret fork
                 | None =>
                     throw (ValidationError
                              (GetLine target_node +:+ "Functional event " +:+ name +:+
                               " is not defined in " +:+ name_of (heap st0) event_tree))
                 end
               else if bool_decide (tag = "sequence")
               then
                 let name := GetAttributeValue target_node "name" in
                 st0 ← get_state;
                 match ext_find (heap st0) (sequences (model_ st0)) name with
                 | Some sequence =>
                     Branch_target branch (SequenceTarget sequence) ;;
                     mret (SequenceTarget sequence)
                 | None =>
                     throw (ValidationError
                              (GetLine target_node +:+ "Sequence " +:+ name +:+
                               " is not defined in the model."))
                 end
               else
                 assert_ (bool_decide (tag = "branch")) ;;
                 let name := GetAttributeValue target_node "name" in
                 st0 ← get_state;
                 match ext_find (heap st0)
                         (ptrs_of (heap st0) event_tree f_branches) name with
                 | Some named_branch =>
                     Branch_target branch (NamedBranchTarget named_branch) ;;
                     mret (NamedBranchTarget named_branch)
                 | None =>
                     throw (ValidationError
                              (GetLine target_node +:+ "Branch " +:+ name +:+
                               " is not defined in " +:+ name_of (heap st0) event_tree))
                 end) st
              = (Ok target, (Branch_target branch target st).2)) as Htarget.
      { destruct Hresolves as [(Htag & sequence & Hfind & ->)
                              |(Htag & named_branch & Hfind & ->)]; fold tag in Htag.
        - rewrite bool_decide_eq_false_2, bool_decide_eq_true_2, get_state_bind
            by (by rewrite ?Htag).
          rewrite Hfind. by destruct branch.
        - rewrite !bool_decide_eq_false_2, bool_decide_eq_true_2
            by (by rewrite ?Htag).
          change (assert_ true) with (mret (M := M) tt).
          rewrite ret_bind, get_state_bind, Hfind. by destruct branch. }
      erewrite bind_Ok by exact Htarget.
      erewrite bind_Ok by (by apply (get_instructions_runs _ args)).
      simpl. by destruct branch.
Qed.

(** ** Facts: the deferred definitions leave the registrations alone *)

(** The work list and the registries are as they were. *)
Definition definition_frame : relation Initializer := λ st st',
  tbd_ st' = tbd_ st ∧ table (model_ st') = table (model_ st).

#[local] Instance definition_frame_po : PreOrder definition_frame.
Proof. split; [done|]. intros a b c [??] [??]. split; congruence. Qed.

Lemma definition_frame_set_heap st h : definition_frame st (set_heap h st).
Proof. done. Qed.

#[local] Hint Resolve definition_frame_set_heap : keeps.

Lemma keeps_definition_of_expression {A} (m : M A) :
  keeps expression_frame m → keeps definition_frame m.
Proof. apply keeps_weaken. by intros st st' (? & _ & ? & _). Qed.

Lemma keeps_definition_of_registry {A} (m : M A) :
  keeps same_registry m → keeps definition_frame m.
Proof. apply keeps_weaken. intros st st' [? Hm]. split; [done|]. by rewrite Hm. Qed.

Lemma keeps_definition_GetExpression expr_element base_path :
  keeps definition_frame (GetExpression expr_element base_path).
Proof. apply keeps_definition_of_expression, keeps_frame_GetExpression. Qed.

Lemma keeps_definition_Define_Gate fuel gate_node gate :
  keeps definition_frame (Define_Gate fuel gate_node gate).
Proof.
  unfold Define_Gate, Gate_formula, Gate_Validate.
  repeat first
    [ apply (keeps_weaken eq); [by intros ?? ->|apply keeps_GetFormula]
    | keeps_step ].
Qed.

Lemma keeps_definition_Define_BasicEvent event_node basic_event :
  keeps definition_frame (Define_BasicEvent event_node basic_event).
Proof.
  unfold Define_BasicEvent, BasicEvent_expression.
  repeat first [apply keeps_definition_GetExpression|keeps_step].
Qed.

Lemma keeps_definition_Define_Parameter param_node parameter :
  keeps definition_frame (Define_Parameter param_node parameter).
Proof.
  unfold Define_Parameter, Parameter_expression.
  repeat first [apply keeps_definition_GetExpression|keeps_step].
Qed.

Lemma keeps_definition_DefineCcfFactor factor_node ccf_group :
  keeps definition_frame (DefineCcfFactor factor_node ccf_group).
Proof.
  unfold DefineCcfFactor.
  repeat first
    [ apply keeps_definition_GetExpression
    | apply keeps_definition_of_registry, CcfGroup_AddFactor_keeps
    | keeps_step ].
Qed.

Lemma keeps_definition_Define_CcfGroup ccf_node ccf_group :
  keeps definition_frame (Define_CcfGroup ccf_node ccf_group).
Proof.
  unfold Define_CcfGroup.
  repeat first
    [ apply keeps_definition_GetExpression
    | apply keeps_definition_DefineCcfFactor
    | apply keeps_definition_of_registry, CcfGroup_AddDistribution_keeps
    | keeps_step ].
Qed.

Lemma keeps_definition_Define_Sequence xml_node sequence :
  keeps definition_frame (Define_Sequence xml_node sequence).
Proof.
  unfold Define_Sequence, Sequence_instructions.
  repeat first
    [ apply keeps_definition_of_expression, keeps_frame_get_instructions
    | keeps_step ].
Qed.

Lemma keeps_definition_Define_EventTree fuel et_node event_tree :
  keeps definition_frame (Define_EventTree fuel et_node event_tree).
Proof.
  assert (∀ A (m : M A), keeps (branch_frame event_tree) m → keeps definition_frame m)
    as Hbranch by (intros A m; apply keeps_weaken; by intros ?? (? & ? & _)).
  unfold Define_EventTree, EventTree_initial_state.
  repeat first
    [ apply Hbranch; intros ????; by eapply define_branches_run
    | apply Hbranch; intros ????; by eapply DefineBranch_defines
    | keeps_step ].
Qed.

Lemma keeps_definition_Define fuel tbd_element :
  keeps definition_frame (Define fuel tbd_element).
Proof.
  destruct tbd_element as [[[] element] xml_node]; simpl;
    auto using keeps_definition_Define_Gate, keeps_definition_Define_BasicEvent,
      keeps_definition_Define_Parameter, keeps_definition_Define_CcfGroup,
      keeps_definition_Define_Sequence, keeps_definition_Define_EventTree;
    apply keeps_ret; apply _.
Qed.

(** ** Facts: the work list, element by element *)

(** The message of a [ValidationError] with the file of the element in
    front; other exceptions pass as they are. *)
Definition in_file (xml_node : xmlpp.Element) (e : Exception) : Exception :=
  match e with
  | ValidationError msg =>
      ValidationError (("In file '" +:+ doc_to_file xml_node +:+ "', ") +:+ msg)
  | e => e
  end.

Lemma process_runs fuel elements st us st1 :
  runs (Define fuel <$> elements) st us st1 →
  for_each elements (λ tbd_element,
    prefix_ValidationError
      ("In file '" +:+ doc_to_file tbd_element.2 +:+ "', ")
      (Define fuel tbd_element)) st = (Ok tt, st1).
Proof.
  revert st us. induction elements as [|element elements IH]; intros st us Hruns.
  - by inversion Hruns; subst.
  - inversion Hruns as [|? ? ? u st2 us' ? Hdefine Hrest]; subst. simpl.
    erewrite bind_Ok; [by eapply IH|].
    unfold prefix_ValidationError. rewrite Hdefine. by destruct u.
Qed.

(** X18: [ProcessTbdElements] defines the elements of the work list in the
    order of the list, and neither the work list nor a registry changes
    while it does, whatever the outcome.  It stops at the first element
    whose definition throws; the elements before it stay defined.  A
    [ValidationError] leaves it with the file of that element in front of
    the message, and any other exception as it is. *)
Theorem ProcessTbdElements_spec fuel st :
  (∀ r st', ProcessTbdElements fuel st = (r, st') →
     tbd_ st' = tbd_ st ∧ table (model_ st') = table (model_ st)) ∧
  (∀ us st1, runs (Define fuel <$> tbd_ st) st us st1 →
     ProcessTbdElements fuel st = (Ok tt, st1)) ∧
  (∀ defined element rest us st0 e st1,
     tbd_ st = defined ++ element :: rest →
     runs (Define fuel <$> defined) st us st0 →
     Define fuel element st0 = (Throw e, st1) →
     ProcessTbdElements fuel st = (Throw (in_file element.2 e), st1)).
Proof.
  unfold ProcessTbdElements. split_and!.
  - intros r st'. rewrite get_state_bind. intros Hrun.
    assert (keeps definition_frame
              (for_each (tbd_ st) (λ tbd_element,
                 prefix_ValidationError
                   ("In file '" +:+ doc_to_file tbd_element.2 +:+ "', ")
                   (Define fuel tbd_element)))) as Hkeeps
      by (repeat keeps_step; apply keeps_definition_Define).
    exact (Hkeeps _ _ _ Hrun).
  - intros us st1 Hruns. rewrite get_state_bind. by eapply process_runs.
  - intros defined element rest us st0 e st1 Htbd Hruns Hdefine.
    rewrite get_state_bind, Htbd. clear Htbd. revert st us Hruns.
    induction defined as [|first defined IH]; intros st us Hruns.
    + inversion Hruns; subst. simpl. erewrite bind_Throw; [done|].
      unfold prefix_ValidationError. rewrite Hdefine. by destruct e.
    + inversion Hruns as [|? ? ? u st2 us' ? Hfirst Hrest]; subst. simpl.
      erewrite bind_Ok; [by eapply IH|].
      unfold prefix_ValidationError. rewrite Hfirst. by destruct u.
Qed.

(** ** Facts: the factors of a CCF group *)

Lemma bind_ext {A B} (m m' : M A) (f f' : A → M B) st :
  m st = m' st → (∀ a st1, f a st1 = f' a st1) → (m ≫= f) st = (m' ≫= f') st.
Proof.
  intros Hm Hf. unfold mbind, M_bind. rewrite Hm.
  by destruct (m' st) as [[a|e] st1].
Qed.

Lemma for_each_app {A} (l1 l2 : list A) body st :
  for_each (l1 ++ l2) body st = (for_each l1 body ;; for_each l2 body) st.
Proof.
  revert st. induction l1 as [|x l1 IH]; intros st; simpl; [done|].
  unfold mbind, M_bind in *. destruct (body x st) as [[u|e] st1]; [apply IH|done].
Qed.

Lemma for_each_ext {A} (l : list A) body body' st :
  Forall (λ x, ∀ st, body x st = body' x st) l →
  for_each l body st = for_each l body' st.
Proof.
  intros Hl. revert st. induction Hl as [|x l Hx _ IH]; intros st; simpl; [done|].
  unfold mbind, M_bind. rewrite Hx. by destruct (body' x st) as [[u|e] st1].
Qed.

(** X19: in the definition of a CCF group a [factors] element stands for
    its children: with the [factor] elements of a [factors] element put in
    its place, [Define] does the same.  A child that is no [distribution],
    [factor] or [factors] element, the [members] for one, is passed over.
    In [DefineCcfFactor] the expression of the factor is built before the
    level is looked at: a level that is no number is a [ValidationError]
    with the line of the factor in front, and the expression has been handed
    to the model all the same. *)
Theorem Define_CcfGroup_factors name attributes line text before element after
    ccf_group st :
  let ccf_node children := xmlpp.mkElement name attributes line text children in
  (xmlpp.get_name element = "factors" →
   Forall (λ factor, xmlpp.get_name factor = "factor") (xmlpp.children element) →
   Define_CcfGroup (ccf_node (before ++ element :: after)) ccf_group st
   = Define_CcfGroup (ccf_node (before ++ xmlpp.children element ++ after))
                     ccf_group st) ∧
  (xmlpp.get_name element ∉ ["distribution"; "factor"; "factors"] →
   Define_CcfGroup (ccf_node (before ++ element :: after)) ccf_group st
   = Define_CcfGroup (ccf_node (before ++ after)) ccf_group st) ∧
  (∀ expr_node expression st1 msg,
     xmlpp.children element = [expr_node] →
     GetExpression expr_node (base_path_of (heap st) ccf_group) st
     = (Ok expression, st1) →
     GetAttributeValue element "level" ≠ "" →
     CastAttributeValue_int element "level" = inl msg →
     DefineCcfFactor element ccf_group st
     = (Throw (ValidationError (GetLine element +:+ msg)), st1)).
Proof.
  intros ccf_node. unfold Define_CcfGroup. cbn [xmlpp.children ccf_node].
  set (body := λ element : xmlpp.Element,
                 if bool_decide (xmlpp.get_name element = "distribution")
                 then _ else _).
  assert (∀ st, for_each (before ++ element :: after) body st
                = (for_each before body ;; body element ;; for_each after body) st)
    as Hsplit.
  { intros st0. rewrite for_each_app. by apply bind_ext. }
  split_and!.
  - intros Htag Hfactors.
    rewrite Hsplit, for_each_app. apply bind_ext; [done|]. intros _ st1.
    rewrite for_each_app. apply bind_ext; [|done].
    assert (body element st1
            = for_each (xmlpp.children element)
                       (λ factor_node, DefineCcfFactor factor_node ccf_group) st1)
      as ->.
    { unfold body. rewrite Htag. by repeat case_bool_decide. }
    apply for_each_ext. eapply Forall_impl; [exact Hfactors|]. simpl.
    intros factor Hfactor st2. unfold body. rewrite Hfactor.
    by repeat case_bool_decide.
  - intros Htag. rewrite Hsplit, for_each_app. apply bind_ext; [done|].
    intros _ st1.
    assert (body element = mret tt) as ->; [|done].
    unfold body. by rewrite !bool_decide_eq_false_2 by set_solver.
  - intros expr_node expression st1 msg Hchildren Hexpression Hlevel Hcast.
    unfold DefineCcfFactor. rewrite Hchildren.
    change (assert_ (bool_decide (length [expr_node] = 1%nat)))
      with (mret (M := M) tt).
    rewrite ret_bind, get_state_bind. erewrite bind_Ok by done.
    by rewrite bool_decide_eq_false_2, Hcast by done.
Qed.

(** ** Fault trees *)

(** [RegisterFaultTreeData], with [DefineComponent] for the components
    inside; [fuel] bounds the depth of the components. *)
Fixpoint RegisterFaultTreeData (fuel : nat) (ft_node : xmlpp.Element)
    (base_path : string) (component : ptr) : M unit :=
  match fuel with
  | 0 => throw OutOfFuel
  | S fuel =>
      for_each (xmlpp.find ft_node "define-house-event") (λ node,
        st ← get_state;
        house_event ← Register_HouseEvent node base_path (role_of (heap st) component);
        Component_Add component KHouseEvent house_event) ;;
      for_each (xmlpp.find ft_node "define-basic-event") (λ node,
        st ← get_state;
        basic_event ← Register_BasicEvent node base_path (role_of (heap st) component);
        Component_Add component KBasicEvent basic_event) ;;
      for_each (xmlpp.find ft_node "define-parameter") (λ node,
        st ← get_state;
        parameter ← Register_Parameter node base_path (role_of (heap st) component);
        Component_Add component KParameter parameter) ;;
      for_each (xmlpp.find ft_node "define-gate") (λ node,
        st ← get_state;
        gate ← Register_Gate node base_path (role_of (heap st) component);
        Component_Add component KGate gate) ;;
      for_each (xmlpp.find ft_node "define-CCF-group") (λ node,
        st ← get_state;
        ccf_group ← Register_CcfGroup node base_path (role_of (heap st) component);
        Component_Add component KCcfGroup ccf_group) ;;
      for_each (xmlpp.find ft_node "define-component") (λ node,
        st ← get_state;
        sub ← (sub ← ConstructElement_Role None node base_path
                       (role_of (heap st) component);
               st ← get_state;
               RegisterFaultTreeData fuel node
                 (base_path +:+ "." +:+ name_of (heap st) sub) sub ;;
               mret sub);
        prefix_ValidationError (GetLine node) (Component_Add_Component component sub))
  end.

(** [DefineComponent] *)
Definition DefineComponent (fuel : nat) (component_node : xmlpp.Element)
    (base_path : string) (container_role : RoleSpecifier) : M ptr :=
  component ← ConstructElement_Role None component_node base_path container_role;
  st ← get_state;
  RegisterFaultTreeData fuel component_node
    (base_path +:+ "." +:+ name_of (heap st) component) component ;;
  mret component.

(** [DefineFaultTree] *)
Definition DefineFaultTree (fuel : nat) (ft_node : xmlpp.Element) : M unit :=
  fault_tree ← ConstructElement (Some KFaultTree) ft_node;
  st ← get_state;
  RegisterFaultTreeData fuel ft_node (name_of (heap st) fault_tree) fault_tree ;;
  Register KFaultTree fault_tree ft_node.

(** The components inside are defined by [DefineComponent]. *)
Lemma RegisterFaultTreeData_components fuel ft_node base_path component :
  RegisterFaultTreeData (S fuel) ft_node base_path component =
  (for_each (xmlpp.find ft_node "define-house-event") (λ node,
     st ← get_state;
     house_event ← Register_HouseEvent node base_path (role_of (heap st) component);
     Component_Add component KHouseEvent house_event) ;;
   for_each (xmlpp.find ft_node "define-basic-event") (λ node,
     st ← get_state;
     basic_event ← Register_BasicEvent node base_path (role_of (heap st) component);
     Component_Add component KBasicEvent basic_event) ;;
   for_each (xmlpp.find ft_node "define-parameter") (λ node,
     st ← get_state;
     parameter ← Register_Parameter node base_path (role_of (heap st) component);
     Component_Add component KParameter parameter) ;;
   for_each (xmlpp.find ft_node "define-gate") (λ node,
     st ← get_state;
     gate ← Register_Gate node base_path (role_of (heap st) component);
     Component_Add component KGate gate) ;;
   for_each (xmlpp.find ft_node "define-CCF-group") (λ node,
     st ← get_state;
     ccf_group ← Register_CcfGroup node base_path (role_of (heap st) component);
     Component_Add component KCcfGroup ccf_group) ;;
   for_each (xmlpp.find ft_node "define-component") (λ node,
     st ← get_state;
     sub ← DefineComponent fuel node base_path (role_of (heap st) component);
     prefix_ValidationError (GetLine node) (Component_Add_Component component sub))).
Proof. reflexivity. Qed.

(** ** Facts: the work list of a fault tree *)

(** The registries may have grown. *)
Definition tables_grow : relation Initializer := λ st st',
  ∀ k, table (model_ st) k `prefix_of` table (model_ st') k.

#[local] Instance tables_grow_po : PreOrder tables_grow.
Proof.
  split; [by intros a k|]. intros a b c Hab Hbc k. etrans; [apply Hab|apply Hbc].
Qed.

Lemma keeps_tables_of_grows {A} (m : M A) :
  keeps registry_grows m → keeps tables_grow m.
Proof. apply keeps_weaken. by intros ?? [_ ?]. Qed.

Lemma keeps_tables_of_same {A} (m : M A) :
  keeps same_registry m → keeps tables_grow m.
Proof. intros Hm. apply keeps_tables_of_grows. revert Hm. apply keeps_weaken,
  same_registry_grows. Qed.

Lemma keeps_tables_Register_CcfGroup ccf_node base_path role :
  keeps tables_grow (Register_CcfGroup ccf_node base_path role).
Proof.
  unfold Register_CcfGroup, tbd_emplace_back.
  repeat first
    [ apply keeps_tables_of_grows, keeps_Register
    | apply keeps_tables_of_grows, keeps_ProcessCcfMembers
    | apply keeps_tables_of_same, keeps_ConstructElement_Role
    | apply keeps_modify; by intros ??
    | keeps_step ].
Qed.

Lemma Register_CcfGroup_tbd ccf_node base_path role st r st' :
  Register_CcfGroup ccf_node base_path role st = (r, st') →
  match r with
  | Ok ccf_group =>
      tbd_ st' = tbd_ st ++ [((KCcfGroup, ccf_group), ccf_node)] ∧
      ccf_group ∈ ccf_groups (model_ st')
  | Throw _ => tbd_ st' = tbd_ st
  end.
Proof.
  intros Hrun.
  pose proof (Register_of_tbd KCcfGroup _ ccf_node base_path role st r st' eq_refl Hrun)
    as Htbd.
  destruct r as [ccf_group|e]; [done|].
  assert (e = AssertionFailure ∨ e ≠ AssertionFailure) as [->|Hne]
    by (destruct e; (by left) || (by right)).
  2: { by apply Htbd. }
  clear Htbd. unfold Register_CcfGroup in Hrun.
  assert (∀ A (m : M A) s r' s', keeps same_registry m → m s = (r', s') →
                                 tbd_ s' = tbd_ s) as Hsame
    by (intros A m s r' s' Hm Hm'; by apply Hm in Hm' as [? _]).
  assert (∀ A (m : M A) s r' s', keeps registry_grows m → m s = (r', s') →
                                 tbd_ s' = tbd_ s) as Hgrows
    by (intros A m s r' s' Hm Hm'; by apply Hm in Hm' as [? _]).
  bind_inv Hrun as u st1 Hmodel.
  2: { eapply Hsame; [|exact Hrun]. repeat keeps_step. }
  apply Hsame in Hmodel as Htbd1; [|repeat keeps_step].
  bind_inv Hrun as p st2 Hnew.
  2: { rewrite <-Htbd1. eapply Hsame; [|exact Hrun]. apply keeps_ConstructElement_Role. }
  apply Hsame in Hnew as Htbd2; [|apply keeps_ConstructElement_Role].
  bind_inv Hrun as u2 st3 Hwrite; [|by injection Hrun].
  injection Hwrite as _ <-.
  bind_inv Hrun as u3 st4 Hreg.
  2: { apply Hgrows in Hrun; [|apply keeps_Register]. simpl in Hrun. congruence. }
  apply Hgrows in Hreg as Htbd4; [|apply keeps_Register]. simpl in Htbd4.
  bind_inv Hrun as u4 st5 Hassert.
  2: { apply assert_inv in Hrun as [-> _]. congruence. }
  apply assert_inv in Hassert as [-> _].
  bind_inv Hrun as u5 st6 Hmembers.
  2: { transitivity (tbd_ st4); [|congruence]. eapply Hgrows; [|exact Hrun].
       keeps_step; [apply keeps_ProcessCcfMembers|apply keeps_ret; apply _]. }
  bind_inv Hrun as u6 st7 Hemp; by injection Hrun.
Qed.

Lemma keeps_registered_Register_CcfGroup ccf_node base_path role :
  keeps tbd_registered (Register_CcfGroup ccf_node base_path role).
Proof.
  intros st r st' Hrun.
  pose proof (keeps_tables_Register_CcfGroup _ _ _ _ _ _ Hrun) as Htables.
  apply Register_CcfGroup_tbd in Hrun. split; [|done].
  destruct r as [ccf_group|e].
  - destruct Hrun as [Htbd Hin]. eexists. split; [done|].
    by intros k p x [= -> -> ->]%list_elem_of_singleton.
  - exists []. rewrite app_nil_r. split; [done|]. by intros ??? ?%elem_of_nil.
Qed.

Lemma keeps_registered_element k tbd reg node :
  registers_element k tbd reg → keeps tbd_registered (reg node).
Proof.
  intros Hreg st r st' Hrun.
  destruct (Hreg _ _ _ _ Hrun) as [(p & (Hm & Htbd & _) & _)|[Hsame _]].
  - split.
    + eexists. split; [done|]. intros k' p' x Hin. rewrite Hm.
      destruct tbd; [|by apply elem_of_nil in Hin].
      apply list_elem_of_singleton in Hin as [= -> -> ->]. apply elem_of_add_to_table.
    + intros k'. rewrite Hm. apply prefix_add_to_table.
  - by apply registry_grows_registered, same_registry_grows.
Qed.

Lemma keeps_registered_of_same {A} (m : M A) :
  keeps same_registry m → keeps tbd_registered m.
Proof.
  apply keeps_weaken. intros ???.
  by apply registry_grows_registered, same_registry_grows.
Qed.

Lemma keeps_registered_RegisterFaultTreeData fuel ft_node base_path component :
  keeps tbd_registered (RegisterFaultTreeData fuel ft_node base_path component).
Proof.
  revert ft_node base_path component.
  induction fuel as [|fuel IH]; intros ft_node base_path component;
    [apply keeps_throw; apply _|].
  cbn [RegisterFaultTreeData].
  repeat keeps_step;
    lazymatch goal with
    | |- keeps _ (RegisterFaultTreeData _ _ _ _) => apply IH
    | |- keeps _ (Component_Add _ _ _) =>
        apply keeps_registered_of_same, Component_Add_keeps
    | |- keeps _ (Component_Add_Component _ _) =>
        apply keeps_registered_of_same, Component_Add_Component_keeps
    | |- keeps _ (ConstructElement_Role _ _ _ _) =>
        apply keeps_registered_of_same, keeps_ConstructElement_Role
    | |- keeps _ (Register_CcfGroup _ _ _) =>
        apply keeps_registered_Register_CcfGroup
    | |- keeps _ (Register_HouseEvent ?node _ _) =>
        apply (keeps_registered_element KHouseEvent false
                 (λ node, Register_HouseEvent node _ _) node), registers_HouseEvent
    | |- keeps _ (Register_BasicEvent ?node _ _) =>
        apply (keeps_registered_element KBasicEvent true
                 (λ node, Register_BasicEvent node _ _) node), registers_BasicEvent
    | |- keeps _ (Register_Parameter ?node _ _) =>
        apply (keeps_registered_element KParameter true
                 (λ node, Register_Parameter node _ _) node), registers_Parameter
    | |- keeps _ (Register_Gate ?node _ _) =>
        apply (keeps_registered_element KGate true
                 (λ node, Register_Gate node _ _) node), registers_Gate
    end.
Qed.

(** ** Facts: the depth of the components *)

Definition in_fuel_error (e : Exception) : Prop := e ≠ OutOfFuel.

Lemma in_fuel_error_validation e : assertion_or_validation e → in_fuel_error e.
Proof. by intros [->|[msg ->]]. Qed.

Ltac in_fuel_step :=
  first
    [ eapply throws_weaken; [apply in_fuel_error_validation|];
      first [apply throws_ConstructElement_Role|apply throws_ConstructElement
            |apply throws_Register]
    | throws_step ].

Lemma throws_in_fuel {A} (m : M A) : in_fuel m → throws in_fuel_error m.
Proof. intros Hm st e st' Hrun ->. by eapply Hm. Qed.

Lemma throws_fuel_Register_HouseEvent node base_path role :
  throws in_fuel_error (Register_HouseEvent node base_path role).
Proof. unfold Register_HouseEvent. repeat in_fuel_step; done. Qed.

Lemma throws_fuel_Register_BasicEvent node base_path role :
  throws in_fuel_error (Register_BasicEvent node base_path role).
Proof. unfold Register_BasicEvent, tbd_emplace_back. repeat in_fuel_step; done. Qed.

Lemma throws_fuel_Register_Gate node base_path role :
  throws in_fuel_error (Register_Gate node base_path role).
Proof. unfold Register_Gate, tbd_emplace_back. repeat in_fuel_step; done. Qed.

Lemma throws_fuel_Register_Parameter node base_path role :
  throws in_fuel_error (Register_Parameter node base_path role).
Proof. unfold Register_Parameter, tbd_emplace_back. repeat in_fuel_step; done. Qed.

Lemma throws_fuel_Register_CcfGroup node base_path role :
  throws in_fuel_error (Register_CcfGroup node base_path role).
Proof.
  unfold Register_CcfGroup, tbd_emplace_back, ProcessCcfMembers, AddMember.
  repeat in_fuel_step; done.
Qed.

(** The calls in [RegisterFaultTreeData] that do not depend on the fuel. *)
Ltac in_fuel_leaf :=
  lazymatch goal with
  | |- throws _ (Component_Add _ _ _) =>
      apply throws_in_fuel, Component_Add_in_fuel
  | |- throws _ (Component_Add_Component _ _) =>
      apply throws_in_fuel, Component_Add_Component_in_fuel
  | |- throws _ (Register_HouseEvent _ _ _) => apply throws_fuel_Register_HouseEvent
  | |- throws _ (Register_BasicEvent _ _ _) => apply throws_fuel_Register_BasicEvent
  | |- throws _ (Register_Parameter _ _ _) => apply throws_fuel_Register_Parameter
  | |- throws _ (Register_Gate _ _ _) => apply throws_fuel_Register_Gate
  | |- throws _ (Register_CcfGroup _ _ _) => apply throws_fuel_Register_CcfGroup
  | |- throws _ (ConstructElement_Role _ _ _ _) =>
      eapply throws_weaken;
      [apply in_fuel_error_validation|apply throws_ConstructElement_Role]
  | |- ∀ msg, in_fuel_error _ → in_fuel_error _ => done
  end.

(** With fuel for the size of the element, [RegisterFaultTreeData] does not
    stop for lack of it. *)
Lemma RegisterFaultTreeData_in_fuel fuel ft_node base_path component :
  (xmlpp.size ft_node ≤ fuel)%nat →
  throws in_fuel_error (RegisterFaultTreeData fuel ft_node base_path component).
Proof.
  revert ft_node base_path component.
  induction fuel as [|fuel IH]; intros ft_node base_path component Hsize.
  { destruct ft_node; simpl in Hsize; lia. }
  cbn [RegisterFaultTreeData].
  assert (∀ node, node ∈ xmlpp.find ft_node "define-component" →
                  (xmlpp.size node ≤ fuel)%nat) as Hsub.
  { intros node Hnode%elem_of_find%size_children. lia. }
  revert Hsub. generalize (xmlpp.find ft_node "define-component"). intros subs Hsubs.
  repeat lazymatch goal with
    | |- throws _ (for_each subs _) => fail
    | |- _ => throws_step
    end;
    try in_fuel_leaf.
  induction subs as [|sub subs IHsubs]; cbn [for_each]; [apply throws_ret|].
  apply throws_bind; [|intros _; apply IHsubs; intros; apply Hsubs; by right].
  repeat throws_step;
    lazymatch goal with
    | |- throws _ (RegisterFaultTreeData _ _ _ _) => apply IH, Hsubs; by left
    | |- _ => in_fuel_leaf
    end.
Qed.

(** The registry of the kind is as it was. *)
Definition same_table (k : Kind) : relation Initializer := λ st st',
  table (model_ st') k = table (model_ st) k.

#[local] Instance same_table_po k : PreOrder (same_table k).
Proof. split; [done|]. intros a b c Hab Hbc. unfold same_table in *. congruence. Qed.

Lemma same_table_set_heap k st h : same_table k st (set_heap h st).
Proof. done. Qed.

#[local] Hint Resolve same_table_set_heap : keeps.

Lemma keeps_table_of_same {A} k (m : M A) :
  keeps same_registry m → keeps (same_table k) m.
Proof. apply keeps_weaken. intros st st' [_ Hm]. unfold same_table. by rewrite Hm. Qed.

Lemma keeps_table_Register k0 k p x : k ≠ k0 → keeps (same_table k0) (Register k p x).
Proof.
  intros Hk st r st' [_ [(_ & _ & Hm)|(msg & _ & _ & ->)]]%Register_inv; [|done].
  unfold same_table. rewrite Hm. simpl. by rewrite decide_False.
Qed.

Lemma keeps_table_tbd_emplace_back k0 k p x :
  keeps (same_table k0) (tbd_emplace_back k p x).
Proof. by intros st r st' [= _ <-]. Qed.

Ltac table_step :=
  lazymatch goal with
  | |- keeps _ (Register _ _ _) => apply keeps_table_Register; discriminate
  | |- keeps _ (tbd_emplace_back _ _ _) => apply keeps_table_tbd_emplace_back
  | |- keeps _ (ConstructElement_Role _ _ _ _) =>
      apply keeps_table_of_same, keeps_ConstructElement_Role
  | |- keeps _ (ConstructElement _ _) =>
      apply keeps_table_of_same, keeps_ConstructElement
  | |- keeps _ (AddMember _ _) => apply keeps_table_of_same, keeps_AddMember
  | |- keeps _ (Component_Add _ _ _) =>
      apply keeps_table_of_same, Component_Add_keeps
  | |- keeps _ (Component_Add_Component _ _) =>
      apply keeps_table_of_same, Component_Add_Component_keeps
  | |- _ => keeps_step
  end.

Lemma keeps_fault_trees_RegisterFaultTreeData fuel ft_node base_path component :
  keeps (same_table KFaultTree) (RegisterFaultTreeData fuel ft_node base_path component).
Proof.
  revert ft_node base_path component.
  induction fuel as [|fuel IH]; intros ft_node base_path component;
    [apply keeps_throw; apply _|].
  cbn [RegisterFaultTreeData].
  unfold Register_HouseEvent, Register_BasicEvent, Register_Parameter, Register_Gate,
    Register_CcfGroup, ProcessCcfMembers.
  repeat lazymatch goal with
    | |- keeps _ (RegisterFaultTreeData _ _ _ _) => apply IH
    | |- _ => table_step
    end.
Qed.

(** X20: every element that [DefineFaultTree] puts on the work list is in
    the registry of its kind, inside components at any depth and whatever
    the outcome: the definitions that [ProcessTbdElements] runs later are
    definitions of registered elements.  The registries only grow.  The
    fault tree itself is registered last, after all that it holds: when
    [DefineFaultTree] returns it is the one fault tree that the model has
    gained, and when it throws the model has gained no fault tree, though
    the elements registered before the failure stay registered.  With fuel
    for the size of the element it never stops for lack of it. *)
Theorem DefineFaultTree_spec fuel ft_node st r st' :
  DefineFaultTree fuel ft_node st = (r, st') →
  (∃ added, tbd_ st' = tbd_ st ++ added ∧
            ∀ k p x, ((k, p), x) ∈ added → p ∈ table (model_ st') k) ∧
  (∀ k, table (model_ st) k `prefix_of` table (model_ st') k) ∧
  match r with
  | Ok _ => ∃ fault_tree,
      fault_trees (model_ st') = fault_trees (model_ st) ++ [fault_tree]
  | Throw e =>
      fault_trees (model_ st') = fault_trees (model_ st) ∧
      ((xmlpp.size ft_node ≤ fuel)%nat → e ≠ OutOfFuel)
  end.
Proof.
  intros Hrun.
  assert (tbd_registered st st') as [Hadded Hgrow].
  { revert Hrun. generalize st r st'.
    change (keeps tbd_registered (DefineFaultTree fuel ft_node)).
    unfold DefineFaultTree.
    repeat lazymatch goal with
      | |- keeps _ (RegisterFaultTreeData _ _ _ _) =>
          apply keeps_registered_RegisterFaultTreeData
      | |- keeps _ (ConstructElement _ _) =>
          apply keeps_registered_of_same, keeps_ConstructElement
      | |- keeps _ (Register _ _ _) =>
          apply (keeps_weaken registry_grows);
          [apply registry_grows_registered|apply keeps_Register]
      | |- _ => keeps_step
      end. }
  split; [done|]. split; [done|].
  unfold DefineFaultTree in Hrun.
  bind_inv Hrun as fault_tree st1 Hnew.
  2: { split.
       - apply keeps_ConstructElement in Hrun as [_ Hm]. by rewrite Hm.
       - intros _. apply throws_ConstructElement in Hrun.
         by apply in_fuel_error_validation. }
  apply keeps_ConstructElement in Hnew as [_ Hm1].
  rewrite get_state_bind in Hrun.
  bind_inv Hrun as u st2 Hdata.
  2: { split.
       - apply keeps_fault_trees_RegisterFaultTreeData in Hrun.
         unfold fault_trees. by rewrite Hrun, Hm1.
       - intros Hsize. by eapply RegisterFaultTreeData_in_fuel. }
  apply keeps_fault_trees_RegisterFaultTreeData in Hdata.
  destruct r as [u'|e].
  - apply Register_inv in Hrun as [_ [(_ & _ & Hm)|(? & _ & [=] & _)]].
    exists fault_tree. unfold fault_trees. rewrite Hm. simpl.
    unfold same_table in Hdata. by rewrite Hdata, Hm1.
  - split.
    + apply Register_inv in Hrun as [_ [([=] & _)|(? & _ & _ & ->)]].
      unfold fault_trees. by rewrite Hdata, Hm1.
    + intros _. apply throws_Register in Hrun. by apply in_fuel_error_validation.
Qed.


End Definitions.
End mef.

(** * A model to run the initializer on

    Names are looked up in the registries as they are, without paths; a name
    may be registered once per kind; numbers are decimal; nothing else is
    refused. *)
Module TestEnv.

Fixpoint digits (s : string) (acc : Z) : option Z :=
  match s with
  | EmptyString => Some acc
  | String c s' =>
      let d := (Z.of_N (Ascii.N_of_ascii c) - 48)%Z in
      if ((0 <=? d) && (d <=? 9))%Z then digits s' (10 * acc + d)%Z else None
  end.

Definition to_int (value : string) : string + Z :=
  match value with
  | EmptyString => inl "Failed to interpret the value as a number."
  | _ => from_option inr (inl "Failed to interpret the value as a number.")
                     (digits value 0)
  end.

Definition doubles : list (string * float) :=
  [("0", 0%float); ("1", 1%float); ("2", 2%float);
   ("0.3", 0x1.3333333333333p-2%float); ("0.7", 0x1.6666666666666p-1%float)].

Definition to_double (value : string) : string + float :=
  match list_find (λ entry, entry.1 = value) doubles with
  | Some (_, entry) => inr entry.2
  | None => inl "Failed to interpret the value as a number."
  end.

Definition lookup_name (h : Heap) (registry : list ptr) (name : string) : option ptr :=
  snd <$> list_find (λ p, name_of h p = name) registry.

Definition redefinition (k : Kind) (m : Model) (h : Heap) (element : ptr)
  : option string :=
  if bool_decide (is_Some (lookup_name h (table m k) (name_of h element)))
  then Some ("Redefinition of " +:+ name_of h element)
  else None.

Definition get_event (m : Model) (h : Heap) (name : string) : option Arg :=
  match lookup_name h (gates m) name with
  | Some gate => Some (GateArg gate)
  | None =>
      match lookup_name h (basic_events m) name with
      | Some basic_event => Some (BasicEventArg basic_event)
      | None => HouseEventArg <$> lookup_name h (house_events m) name
      end
  end.

Definition arity (tag : string) : NumArgs :=
  if bool_decide (tag ∈ ["neg"; "exp"; "log"; "sqrt"; "not"]) then Fixed 1
  else if bool_decide (tag ∈ ["exponential"; "sub"; "div"; "pow"; "eq"; "lt"]) then Fixed 2
  else if bool_decide (tag ∈ ["ite"; "normal-deviate"]) then Fixed 3
  else if bool_decide (tag ∈ ["GLM"; "Weibull"]) then Fixed 4
  else Variadic.

Definition env : Env := {|
  CastAttributeValue_int element attribute :=
    to_int (GetAttributeValue element attribute);
  CastAttributeValue_double element attribute :=
    to_double (GetAttributeValue element attribute);
  doc_to_file _ := "input.xml";
  kUnitsToString := ["unitless"; "bool"; "int"; "float"; "hours"; "hours-1";
                     "years"; "years-1"; "fit"; "demands"];
  kOperatorToString := ["and"; "or"; "atleast"; "xor"; "not"; "nand"; "nor"; "null"];
  kNull := 7%nat;
  kVote := 2%nat;
  AddAttribute_invalid _ _ := None;
  Model_Add_invalid := redefinition;
  Model_GetParameter m h name _ := lookup_name h (parameters m) name;
  Model_GetGate m h name _ := lookup_name h (gates m) name;
  Model_GetBasicEvent m h name _ := lookup_name h (basic_events m) name;
  Model_GetHouseEvent m h name _ := lookup_name h (house_events m) name;
  Model_GetEvent m h name _ := get_event m h name;
  EventTree_Add_invalid _ _ _ _ := None;
  AddMember_invalid _ _ _ := None;
  AddArgument_invalid _ _ := None;
  vote_number_invalid number :=
    if (number <? 2)%Z then Some "Vote number cannot be less than 2." else None;
  Formula_Validate_invalid _ := None;
  num_args := arity;
  constructor_invalid _ := None;
  Expression_Validate_invalid _ _ := None;
  CcfGroup_Validate_invalid _ _ := None;
  BasicEvent_Validate_invalid _ _ := None;
|}.

(** The initializer before any input: the two shared house events and the
    mission time are there, the registries are empty. *)
Definition initial : Initializer := {|
  settings_ := {| probability_analysis := true |};
  model_ := {| table := λ _, []; model_expressions := []; mission_time := 2%nat |};
  tbd_ := [];
  expressions_ := [];
  heap := {| fields := ∅; marks := λ _, ∅; next := 3%nat |};
|}.

(** The initializer with the given registries and data members. *)
Definition with_model (registries : list (Kind * list ptr))
    (members : list (ptr * Field * Value)) : Initializer := {|
  settings_ := settings_ initial;
  model_ := {| table k := match list_find (λ r, r.1 = k) registries with
                          | Some (_, r) => r.2
                          | None => []
                          end;
               model_expressions := [];
               mission_time := mission_time (model_ initial) |};
  tbd_ := [];
  expressions_ := [];
  heap := {| fields := list_to_map members;
             marks := marks (heap initial);
             next := (3 + length members)%nat |};
|}.

(** Scenario 2 of the specification: [g1 = and(g2, x)], [g2 = or(g1, y)]. *)
Definition gate_cycle : Initializer :=
  with_model [(KGate, [3; 4]); (KBasicEvent, [5; 6])]%nat
    [((3, f_name), VString "g1"); ((4, f_name), VString "g2");
     ((5, f_name), VString "x"); ((6, f_name), VString "y");
     ((3, f_formula), VFormula (mkFormula 0 [GateArg 4; BasicEventArg 5] None));
     ((4, f_formula), VFormula (mkFormula 1 [GateArg 3; BasicEventArg 6] None));
     ((5, f_expression), VExpression (ConstantDouble 0x1.3333333333333p-2));
     ((6, f_expression), VExpression (ConstantDouble 0x1.6666666666666p-1))]%nat.

(** A basic event [b] that has no expression, and nothing else. *)
Definition no_expression : Initializer :=
  with_model [(KBasicEvent, [3])]%nat [((3, f_name), VString "b")]%nat.

(** The same with the parameter [p := neg p]. *)
Definition parameter_cycle : Initializer :=
  with_model [(KBasicEvent, [3]); (KParameter, [4])]%nat
    [((3, f_name), VString "b"); ((4, f_name), VString "p");
     ((4, f_expression), VExpression (Formula_ "neg" [ParameterRef 4]))]%nat.

(** The gate [a], the basic event [e] and the parameter [p] in hours. *)
Definition registered : Initializer :=
  with_model [(KGate, [3]); (KBasicEvent, [4]); (KParameter, [5])]%nat
    [((3, f_name), VString "a"); ((4, f_name), VString "e");
     ((5, f_name), VString "p"); ((5, f_unit), VNat 4);
     ((5, f_unused), VBool true)]%nat.

(** An element without text, on the line [line]. *)
Definition xml (tag : string) (attributes : list (string * string)) (line : nat)
    (children : list xmlpp.Element) : xmlpp.Element :=
  xmlpp.mkElement tag attributes line None children.

Definition number (value : string) (line : nat) : xmlpp.Element :=
  xml "float" [("value", value)] line [].

Definition sum_node : xmlpp.Element :=
  xml "add" [] 3 [xml "int" [("value", "1")] 4 []; xml "neg" [] 5 [number "2" 5]].

Definition in_years : xmlpp.Element :=
  xml "parameter" [("name", "p"); ("unit", "years")] 9 [].

Definition in_hours : xmlpp.Element :=
  xml "parameter" [("name", "p"); ("unit", "hours")] 9 [].

Definition and_node : xmlpp.Element :=
  xml "and" [] 3 [xml "gate" [("name", "a")] 4 [];
                  xml "constant" [("value", "true")] 5 [];
                  xml "constant" [("value", "false")] 6 []].

Definition event_node : xmlpp.Element := xml "event" [("name", "e")] 4 [].

(** Scenario 5 of the specification: lower bound 0, bins (1, 0.3), (2, 0.7). *)
Definition histogram : xmlpp.Element :=
  xml "histogram" [] 3
    [number "0" 4;
     xml "bin" [] 5 [number "1" 5; number "0.3" 5];
     xml "bin" [] 6 [number "2" 6; number "0.7" 6]].

Definition periodic_test (n : nat) : xmlpp.Element :=
  xml "periodic-test" [] 8 (replicate n (number "1" 9)).

Definition define_basic_event : xmlpp.Element :=
  xml "define-basic-event" [("name", "e")] 2
    [xml "label" [] 3 []; number "0.3" 4; number "0.7" 5].

Definition define_gate : xmlpp.Element :=
  xml "define-gate" [("name", "a")] 2 [xml "or" [] 3 []].

End TestEnv.

#[local] Existing Instance TestEnv.env.
Import TestEnv.

(** * The theorems at work *)

(** Scenario 2 of the specification: the two gates that refer to each other
    are reported, with their names. *)
Lemma ValidateInitialization_cycles_witness :
  ∃ msg,
    (mef.ValidateInitialization gate_cycle).1 = Throw (CycleError msg) ∧
    msg = "Detected a cycle in g1 gate:
g1->g2->g1" ∧
    contains "g1" msg ∧ contains "g2" msg ∧
    ∃ k cycle,
      cycle.closed_cycle (mef.GetNodes k (heap gate_cycle)) cycle ∧
      ∀ n, n ∈ cycle →
        cycle.on_cycle (mef.GetNodes k (heap gate_cycle)) n ∧
        contains (name_of (heap gate_cycle) n) msg.
Proof.
  destruct (mef.ValidateInitialization_cycles gate_cycle
              (mef.ValidateInitialization gate_cycle).1
              (mef.ValidateInitialization gate_cycle).2)
    as (_ & Hreports & _).
  - intros k node. reflexivity.
  - apply (bool_decide_eq_true_1 _). vm_compute. reflexivity.
  - apply Forall_forall, (bool_decide_eq_true_1 _). vm_compute. reflexivity.
  - apply (bool_decide_eq_true_1 _). vm_compute. reflexivity.
  - vm_compute. reflexivity.
  - eexists. split; [vm_compute; reflexivity|]. split; [reflexivity|].
    split; [by exists "Detected a cycle in ", " gate:
g1->g2->g1"|].
    split; [by exists "Detected a cycle in g1 gate:
g1->", "->g1"|].
    destruct (Hreports _ eq_refl) as (k & node & c & _ & Hclosed & Hc).
    exists k, c. split; [done|]. intros n Hn. by destruct (Hc n Hn) as (_ & ? & ?).
Defined.

(** Without any gate, named branch or parameter the validation fails all the
    same when a basic event has no expression; and with the parameter
    [p := neg p] on top, it is that failure which is reported, not the cycle. *)
Lemma ValidateInitialization_cycles_counterexample :
  (¬ mef.cyclic GateNode (heap no_expression) (gates (model_ no_expression)) ∧
   ¬ mef.cyclic NamedBranchNode (heap no_expression)
       (mef.all_branches (heap no_expression) (event_trees (model_ no_expression))) ∧
   ¬ mef.cyclic ParameterNode (heap no_expression) (parameters (model_ no_expression)) ∧
   (mef.ValidateInitialization no_expression).1
   = Throw (ValidationError "These basic events do not have expressions:
b
")) ∧
  (mef.cyclic ParameterNode (heap parameter_cycle) (parameters (model_ parameter_cycle)) ∧
   (mef.ValidateInitialization parameter_cycle).1
   = Throw (ValidationError "These basic events do not have expressions:
b
")).
Proof.
  split; split_and!.
  - intros (node & Hnode & _). inversion Hnode.
  - intros (node & Hnode & _). inversion Hnode.
  - intros (node & Hnode & _). inversion Hnode.
  - vm_compute. reflexivity.
  - exists 4%nat. split; [by left|]. apply tc_once. by left.
  - vm_compute. reflexivity.
Qed.

(** The sum [1 + (- 2.0)]: the negation and the sum are recorded for validation,
    the two constants are not. *)
Lemma GetExpression_registers_witness :
  let x := Formula_ "add" [ConstantInt 1; Formula_ "neg" [ConstantDouble 2]] in
  let st' := (mef.GetExpression sum_node "" initial).2 in
  mef.GetExpression sum_node "" initial = (Ok x, st') ∧
  ∃ ms es,
    model_expressions (model_ st') = model_expressions (model_ initial) ++ ms ++ [x] ∧
    expressions_ st' = expressions_ initial ++ es ++ [(x, sum_node)] ∧
    ∀ y e, (y, e) ∈ es → y ∈ ms.
Proof.
  intros x st'.
  assert (mef.GetExpression sum_node "" initial = (Ok x, st')) as Hrun
    by (vm_compute; reflexivity).
  split; [exact Hrun|].
  exact (mef.GetExpression_registers sum_node "" initial x st' Hrun).
Defined.

(** The constant of [<int value="1"/>] is handed to the model and the
    validation list stays empty. *)
Lemma GetExpression_registers_counterexample :
  let one := xml "int" [("value", "1")] 7 [] in
  let st' := (mef.GetExpression one "" initial).2 in
  mef.GetExpression one "" initial = (Ok (ConstantInt 1), st') ∧
  model_expressions (model_ st') = [ConstantInt 1] ∧
  expressions_ initial = [] ∧ expressions_ st' = [].
Proof. vm_compute. done. Qed.

(** Scenario 6 of the specification: [p] in hours, referred to in years. *)
Lemma GetParameter_unit_check_witness :
  (∃ msg st',
     mef.GetParameter "parameter" in_years "" registered
     = (Throw (ValidationError msg), st') ∧
     msg = "At line 9, Parameter unit mismatch.
Expected: hours
Given: years" ∧
     contains "hours" msg ∧ contains "years" msg) ∧
  (∃ st', mef.GetParameter "parameter" in_hours "" registered
          = (Ok (Some (ParameterRef 5)), st')).
Proof.
  split.
  - refine (proj1 (mef.GetParameter_unit_check in_years "" registered 5 _) _ _);
      [vm_compute; reflexivity|vm_compute; discriminate..].
  - refine (proj2 (mef.GetParameter_unit_check in_hours "" registered 5 _) _);
      [vm_compute; reflexivity|]. right. vm_compute. reflexivity.
Defined.

Lemma GetParameter_clears_unused_witness :
  let run := mef.GetParameter "parameter" in_years "" registered in
  unused_of (heap registered) 5 = true ∧
  unused_of (heap run.2) 5 = false ∧
  run.1 = Throw (ValidationError "At line 9, Parameter unit mismatch.
Expected: hours
Given: years").
Proof.
  intros run. split; [vm_compute; reflexivity|].
  destruct (mef.GetParameter_clears_unused in_years "" registered 5 run.1 run.2)
    as [Hunused Hthrow]; [vm_compute; reflexivity|apply surjective_pairing|].
  split; [exact Hunused|]. apply Hthrow; vm_compute; discriminate.
Defined.

(** A conjunction of a gate and the two constants, and an event by its name. *)
Lemma GetFormula_spec_witness :
  let conjunction := mkFormula 0 [GateArg 3; HouseEventArg HouseEvent_kTrue;
                                  HouseEventArg HouseEvent_kFalse] None in
  let pass_through := mkFormula 7 [BasicEventArg 4] None in
  (mef.GetFormula 2 and_node "" registered = (Ok conjunction, registered) ∧
   kOperatorToString !! formula_type conjunction = Some "and" ∧
   Forall2 (mef.is_arg_of registered "") (xmlpp.children and_node)
           (formula_args conjunction)) ∧
  (mef.GetFormula 1 event_node "" registered = (Ok pass_through, registered) ∧
   formula_type pass_through = kNull ∧
   ∃ arg, formula_args pass_through = [arg] ∧
          mef.is_arg_of registered "" event_node arg) ∧
  (mef.GetFormula 9 and_node "" registered
   = mef.GetFormula (xmlpp.size and_node) and_node "" registered ∧
   (mef.GetFormula 9 and_node "" registered).1 ≠ Throw OutOfFuel).
Proof.
  intros conjunction pass_through.
  assert (mef.GetFormula 2 and_node "" registered = (Ok conjunction, registered))
    as Hand by (vm_compute; reflexivity).
  assert (mef.GetFormula 1 event_node "" registered = (Ok pass_through, registered))
    as Hevent by (vm_compute; reflexivity).
  split; [|split]; [split; [done|]|split; [done|]|].
  - exact (proj2 (proj2 (mef.GetFormula_spec 2 and_node "" registered)
                    conjunction registered Hand)).
  - exact (proj2 (proj2 (mef.GetFormula_spec 1 event_node "" registered)
                    pass_through registered Hevent)).
  - apply (proj1 (mef.GetFormula_spec 9 and_node "" registered)); [vm_compute; lia|].
    apply (@bool_decide_eq_true_1 _ (mef.no_own_argument_dec _ _)).
    vm_compute. reflexivity.
Defined.

(** Scenario 5 of the specification. *)
Lemma GetExpression_Histogram_witness :
  let boundaries := [ConstantDouble 0; ConstantDouble 1; ConstantDouble 2] in
  let weights := [ConstantDouble 0x1.3333333333333p-2;
                  ConstantDouble 0x1.6666666666666p-1] in
  ∃ st1,
    mef.GetExpression histogram "" initial
    = (Ok (Histogram boundaries weights),
       mef.register_for_validation histogram (Histogram boundaries weights) st1) ∧
    length boundaries = S (length weights) ∧ length weights = 2%nat.
Proof.
  intros boundaries weights. eexists.
  refine (mef.GetExpression_Histogram histogram "" (number "0" 4)
            [xml "bin" [] 5 [number "1" 5; number "0.3" 5];
             xml "bin" [] 6 [number "2" 6; number "0.7" 6]]
            initial (ConstantDouble 0)
            [(ConstantDouble 1, ConstantDouble 0x1.3333333333333p-2);
             (ConstantDouble 2, ConstantDouble 0x1.6666666666666p-1)] _ _ _ _ _ _ _ _);
    [reflexivity|reflexivity|discriminate|by repeat constructor|reflexivity| |reflexivity].
  repeat (eapply runs_cons; [vm_compute; reflexivity|]). apply runs_nil.
Defined.

(** Three arguments are refused, four are taken. *)
Lemma GetExpression_PeriodicTest_witness :
  mef.GetExpression (periodic_test 3) "" initial
  = (Throw (ValidationError
              "At line 8, Invalid number of arguments for Periodic Test."), initial) ∧
  ∃ st1, mef.GetExpression (periodic_test 4) "" initial
         = (Ok (PeriodicTest (replicate 4 (ConstantDouble 1))),
            mef.register_for_validation (periodic_test 4)
              (PeriodicTest (replicate 4 (ConstantDouble 1))) st1).
Proof.
  split.
  - refine (proj1 (mef.GetExpression_PeriodicTest (periodic_test 3) "" initial _) _ _ _);
      [reflexivity|vm_compute; discriminate..].
  - eexists.
    refine (proj2 (proj2 (mef.GetExpression_PeriodicTest (periodic_test 4) "" initial _)
                     _ (replicate 4 (ConstantDouble 1)) _ _));
      [reflexivity|by left|].
    repeat (eapply runs_cons; [vm_compute; reflexivity|]). apply runs_nil.
Defined.

(** A basic event with a label and two expressions: the second one is its
    expression, and the only one that is built. *)
Lemma Define_BasicEvent_spec_witness :
  GetNonAttributeElements define_basic_event = [number "0.3" 4; number "0.7" 5] ∧
  expression_of (heap registered) 4 = None ∧
  ∃ st', mef.Define_BasicEvent define_basic_event 4 registered = (Ok tt, st') ∧
         expression_of (heap st') 4 = Some (ConstantDouble 0x1.6666666666666p-1) ∧
         model_expressions (model_ st') = [ConstantDouble 0x1.6666666666666p-1].
Proof.
  split; [vm_compute; reflexivity|]. split; [vm_compute; reflexivity|].
  assert (GetNonAttributeElements define_basic_event
          = [number "0.3" 4] ++ [number "0.7" 5]) as Hlast
    by (vm_compute; reflexivity).
  assert (mef.GetExpression (number "0.7" 5) (base_path_of (heap registered) 4)
            registered
          = (Ok (ConstantDouble 0x1.6666666666666p-1),
             (mef.GetExpression (number "0.7" 5) "" registered).2)) as Hexpr
    by (vm_compute; reflexivity).
  destruct (proj1 (proj2 (mef.Define_BasicEvent_spec define_basic_event 4 registered)
                     _ _ Hlast) _ _ Hexpr)
    as (st' & Hrun & Hst' & Hexpression).
  exists st'. split; [done|]. split; [done|]. rewrite Hst'. vm_compute. reflexivity.
Defined.

(** The gate [a] is registered and put on the work list; a second gate [a] is
    refused and the work list stays as it is. *)
Lemma Register_tbd_spec_witness :
  let first := mef.Register_Gate define_gate "" kPublic initial in
  let second := mef.Register_Gate define_gate "" kPublic first.2 in
  first.1 = Ok 3%nat ∧
  tbd_ first.2 = [((KGate, 3%nat), define_gate)] ∧ 3%nat ∈ gates (model_ first.2) ∧
  second.1 = Throw (ValidationError "At line 2, Redefinition of a") ∧
  tbd_ second.2 = tbd_ first.2.
Proof.
  intros first second.
  pose proof (proj1 mef.Register_tbd_spec KGate _ define_gate "" kPublic
                initial first.1 first.2 eq_refl (surjective_pairing _)) as Hfirst.
  pose proof (proj1 mef.Register_tbd_spec KGate _ define_gate "" kPublic
                first.2 second.1 second.2 eq_refl (surjective_pairing _)) as Hsecond.
  assert (first.1 = Ok 3%nat) as Hok by (vm_compute; reflexivity).
  assert (second.1 = Throw (ValidationError "At line 2, Redefinition of a")) as Hthrow
    by (vm_compute; reflexivity).
  rewrite Hok in Hfirst. rewrite Hthrow in Hsecond.
  destruct Hfirst as [Htbd Hin]. split_and!; [done|exact Htbd|exact Hin|done|].
  by apply Hsecond.
Defined.

(** Two files that are there, in either order. *)
Lemma PreFlight_Ok_iff_witness :
  InputFiles.PreFlight ["a.xml"; "b.xml"] = Ok tt ∧
  InputFiles.PreFlight ["b.xml"; "a.xml"] = Ok tt.
Proof.
  destruct (InputFiles.PreFlight_Ok_iff ["a.xml"; "b.xml"]) as (Hiff & _ & Hperm).
  assert (InputFiles.PreFlight ["a.xml"; "b.xml"] = Ok tt) as Hok.
  { apply Hiff. split; [by repeat constructor|].
    apply (bool_decide_eq_true_1 _). vm_compute. reflexivity. }
  split; [done|]. apply (Hperm ["b.xml"; "a.xml"]); [apply perm_swap|done].
Defined.

(** A gate with a label and one attribute. *)
Definition labelled_gate : xmlpp.Element :=
  xml "define-gate" [("name", "a")] 2
    [xmlpp.mkElement "label" [] 3 (Some "pump") [];
     xml "attributes" [] 4
       [xml "attribute" [("name", "flow"); ("value", "3")] 5 []];
     xml "or" [] 6 []].

Lemma AttachLabelAndAttributes_spec_witness :
  let run := mef.AttachLabelAndAttributes labelled_gate 3 registered in
  run.1 = Ok tt ∧
  attributes_of (heap run.2) 3
  = [{| attr_name := "flow"; attr_value := "3"; attr_type := "" |}] ∧
  mef.label_of (heap run.2) 3 = "pump".
Proof.
  intros run.
  pose proof (mef.AttachLabelAndAttributes_spec labelled_gate 3 registered
                run.1 run.2 (surjective_pairing _)) as Hspec.
  assert (run.1 = Ok tt) as Hok by (vm_compute; reflexivity).
  rewrite Hok in Hspec. destruct Hspec as [Hattributes Hlabel].
  split; [done|]. split; [rewrite Hattributes|rewrite Hlabel]; vm_compute; reflexivity.
Defined.

(** A private gate inside the container [top]. *)
Lemma ConstructElement_Role_spec_witness :
  let node := xml "define-gate" [("name", "a"); ("role", "private")] 2 [] in
  let run := mef.ConstructElement_Role (Some KGate) node "top" kPublic initial in
  run.1 = Ok 3%nat ∧ next (heap run.2) = 4%nat ∧
  name_of (heap run.2) 3 = "a" ∧ base_path_of (heap run.2) 3 = "top" ∧
  role_of (heap run.2) 3 = kPrivate ∧
  tbd_ run.2 = [] ∧ model_ run.2 = model_ initial.
Proof.
  intros node run.
  pose proof (mef.ConstructElement_Role_spec (Some KGate) node "top" kPublic initial
                run.1 run.2 (surjective_pairing _)) as (Htbd & Hmodel & _ & Hspec).
  assert (run.1 = Ok 3%nat) as Hok by (vm_compute; reflexivity).
  rewrite Hok in Hspec. destruct Hspec as (_ & Hnext & Hname & Hpath & Hrole & _).
  split_and!; done.
Defined.

(** The house event [h], true by its constant. *)
Lemma Register_HouseEvent_spec_witness :
  let node := xml "define-house-event" [("name", "h")] 2
                [xml "constant" [("value", "true")] 3 []] in
  let run := mef.Register_HouseEvent node "" kPublic initial in
  run.1 = Ok 3%nat ∧ tbd_ run.2 = [] ∧
  house_events (model_ run.2) = [3%nat] ∧
  name_of (heap run.2) 3 = "h" ∧ mef.state_of (heap run.2) 3 = true.
Proof.
  intros node run.
  pose proof (mef.Register_HouseEvent_spec node "" kPublic initial
                run.1 run.2 (surjective_pairing _)) as [Htbd Hspec].
  assert (run.1 = Ok 3%nat) as Hok by (vm_compute; reflexivity).
  rewrite Hok in Hspec. destruct Hspec as (Hevents & _ & Hname & Hstate).
  destruct (Hstate _ _ eq_refl) as (_ & _ & Hstate').
  split_and!; done.
Defined.


(** A parameter in years, referred to in hours. *)
Lemma Register_Parameter_reference_witness :
  let node := xml "define-parameter" [("name", "q"); ("unit", "years")] 2 [] in
  let reference := xml "parameter" [("name", "q"); ("unit", "hours")] 7 [] in
  let first := mef.Register_Parameter node "" kPublic initial in
  first.1 = Ok 3%nat ∧
  ∃ st'',
    mef.GetParameter "parameter" reference "" first.2
    = (Throw (ValidationError "At line 7, Parameter unit mismatch.
Expected: years
Given: hours"), st'') ∧
    unused_of (heap st'') 3 = false.
Proof.
  intros node reference first.
  assert (first.1 = Ok 3%nat) as Hok by (vm_compute; reflexivity).
  split; [done|].
  destruct (mef.Register_Parameter_reference node "" kPublic initial 3%nat first.2
              reference "")
    as (_ & st'' & Hrun & Hunused);
    [exact (eq_trans (surjective_pairing _) (f_equal (λ r, (r, first.2)) Hok))
    |vm_compute; reflexivity|vm_compute; discriminate|].
  exists st''. split; [|done]. rewrite Hrun. f_equal.
Defined.

(** A negation without an argument, and one with an argument too many. *)
Lemma GetExpression_Extract_witness :
  mef.GetExpression (xml "neg" [] 3 []) "" initial = (Throw out_of_range, initial) ∧
  ∃ st1,
    mef.GetExpression (xml "neg" [] 3 [number "1" 4; number "2" 5]) "" initial
    = mef.construct (xml "neg" [] 3 [number "1" 4; number "2" 5])
        (Formula_ "neg" [ConstantDouble 1]) st1 ∧
    model_expressions (model_ st1) = [ConstantDouble 1].
Proof.
  split.
  - pose proof (mef.GetExpression_Extract (xml "neg" [] 3 []) "" initial) as Hspec.
    cbv zeta in Hspec.
    destruct Hspec as [Hshort _];
      [apply (bool_decide_eq_true_1 _); vm_compute; reflexivity|reflexivity|].
    apply Hshort. vm_compute. lia.
  - pose proof (mef.GetExpression_Extract
                  (xml "neg" [] 3 [number "1" 4; number "2" 5]) "" initial) as Hspec.
    cbv zeta in Hspec.
    destruct Hspec as [_ Hlong];
      [apply (bool_decide_eq_true_1 _); vm_compute; reflexivity|reflexivity|].
    destruct Hlong as [Hruns _]; [vm_compute; lia|].
    eexists. split.
    + apply (Hruns [ConstantDouble 1]).
      eapply runs_cons; [vm_compute; reflexivity|]. apply runs_nil.
    + vm_compute. reflexivity.
Defined.

(** A log-normal deviate of one child, and one of four. *)
Lemma GetExpression_LognormalDeviate_witness :
  let one := xml "lognormal-deviate" [] 3 [number "1" 4] in
  let four := xml "lognormal-deviate" [] 3
                [number "1" 4; number "2" 5; number "0.3" 6; number "0.7" 7] in
  mef.GetExpression one "" initial = (Throw out_of_range, initial) ∧
  ∃ st1,
    mef.GetExpression four "" initial
    = mef.construct four (LognormalDeviate [ConstantDouble 1; ConstantDouble 2]) st1 ∧
    model_expressions (model_ st1) = [ConstantDouble 2; ConstantDouble 1].
Proof.
  intros one four. split.
  - apply (proj1 (mef.GetExpression_LognormalDeviate one "" initial eq_refl)).
    vm_compute. lia.
  - destruct (proj2 (mef.GetExpression_LognormalDeviate four "" initial eq_refl))
      as [Hruns _]; [vm_compute; lia|].
    eexists. split.
    + apply (Hruns [ConstantDouble 1; ConstantDouble 2]).
      repeat (eapply runs_cons; [vm_compute; reflexivity|]). apply runs_nil.
    + vm_compute. reflexivity.
Defined.

(** A switch of one case: the default value is built first. *)
Lemma GetExpression_Switch_witness :
  let case := xml "case" [] 4 [xml "bool" [("value", "true")] 4 []; number "1" 4] in
  let switch := xml "switch" [] 3 [case; number "2" 5] in
  mef.GetExpression (xml "switch" [] 3 []) "" initial
  = (Throw AssertionFailure, initial) ∧
  ∃ st1,
    mef.GetExpression switch "" initial
    = mef.construct switch (Switch [(kOne, ConstantDouble 1)] (ConstantDouble 2)) st1 ∧
    model_expressions (model_ st1) = [ConstantDouble 2; ConstantDouble 1].
Proof.
  intros case switch. split.
  - by apply (proj1 (mef.GetExpression_Switch (xml "switch" [] 3 []) "" [] case initial
                       kOne [] initial eq_refl)).
  - eexists. split.
    + apply (proj2 (mef.GetExpression_Switch switch "" [case] (number "2" 5) initial
                      (ConstantDouble 2) [(kOne, ConstantDouble 1)] _ eq_refl));
        [reflexivity|by repeat constructor|reflexivity|].
      repeat (eapply runs_cons; [vm_compute; reflexivity|]). apply runs_nil.
    + vm_compute. reflexivity.
Defined.

(** An event that nothing defines. *)
Lemma GetFormula_throws_witness :
  let node := xml "event" [("name", "z")] 4 [] in
  mef.GetFormula 1 node "top" registered
  = (Throw (ValidationError "At line 4, Undefined event z with base path top"),
     registered) ∧
  ∀ e st', mef.GetFormula 1 node "top" registered = (Throw e, st') →
           st' = registered ∧ e ≠ out_of_range.
Proof.
  intros node.
  destruct (mef.GetFormula_throws 0 node "top" registered) as [_ Hundefined].
  split; [|apply mef.GetFormula_throws].
  refine (Hundefined "z" _ _ _ _ _ _);
    [reflexivity|discriminate|discriminate|discriminate| |].
  - apply (bool_decide_eq_true_1 _). vm_compute. reflexivity.
  - intros arg. vm_compute. discriminate.
Defined.

(** Two members of a group. *)
Lemma ProcessCcfMembers_spec_witness :
  let members_node := xml "members" [] 3
                        [xml "basic-event" [("name", "m1")] 4 [];
                         xml "basic-event" [("name", "m2")] 5 []] in
  let run := mef.ProcessCcfMembers members_node 3 registered in
  run.1 = Ok tt ∧ tbd_ run.2 = [] ∧
  basic_events (model_ run.2) = [4; 8; 9]%nat ∧
  ptrs_of (heap run.2) 3 f_members = [8; 9]%nat ∧
  name_of (heap run.2) 8 = "m1" ∧ name_of (heap run.2) 9 = "m2".
Proof.
  intros members_node run.
  destruct (mef.ProcessCcfMembers_spec members_node 3 registered run.1 run.2)
    as (Htbd & _ & members & nodes & rest & Hchildren & [Hmembers Hnodes] & Hevents & Hr);
    [vm_compute; lia|apply surjective_pairing|].
  assert (run.1 = Ok tt) as Hok by (vm_compute; reflexivity).
  rewrite Hok in Hr. destruct Hr as [-> Hgroup].
  rewrite app_nil_r in Hchildren. subst nodes members.
  split_and!; [done|done|exact Hevents|exact Hgroup|..].
  - by destruct (Forall2_lookup_lr _ _ _ 0%nat _ _ Hnodes eq_refl eq_refl) as (_ & ? & _).
  - by destruct (Forall2_lookup_lr _ _ _ 1%nat _ _ Hnodes eq_refl eq_refl) as (_ & ? & _).
Defined.


(** The classes of the model for the examples: a gate is valid when its
    formula has an argument, a CCF group keeps its distribution as its
    expression, and a component accepts whatever it is given. *)
Module TestClasses.

Definition gate_invalid (h : Heap) (gate : ptr) : option string :=
  match from_option formula_args [] (formula_of h gate) with
  | [] => Some (name_of h gate +:+ " : No arguments")
  | _ => None
  end.

Definition add_distribution (ccf_group : ptr) (expression : Expression) : M unit :=
  mef.write ccf_group f_expression (VExpression expression).

Lemma add_distribution_keeps ccf_group expression :
  keeps mef.same_registry (add_distribution ccf_group expression).
Proof. by intros st r st' [= _ <-]. Qed.

Lemma add_distribution_in_fuel ccf_group expression :
  in_fuel (add_distribution ccf_group expression).
Proof. by intros st r st' [= <- _]. Qed.

Lemma accept_keeps : keeps mef.same_registry (mret tt).
Proof. by intros st r st' [= _ <-]. Qed.

Definition classes : mef.Classes := {|
  mef.Gate_Validate_invalid := gate_invalid;
  mef.CcfGroup_AddDistribution := add_distribution;
  mef.CcfGroup_AddFactor _ _ _ := mret tt;
  mef.Component_Add _ _ _ := mret tt;
  mef.Component_Add_Component _ _ := mret tt;
  mef.CcfGroup_AddDistribution_keeps := add_distribution_keeps;
  mef.CcfGroup_AddFactor_keeps _ _ _ := accept_keeps;
  mef.Component_Add_keeps _ _ _ := accept_keeps;
  mef.Component_Add_Component_keeps _ _ := accept_keeps;
  mef.CcfGroup_AddDistribution_in_fuel := add_distribution_in_fuel;
  mef.CcfGroup_AddFactor_in_fuel _ _ _ := in_fuel_ret tt;
  mef.Component_Add_in_fuel _ _ _ := in_fuel_ret tt;
  mef.Component_Add_Component_in_fuel _ _ := in_fuel_ret tt;
|}.

(** The event tree [et] with the branch [b] and the sequence [s]. *)
Definition event_tree : Initializer :=
  with_model [(KEventTree, [3]); (KSequence, [5])]%nat
    [((3, f_name), VString "et"); ((3, f_branches), VPtrs [4]);
     ((4, f_name), VString "b"); ((5, f_name), VString "s")]%nat.


Definition define_fault_tree : xmlpp.Element :=
  xml "define-fault-tree" [("name", "ft")] 1
    [xml "define-gate" [("name", "top")] 2 [xml "or" [] 3 []];
     xml "define-component" [("name", "c")] 4
       [xml "define-basic-event" [("name", "e")] 5 []]].

End TestClasses.

#[local] Existing Instance TestClasses.classes.
Import TestClasses.

(** A gate whose formula has no argument: the formula is attached, and the
    validation of the gate reports the line of the gate. *)
Lemma Define_Gate_spec_witness :
  let run := mef.Define_Gate 2 define_gate 3 registered in
  run.1 = Throw (ValidationError "At line 2, a : No arguments") ∧
  formula_of (heap run.2) 3 = Some (mkFormula 1 [] None) ∧
  tbd_ run.2 = tbd_ registered ∧ model_ run.2 = model_ registered.
Proof.
  intros run.
  destruct (mef.Define_Gate_spec 2 define_gate 3 registered run.1 run.2
              (surjective_pairing _)) as (Htbd & Hmodel & _ & _ & _ & Hspec).
  assert (GetNonAttributeElements define_gate = [xml "or" [] 3 []]) as Hnode
    by (vm_compute; reflexivity).
  rewrite Hnode in Hspec.
  assert ((mef.GetFormula 2 (xml "or" [] 3 []) (base_path_of (heap registered) 3)
             registered).1 = Ok (mkFormula 1 [] None)) as Hformula
    by (vm_compute; reflexivity).
  rewrite Hformula in Hspec. destruct Hspec as [Hattached _].
  split_and!; [vm_compute; reflexivity|done..].
Defined.

(** A parameter with one expression, and one with two. *)
Lemma Define_Parameter_spec_witness :
  let one := xml "define-parameter" [("name", "p")] 2 [number "0.3" 3] in
  let two := xml "define-parameter" [("name", "p")] 2 [number "0.3" 3; number "0.7" 4] in
  let run := mef.Define_Parameter one 5 registered in
  run.1 = Ok tt ∧
  expression_of (heap run.2) 5 = Some (ConstantDouble 0x1.3333333333333p-2) ∧
  mef.Define_Parameter two 5 registered = (Throw AssertionFailure, registered).
Proof.
  intros one two run.
  pose proof (mef.Define_Parameter_spec one 5 registered run.1 run.2
                (surjective_pairing _)) as Hone.
  pose proof (mef.Define_Parameter_spec two 5 registered
                (mef.Define_Parameter two 5 registered).1
                (mef.Define_Parameter two 5 registered).2
                (surjective_pairing _)) as Htwo.
  assert (GetNonAttributeElements one = [number "0.3" 3]) as Hnode
    by (vm_compute; reflexivity).
  rewrite Hnode in Hone. cbv zeta in Hone.
  assert ((mef.GetExpression (number "0.3" 3) (base_path_of (heap registered) 5)
             registered).1 = Ok (ConstantDouble 0x1.3333333333333p-2)) as Hexpression
    by (vm_compute; reflexivity).
  rewrite Hexpression in Hone. destruct Hone as (Hok & _ & Hattached).
  assert (GetNonAttributeElements two = [number "0.3" 3; number "0.7" 4]) as Hnodes
    by (vm_compute; reflexivity).
  rewrite Hnodes in Htwo. destruct Htwo as [Hthrow Hstate].
  split_and!; [done..|].
  rewrite (surjective_pairing (mef.Define_Parameter two 5 registered)).
  by rewrite Hthrow, Hstate.
Defined.



(** A sequence that the model does not have. *)
Lemma DefineBranch_spec_witness :
  let target := xml "sequence" [("name", "t")] 7 [] in
  mef.DefineBranch 2 [target] 3 (Some 4%nat) event_tree
  = (Throw (ValidationError "At line 7, Sequence t is not defined in the model."),
     event_tree) ∧
  (mef.DefineBranch 2 [target] 3 (Some 4%nat) event_tree).1 ≠ Throw OutOfFuel.
Proof.
  intros target.
  destruct (mef.DefineBranch_spec 1 [target] 3 (Some 4%nat) event_tree)
    as (_ & _ & Hspec).
  destruct (Hspec [] target eq_refl) as (_ & Hsequence & _).
  split.
  - apply Hsequence; vm_compute; reflexivity.
  - apply (mef.DefineBranch_spec 2 [target] 3 (Some 4%nat) event_tree).
    vm_compute. lia.
Defined.

(** A work list of the basic event [e] and the parameter [p]: the first is
    defined, the second refers to itself in the wrong unit. *)
Lemma ProcessTbdElements_spec_witness :
  let define_parameter := xml "define-parameter" [("name", "p")] 8 [in_years] in
  let st := set_tbd [((KBasicEvent, 4%nat), define_basic_event);
                     ((KParameter, 5%nat), define_parameter)] registered in
  let run := mef.ProcessTbdElements 1 st in
  run.1 = Throw (ValidationError "In file 'input.xml', At line 9, Parameter unit mismatch.
Expected: hours
Given: years") ∧
  expression_of (heap run.2) 4 = Some (ConstantDouble 0x1.6666666666666p-1) ∧
  tbd_ run.2 = tbd_ st ∧ table (model_ run.2) = table (model_ st).
Proof.
  intros define_parameter st run.
  destruct (mef.ProcessTbdElements_spec 1 st) as (Hframe & _ & Hstops).
  destruct (Hframe run.1 run.2 (surjective_pairing _)) as [Htbd Htable].
  assert (run = (Throw (mef.in_file define_parameter
                          (ValidationError "At line 9, Parameter unit mismatch.
Expected: hours
Given: years")),
                 (mef.Define 1 ((KParameter, 5%nat), define_parameter)
                    (mef.Define 1 ((KBasicEvent, 4%nat), define_basic_event) st).2).2))
    as Hrun.
  { unfold run.
    eapply (Hstops [((KBasicEvent, 4%nat), define_basic_event)]
                   ((KParameter, 5%nat), define_parameter) [] [tt]).
    - reflexivity.
    - eapply runs_cons; [vm_compute; reflexivity|apply runs_nil].
    - vm_compute. reflexivity. }
  split_and!; [by rewrite Hrun|rewrite Hrun; vm_compute; reflexivity|done..].
Defined.

(** The two factors of a [factors] element, and the same two in its place. *)
Lemma Define_CcfGroup_factors_witness :
  let factor level value :=
    xml "factor" [("level", level)] 5 [number value 5] in
  let members := xml "members" [] 3 [] in
  let factors := xml "factors" [] 4 [factor "1" "0.3"; factor "2" "0.7"] in
  mef.Define_CcfGroup (xml "define-CCF-group" [("name", "g")] 2 [members; factors])
                      3 registered
  = mef.Define_CcfGroup
      (xml "define-CCF-group" [("name", "g")] 2 [factor "1" "0.3"; factor "2" "0.7"])
      3 registered.
Proof.
  intros factor members factors.
  destruct (mef.Define_CcfGroup_factors "define-CCF-group" [("name", "g")] 2 None
              [members] factors [] 3 registered) as (Hflat & _ & _).
  destruct (mef.Define_CcfGroup_factors "define-CCF-group" [("name", "g")] 2 None
              [] members [factor "1" "0.3"; factor "2" "0.7"] 3 registered)
    as (_ & Hskip & _).
  etrans; [apply Hflat; [reflexivity|by repeat constructor]|].
  apply Hskip. apply (bool_decide_eq_true_1 _). vm_compute. reflexivity.
Defined.

(** A fault tree with a gate and, inside a component, a basic event. *)
Lemma DefineFaultTree_spec_witness :
  let run := mef.DefineFaultTree 4 define_fault_tree initial in
  run.1 = Ok tt ∧
  (∃ fault_tree, fault_trees (model_ run.2) = [fault_tree]) ∧
  length (tbd_ run.2) = 2%nat ∧
  ∀ k p x, ((k, p), x) ∈ tbd_ run.2 → p ∈ table (model_ run.2) k.
Proof.
  intros run.
  destruct (mef.DefineFaultTree_spec 4 define_fault_tree initial run.1 run.2
              (surjective_pairing _)) as ((added & Htbd & Hadded) & _ & Hspec).
  assert (run.1 = Ok tt) as Hok by (vm_compute; reflexivity).
  rewrite Hok in Hspec. destruct Hspec as [fault_tree Htrees].
  split_and!; [done|by exists fault_tree|vm_compute; reflexivity|].
  intros k p x Hin. apply (Hadded k p x). by rewrite Htbd in Hin.
Defined.
